(** * Pathfinder-Visualizer: grid search and maze generation

    A shallow embedding of the search engines (Dijkstra.js, AStar.js),
    of the maze generators (RecursiveMazeAlgorithm, StairMaze, RandomMaze,
    BasicRandomMaze) and of the role-changing handlers of
    PathfindingVisualizer.jsx, with the properties the specification
    states about them. *)

From Stdlib Require Import ZArith Lia.
From stdpp Require Import base tactics option list strings gmap.

Open Scope nat_scope.

(** ** Numbers

    The search fields [distance] and [totalDistance] hold either a
    non-negative integer or JavaScript's [Infinity]. *)

Inductive num : Type :=
| Num (n : nat)
| Infinity.

#[global] Instance num_eq_dec : EqDecision num.
Proof. solve_decision. Defined.

(** [d + k] for a non-negative integer [k]; [Infinity + k = Infinity]. *)
Definition num_plus (d : num) (k : nat) : num :=
  match d with
  | Num n => Num (n + k)
  | Infinity => Infinity
  end.

(** [a < b]; [Infinity < Infinity] is false. *)
Definition num_ltb (a b : num) : bool :=
  match a, b with
  | Num x, Num y => x <? y
  | Num _, Infinity => true
  | Infinity, _ => false
  end.

Definition num_le (a b : num) : Prop :=
  match a, b with
  | Num x, Num y => x <= y
  | _, Infinity => True
  | Infinity, Num _ => False
  end.

Definition isInfinity (d : num) : bool :=
  match d with
  | Infinity => true
  | Num _ => false
  end.

(** The value of a comparator [(a, b) => a - b], as [Array.prototype.sort]
    reads it: its sign, or [NaN] for [Infinity - Infinity]. *)
Inductive sign : Type := Negative | Zero | Positive | NaN.

Definition num_minus (a b : num) : sign :=
  match a, b with
  | Num x, Num y =>
      match Nat.compare x y with
      | Lt => Negative
      | Eq => Zero
      | Gt => Positive
      end
  | Num _, Infinity => Negative
  | Infinity, Num _ => Positive
  | Infinity, Infinity => NaN
  end.

(** ** [Array.prototype.sort]

    The sort is stable (ECMAScript 2019) and reads a comparator value of
    [NaN] as [+0].  For a comparator that is a consistent ordering the
    result is then determined: the elements in ascending order, equal
    elements in their previous order.  Insertion from the right computes
    it: [y] stays in front of [x] only when [cmp y x] is negative. *)

Fixpoint insertBy {A : Type} (cmp : A -> A -> sign) (x : A) (l : list A) : list A :=
  match l with
  | [] => [x]
  | y :: l' =>
      match cmp y x with
      | Negative => y :: insertBy cmp x l'
      | _ => x :: y :: l'
      end
  end.

Definition sortBy {A : Type} (cmp : A -> A -> sign) (l : list A) : list A :=
  foldr (insertBy cmp) [] l.

(** ** Grid and nodes (PathfindingVisualizer.createNode)

    A node object is referred to by its place [(row, col)] in the grid;
    [previousNode] and the arrays of nodes the search keeps hold such
    references, so that an update of a node is seen through all of them. *)

Abbreviation pos := (nat * nat)%type.

Record Node : Type := mkNode {
  row : nat;
  col : nat;
  isStart : bool;
  isEnd : bool;
  isCheckpoint : bool;
  isWall : bool;
  isVisited : bool;
  distance : num;
  totalDistance : num;
  heuristic : nat;
  previousNode : option pos
}.

Abbreviation Grid := (list (list Node)).

Definition set_isVisited (b : bool) (n : Node) : Node :=
  mkNode (row n) (col n) (isStart n) (isEnd n) (isCheckpoint n) (isWall n)
         b (distance n) (totalDistance n) (heuristic n) (previousNode n).

Definition set_distance (d : num) (n : Node) : Node :=
  mkNode (row n) (col n) (isStart n) (isEnd n) (isCheckpoint n) (isWall n)
         (isVisited n) d (totalDistance n) (heuristic n) (previousNode n).

Definition set_totalDistance (d : num) (n : Node) : Node :=
  mkNode (row n) (col n) (isStart n) (isEnd n) (isCheckpoint n) (isWall n)
         (isVisited n) (distance n) d (heuristic n) (previousNode n).

Definition set_heuristic (h : nat) (n : Node) : Node :=
  mkNode (row n) (col n) (isStart n) (isEnd n) (isCheckpoint n) (isWall n)
         (isVisited n) (distance n) (totalDistance n) h (previousNode n).

Definition set_previousNode (p : option pos) (n : Node) : Node :=
  mkNode (row n) (col n) (isStart n) (isEnd n) (isCheckpoint n) (isWall n)
         (isVisited n) (distance n) (totalDistance n) (heuristic n) p.

Definition set_isStart (b : bool) (n : Node) : Node :=
  mkNode (row n) (col n) b (isEnd n) (isCheckpoint n) (isWall n)
         (isVisited n) (distance n) (totalDistance n) (heuristic n) (previousNode n).

Definition set_isEnd (b : bool) (n : Node) : Node :=
  mkNode (row n) (col n) (isStart n) b (isCheckpoint n) (isWall n)
         (isVisited n) (distance n) (totalDistance n) (heuristic n) (previousNode n).

Definition set_isCheckpoint (b : bool) (n : Node) : Node :=
  mkNode (row n) (col n) (isStart n) (isEnd n) b (isWall n)
         (isVisited n) (distance n) (totalDistance n) (heuristic n) (previousNode n).

(** [createNode(row, col)] with no special position matching. *)
Definition plainNode (r c : nat) : Node :=
  mkNode r c false false false false false Infinity Infinity 0 None.

(** [grid.length] and [grid[0].length]. *)
Definition nrows (g : Grid) : nat := length g.
Definition ncols (g : Grid) : nat :=
  match g with
  | [] => 0
  | r :: _ => length r
  end.

(** [grid[r][c]]; the code indexes the grid only inside its bounds, where
    the fallback node is never returned. *)
Definition cell (g : Grid) (p : pos) : Node :=
  match g !! p.1 with
  | Some r => match r !! p.2 with
              | Some n => n
              | None => plainNode p.1 p.2
              end
  | None => plainNode p.1 p.2
  end.

(** An assignment to fields of the node object at [p]. *)
Definition update (g : Grid) (p : pos) (f : Node -> Node) : Grid :=
  alter (alter f p.2) p.1 g.

Definition inBounds (g : Grid) (p : pos) : Prop :=
  p.1 < nrows g /\ p.2 < ncols g.

(** Grids as [initializeGrid] builds them: rectangular, every node
    carrying its own coordinates. *)
Definition wf_grid (g : Grid) : Prop :=
  (forall r l, g !! r = Some l -> length l = ncols g) /\
  (forall p, inBounds g p -> row (cell g p) = p.1 /\ col (cell g p) = p.2).

(** ** Shared helpers of Dijkstra.js and AStar.js *)

(** [getAllNodes(grid)]: the nodes row by row. *)
Definition getAllNodes (g : Grid) : list pos :=
  concat (imap (fun r l => imap (fun c _ => (r, c)) l) g).

(** [getUnvisitedNeighbors(node, grid)]: up, down, left, right, inside the
    grid, those with [isVisited] false.  Walls are not excluded. *)
Definition getUnvisitedNeighbors (node : pos) (g : Grid) : list pos :=
  let r := row (cell g node) in
  let c := col (cell g node) in
  let neighbors :=
    (if 0 <? r then [(r - 1, c)] else []) ++
    (if r <? nrows g - 1 then [(r + 1, c)] else []) ++
    (if 0 <? c then [(r, c - 1)] else []) ++
    (if c <? ncols g - 1 then [(r, c + 1)] else []) in
  filter (fun q => isVisited (cell g q) = false) neighbors.

(** [sortNodesByDistance(nodes)] *)
Definition sortNodesByDistance (g : Grid) (nodes : list pos) : list pos :=
  sortBy (fun a b => num_minus (distance (cell g a)) (distance (cell g b))) nodes.

(** [sortNodesByTotalDistance(unvisitedNodes)] *)
Definition sortNodesByTotalDistance (g : Grid) (nodes : list pos) : list pos :=
  sortBy (fun a b => num_minus (totalDistance (cell g a)) (totalDistance (cell g b))) nodes.

(** [updateUnvisitedNeighbors(node, grid)] of Dijkstra.js: every unvisited
    neighbour gets [node.distance + 1] and [previousNode = node]. *)
Definition updateUnvisitedNeighbors (node : pos) (g : Grid) : Grid :=
  foldl (fun g' neighbor =>
           let g1 := update g' neighbor
                       (set_distance (num_plus (distance (cell g' node)) 1)) in
           update g1 neighbor (set_previousNode (Some node)))
        g (getUnvisitedNeighbors node g).

(** [manhattanDistance(node, finishNode)] *)
Definition absDiff (a b : nat) : nat := (a - b) + (b - a).

Definition manhattanDistance (g : Grid) (node finishNode : pos) : nat :=
  absDiff (row (cell g node)) (row (cell g finishNode)) +
  absDiff (col (cell g node)) (col (cell g finishNode)).

(** [updateUnvisitedNeighborsAstar(node, grid, finishNode)] *)
Definition updateUnvisitedNeighborsAstar (node : pos) (g : Grid) (finishNode : pos) : Grid :=
  foldl (fun g' neighbor =>
           let tentativeDistance := num_plus (distance (cell g' node)) 1 in
           if num_ltb tentativeDistance (distance (cell g' neighbor)) then
             let g1 := update g' neighbor (set_previousNode (Some node)) in
             let g2 := update g1 neighbor (set_distance tentativeDistance) in
             update g2 neighbor
               (set_totalDistance
                  (num_plus (distance (cell g2 neighbor))
                            (manhattanDistance g2 neighbor finishNode)))
           else g')
        g (getUnvisitedNeighbors node g).

(** ** What a run does to the page

    The searches assign the class of the element of a finalized node, when
    the page has one, and the animated loops wait on a timer. *)
Inductive event : Type :=
| ClassName (r c : nat) (cls : string)
| Timeout (ms : nat).

Definition visitedClass (isSecondPhase : bool) : string :=
  if isSecondPhase then "node-visited-second" else "node-visited".

(** The loop [while (unvisitedNodes.length) { ... }] that the two engines
    run, twice each (for 'instant' and for the animated speeds).  The four
    copies differ in the sort key, in the relaxation, in the class that is
    assigned and in the wait closing an iteration; these are the
    parameters.  An iteration removes one node from [unvisitedNodes], so
    [length unvisitedNodes] iterations are enough; [None] is a loop cut
    short by [fuel]. *)
Section Loop.
Variable hasElement : pos -> bool.
Variable sortNodes : Grid -> list pos -> list pos.
Variable key : Node -> num.
Variable relax : pos -> Grid -> Grid.
Variable className : string.
Variable wait : list event.
Variable finishNode : pos.

Definition paint (g : Grid) (closestNode : pos) : list event :=
  let n := cell g closestNode in
  if negb (isStart n) && negb (isEnd n) && negb (isCheckpoint n)
  then if hasElement (row n, col n)
       then [ClassName (row n) (col n) className]
       else []
  else [].

Fixpoint searchLoop (fuel : nat) (g : Grid) (unvisitedNodes : list pos)
         (visitedNodesInOrder : list pos) (log : list event)
  : option (Grid * list pos * list event) :=
  match unvisitedNodes with
  | [] => Some (g, visitedNodesInOrder, log)
  | _ :: _ =>
      match fuel with
      | 0 => None
      | S fuel' =>
          match sortNodes g unvisitedNodes with
          | [] => None
          | closestNode :: rest =>
              if isWall (cell g closestNode) then
                searchLoop fuel' g rest visitedNodesInOrder log
              else if isInfinity (key (cell g closestNode)) then
                Some (g, visitedNodesInOrder, log)
              else
                let g1 := update g closestNode (set_isVisited true) in
                let visited' := visitedNodesInOrder ++ [closestNode] in
                let log' := log ++ paint g1 closestNode in
                if decide (closestNode = finishNode) then
                  Some (g1, visited', log')
                else
                  searchLoop fuel' (relax closestNode g1) rest visited'
                             (log' ++ wait)
          end
      end
  end.
End Loop.

(** ** Dijkstra.js *)

Definition dijkstraReset (g : Grid) (node : pos) : Grid :=
  let g1 := update g node (set_distance Infinity) in
  let g2 := update g1 node (set_previousNode None) in
  update g2 node (set_isVisited false).

(** [dijkstra(grid, startNode, endNode, speed, isSecondPhase)]; the result
    is the grid as the call leaves it, the returned [visitedNodesInOrder]
    and what happened on the page. *)
Definition dijkstra (hasElement : pos -> bool) (grid : Grid)
           (startNode endNode : pos) (speed : string) (isSecondPhase : bool)
  : option (Grid * list pos * list event) :=
  let g0 := update grid startNode (set_distance (Num 0)) in
  let unvisitedNodes := getAllNodes g0 in
  let g1 := foldl dijkstraReset g0 unvisitedNodes in
  let g2 := update g1 startNode (set_distance (Num 0)) in
  if decide (speed = "instant") then
    searchLoop hasElement sortNodesByDistance distance updateUnvisitedNeighbors
      ("node " +:+ visitedClass isSecondPhase +:+ " instant") []
      endNode (length unvisitedNodes) g2 unvisitedNodes [] []
  else
    let delay := if decide (speed = "slow") then 50 else 10 in
    searchLoop hasElement sortNodesByDistance distance updateUnvisitedNeighbors
      ("node " +:+ visitedClass isSecondPhase) [Timeout delay]
      endNode (length unvisitedNodes) g2 unvisitedNodes [] [].

(** ** AStar.js *)

Definition astarReset (startNode finishNode : pos) (g : Grid) (node : pos) : Grid :=
  if decide (node = startNode) then g
  else
    let g1 := update g node (set_distance Infinity) in
    let g2 := update g1 node (set_totalDistance Infinity) in
    let g3 := update g2 node (set_previousNode None) in
    let g4 := update g3 node (set_isVisited false) in
    update g4 node (set_heuristic (manhattanDistance g4 node finishNode)).

Definition astar (hasElement : pos -> bool) (grid : Grid)
           (startNode finishNode : pos) (speed : string) (isSecondPhase : bool)
  : option (Grid * list pos * list event) :=
  let unvisitedNodes := getAllNodes grid in
  let g1 := foldl (astarReset startNode finishNode) grid unvisitedNodes in
  let g2 := update g1 startNode (set_distance (Num 0)) in
  let g3 := update g2 startNode
              (set_heuristic (manhattanDistance g2 startNode finishNode)) in
  let g4 := update g3 startNode
              (set_totalDistance (Num (heuristic (cell g3 startNode)))) in
  let g5 := update g4 startNode (set_previousNode None) in
  let g6 := update g5 startNode (set_isVisited false) in
  if decide (speed = "instant") then
    searchLoop hasElement sortNodesByTotalDistance totalDistance
      (fun node g => updateUnvisitedNeighborsAstar node g finishNode)
      ("node " +:+ visitedClass isSecondPhase) []
      finishNode (length unvisitedNodes) g6 unvisitedNodes [] []
  else
    let delay := if decide (speed = "slow") then 50 else 10 in
    searchLoop hasElement sortNodesByTotalDistance totalDistance
      (fun node g => updateUnvisitedNeighborsAstar node g finishNode)
      ("node " +:+ visitedClass isSecondPhase) [Timeout delay]
      finishNode (length unvisitedNodes) g6 unvisitedNodes [] [].

(** ** [getNodesInShortestPathOrder(finishNode)]

    The loop follows [previousNode] until it reads [null]; [None] is a walk
    cut short by [fuel]. *)
Fixpoint pathLoop (fuel : nat) (g : Grid) (currentNode : option pos)
         (nodesInShortestPathOrder : list pos) : option (list pos) :=
  match currentNode with
  | None => Some nodesInShortestPathOrder
  | Some p =>
      match fuel with
      | 0 => None
      | S fuel' =>
          pathLoop fuel' g (previousNode (cell g p)) (p :: nodesInShortestPathOrder)
      end
  end.

Definition getNodesInShortestPathOrder (fuel : nat) (g : Grid) (finishNode : pos)
  : option (list pos) :=
  pathLoop fuel g (Some finishNode) [].

(** ** Test grids *)

(** A grid of [h] rows and [w] columns with walls where [wall] says. *)
Definition makeGrid (h w : nat) (wall : pos -> bool) : Grid :=
  map (fun r => map (fun c =>
         mkNode r c false false false (wall (r, c)) false Infinity Infinity 0 None)
       (seq 0 w)) (seq 0 h).

Definition openGrid (h w : nat) : Grid := makeGrid h w (fun _ => false).
Definition noPage : pos -> bool := fun _ => false.

(** ** [Math.random()]

    A draw is a fraction [numer / (numer + slack + 1)], so that it lies in
    [0, 1) whatever the two fields are; a run reads its draws from a
    sequence, the index of the next draw being part of its state.  The
    code rounds [Math.random() * n] to a double before [Math.floor]; both
    [floorTimes] and the rounded product range over [0 .. n-1], and the
    properties below hold for every sequence of draws. *)
Record draw : Type := mkDraw { numer : nat; slack : nat }.

Definition denom (x : draw) : Z := Z.of_nat (numer x + slack x + 1).

(** [Math.floor(x * n)] *)
Definition floorTimes (x : draw) (n : Z) : Z :=
  (Z.of_nat (numer x) * n / denom x)%Z.

(** [x < p / q] for a constant [p / q] *)
Definition below (x : draw) (p q : Z) : bool :=
  (Z.of_nat (numer x) * q <? p * denom x)%Z.

(** ** Maze generators

    The board of the generators: [board.nodes] is keyed by the string
    [`${row}-${col}`]; the key is kept as the pair of integers it prints,
    which it determines.  [None] is a [TypeError] (a field of
    [board.nodes[id]] assigned where the board has no such node) or a loop
    cut short by its fuel. *)
Module Maze.
Local Open Scope Z_scope.

Abbreviation cellId := (Z * Z)%type.

Inductive status : Type := Unvisited | Wall.

#[global] Instance status_eq_dec : EqDecision status.
Proof. solve_decision. Defined.

Record BNode : Type := mkBNode { nodeStatus : status; weight : Z }.

(** An entry of [board.wallsToAnimate]: an object [{ id, type }], or
    what [document.getElementById(id)] gave for the border of the stair
    maze. *)
Inductive anim : Type :=
| AnimId (node : cellId) (type : option string)
| AnimElement (node : cellId).

Definition animId (a : anim) : option cellId :=
  match a with
  | AnimId node _ => Some node
  | AnimElement _ => None
  end.

Record Board : Type := mkBoard {
  height : Z;
  width : Z;
  start : cellId;
  target : cellId;
  object : option cellId;
  nodes : gmap cellId BNode;
  wallsToAnimate : list anim
}.

Definition withNodes (b : Board) (m : gmap cellId BNode) : Board :=
  mkBoard (height b) (width b) (start b) (target b) (object b) m (wallsToAnimate b).

Definition withWalls (b : Board) (w : list anim) : Board :=
  mkBoard (height b) (width b) (start b) (target b) (object b) (nodes b) w.

(** [board.wallsToAnimate.push(a)] *)
Definition push (b : Board) (a : anim) : Board :=
  withWalls b (wallsToAnimate b ++ [a]).

(** [board.nodes[node].status = s] *)
Definition setStatus (b : Board) (node : cellId) (s : status) : option Board :=
  match nodes b !! node with
  | Some n => Some (withNodes b (<[node := mkBNode s (weight n)]> (nodes b)))
  | None => None
  end.

(** [board.nodes[node].weight = w] *)
Definition setWeight (b : Board) (node : cellId) (w : Z) : option Board :=
  match nodes b !! node with
  | Some n => Some (withNodes b (<[node := mkBNode (nodeStatus n) w]> (nodes b)))
  | None => None
  end.

(** [board.nodes[node]?.status === 'wall'] *)
Definition isWallAt (b : Board) (node : cellId) : bool :=
  match nodes b !! node with
  | Some n => bool_decide (nodeStatus n = Wall)
  | None => false
  end.

(** A [for] loop over the values [l], its body threading the state. *)
Fixpoint forEach {A S : Type} (l : list A) (body : A -> S -> option S) (s : S)
  : option S :=
  match l with
  | [] => Some s
  | x :: l' =>
      match body x s with
      | Some s' => forEach l' body s'
      | None => None
      end
  end.

(** [for (let i = lo; i < hi; i++)] *)
Definition range (lo hi : Z) : list Z := seqZ lo (hi - lo).

(** [for (let i = lo; i < hi; i += 2)] *)
Definition range2 (lo hi : Z) : list Z :=
  (fun i => lo + 2 * i) <$> seqZ 0 ((hi - lo + 1) `div` 2).

(** *** RecursiveMazeAlgorithm *)

Definition isSpecialNode (b : Board) (node : cellId) : bool :=
  bool_decide (node = start b) || bool_decide (node = target b) ||
  match object b with
  | Some o => bool_decide (node = o)
  | None => false
  end.

(** The three assignments that draw one cell. *)
Definition drawCell (type : string) (node : cellId) (b : Board) : option Board :=
  let b1 := push b (AnimId node (Some type)) in
  match setStatus b1 node (if decide (type = "wall") then Wall else Unvisited) with
  | Some b2 => setWeight b2 node (if decide (type = "wall") then 0 else 15)
  | None => None
  end.

Definition surround (type : string) (b : Board) : option Board :=
  forEach (range 0 (height b)) (fun row b1 =>
    forEach (range 0 (width b1)) (fun col b2 =>
      if bool_decide (row = 0) || bool_decide (col = 0) ||
         bool_decide (row = height b2 - 1) || bool_decide (col = width b2 - 1)
      then if negb (isSpecialNode b2 (row, col))
           then drawCell type (row, col) b2
           else Some b2
      else Some b2) b1) b.

(** The wall along [currentRow], open at [passage]. *)
Definition horizontalWall (type : string) (currentRow passage colStart colEnd : Z)
           (b : Board) : option Board :=
  forEach (range colStart (colEnd + 1)) (fun col b1 =>
    if negb (bool_decide (col = passage)) && negb (isSpecialNode b1 (currentRow, col))
    then drawCell type (currentRow, col) b1
    else Some b1) b.

(** The wall along [currentCol], open at [passage]. *)
Definition verticalWall (type : string) (currentCol passage rowStart rowEnd : Z)
           (b : Board) : option Board :=
  forEach (range rowStart (rowEnd + 1)) (fun row b1 =>
    if negb (bool_decide (row = passage)) && negb (isSpecialNode b1 (row, currentCol))
    then drawCell type (row, currentCol) b1
    else Some b1) b.

(** [generateRecursiveMaze(board, rowStart, rowEnd, colStart, colEnd,
    orientation, surroundingWalls, type)]; the state is the board and
    the index [k] of the next draw of [rnd]. *)
Fixpoint generateRecursiveMaze (fuel : nat) (rnd : nat -> draw)
         (board : Board) (k : nat) (rowStart rowEnd colStart colEnd : Z)
         (orientation : string) (surroundingWalls : bool) (type : string)
  : option (Board * nat) :=
  match fuel with
  | O => None
  | S fuel' =>
    if bool_decide (rowEnd < rowStart) || bool_decide (colEnd < colStart)
    then Some (board, k)
    else
      match (if surroundingWalls then Some board else surround type board) with
      | None => None
      | Some b0 =>
        let surroundingWalls := true in
        if decide (orientation = "horizontal") then
          let possibleRows := range2 rowStart (rowEnd + 1) in
          if bool_decide (length possibleRows = 0%nat) then Some (b0, k)
          else
            let randomRowIndex := floorTimes (rnd k) (Z.of_nat (length possibleRows)) in
            match possibleRows !! Z.to_nat randomRowIndex with
            | None => None
            | Some currentRow =>
              let passage :=
                floorTimes (rnd (k + 1)%nat) (colEnd - colStart + 1) + colStart in
              match horizontalWall type currentRow passage colStart colEnd b0 with
              | None => None
              | Some b1 =>
                match generateRecursiveMaze fuel' rnd b1 (k + 2)%nat
                        rowStart (currentRow - 2) colStart colEnd
                        (if bool_decide (currentRow - 2 - rowStart > colEnd - colStart)
                         then orientation else "vertical")
                        surroundingWalls type with
                | None => None
                | Some (b2, k2) =>
                  generateRecursiveMaze fuel' rnd b2 k2
                    (currentRow + 2) rowEnd colStart colEnd
                    (if bool_decide (rowEnd - (currentRow + 2) > colEnd - colStart)
                     then orientation else "vertical")
                    surroundingWalls type
                end
              end
            end
        else
          let possibleCols := range2 colStart (colEnd + 1) in
          if bool_decide (length possibleCols = 0%nat) then Some (b0, k)
          else
            let randomColIndex := floorTimes (rnd k) (Z.of_nat (length possibleCols)) in
            match possibleCols !! Z.to_nat randomColIndex with
            | None => None
            | Some currentCol =>
              let passage :=
                floorTimes (rnd (k + 1)%nat) (rowEnd - rowStart + 1) + rowStart in
              match verticalWall type currentCol passage rowStart rowEnd b0 with
              | None => None
              | Some b1 =>
                match generateRecursiveMaze fuel' rnd b1 (k + 2)%nat
                        rowStart rowEnd colStart (currentCol - 2)
                        (if bool_decide (rowEnd - rowStart > currentCol - 2 - colStart)
                         then "horizontal" else orientation)
                        surroundingWalls type with
                | None => None
                | Some (b2, k2) =>
                  generateRecursiveMaze fuel' rnd b2 k2
                    rowStart rowEnd (currentCol + 2) colEnd
                    (if bool_decide (rowEnd - rowStart > colEnd - (currentCol + 2))
                     then "horizontal" else orientation)
                    surroundingWalls type
                end
              end
            end
      end
  end.

(** *** StairMaze *)






(** *** RandomMaze *)

(** [clearAroundSpecialNodes(board)] *)
Definition clearCell (node : cellId) (b : Board) : option Board :=
  if negb (isSpecialNode b node) then
    match setStatus b node Unvisited with
    | Some b1 => setWeight b1 node 0
    | None => None
    end
  else Some b.

Definition clearAround (clear : cellId -> Board -> option Board) (specialNode : cellId)
           (b : Board) : option Board :=
  let '(row, col) := specialNode in
  forEach (range (-2) 3) (fun i b1 =>
    forEach (range (-2) 3) (fun j b2 =>
      let newRow := row + i in
      let newCol := col + j in
      if bool_decide (newRow >= 0) && bool_decide (newRow < height b2) &&
         bool_decide (newCol >= 0) && bool_decide (newCol < width b2)
      then clear (newRow, newCol) b2
      else Some b2) b1) b.

Definition clearAroundSpecialNodes (b : Board) : option Board :=
  let specialNodes :=
    [start b; target b] ++ match object b with Some o => [o] | None => [] end in
  forEach specialNodes (clearAround clearCell) b.

(** [board.wallsToAnimate.findIndex(wall => wall.id === node)] and
    [splice(index, 1)]: the first entry with that id is removed. *)
Fixpoint removeFirst (node : cellId) (w : list anim) : list anim :=
  match w with
  | [] => []
  | a :: w' =>
      if bool_decide (animId a = Some node) then w' else a :: removeFirst node w'
  end.

(** The eight neighbours counted by the second pass. *)
Definition adjacentWalls (b : Board) (row col : Z) : nat :=
  length (filter (fun d : Z * Z => isWallAt b (row + d.1, col + d.2) = true)
            [(-1, -1); (-1, 0); (-1, 1); (0, -1); (0, 1); (1, -1); (1, 0); (1, 1)]).

(** [generateRandomMaze(board)]; density 0.3, clusterProbability 0.45.
    [Math.random()] stands to the right of [&&]: no draw is made when
    the left operand is false. *)
Definition generateRandomMaze (rnd : nat -> draw) (b : Board) (k : nat)
  : option (Board * nat) :=
  let height := height b in
  let width := width b in
  let cells (body : cellId -> Board * nat -> option (Board * nat)) lo rhi chi stride :=
    forEach (stride lo rhi) (fun row s1 =>
      forEach (stride lo chi) (fun col s2 => body (row, col) s2) s1) in
  match cells (fun node s =>
                 match clearCell node s.1 with
                 | Some b1 => Some (b1, s.2)
                 | None => None
                 end) 0 height width range (b, k) with
  | None => None
  | Some s0 =>
    match cells (fun node s =>
                   if negb (isSpecialNode s.1 node) then
                     if below (rnd s.2) 3 10 then
                       match setStatus s.1 node Wall with
                       | Some b1 => Some (push b1 (AnimId node None), S s.2)
                       | None => None
                       end
                     else Some (s.1, S s.2)
                   else Some s) 0 height width range s0 with
    | None => None
    | Some s1 =>
      match cells (fun node s =>
                     if negb (isSpecialNode s.1 node) then
                       if bool_decide (2 <= adjacentWalls s.1 node.1 node.2)%nat then
                         if below (rnd s.2) 45 100 then
                           match setStatus s.1 node Wall with
                           | Some b1 => Some (push b1 (AnimId node None), S s.2)
                           | None => None
                           end
                         else Some (s.1, S s.2)
                       else Some s
                     else Some s) 1 (height - 1) (width - 1) range s1 with
      | None => None
      | Some s2 =>
        match cells (fun node s =>
                       if negb (isSpecialNode s.1 node) then
                         if below (rnd s.2) 4 10 then
                           match setStatus s.1 node Unvisited with
                           | Some b1 =>
                               Some (withWalls b1 (removeFirst node (wallsToAnimate b1)),
                                     S s.2)
                           | None => None
                           end
                         else Some (s.1, S s.2)
                       else Some s) 0 height width range2 s2 with
        | None => None
        | Some s3 =>
          match clearAroundSpecialNodes s3.1 with
          | Some b4 => Some (b4, s3.2)
          | None => None
          end
        end
      end
    end
  end.

(** *** BasicRandomMaze *)






(** A board of [h] by [w] nodes, none of them a wall. *)
Definition emptyBoard (h w : Z) (s t : cellId) (o : option cellId) : Board :=
  mkBoard h w s t o
    (list_to_map ((fun p => (p, mkBNode Unvisited 0)) <$>
       (r ← range 0 h; (fun c => (r, c)) <$> range 0 w)))
    [].
(** *** Vocabulary of the specification for boards *)

(** The board holds a node for every cell of its [height] by [width]. *)
Definition dense (b : Board) : Prop :=
  forall r c, 0 <= r < height b -> 0 <= c < width b -> is_Some (nodes b !! (r, c)).

(** A cell of the board that is no wall. *)
Definition openAt (b : Board) (node : cellId) : Prop :=
  exists n, nodes b !! node = Some n /\ nodeStatus n = Unvisited.

Definition noWalls (b : Board) : Prop :=
  forall node n, nodes b !! node = Some n -> nodeStatus n = Unvisited.

Definition adjacentCells (p q : cellId) : Prop :=
  (p.1 = q.1 /\ (p.2 = q.2 + 1 \/ q.2 = p.2 + 1)) \/
  (p.2 = q.2 /\ (p.1 = q.1 + 1 \/ q.1 = p.1 + 1)).

(** [connected b S p q]: a path of open, 4-adjacent cells, all of them in
    [S], leads from [p] to [q]. *)
Inductive connected (b : Board) (S : cellId -> Prop) (p : cellId) : cellId -> Prop :=
| connected_here : S p -> openAt b p -> connected b S p p
| connected_step q r :
    connected b S p q -> adjacentCells q r -> S r -> openAt b r -> connected b S p r.


Definition inBoard (b : Board) (node : cellId) : Prop :=
  0 <= node.1 < height b /\ 0 <= node.2 < width b.

End Maze.

(** ** Role changes (PathfindingVisualizer.jsx)

    The roles are the three flags [isStart], [isEnd] and [isCheckpoint] of
    a node; a node with none of them set is a normal one. *)
Module Roles.

(** [state.checkpoint]: a position and whether the checkpoint exists. *)
Record Checkpoint : Type := mkCheckpoint {
  cpRow : nat;
  cpCol : nat;
  cpExists : bool
}.

Inductive nodeType : Type := start | end_ | checkpoint.

#[global] Instance nodeType_eq_dec : EqDecision nodeType.
Proof. solve_decision. Defined.

(** [state.dragging] *)
Record Dragging : Type := mkDragging {
  isDragging : bool;
  draggedNodeType : option nodeType
}.

(** The part of the component state the handlers below read or set. *)
Record State : Type := mkState {
  grid : Grid;
  startNode : option pos;
  endNode : option pos;
  checkpointOf : Checkpoint;
  dragging : Dragging
}.

Definition isEmpty (n : Node) : bool :=
  negb (isWall n) && negb (isStart n) && negb (isEnd n) && negb (isCheckpoint n).

(** The hundred random attempts of [getRandomEmptyPosition]. *)
Fixpoint randomAttempts (attempts : nat) (rnd : nat -> draw) (g : Grid) (k : nat)
  : option pos * nat :=
  match attempts with
  | O => (None, k)
  | S attempts' =>
      let r := Z.to_nat (floorTimes (rnd k) (Z.of_nat (nrows g))) in
      let c := Z.to_nat (floorTimes (rnd (S k)) (Z.of_nat (ncols g))) in
      if isEmpty (cell g (r, c)) then (Some (r, c), S (S k))
      else randomAttempts attempts' rnd g (S (S k))
  end.

(** [getRandomEmptyPosition(grid)]: the position, or [null], and the
    index of the next draw. *)
Definition getRandomEmptyPosition (rnd : nat -> draw) (g : Grid) (k : nat)
  : option pos * nat :=
  match randomAttempts 100 rnd g k with
  | (Some p, k') => (Some p, k')
  | (None, k') => (head (filter (fun p => isEmpty (cell g p) = true) (getAllNodes g)), k')
  end.

Definition clearRoles (n : Node) : Node :=
  set_isCheckpoint false (set_isEnd false (set_isStart false n)).

Definition setFlag (g : Grid) (p : option pos) (f : Node -> Node) : Grid :=
  match p with
  | Some q => update g q f
  | None => g
  end.

(** [randomizeNodes()] *)
Definition randomizeNodes (rnd : nat -> draw) (s : State) (k : nat) : State * nat :=
  let newGrid := map (map clearRoles) (grid s) in
  let '(newStart, k1) := getRandomEmptyPosition rnd newGrid k in
  let '(newEnd, k2) := getRandomEmptyPosition rnd newGrid k1 in
  let '(newCheckpoint, k3) :=
    if cpExists (checkpointOf s)
    then getRandomEmptyPosition rnd newGrid k2
    else (None, k2) in
  let g1 := setFlag newGrid newCheckpoint (set_isCheckpoint true) in
  let g2 := setFlag g1 newStart (set_isStart true) in
  let g3 := setFlag g2 newEnd (set_isEnd true) in
  match newCheckpoint with
  | Some (r, c) =>
      (mkState g3 newStart newEnd (mkCheckpoint r c true) (dragging s), k3)
  | None =>
      (mkState g3 newStart newEnd (checkpointOf s) (dragging s), k3)
  end.

Definition holds (t : option nodeType) (n : Node) : bool :=
  match t with
  | Some start => isStart n
  | Some end_ => isEnd n
  | Some checkpoint => isCheckpoint n
  | None => false
  end.

(** [handleDrop(e, targetNode)], [targetNode] being the node of the
    grid at [target]. *)
Definition handleDrop (s : State) (target : pos) : State :=
  let targetNode := cell (grid s) target in
  if negb (isDragging (dragging s)) || isWall targetNode then s
  else
    let t := draggedNodeType (dragging s) in
    let newGrid :=
      map (map (fun n => if holds t n then clearRoles n else n)) (grid s) in
    let dropped :=
      set_isCheckpoint (bool_decide (t = Some checkpoint))
        (set_isEnd (bool_decide (t = Some end_))
           (set_isStart (bool_decide (t = Some start)) targetNode)) in
    mkState (update newGrid (row targetNode, col targetNode) (fun _ => dropped))
            (startNode s) (endNode s) (checkpointOf s)
            (mkDragging false None).

(** [addCheckpoint()] *)
Definition addCheckpoint (rnd : nat -> draw) (s : State) (k : nat) : State * nat :=
  match getRandomEmptyPosition rnd (grid s) k with
  | (Some (r, c), k') =>
      (mkState (update (grid s) (r, c) (set_isCheckpoint true))
               (startNode s) (endNode s) (mkCheckpoint r c true) (dragging s), k')
  | (None, k') => (s, k')
  end.

(** [removeCheckpoint()] *)
Definition removeCheckpoint (s : State) : State :=
  if negb (cpExists (checkpointOf s)) then s
  else
    let cp := checkpointOf s in
    mkState (update (grid s) (cpRow cp, cpCol cp) (set_isCheckpoint false))
            (startNode s) (endNode s)
            (mkCheckpoint (cpRow cp) (cpCol cp) false) (dragging s).

(** The number of roles a node claims, and the nodes claiming a role. *)
Definition roles (n : Node) : nat :=
  (if isStart n then 1 else 0) + (if isEnd n then 1 else 0) +
  (if isCheckpoint n then 1 else 0).

Definition holders (f : Node -> bool) (g : Grid) : list pos :=
  filter (fun p => f (cell g p) = true) (getAllNodes g).

(** Every node has one role (at most one flag), and each of the special
    roles has at most one holder. *)
Definition roleInvariant (g : Grid) : Prop :=
  (forall p, inBounds g p -> roles (cell g p) <= 1) /\
  length (holders isStart g) <= 1 /\
  length (holders isEnd g) <= 1 /\
  length (holders isCheckpoint g) <= 1.
End Roles.

(** The draws 0, 0, 0, ... *)
Definition zeroDraws : nat -> draw := fun _ => mkDraw 0 0.

(** ** Vocabulary of the specification *)

(** Two places are 4-adjacent. *)
Definition adjacent (p q : pos) : Prop :=
  (p.1 = q.1 /\ (p.2 = S q.2 \/ q.2 = S p.2)) \/
  (p.2 = q.2 /\ (p.1 = S q.1 \/ q.1 = S p.1)).

(** A cell of the grid that is no wall. *)
Definition open (g : Grid) (p : pos) : Prop :=
  inBounds g p /\ isWall (cell g p) = false.

(** [walk g s p n]: [n] steps lead from [s] to [p] through open cells,
    each step to a 4-adjacent cell. *)
Inductive walk (g : Grid) (s : pos) : pos -> nat -> Prop :=
| walk_start : open g s -> walk g s s 0
| walk_step p q n : walk g s p n -> adjacent p q -> open g q -> walk g s q (S n).

Definition reachable (g : Grid) (s t : pos) : Prop := exists n, walk g s t n.

(** A sequence of open cells, each 4-adjacent to the next. *)
Fixpoint isPath (g : Grid) (l : list pos) : Prop :=
  match l with
  | [] => True
  | p :: l' =>
      open g p /\
      match l' with
      | [] => True
      | q :: _ => adjacent p q /\ isPath g l'
      end
  end.

(** ** Vocabulary of the proofs: searches *)

(** Field assignments keep the coordinates of a node. *)
Definition keepsPlace (f : Node -> Node) : Prop :=
  forall n, row (f n) = row n /\ col (f n) = col n.

(** What the relaxation of Dijkstra.js leaves: every unvisited neighbour
    carries [node.distance + 1] and points back to [node]; no other node
    changes. *)
Definition relaxedNode (u : pos) (d : nat) (n : Node) : Node :=
  set_previousNode (Some u) (set_distance (Num (d + 1)) n).

(** What the relaxation of AStar.js leaves: an unvisited neighbour changes
    only when [node.distance + 1] is less than its distance. *)
Definition relaxedNodeAstar (u : pos) (d h : nat) (n : Node) : Node :=
  set_totalDistance (Num (d + 1 + h))
    (set_distance (Num (d + 1)) (set_previousNode (Some u) n)).

(** A search changes no wall and no dimension of the grid [g0] it was
    called on. *)
Definition frame (g0 g : Grid) : Prop :=
  wf_grid g /\ nrows g = nrows g0 /\ ncols g = ncols g0 /\
  forall p, isWall (cell g p) = isWall (cell g0 p).

(** The finalized node [v] carries a distance [d] and is the start, at
    distance 0, or points back to a finalized neighbour at [d - 1]. *)
Definition linked (g : Grid) (s : pos) (V : list pos) (v : pos) (d : nat) : Prop :=
  (v = s /\ d = 0 /\ previousNode (cell g v) = None) \/
  (exists u, previousNode (cell g v) = Some u /\ u ∈ V /\ adjacent u v /\
             distance (cell g u) = Num (d - 1) /\ 1 <= d).

(** The invariant of the loop of a search from [s]: [Q] is
    [unvisitedNodes], [V] is [visitedNodesInOrder], and [W] are the
    finalized nodes whose neighbours have been relaxed. *)
Record searchInv (g0 : Grid) (s : pos) (key : Node -> num)
       (g : Grid) (Q V W : list pos) : Prop := mkSearchInv {
  inv_frame : frame g0 g;
  inv_Q_nodup : NoDup Q;
  inv_Q_bounds : forall p, p ∈ Q -> inBounds g0 p;
  inv_open : forall p, open g0 p -> p ∈ Q \/ p ∈ V;
  inv_visited : forall p, inBounds g0 p -> (isVisited (cell g p) = true) <-> (p ∈ V);
  inv_V_Q : forall p, p ∈ V -> p ∉ Q;
  inv_V_nodup : NoDup V;
  inv_chain : forall v, v ∈ V ->
     open g0 v /\ exists d, distance (cell g v) = Num d /\ linked g s V v d;
  inv_start_first : V = [] \/ s ∈ V;
  inv_start : s ∉ V -> distance (cell g s) = Num 0 /\ previousNode (cell g s) = None;
  inv_tentative : forall p d, inBounds g0 p -> p ∉ V -> p <> s ->
     distance (cell g p) = Num d ->
     exists u, previousNode (cell g p) = Some u /\ u ∈ V /\ adjacent u p /\
               distance (cell g u) = Num (d - 1) /\ 1 <= d;
  inv_key : forall p, inBounds g0 p ->
     isInfinity (key (cell g p)) = isInfinity (distance (cell g p));
  inv_relaxed : forall v q, v ∈ W -> adjacent v q -> inBounds g0 q ->
     q ∈ V \/ exists d, distance (cell g q) = Num d
}.

(** What a search leaves: the chain of every finalized node, and either
    the finish node finalized or everything open next to a finalized node
    finalized too. *)
Record searchPost (g0 : Grid) (s t : pos) (g : Grid) (V : list pos) : Prop :=
  mkSearchPost {
  post_frame : frame g0 g;
  post_nodup : NoDup V;
  post_visited : forall p, inBounds g0 p -> (isVisited (cell g p) = true) <-> (p ∈ V);
  post_chain : forall v, v ∈ V ->
     open g0 v /\ exists d, distance (cell g v) = Num d /\ linked g s V v d;
  post_exit : t ∈ V \/
     ((open g0 s -> s ∈ V) /\
      forall v q, v ∈ V -> adjacent v q -> open g0 q -> q ∈ V)
}.

(** What the invariant needs of a relaxation of the neighbours of [u],
    finalized at distance [d]: a node is left as it was, or it is an
    unvisited neighbour given [d + 1] and [u]; an unvisited neighbour left
    as it was has a distance. *)
Definition relaxes (key : Node -> num) (g1 : Grid) (u : pos) (d : nat) (g' : Grid)
  : Prop :=
  wf_grid g' /\ nrows g' = nrows g1 /\ ncols g' = ncols g1 /\
  forall p,
    (cell g' p = cell g1 p /\
     (adjacent u p -> inBounds g1 p -> isVisited (cell g1 p) = false ->
      exists x, distance (cell g1 p) = Num x)) \/
    (adjacent u p /\ inBounds g1 p /\ isVisited (cell g1 p) = false /\
     distance (cell g' p) = Num (d + 1) /\ previousNode (cell g' p) = Some u /\
     isInfinity (key (cell g' p)) = false /\
     isWall (cell g' p) = isWall (cell g1 p) /\
     isVisited (cell g' p) = false).

(** A finite distance has the parity of the Manhattan distance to the
    start. *)
Definition parity (s : pos) (g : Grid) : Prop :=
  forall p x, distance (cell g p) = Num x ->
              exists k, x + p.1 + p.2 + s.1 + s.2 = 2 * k.

(** The finalized nodes lie at distance at most [m], the queued ones with
    a distance at [m] or [m + 1], and every node a walk reaches within [m]
    steps carries a distance no longer than the walk. *)
Record levelInv (g0 : Grid) (s : pos) (g : Grid) (Q V : list pos) (m : nat) : Prop :=
  mkLevelInv {
  lv_V : forall v x, v ∈ V -> distance (cell g v) = Num x -> x <= m;
  lv_Q : forall q x, q ∈ Q -> distance (cell g q) = Num x -> m <= x <= m + 1;
  lv_near : forall p n, walk g0 s p n -> n <= m ->
            exists x, distance (cell g p) = Num x /\ x <= n
}.

(** The distances [dijkstra] leaves are least: no walk from the start to a
    finalized node is shorter than the node's distance. *)
Definition shortest (g0 : Grid) (s : pos) (g : Grid) (V : list pos) : Prop :=
  forall v x n, v ∈ V -> distance (cell g v) = Num x -> walk g0 s v n -> x <= n.

(** A row of three cells, the middle one a wall. *)
Definition walledRow : Grid := makeGrid 1 3 (fun p => bool_decide (p = (0, 1))).

(** A 2 by 2 grid with a wall at (0,1), and the states a run of [dijkstra]
    from (0,0) goes through: its first state, then the grids after the
    iterations finalizing (0,0), (1,0) and (1,1). *)
Definition cornerWall : Grid := makeGrid 2 2 (fun p => bool_decide (p = (0, 1))).

(** The first state of the loop. *)
Definition cornerWall0 : Grid :=
  update (foldl dijkstraReset (update cornerWall (0, 0) (set_distance (Num 0)))
                (getAllNodes cornerWall))
         (0, 0) (set_distance (Num 0)).

(** After the iteration finalizing (0,0). *)
Definition cornerWall1 : Grid :=
  updateUnvisitedNeighbors (0, 0) (update cornerWall0 (0, 0) (set_isVisited true)).

(** After the iteration finalizing (1,0). *)
Definition cornerWall2 : Grid :=
  updateUnvisitedNeighbors (1, 0) (update cornerWall1 (1, 0) (set_isVisited true)).

(** After the iteration finalizing (1,1). *)
Definition cornerWall3 : Grid := update cornerWall2 (1, 1) (set_isVisited true).

(** A 2 by 2 grid, the start at (0,0) and the end at (1,1). *)
Definition twoByTwo : Roles.State :=
  Roles.mkState
    (update (update (openGrid 2 2) (0, 0) (set_isStart true)) (1, 1) (set_isEnd true))
    (Some (0, 0)) (Some (1, 1)) (Roles.mkCheckpoint 0 0 false)
    (Roles.mkDragging false None).

(** ** Vocabulary of the proofs: boards *)

Section BoardVocabulary.
Import Maze.
Local Open Scope Z_scope.

(** [sameBut T b0 b]: [b] is [b0] but for [wallsToAnimate] and for the
    nodes in [T], and holds a node exactly where [b0] does. *)
Definition sameBut (T : Z * Z -> Prop) (b0 b : Board) : Prop :=
  height b = height b0 /\ width b = width b0 /\ start b = start b0 /\
  target b = target b0 /\ object b = object b0 /\
  (forall node, ~ T node -> nodes b !! node = nodes b0 !! node) /\
  (forall node, is_Some (nodes b !! node) <-> is_Some (nodes b0 !! node)).

(** No entry of [wallsToAnimate] names a cell of [sp]. *)
Definition cleanWalls (sp : Z * Z -> bool) (b : Board) : Prop :=
  forall a node, a ∈ wallsToAnimate b -> animId a = Some node -> sp node = false.

(** The rectangle of the rows [rs .. re] and the columns [cs .. ce]. *)
Definition inRegion (rs re cs ce : Z) (node : Z * Z) : Prop :=
  (rs <= node.1 <= re /\ cs <= node.2 <= ce)%Z.

(** The region [rs..re] x [cs..ce] together with the row above it and the
    column left of it. *)
Definition ringed (rs re cs ce : Z) : Z * Z -> Prop :=
  inRegion (rs - 1) re (cs - 1) ce.

(** The cells of the border of the board. *)
Definition onBorder (b : Board) (node : Z * Z) : Prop :=
  inBoard b node /\
  (node.1 = 0 \/ node.2 = 0 \/ node.1 = height b - 1 \/ node.2 = width b - 1).

(** The cell is a wall or no cell of the board. *)
Definition closedAt (b : Board) (node : Z * Z) : bool :=
  match nodes b !! node with
  | Some n => bool_decide (nodeStatus n = Wall)
  | None => true
  end.

(** The board of the page, 32 by 75, with Start in its corner. *)
Definition cornerBoard : Board := emptyBoard 32 75 (0, 0) (10, 10) None.




(** The special nodes of a board. *)
Definition specialNodes (b : Board) : list (Z * Z) :=
  [start b; target b] ++ match object b with Some o => [o] | None => [] end.


End BoardVocabulary.

(** ** Vocabulary of the proofs: more on the searches *)

(** The number of steps between two places when no wall is in the way. *)
Definition gridDistance (p q : pos) : nat :=
  absDiff p.1 q.1 + absDiff p.2 q.2.

(** What the loop of [astar] keeps besides [searchInv]: the distance of a
    finalized node is least, [totalDistance] is the distance plus the
    heuristic, and a neighbour of a relaxed node is finalized or at most
    one step further. *)
Record astarInv (g0 : Grid) (s t : pos) (g : Grid) (V W : list pos) : Prop :=
  mkAstarInv {
  as_least : forall v x n, v ∈ V -> distance (cell g v) = Num x ->
             walk g0 s v n -> x <= n;
  as_total : forall p x, inBounds g0 p -> distance (cell g p) = Num x ->
             totalDistance (cell g p) = Num (x + gridDistance p t);
  as_next : forall v q dv, v ∈ W -> adjacent v q -> inBounds g0 q ->
            distance (cell g v) = Num dv ->
            q ∈ V \/ exists x, distance (cell g q) = Num x /\ x <= dv + 1
}.

(** The keys of [l] ascend: no element has a key above the key of a later
    one. *)
Fixpoint ascendingBy {A : Type} (key : A -> num) (l : list A) : Prop :=
  match l with
  | [] => True
  | x :: l' => Forall (fun y => num_le (key x) (key y)) l' /\ ascendingBy key l'
  end.

(** What the searches never assign: the roles and the wall of a node. *)
Definition boardFields (n : Node) : bool * bool * bool * bool :=
  (isStart n, isEnd n, isCheckpoint n, isWall n).

(** [g] is [g0] but for fields of its nodes outside [kept]. *)
Definition sameBut_fields {T : Type} (kept : Node -> T) (g0 g : Grid) : Prop :=
  wf_grid g /\ nrows g = nrows g0 /\ ncols g = ncols g0 /\
  forall p, inBounds g0 p -> kept (cell g p) = kept (cell g0 p).

(** The fields [dijkstra] never assigns. *)
Definition dijkstraKept (n : Node) : bool * bool * bool * bool * num * nat :=
  (isStart n, isEnd n, isCheckpoint n, isWall n, totalDistance n, heuristic n).

(** The grid as the loop of [dijkstra] finds it. *)
Definition dijkstraStart (grid : Grid) (startNode : pos) : Grid :=
  update (foldl dijkstraReset (update grid startNode (set_distance (Num 0)))
                (getAllNodes grid))
         startNode (set_distance (Num 0)).

(** The grid as the loop of [astar] finds it. *)
Definition astarStart (grid : Grid) (startNode finishNode : pos) : Grid :=
  let g1 := foldl (astarReset startNode finishNode) grid (getAllNodes grid) in
  let g2 := update g1 startNode (set_distance (Num 0)) in
  let g3 := update g2 startNode
              (set_heuristic (manhattanDistance g2 startNode finishNode)) in
  let g4 := update g3 startNode
              (set_totalDistance (Num (heuristic (cell g3 startNode)))) in
  let g5 := update g4 startNode (set_previousNode None) in
  update g5 startNode (set_isVisited false).

(** ** PathfindingVisualizer.jsx: drawing walls and dragging roles *)

Module Editing.
Import Roles.

Definition set_isWall (b : bool) (n : Node) : Node :=
  mkNode (row n) (col n) (isStart n) (isEnd n) (isCheckpoint n) b
         (isVisited n) (distance n) (totalDistance n) (heuristic n) (previousNode n).

(** [state.wallMode]: ['add'], ['remove'] or [null]. *)
Inductive wallMode : Type := add | remove | noMode.

#[global] Instance wallMode_eq_dec : EqDecision wallMode.
Proof. solve_decision. Defined.

(** [node.isStart || node.isEnd || node.isCheckpoint] *)
Definition isSpecial (n : Node) : bool := isStart n || isEnd n || isCheckpoint n.

(** [grid[row][col]], [None] where JavaScript finds no node there. *)
Definition nodeAt (g : Grid) (row col : nat) : option Node :=
  match g !! row with
  | Some r => r !! col
  | None => None
  end.

(** [getNewGridWithWallMode(grid, row, col, wallMode)].  [None] is the
    [TypeError] of reading a field of a missing row or node.  The copy
    [grid.slice()] shares the rows of [grid], so that the grid of the state
    is the grid returned. *)
Definition getNewGridWithWallMode (g : Grid) (row col : nat) (mode : wallMode)
  : option Grid :=
  match nodeAt g row col with
  | None => None
  | Some node =>
      if isSpecial node then Some g
      else Some (update g (row, col) (fun _ => set_isWall (bool_decide (mode = add)) node))
  end.

(** The offsets of [createBoostWalls]: the centre, above, below, left, right. *)
Definition pattern : list (Z * Z) :=
  [(0, 0); (-1, 0); (1, 0); (0, -1); (0, 1)]%Z.

(** The callback of [pattern.forEach] in [createBoostWalls], on the new
    grid and [anyWallCreated].  [grid] and [newGrid] share their rows, so
    that [grid[newRow][newCol]] is read from the rows as written so far;
    [grid.length] and [grid[0].length] do not change. *)
Definition boostStep (g : Grid) (centerRow centerCol : nat) (mode : wallMode)
    (acc : Grid * bool) (offset : Z * Z) : Grid * bool :=
  let newRow := (Z.of_nat centerRow + offset.1)%Z in
  let newCol := (Z.of_nat centerCol + offset.2)%Z in
  if ((0 <=? newRow) && (newRow <? Z.of_nat (nrows g)) &&
      (0 <=? newCol) && (newCol <? Z.of_nat (ncols g)))%Z
  then
    let node := cell acc.1 (Z.to_nat newRow, Z.to_nat newCol) in
    if negb (isStart node) && negb (isEnd node) && negb (isCheckpoint node)
    then (update acc.1 (Z.to_nat newRow, Z.to_nat newCol)
            (fun _ => set_isWall (bool_decide (mode = add)) node), true)
    else acc
  else acc.

(** [createBoostWalls(centerRow, centerCol, wallMode)]: the new grid and
    [anyWallCreated]. *)
Definition createBoostWalls (g : Grid) (centerRow centerCol : nat) (mode : wallMode)
  : Grid * bool :=
  foldl (boostStep g centerRow centerCol mode) (g, false) pattern.

(** [handleMouseDown(row, col)], the grid of the state after it;
    [isRunning], [isDragging] and [boostWallEnabled] are the fields of the
    state it reads. *)
Definition handleMouseDown (isRunning isDragging boostWallEnabled : bool)
    (g : Grid) (row col : nat) : option Grid :=
  if isRunning || isDragging then Some g
  else
    match nodeAt g row col with
    | None => None
    | Some node =>
        if isSpecial node then Some g
        else
          let mode := if isWall node then remove else add in
          if boostWallEnabled && bool_decide (mode = add)
          then Some (createBoostWalls g row col mode).1
          else getNewGridWithWallMode g row col mode
    end.

(** [clearWalls()] *)
Definition clearWalls (g : Grid) : Grid :=
  map (map (fun node => if isWall node then set_isWall false node else node)) g.

(** [handleDragStart(e, node)] while no search runs, [node] being the node
    of the grid at that position. *)
Definition handleDragStart (s : State) (node : pos) : State :=
  let n := cell (grid s) node in
  let drag t :=
    mkState (grid s) (startNode s) (endNode s) (checkpointOf s)
            (mkDragging true (Some t)) in
  if isStart n then drag start
  else if isEnd n then drag end_
  else if isCheckpoint n then drag checkpoint
  else s.

(** [createNode(row, col)], by the positions the state records; a search
    gives its own fields their first value. *)
Definition createNode (startNode endNode : pos) (cp : Checkpoint) (row col : nat) : Node :=
  mkNode row col
         (bool_decide (row = startNode.1) && bool_decide (col = startNode.2))
         (bool_decide (row = endNode.1) && bool_decide (col = endNode.2))
         (cpExists cp && bool_decide (row = cpRow cp) && bool_decide (col = cpCol cp))
         false false Infinity Infinity 0 None.

(** [initializeGrid()]: the grid of [height] rows of [width] nodes. *)
Definition initializeGrid (height width : nat) (startNode endNode : pos) (cp : Checkpoint)
  : Grid :=
  map (fun row => map (fun col => createNode startNode endNode cp row col) (seq 0 width))
      (seq 0 height).

(** A node with a role is no wall. *)
Definition rolesOffWalls (g : Grid) : Prop :=
  forall p, inBounds g p -> isSpecial (cell g p) = true -> isWall (cell g p) = false.

(** The offsets of [pattern] lead from the centre to [p]. *)
Definition hit (offsets : list (Z * Z)) (centerRow centerCol : nat) (p : pos) : Prop :=
  Exists (fun offset : Z * Z =>
            Z.of_nat p.1 = (Z.of_nat centerRow + offset.1)%Z /\
            Z.of_nat p.2 = (Z.of_nat centerCol + offset.2)%Z) offsets.

#[global] Instance hit_dec offsets centerRow centerCol p :
  Decision (hit offsets centerRow centerCol p).
Proof. unfold hit. apply _. Defined.
End Editing.

(** ** OldRandomMaze.js *)

Module OldRandomMaze.

(** [isSpecialNode(row, col)] *)
Definition isSpecialNode (startNode finishNode : pos) (checkpointNode : option pos)
    (row col : nat) : bool :=
  (bool_decide (row = startNode.1) && bool_decide (col = startNode.2)) ||
  (bool_decide (row = finishNode.1) && bool_decide (col = finishNode.2)) ||
  match checkpointNode with
  | Some c => bool_decide (row = c.1) && bool_decide (col = c.2)
  | None => false
  end.

(** The positions the loops over [grid.length] and [grid[0].length] visit,
    in their order. *)
Definition gridPositions (g : Grid) : list pos :=
  concat (map (fun row => map (fun col => (row, col)) (seq 0 (ncols g))) (seq 0 (nrows g))).

(** The first pass: a node that is not special becomes a wall when its
    draw is below 0.28; a special node takes no draw. *)
Definition firstPass (rnd : nat -> draw) (g : Grid) (startNode finishNode : pos)
    (checkpointNode : option pos) (k : nat) : list pos * nat :=
  foldl (fun (acc : list pos * nat) (p : pos) =>
           if isSpecialNode startNode finishNode checkpointNode p.1 p.2 then acc
           else if below (rnd acc.2) 28 100 then (acc.1 ++ [p], S acc.2)
           else (acc.1, S acc.2))
        ([], k) (gridPositions g).

(** [walls.forEach((wall, index) => { if (wall is t) walls.splice(index, 1) })]:
    after a removal the next wall has moved to the index just visited, and
    [forEach] goes past it. *)
Fixpoint spliceEach (t : pos) (walls : list pos) : list pos :=
  match walls with
  | [] => []
  | wall :: rest =>
      if decide (wall = t) then
        match rest with
        | [] => []
        | next :: rest' => next :: spliceEach t rest'
        end
      else wall :: spliceEach t rest
  end.

(** The offsets [i], [j] of [clearAroundNode], [clearRadius] being 2. *)
Definition clearOffsets : list (Z * Z) :=
  i ← [-2; -1; 0; 1; 2]%Z; j ← [-2; -1; 0; 1; 2]%Z; [(i, j)].

(** [clearAroundNode(node)] *)
Definition clearAroundNode (g : Grid) (node : pos) (walls : list pos) : list pos :=
  foldl (fun walls (offset : Z * Z) =>
           let newRow := (Z.of_nat node.1 + offset.1)%Z in
           let newCol := (Z.of_nat node.2 + offset.2)%Z in
           if ((0 <=? newRow) && (newRow <? Z.of_nat (nrows g)) &&
               (0 <=? newCol) && (newCol <? Z.of_nat (ncols g)))%Z
           then spliceEach (Z.to_nat newRow, Z.to_nat newCol) walls
           else walls)
        walls clearOffsets.

(** [generateRandomMaze(grid, startNode, finishNode, checkpointNode)]: the
    walls and the index of the next draw; [None] is [undefined]. *)
Definition generateRandomMaze (rnd : nat -> draw) (g : Grid)
    (startNode finishNode checkpointNode : option pos) (k : nat)
  : option (list pos * nat) :=
  match startNode, finishNode with
  | Some s, Some f =>
      let first := firstPass rnd g s f checkpointNode k in
      let walls1 := clearAroundNode g s first.1 in
      let walls2 := clearAroundNode g f walls1 in
      let walls3 :=
        match checkpointNode with
        | Some c => clearAroundNode g c walls2
        | None => walls2
        end in
      Some (walls3, first.2)
  | _, _ => None
  end.

(** [p] lies within [clearRadius] of [node], rows and columns apart. *)
Definition near (node p : pos) : Prop :=
  absDiff p.1 node.1 <= 2 /\ absDiff p.2 node.2 <= 2.

#[global] Instance near_dec node p : Decision (near node p).
Proof. unfold near. apply _. Defined.
End OldRandomMaze.

(** ** PathfindingVisualizer.jsx: the route by the checkpoint *)

Module Visualization.

(** The scan for the start and for the end node: the last node, row by
    row, that has the flag. *)
Definition findLast (flag : Node -> bool) (g : Grid) : option pos :=
  last (filter (fun p => flag (cell g p) = true) (getAllNodes g)).

(** [findCheckpointPosition(grid)]: the first node, row by row, that is a
    checkpoint. *)
Definition findCheckpointPosition (g : Grid) : option pos :=
  head (filter (fun p => isCheckpoint (cell g p) = true) (getAllNodes g)).

(** What [clearVisualization()] assigns to the fields of a node. *)
Definition clearNode (g : Grid) (node : pos) : Grid :=
  let g1 := update g node (set_isVisited false) in
  let g2 := update g1 node (set_distance Infinity) in
  update g2 node (set_previousNode None).

(** [clearVisualization()]: it assigns the class of the element of every
    node, and [None] is the [TypeError] of a node without element. *)
Definition clearVisualization (hasElement : pos -> bool) (g : Grid) : option Grid :=
  if forallb (fun p => hasElement (row (cell g p), col (cell g p))) (getAllNodes g)
  then Some (foldl clearNode g (getAllNodes g))
  else None.

(** The reset between the phases of [visualizeAStar]; that of
    [visualizeDijkstra] assigns as [dijkstraReset] does. *)
Definition astarPhaseReset (g : Grid) (node : pos) : Grid :=
  let g1 := update g node (set_distance Infinity) in
  let g2 := update g1 node (set_totalDistance Infinity) in
  let g3 := update g2 node (set_previousNode None) in
  update g3 node (set_isVisited false).

(** [visualizeDijkstra] and [visualizeAStar] while no search runs: they
    differ in the engine and in the reset between the phases.  The result
    is the grid they leave and the paths they hand to [animatePath], in
    order; the classes and the timers of the page are left out.  [None] is
    an error, or a walk of [getNodesInShortestPathOrder] cut short by
    [fuel]. *)
Section TwoPhases.
Variable hasElement : pos -> bool.
Variable search :
  Grid -> pos -> pos -> string -> bool -> option (Grid * list pos * list event).
Variable reset : Grid -> pos -> Grid.
Variable fuel : nat.

Definition direct (g : Grid) (start end_ : pos) (speed : string)
  : option (Grid * list (list pos)) :=
  match search g start end_ speed false with
  | None => None
  | Some (g1, _, _) =>
      match getNodesInShortestPathOrder fuel g1 end_ with
      | None => None
      | Some pathNodes => Some (g1, [pathNodes])
      end
  end.

Definition visualize (g : Grid) (speed : string) : option (Grid * list (list pos)) :=
  match findLast isStart g, findLast isEnd g with
  | Some start, Some end_ =>
      match clearVisualization hasElement g with
      | None => None
      | Some g0 =>
          match findCheckpointPosition g0 with
          | Some checkpointNode =>
              match search g0 start checkpointNode speed false with
              | None => None
              | Some (g1, _, _) =>
                  if negb (isVisited (cell g1 checkpointNode)) then
                    direct g1 start end_ speed
                  else
                    match getNodesInShortestPathOrder fuel g1 checkpointNode with
                    | None => None
                    | Some pathToCheckpoint =>
                        let g2 := foldl reset g1 (getAllNodes g1) in
                        match search g2 checkpointNode end_ speed true with
                        | None => None
                        | Some (g3, _, _) =>
                            match getNodesInShortestPathOrder fuel g3 end_ with
                            | None => None
                            | Some pathToEnd =>
                                Some (g3, [pathToCheckpoint; pathToEnd])
                            end
                        end
                    end
              end
          | None => direct g0 start end_ speed
          end
      end
  | _, _ => Some (g, [])
  end.
End TwoPhases.

Definition visualizeDijkstra (hasElement : pos -> bool) (fuel : nat) (g : Grid)
    (speed : string) : option (Grid * list (list pos)) :=
  visualize hasElement (dijkstra hasElement) dijkstraReset fuel g speed.

Definition visualizeAStar (hasElement : pos -> bool) (fuel : nat) (g : Grid)
    (speed : string) : option (Grid * list (list pos)) :=
  visualize hasElement (astar hasElement) astarPhaseReset fuel g speed.

(** [path] leads from [s] to [t] through open nodes, each next to the one
    before, and no walk from [s] to [t] takes fewer steps. *)
Definition shortestPath (g : Grid) (s t : pos) (path : list pos) : Prop :=
  head path = Some s /\ last path = Some t /\ isPath g path /\
  forall n, walk g s t n -> length path <= S n.

(** What a visualization hands to [animatePath], by the checkpoint. *)
Definition routes (vis : nat -> Grid -> string -> option (Grid * list (list pos)))
    (g : Grid) (speed : string) (s e : pos) : Prop :=
  (forall c, findCheckpointPosition g = Some c ->
     reachable g s c -> reachable g c e ->
     exists g' toCheckpoint toEnd n,
       (forall fuel, n < fuel -> vis fuel g speed = Some (g', [toCheckpoint; toEnd])) /\
       shortestPath g s c toCheckpoint /\ shortestPath g c e toEnd) /\
  (forall c, findCheckpointPosition g = Some c ->
     ~ reachable g s c -> reachable g s e ->
     exists g' path n,
       (forall fuel, n < fuel -> vis fuel g speed = Some (g', [path])) /\
       shortestPath g s e path) /\
  (findCheckpointPosition g = None -> reachable g s e ->
     exists g' path n,
       (forall fuel, n < fuel -> vis fuel g speed = Some (g', [path])) /\
       shortestPath g s e path).
End Visualization.

(** ** DFSMazeGeneration.js *)

Module DFSMaze.

(** [getUnvisitedNeighbors(node, grid)] of DFSMazeGeneration.js: the nodes
    above, below, left and right that are not visited. *)
Definition getUnvisitedNeighbors (node : pos) (g : Grid) : list pos :=
  let r := row (cell g node) in
  let c := col (cell g node) in
  (if (0 <? r) && negb (isVisited (cell g (r - 1, c))) then [(r - 1, c)] else []) ++
  (if (r <? nrows g - 1) && negb (isVisited (cell g (r + 1, c))) then [(r + 1, c)] else []) ++
  (if (0 <? c) && negb (isVisited (cell g (r, c - 1))) then [(r, c - 1)] else []) ++
  (if (c <? ncols g - 1) && negb (isVisited (cell g (r, c + 1))) then [(r, c + 1)] else []).

(** [getWallBetween(nodeA, nodeB, grid)]: the node between two nodes that
    are two rows or two columns apart, or [null]. *)
Definition getWallBetween (g : Grid) (nodeA nodeB : pos) : option pos :=
  let rowDiff := (Z.of_nat (row (cell g nodeB)) - Z.of_nat (row (cell g nodeA)))%Z in
  let colDiff := (Z.of_nat (col (cell g nodeB)) - Z.of_nat (col (cell g nodeA)))%Z in
  if (Z.abs rowDiff =? 2)%Z then
    Some (Z.to_nat (Z.of_nat (row (cell g nodeA)) + rowDiff / 2), col (cell g nodeA))
  else if (Z.abs colDiff =? 2)%Z then
    Some (row (cell g nodeA), Z.to_nat (Z.of_nat (col (cell g nodeA)) + colDiff / 2))
  else None.

(** The loop [while (neighbors.length > 0)] of [dfs(node)], with the calls
    of [dfs] it makes; its two copies differ in what they do to the page.
    The stack is written and never read.  [None] is a run cut short by
    [fuel]. *)
Fixpoint dfsLoop (fuel : nat) (rnd : nat -> draw) (node : pos) (neighbors : list pos)
         (g : Grid) (k : nat) : option (Grid * nat) :=
  match neighbors with
  | [] => Some (g, k)
  | _ :: _ =>
      match fuel with
      | 0 => None
      | S fuel' =>
          let randomIndex :=
            Z.to_nat (floorTimes (rnd k) (Z.of_nat (length neighbors))) in
          match neighbors !! randomIndex with
          | None => None
          | Some neighbor =>
              let g1 :=
                match getWallBetween g node neighbor with
                | Some wallNode => update g wallNode (Editing.set_isWall false)
                | None => g
                end in
              let g2 := update g1 neighbor (set_isVisited true) in
              match dfsLoop fuel' rnd neighbor (getUnvisitedNeighbors neighbor g2)
                            g2 (S k) with
              | None => None
              | Some (g3, k3) =>
                  dfsLoop fuel' rnd node (delete randomIndex neighbors) g3 k3
              end
          end
      end
  end.

(** [dfs(node)] *)
Definition dfs (fuel : nat) (rnd : nat -> draw) (node : pos) (g : Grid) (k : nat)
  : option (Grid * nat) :=
  dfsLoop fuel rnd node (getUnvisitedNeighbors node g) g k.

(** [node.isStart || node.isEnd || node.isCheckpoint] *)
Definition isSpecial (n : Node) : bool := isStart n || isEnd n || isCheckpoint n.

(** "Initialize all nodes as walls" *)
Definition wallUp (g : Grid) (node : pos) : Grid :=
  if negb (isStart (cell g node)) && negb (isEnd (cell g node)) &&
     negb (isCheckpoint (cell g node))
  then update g node (Editing.set_isWall true)
  else g.

(** The offsets [i], [j] of [clearAroundSpecialNodes]. *)
Definition clearOffsets : list (Z * Z) :=
  i ← [-1; 0; 1]%Z; j ← [-1; 0; 1]%Z; [(i, j)].

Definition clearAround (g : Grid) (node : pos) : Grid :=
  if isSpecial (cell g node) then
    foldl (fun g' (offset : Z * Z) =>
             let newRow := (Z.of_nat (row (cell g node)) + offset.1)%Z in
             let newCol := (Z.of_nat (col (cell g node)) + offset.2)%Z in
             if ((0 <=? newRow) && (newRow <? Z.of_nat (nrows g)) &&
                 (0 <=? newCol) && (newCol <? Z.of_nat (ncols g)))%Z
             then update g' (Z.to_nat newRow, Z.to_nat newCol) (Editing.set_isWall false)
             else g')
          g clearOffsets
  else g.

(** [clearAroundSpecialNodes(grid)] *)
Definition clearAroundSpecialNodes (g : Grid) : Grid :=
  foldl clearAround g (getAllNodes g).

(** [generateDFSMaze(grid, speed)]: the grid and the index of the next
    draw; [speed] chooses between the two copies of the loop, which do the
    same to the grid.  [None] is the [TypeError] of a grid without node at
    row 0 and column 0, or a run cut short by [fuel]. *)
Definition generateDFSMaze (fuel : nat) (rnd : nat -> draw) (g : Grid) (k : nat)
  : option (Grid * nat) :=
  match Editing.nodeAt g 0 0 with
  | None => None
  | Some _ =>
      let g1 := update g (0, 0) (set_isVisited true) in
      let g2 := foldl wallUp g1 (getAllNodes g1) in
      match dfs fuel rnd (0, 0) g2 k with
      | None => None
      | Some (g3, k3) => Some (clearAroundSpecialNodes g3, k3)
      end
  end.

(** A special node of [g] lies next to [p], or is [p]: at most one row and
    one column apart. *)
Definition nearSpecial (g : Grid) (p : pos) : Prop :=
  Exists (fun q => isSpecial (cell g q) = true /\
                   absDiff p.1 q.1 <= 1 /\ absDiff p.2 q.2 <= 1)
         (getAllNodes g).

#[global] Instance nearSpecial_dec g p : Decision (nearSpecial g p).
Proof. unfold nearSpecial. apply _. Defined.

(** Every node of the grid next to [p] is visited. *)
Definition closed (g : Grid) (p : pos) : Prop :=
  forall q, adjacent p q -> inBounds g q -> isVisited (cell g q) = true.

(** [g'] is [g] with more nodes visited: no role and no wall differs. *)
Definition grows (g g' : Grid) : Prop :=
  sameBut_fields boardFields g g' /\
  forall p, inBounds g p -> isVisited (cell g p) = true -> isVisited (cell g' p) = true.

(** What a run of the loop of [dfs] leaves: the nodes it has visited are
    closed, and the neighbours it was given are visited. *)
Definition dfsPost (g : Grid) (neighbors : list pos) (g' : Grid) : Prop :=
  grows g g' /\
  (forall p, inBounds g p -> isVisited (cell g p) = false ->
     isVisited (cell g' p) = true -> closed g' p) /\
  (forall q, q ∈ neighbors -> isVisited (cell g' q) = true).

(** The number of nodes that are not visited. *)
Definition unvisited (g : Grid) : nat :=
  length (filter (fun p => isVisited (cell g p) = false) (getAllNodes g)).
End DFSMaze.

(** ** Dijkstra.js and AStar.js, loop by loop

    [dijkstra] and [astar] write their loop twice: once under
    [if (speed === 'instant')] and once more for the animated speeds.
    Above, the four loops are instances of [searchLoop]; here each of them
    is transcribed from its own lines, and each engine from its two
    loops. *)
Module LoopByLoop.

(** The loop of [dijkstra] under [speed === 'instant']. *)
Fixpoint dijkstraInstant (hasElement : pos -> bool) (isSecondPhase : bool)
         (endNode : pos) (fuel : nat) (grid : Grid)
         (unvisitedNodes visitedNodesInOrder : list pos) (log : list event)
  : option (Grid * list pos * list event) :=
  match unvisitedNodes with
  | [] => Some (grid, visitedNodesInOrder, log)
  | _ :: _ =>
      match fuel with
      | 0 => None
      | S fuel' =>
          match sortNodesByDistance grid unvisitedNodes with
          | [] => None
          | closestNode :: unvisitedNodes' =>
              if isWall (cell grid closestNode) then
                dijkstraInstant hasElement isSecondPhase endNode fuel' grid
                                unvisitedNodes' visitedNodesInOrder log
              else if isInfinity (distance (cell grid closestNode)) then
                Some (grid, visitedNodesInOrder, log)
              else
                let grid1 := update grid closestNode (set_isVisited true) in
                let visited1 := visitedNodesInOrder ++ [closestNode] in
                let n := cell grid1 closestNode in
                let log1 :=
                  if negb (isStart n) && negb (isEnd n) && negb (isCheckpoint n)
                  then if hasElement (row n, col n)
                       then log ++ [ClassName (row n) (col n)
                                      ("node " +:+ visitedClass isSecondPhase
                                       +:+ " instant")]
                       else log
                  else log in
                if decide (closestNode = endNode) then
                  Some (grid1, visited1, log1)
                else
                  dijkstraInstant hasElement isSecondPhase endNode fuel'
                                  (updateUnvisitedNeighbors closestNode grid1)
                                  unvisitedNodes' visited1 log1
          end
      end
  end.

(** The loop of [dijkstra] for the animated speeds; an iteration that
    relaxes ends with [await new Promise(resolve => setTimeout(resolve,
    delay))]. *)
Fixpoint dijkstraAnimated (hasElement : pos -> bool) (isSecondPhase : bool)
         (delay : nat) (endNode : pos) (fuel : nat) (grid : Grid)
         (unvisitedNodes visitedNodesInOrder : list pos) (log : list event)
  : option (Grid * list pos * list event) :=
  match unvisitedNodes with
  | [] => Some (grid, visitedNodesInOrder, log)
  | _ :: _ =>
      match fuel with
      | 0 => None
      | S fuel' =>
          match sortNodesByDistance grid unvisitedNodes with
          | [] => None
          | closestNode :: unvisitedNodes' =>
              if isWall (cell grid closestNode) then
                dijkstraAnimated hasElement isSecondPhase delay endNode fuel' grid
                                 unvisitedNodes' visitedNodesInOrder log
              else if isInfinity (distance (cell grid closestNode)) then
                Some (grid, visitedNodesInOrder, log)
              else
                let grid1 := update grid closestNode (set_isVisited true) in
                let visited1 := visitedNodesInOrder ++ [closestNode] in
                let n := cell grid1 closestNode in
                let log1 :=
                  if negb (isStart n) && negb (isEnd n) && negb (isCheckpoint n)
                  then if hasElement (row n, col n)
                       then log ++ [ClassName (row n) (col n)
                                      ("node " +:+ visitedClass isSecondPhase)]
                       else log
                  else log in
                if decide (closestNode = endNode) then
                  Some (grid1, visited1, log1)
                else
                  dijkstraAnimated hasElement isSecondPhase delay endNode fuel'
                                   (updateUnvisitedNeighbors closestNode grid1)
                                   unvisitedNodes' visited1
                                   (log1 ++ [Timeout delay])
          end
      end
  end.

(** [dijkstra(grid, startNode, endNode, speed, isSecondPhase)] with its
    two loops. *)
Definition dijkstra (hasElement : pos -> bool) (grid : Grid)
           (startNode endNode : pos) (speed : string) (isSecondPhase : bool)
  : option (Grid * list pos * list event) :=
  let g0 := update grid startNode (set_distance (Num 0)) in
  let unvisitedNodes := getAllNodes g0 in
  let g1 := foldl dijkstraReset g0 unvisitedNodes in
  let g2 := update g1 startNode (set_distance (Num 0)) in
  if decide (speed = "instant") then
    dijkstraInstant hasElement isSecondPhase endNode (length unvisitedNodes)
                    g2 unvisitedNodes [] []
  else
    let delay := if decide (speed = "slow") then 50 else 10 in
    dijkstraAnimated hasElement isSecondPhase delay endNode (length unvisitedNodes)
                     g2 unvisitedNodes [] [].

(** The loop of [astar] under [speed === 'instant']; the class it assigns
    is the one of the animated loop. *)
Fixpoint astarInstant (hasElement : pos -> bool) (isSecondPhase : bool)
         (finishNode : pos) (fuel : nat) (grid : Grid)
         (unvisitedNodes visitedNodesInOrder : list pos) (log : list event)
  : option (Grid * list pos * list event) :=
  match unvisitedNodes with
  | [] => Some (grid, visitedNodesInOrder, log)
  | _ :: _ =>
      match fuel with
      | 0 => None
      | S fuel' =>
          match sortNodesByTotalDistance grid unvisitedNodes with
          | [] => None
          | closestNode :: unvisitedNodes' =>
              if isWall (cell grid closestNode) then
                astarInstant hasElement isSecondPhase finishNode fuel' grid
                             unvisitedNodes' visitedNodesInOrder log
              else if isInfinity (totalDistance (cell grid closestNode)) then
                Some (grid, visitedNodesInOrder, log)
              else
                let grid1 := update grid closestNode (set_isVisited true) in
                let visited1 := visitedNodesInOrder ++ [closestNode] in
                let n := cell grid1 closestNode in
                let log1 :=
                  if negb (isStart n) && negb (isEnd n) && negb (isCheckpoint n)
                  then if hasElement (row n, col n)
                       then log ++ [ClassName (row n) (col n)
                                      ("node " +:+ visitedClass isSecondPhase)]
                       else log
                  else log in
                if decide (closestNode = finishNode) then
                  Some (grid1, visited1, log1)
                else
                  astarInstant hasElement isSecondPhase finishNode fuel'
                    (updateUnvisitedNeighborsAstar closestNode grid1 finishNode)
                    unvisitedNodes' visited1 log1
          end
      end
  end.

(** The loop of [astar] for the animated speeds. *)
Fixpoint astarAnimated (hasElement : pos -> bool) (isSecondPhase : bool)
         (delay : nat) (finishNode : pos) (fuel : nat) (grid : Grid)
         (unvisitedNodes visitedNodesInOrder : list pos) (log : list event)
  : option (Grid * list pos * list event) :=
  match unvisitedNodes with
  | [] => Some (grid, visitedNodesInOrder, log)
  | _ :: _ =>
      match fuel with
      | 0 => None
      | S fuel' =>
          match sortNodesByTotalDistance grid unvisitedNodes with
          | [] => None
          | closestNode :: unvisitedNodes' =>
              if isWall (cell grid closestNode) then
                astarAnimated hasElement isSecondPhase delay finishNode fuel' grid
                              unvisitedNodes' visitedNodesInOrder log
              else if isInfinity (totalDistance (cell grid closestNode)) then
                Some (grid, visitedNodesInOrder, log)
              else
                let grid1 := update grid closestNode (set_isVisited true) in
                let visited1 := visitedNodesInOrder ++ [closestNode] in
                let n := cell grid1 closestNode in
                let log1 :=
                  if negb (isStart n) && negb (isEnd n) && negb (isCheckpoint n)
                  then if hasElement (row n, col n)
                       then log ++ [ClassName (row n) (col n)
                                      ("node " +:+ visitedClass isSecondPhase)]
                       else log
                  else log in
                if decide (closestNode = finishNode) then
                  Some (grid1, visited1, log1)
                else
                  astarAnimated hasElement isSecondPhase delay finishNode fuel'
                    (updateUnvisitedNeighborsAstar closestNode grid1 finishNode)
                    unvisitedNodes' visited1 (log1 ++ [Timeout delay])
          end
      end
  end.

(** [astar(grid, startNode, finishNode, speed, isSecondPhase)] with its
    two loops. *)
Definition astar (hasElement : pos -> bool) (grid : Grid)
           (startNode finishNode : pos) (speed : string) (isSecondPhase : bool)
  : option (Grid * list pos * list event) :=
  let unvisitedNodes := getAllNodes grid in
  let g1 := foldl (astarReset startNode finishNode) grid unvisitedNodes in
  let g2 := update g1 startNode (set_distance (Num 0)) in
  let g3 := update g2 startNode
              (set_heuristic (manhattanDistance g2 startNode finishNode)) in
  let g4 := update g3 startNode
              (set_totalDistance (Num (heuristic (cell g3 startNode)))) in
  let g5 := update g4 startNode (set_previousNode None) in
  let g6 := update g5 startNode (set_isVisited false) in
  if decide (speed = "instant") then
    astarInstant hasElement isSecondPhase finishNode (length unvisitedNodes)
                 g6 unvisitedNodes [] []
  else
    let delay := if decide (speed = "slow") then 50 else 10 in
    astarAnimated hasElement isSecondPhase delay finishNode (length unvisitedNodes)
                  g6 unvisitedNodes [] [].

End LoopByLoop.



(** * Properties *)

(** ** Numbers and sorting *)

Lemma num_le_refl a : num_le a a.
Proof. destruct a; simpl; lia. Qed.

Lemma num_le_trans a b c : num_le a b -> num_le b c -> num_le a c.
Proof. destruct a, b, c; simpl; try tauto; lia. Qed.

Lemma num_minus_not_negative a b : num_minus a b <> Negative -> num_le b a.
Proof.
  destruct a as [x|], b as [y|]; simpl; try tauto; try congruence.
  destruct (Nat.compare_spec x y); try congruence; lia.
Qed.

Lemma num_minus_negative a b : num_minus a b = Negative -> num_le a b.
Proof.
  destruct a as [x|], b as [y|]; simpl; try tauto; try congruence.
  destruct (Nat.compare_spec x y); try congruence; lia.
Qed.

Lemma num_ltb_spec a b :
  num_ltb a b = true <->
  exists x, a = Num x /\ (b = Infinity \/ exists y, b = Num y /\ x < y).
Proof.
  destruct a as [x|], b as [y|]; simpl; split.
  - intros H%Nat.ltb_lt. exists x. split; [done|]. right. by exists y.
  - intros (x' & [= ->] & [?|(y' & [= ->] & ?)]); [done|]. by apply Nat.ltb_lt.
  - intros _. exists x. split; [done|]. by left.
  - done.
  - done.
  - intros (x' & ? & _). done.
  - done.
  - intros (x' & ? & _). done.
Qed.

Section Sorting.
Context {A : Type} (cmp : A -> A -> sign).

Lemma insertBy_perm x l : insertBy cmp x l ≡ₚ x :: l.
Proof.
  induction l as [|y l IH]; simpl; [done|].
  destruct (cmp y x); try done.
  rewrite IH. apply Permutation_swap.
Qed.

Lemma sortBy_perm l : sortBy cmp l ≡ₚ l.
Proof.
  induction l as [|x l IH]; simpl; [done|].
  rewrite insertBy_perm. by rewrite IH.
Qed.

Lemma sortBy_length l : length (sortBy cmp l) = length l.
Proof. by rewrite sortBy_perm. Qed.
End Sorting.

(** The node in front after a sort by a numeric field has the least value
    of the field. *)
Lemma sortBy_head_min {A : Type} (key : A -> num) (l : list A) u rest :
  sortBy (fun a b => num_minus (key a) (key b)) l = u :: rest ->
  forall x, x ∈ l -> num_le (key u) (key x).
Proof.
  revert u rest. induction l as [|y l IH]; intros u rest Hs x Hx.
  { by apply elem_of_nil in Hx. }
  simpl in Hs.
  destruct (sortBy (fun a b => num_minus (key a) (key b)) l) as [|z l'] eqn:Hl.
  - assert (l = []) as ->.
    { apply Permutation_nil_r. rewrite <- Hl. by rewrite sortBy_perm. }
    simpl in Hs. injection Hs as <- <-.
    apply list_elem_of_singleton in Hx as ->. apply num_le_refl.
  - simpl in Hs.
    destruct (num_minus (key z) (key y)) eqn:Hc.
    + injection Hs as <- <-.
      apply elem_of_cons in Hx as [->|Hx].
      * by apply num_minus_negative.
      * by eapply IH.
    + injection Hs as <- <-.
      assert (num_le (key y) (key z)) by (apply num_minus_not_negative; congruence).
      apply elem_of_cons in Hx as [->|Hx]; [apply num_le_refl|].
      eapply num_le_trans; [done|]. by eapply IH.
    + injection Hs as <- <-.
      assert (num_le (key y) (key z)) by (apply num_minus_not_negative; congruence).
      apply elem_of_cons in Hx as [->|Hx]; [apply num_le_refl|].
      eapply num_le_trans; [done|]. by eapply IH.
    + injection Hs as <- <-.
      assert (num_le (key y) (key z)) by (apply num_minus_not_negative; congruence).
      apply elem_of_cons in Hx as [->|Hx]; [apply num_le_refl|].
      eapply num_le_trans; [done|]. by eapply IH.
Qed.

(** ** The grid as a store of nodes *)

Lemma nrows_update g p f : nrows (update g p f) = nrows g.
Proof. unfold nrows, update. by rewrite length_alter. Qed.

Lemma ncols_update g p f : ncols (update g p f) = ncols g.
Proof.
  unfold ncols, update. destruct g as [|r g]; [done|].
  destruct p as [[|i] j]; simpl; [|done]. by rewrite length_alter.
Qed.

Lemma inBounds_update g p f q : inBounds (update g p f) q <-> inBounds g q.
Proof. unfold inBounds. by rewrite nrows_update, ncols_update. Qed.

Lemma cell_update_ne g p f q : q <> p -> cell (update g p f) q = cell g q.
Proof.
  intros Hne. unfold cell, update.
  destruct (decide (q.1 = p.1)) as [E1|N1].
  - rewrite E1. rewrite list_lookup_alter_eq.
    destruct (g !! p.1) as [r|] eqn:Hr; simpl; [|done].
    rewrite list_lookup_alter_ne; [done|].
    intros E2. apply Hne. destruct p, q; simpl in *; congruence.
  - rewrite list_lookup_alter_ne by done. done.
Qed.

Lemma wf_lookup g p :
  wf_grid g -> inBounds g p ->
  exists r n, g !! p.1 = Some r /\ r !! p.2 = Some n /\ cell g p = n.
Proof.
  intros [Hrect _] [H1 H2].
  destruct (lookup_lt_is_Some_2 g p.1 H1) as [r Hr].
  pose proof (Hrect _ _ Hr) as Hlen.
  destruct (lookup_lt_is_Some_2 r p.2) as [n Hn]; [lia|].
  exists r, n. unfold cell. by rewrite Hr, Hn.
Qed.

Lemma cell_update_eq g p f :
  wf_grid g -> inBounds g p -> cell (update g p f) p = f (cell g p).
Proof.
  intros Hwf Hb. destruct (wf_lookup g p Hwf Hb) as (r & n & Hr & Hn & ->).
  unfold cell, update. rewrite list_lookup_alter_eq, Hr. simpl.
  by rewrite list_lookup_alter_eq, Hn.
Qed.

Lemma cell_update_out g p f : ~ inBounds g p -> wf_grid g -> update g p f = g.
Proof.
  intros Hnb [Hrect _]. unfold update.
  apply list_eq. intros i. destruct (decide (i = p.1)) as [->|Hi].
  - rewrite list_lookup_alter_eq. destruct (g !! p.1) as [r|] eqn:Hr; [|done].
    simpl. f_equal. apply list_eq. intros j.
    destruct (decide (j = p.2)) as [->|Hj].
    + rewrite list_lookup_alter_eq.
      destruct (r !! p.2) as [n|] eqn:Hn; [|done].
      exfalso. apply Hnb. split.
      * by eapply lookup_lt_Some.
      * rewrite <- (Hrect _ _ Hr). by eapply lookup_lt_Some.
    + by rewrite list_lookup_alter_ne.
  - by rewrite list_lookup_alter_ne.
Qed.

Lemma wf_update g p f : wf_grid g -> keepsPlace f -> wf_grid (update g p f).
Proof.
  intros Hwf Hf. pose proof Hwf as [Hrect Hplace]. split.
  - intros r l Hl. rewrite ncols_update. unfold update in Hl.
    destruct (decide (r = p.1)) as [->|Hr].
    + rewrite list_lookup_alter_eq in Hl.
      destruct (g !! p.1) as [l0|] eqn:E; simpl in Hl; [|done].
      injection Hl as <-. rewrite length_alter. by eapply Hrect.
    + rewrite list_lookup_alter_ne in Hl by done. by eapply Hrect.
  - intros q Hq. apply inBounds_update in Hq.
    destruct (decide (q = p)) as [->|Hne].
    + rewrite cell_update_eq by done. destruct (Hf (cell g p)) as [-> ->].
      by apply Hplace.
    + rewrite cell_update_ne by done. by apply Hplace.
Qed.

(** [getAllNodes] lists every place of the grid once. *)
Lemma allNodes_from (g : list (list Node)) (k : nat) :
  let L := concat (imap (fun r l => imap (fun c _ => (k + r, c)) l) g) in
  NoDup L /\
  forall p, p ∈ L <-> exists l, k <= p.1 /\ g !! (p.1 - k) = Some l /\ p.2 < length l.
Proof.
  revert k. induction g as [|x g IH]; intros k L; subst L.
  { simpl. split; [constructor|]. intros p. split.
    - by intros ?%elem_of_nil.
    - by intros (l & _ & ? & _). }
  rewrite imap_cons. simpl concat.
  assert (Hshift : imap ((fun r l => imap (fun c (_ : Node) => (k + r, c)) l) ∘ S) g
                   = imap (fun r l => imap (fun c (_ : Node) => (S k + r, c)) l) g).
  { apply imap_ext. intros i l _. simpl. apply imap_ext. intros j n _. simpl.
    f_equal. lia. }
  rewrite Hshift. destruct (IH (S k)) as [IHnd IHin]. clear Hshift.
  rewrite (imap_seq_0 x (fun c => (k + 0, c))).
  assert (Hrow : forall p, p ∈ (fun c => (k + 0, c)) <$> seq 0 (length x) <->
                           p.1 = k /\ p.2 < length x).
  { intros [r c]. rewrite list_elem_of_fmap. simpl. split.
    - intros (c' & [= -> ->] & Hc%elem_of_seq). lia.
    - intros [-> Hc]. exists c. split; [f_equal; lia|]. apply elem_of_seq. lia. }
  split.
  - apply NoDup_app. split; [|split; [|done]].
    + apply NoDup_fmap_2; [|apply NoDup_seq]. intros a b. by intros [= ->].
    + intros p [Hp1 _]%Hrow (l & Hk & _)%IHin. lia.
  - intros p. rewrite elem_of_app, Hrow, IHin. split.
    + intros [[-> Hc]|(l & Hk & Hl & Hc)].
      * exists x. rewrite Nat.sub_diag. simpl. done.
      * exists l. split; [lia|]. split; [|done].
        replace (p.1 - k) with (S (p.1 - S k)) by lia. done.
    + intros (l & Hk & Hl & Hc).
      destruct (decide (p.1 = k)) as [E|N].
      * left. rewrite E, Nat.sub_diag in Hl. simpl in Hl. by injection Hl as ->.
      * right. exists l. split; [lia|]. split; [|done].
        replace (p.1 - k) with (S (p.1 - S k)) in Hl by lia. done.
Qed.

Lemma NoDup_getAllNodes g : NoDup (getAllNodes g).
Proof. apply (allNodes_from g 0). Qed.

Lemma elem_of_getAllNodes g p :
  wf_grid g -> p ∈ getAllNodes g <-> inBounds g p.
Proof.
  intros [Hrect _]. unfold getAllNodes.
  rewrite (proj2 (allNodes_from g 0) p). rewrite Nat.sub_0_r. split.
  - intros (l & _ & Hl & Hc). split.
    + by eapply lookup_lt_Some.
    + by rewrite <- (Hrect _ _ Hl).
  - intros [H1 H2]. destruct (lookup_lt_is_Some_2 g p.1 H1) as [l Hl].
    exists l. split; [lia|]. split; [done|]. by rewrite (Hrect _ _ Hl).
Qed.

Lemma getAllNodes_update g p f : getAllNodes (update g p f) = getAllNodes g.
Proof.
  unfold getAllNodes, update. f_equal.
  apply list_eq. intros i. rewrite !list_lookup_imap.
  destruct (decide (i = p.1)) as [->|Hi].
  - rewrite list_lookup_alter_eq. destruct (g !! p.1) as [l|]; simpl; [|done].
    f_equal. rewrite !(imap_seq_0 _ (fun c => (p.1, c))). by rewrite length_alter.
  - by rewrite list_lookup_alter_ne.
Qed.

(** ** The search loop *)

Section LoopRule.
Variable hasElement : pos -> bool.
Variable sortNodes : Grid -> list pos -> list pos.
Variable key : Node -> num.
Variable relax : pos -> Grid -> Grid.
Variable finishNode : pos.
Hypothesis sort_perm : forall g Q, sortNodes g Q ≡ₚ Q.

(** The grid and the visited order a loop returns depend neither on the
    class it assigns nor on its waits. *)
Lemma searchLoop_result_any_page cls1 wait1 cls2 wait2 fuel g Q V log1 log2 :
  fst <$> searchLoop hasElement sortNodes key relax cls1 wait1 finishNode fuel g Q V log1
  = fst <$> searchLoop hasElement sortNodes key relax cls2 wait2 finishNode fuel g Q V log2.
Proof using Type.
  revert g Q V log1 log2. induction fuel as [|fuel IH]; intros g Q V log1 log2.
  { destruct Q; reflexivity. }
  destruct Q as [|q Q]; [reflexivity|]. simpl.
  destruct (sortNodes g (q :: Q)) as [|u rest]; [reflexivity|].
  destruct (isWall (cell g u)); [apply IH|].
  destruct (isInfinity (key (cell g u))); [reflexivity|].
  destruct (decide (u = finishNode)); [reflexivity|].
  apply IH.
Qed.

(** A loop rule: an invariant of the iterations and what holds at each of
    the three ways out. *)
Variable Inv : Grid -> list pos -> list pos -> Prop.
Variable Post : Grid -> list pos -> Prop.

Hypothesis on_empty : forall g V, Inv g [] V -> Post g V.
Hypothesis on_wall : forall g Q V u rest,
  Inv g Q V -> sortNodes g Q = u :: rest ->
  isWall (cell g u) = true -> Inv g rest V.
Hypothesis on_infinity : forall g Q V u rest,
  Inv g Q V -> sortNodes g Q = u :: rest ->
  isWall (cell g u) = false -> isInfinity (key (cell g u)) = true -> Post g V.
Hypothesis on_finish : forall g Q V u rest,
  Inv g Q V -> sortNodes g Q = u :: rest ->
  isWall (cell g u) = false -> isInfinity (key (cell g u)) = false ->
  u = finishNode -> Post (update g u (set_isVisited true)) (V ++ [u]).
Hypothesis on_relax : forall g Q V u rest,
  Inv g Q V -> sortNodes g Q = u :: rest ->
  isWall (cell g u) = false -> isInfinity (key (cell g u)) = false ->
  u <> finishNode ->
  Inv (relax u (update g u (set_isVisited true))) rest (V ++ [u]).

Lemma searchLoop_rule cls wait fuel g Q V log :
  Inv g Q V -> length Q <= fuel ->
  exists g' V' log',
    searchLoop hasElement sortNodes key relax cls wait finishNode fuel g Q V log
    = Some (g', V', log') /\ Post g' V'.
Proof using sort_perm on_empty on_wall on_infinity on_finish on_relax.
  revert g Q V log. induction fuel as [|fuel IH]; intros g Q V log HI Hlen.
  { destruct Q; [|simpl in Hlen; lia]. simpl.
    eexists _, _, _. split; [done|]. by apply on_empty. }
  destruct Q as [|q Q].
  { simpl. eexists _, _, _. split; [done|]. by apply on_empty. }
  simpl.
  destruct (sortNodes g (q :: Q)) as [|u rest] eqn:Hs.
  { pose proof (sort_perm g (q :: Q)) as HP. rewrite Hs in HP.
    by apply Permutation_nil_cons in HP. }
  assert (length rest <= fuel) as Hrest.
  { pose proof (sort_perm g (q :: Q)) as HP. rewrite Hs in HP.
    apply Permutation_length in HP. simpl in *. lia. }
  destruct (isWall (cell g u)) eqn:Hw.
  { apply IH; [|done]. by eapply on_wall. }
  destruct (isInfinity (key (cell g u))) eqn:Hk.
  { eexists _, _, _. split; [done|]. by eapply on_infinity. }
  destruct (decide (u = finishNode)) as [Hu|Hu].
  { eexists _, _, _. split; [done|]. by eapply on_finish. }
  apply IH; [|done]. by eapply on_relax.
Qed.
End LoopRule.

Lemma sortNodesByDistance_perm g Q : sortNodesByDistance g Q ≡ₚ Q.
Proof. apply sortBy_perm. Qed.

Lemma sortNodesByTotalDistance_perm g Q : sortNodesByTotalDistance g Q ≡ₚ Q.
Proof. apply sortBy_perm. Qed.

(** ** Neighbours and relaxation *)

Lemma adjacent_sym p q : adjacent p q -> adjacent q p.
Proof. unfold adjacent. lia. Qed.

Lemma adjacent_irrefl p : ~ adjacent p p.
Proof. unfold adjacent. lia. Qed.

Lemma elem_of_if_singleton {A : Type} (b : bool) (x y : A) :
  x ∈ (if b then [y] else []) <-> b = true /\ x = y.
Proof.
  destruct b; rewrite ?list_elem_of_singleton, ?elem_of_nil; intuition congruence.
Qed.

Lemma pos_eq_iff (a b c d : nat) : (a, b) = (c, d) <-> a = c /\ b = d.
Proof. split; [by intros [= -> ->]|by intros [-> ->]]. Qed.

Lemma elem_of_getUnvisitedNeighbors g u q :
  wf_grid g -> inBounds g u ->
  q ∈ getUnvisitedNeighbors u g <->
  adjacent u q /\ inBounds g q /\ isVisited (cell g q) = false.
Proof.
  intros Hwf Hu. destruct (proj2 Hwf u Hu) as [Hr Hc].
  unfold getUnvisitedNeighbors. rewrite Hr, Hc.
  rewrite list_elem_of_filter, !elem_of_app, !elem_of_if_singleton.
  destruct u as [r c], q as [r' c']. unfold adjacent, inBounds in *. simpl in *.
  rewrite !pos_eq_iff, !Nat.ltb_lt.
  split.
  - intros [Hv H']. split; [lia|]. split; [lia|done].
  - intros (Ha & Hb & Hv). split; [done|]. lia.
Qed.

Lemma cell_update_cases g p f q :
  wf_grid g ->
  (q = p /\ inBounds g p /\ cell (update g p f) q = f (cell g p)) \/
  ((q <> p \/ ~ inBounds g p) /\ cell (update g p f) q = cell g q).
Proof.
  intros Hwf. destruct (decide (q = p)) as [->|Hne].
  - destruct (decide (inBounds g p)) as [Hb|Hb].
    + left. by rewrite cell_update_eq.
    + right. split; [by right|]. by rewrite cell_update_out.
  - right. split; [by left|]. by apply cell_update_ne.
Qed.

#[global] Instance inBounds_dec g p : Decision (inBounds g p).
Proof. unfold inBounds. apply _. Defined.

Lemma keepsPlace_set_distance d : keepsPlace (set_distance d).
Proof. by intros []. Qed.
Lemma keepsPlace_set_totalDistance d : keepsPlace (set_totalDistance d).
Proof. by intros []. Qed.
Lemma keepsPlace_set_previousNode d : keepsPlace (set_previousNode d).
Proof. by intros []. Qed.
Lemma keepsPlace_set_isVisited d : keepsPlace (set_isVisited d).
Proof. by intros []. Qed.
Lemma keepsPlace_set_heuristic d : keepsPlace (set_heuristic d).
Proof. by intros []. Qed.

Create HintDb grid.

#[global] Hint Resolve keepsPlace_set_distance keepsPlace_set_totalDistance
  keepsPlace_set_previousNode keepsPlace_set_isVisited keepsPlace_set_heuristic
  wf_update : grid.

Lemma dijkstra_relax_fold u d l : forall g,
  wf_grid g -> distance (cell g u) = Num d -> u ∉ l ->
  (forall q, q ∈ l -> inBounds g q) ->
  let g' := foldl (fun g' neighbor =>
                     update (update g' neighbor
                               (set_distance (num_plus (distance (cell g' u)) 1)))
                            neighbor (set_previousNode (Some u))) g l in
  wf_grid g' /\ nrows g' = nrows g /\ ncols g' = ncols g /\
  (forall p, p ∈ l -> cell g' p = relaxedNode u d (cell g p)) /\
  (forall p, p ∉ l -> cell g' p = cell g p).
Proof.
  induction l as [|q l IH]; intros g Hwf Hd Hu Hin; simpl.
  { split_and!; try done. by intros p ?%elem_of_nil. }
  set (g1 := update g q (set_distance (num_plus (distance (cell g u)) 1))).
  set (g2 := update g1 q (set_previousNode (Some u))).
  assert (wf_grid g1) as Hwf1 by (apply wf_update; auto with grid).
  assert (wf_grid g2) as Hwf2 by (apply wf_update; auto with grid).
  assert (inBounds g q) as Hq by (apply Hin; left).
  assert (q <> u) as Hqu by (intros ->; apply Hu; left).
  assert (cell g2 q = relaxedNode u d (cell g q)) as Hcq.
  { unfold g2. rewrite cell_update_eq; [|done|by apply inBounds_update].
    unfold g1. rewrite cell_update_eq by done. by rewrite Hd. }
  assert (forall p, p <> q -> cell g2 p = cell g p) as Hcp.
  { intros p Hp. unfold g2, g1. by rewrite !cell_update_ne. }
  destruct (IH g2) as (Hwf' & Hr & Hc & Hl & Hnl).
  - done.
  - rewrite Hcp by done. done.
  - intros Hul. apply Hu. by right.
  - intros p Hp. unfold g2, g1. rewrite !inBounds_update. apply Hin. by right.
  - split; [done|]. split.
    { rewrite Hr. unfold g2, g1. by rewrite !nrows_update. }
    split.
    { rewrite Hc. unfold g2, g1. by rewrite !ncols_update. }
    split.
    + intros p Hp. destruct (decide (p ∈ l)) as [Hpl|Hpl].
      * rewrite Hl by done. destruct (decide (p = q)) as [->|Hne].
        -- rewrite Hcq. by destruct (cell g q).
        -- by rewrite Hcp.
      * rewrite Hnl by done. apply elem_of_cons in Hp as [->|Hp]; [done|].
        contradiction.
    + intros p Hp. apply not_elem_of_cons in Hp as [Hpq Hpl].
      rewrite Hnl by done. by apply Hcp.
Qed.

Lemma updateUnvisitedNeighbors_spec g u d :
  wf_grid g -> inBounds g u -> distance (cell g u) = Num d ->
  let g' := updateUnvisitedNeighbors u g in
  wf_grid g' /\ nrows g' = nrows g /\ ncols g' = ncols g /\
  (forall p, adjacent u p -> inBounds g p -> isVisited (cell g p) = false ->
             cell g' p = relaxedNode u d (cell g p)) /\
  (forall p, ~ (adjacent u p /\ inBounds g p /\ isVisited (cell g p) = false) ->
             cell g' p = cell g p).
Proof.
  intros Hwf Hu Hd. unfold updateUnvisitedNeighbors.
  destruct (dijkstra_relax_fold u d (getUnvisitedNeighbors u g) g)
    as (Hwf' & Hr & Hc & Hl & Hnl); try done.
  - rewrite elem_of_getUnvisitedNeighbors by done.
    intros [Ha _]. by apply adjacent_irrefl in Ha.
  - intros q. rewrite elem_of_getUnvisitedNeighbors by done. tauto.
  - split_and!; try done.
    + intros p Ha Hb Hv. apply Hl. by apply elem_of_getUnvisitedNeighbors.
    + intros p Hp. apply Hnl. by rewrite elem_of_getUnvisitedNeighbors.
Qed.

Lemma astar_relax_fold u d fin l : forall g,
  wf_grid g -> distance (cell g u) = Num d -> u ∉ l ->
  (forall q, q ∈ l -> inBounds g q) ->
  let g' := foldl (fun g' neighbor =>
     let tentativeDistance := num_plus (distance (cell g' u)) 1 in
     if num_ltb tentativeDistance (distance (cell g' neighbor)) then
       let g1 := update g' neighbor (set_previousNode (Some u)) in
       let g2 := update g1 neighbor (set_distance tentativeDistance) in
       update g2 neighbor
         (set_totalDistance
            (num_plus (distance (cell g2 neighbor))
                      (manhattanDistance g2 neighbor fin)))
     else g') g l in
  wf_grid g' /\ nrows g' = nrows g /\ ncols g' = ncols g /\
  forall p,
    (p ∈ l /\ num_ltb (Num (d + 1)) (distance (cell g p)) = true /\
     exists h, cell g' p = relaxedNodeAstar u d h (cell g p)) \/
    ((p ∉ l \/ num_ltb (Num (d + 1)) (distance (cell g p)) = false) /\
     cell g' p = cell g p).
Proof.
  match goal with |- context [foldl ?f] => set (F := f) end.
  induction l as [|q l IH]; intros g Hwf Hd Hu Hin g'; subst g'.
  { split_and!; try done. intros p. right. split; [|done]. left.
    by intros ?%elem_of_nil. }
  change (foldl F g (q :: l)) with (foldl F (F g q) l).
  assert (inBounds g q) as Hq by (apply Hin; left).
  assert (q <> u) as Hqu by (intros ->; apply Hu; left).
  destruct (num_ltb (Num (d + 1)) (distance (cell g q))) eqn:Hlt.
  - set (g1 := update g q (set_previousNode (Some u))).
    set (g2 := update g1 q (set_distance (Num (d + 1)))).
    set (g3 := update g2 q
                 (set_totalDistance
                    (num_plus (distance (cell g2 q)) (manhattanDistance g2 q fin)))).
    assert (F g q = g3) as ->.
    { unfold F. rewrite Hd. simpl num_plus. by rewrite Hlt. }
    assert (wf_grid g1) as Hwf1 by (apply wf_update; auto with grid).
    assert (wf_grid g2) as Hwf2 by (apply wf_update; auto with grid).
    assert (wf_grid g3) as Hwf3 by (apply wf_update; auto with grid).
    assert (inBounds g1 q) as Hq1 by (by apply inBounds_update).
    assert (inBounds g2 q) as Hq2 by (by apply inBounds_update).
    assert (exists h, cell g3 q = relaxedNodeAstar u d h (cell g q)) as [h Hcq].
    { exists (manhattanDistance g2 q fin). unfold g3.
      rewrite cell_update_eq by done. unfold g2 at 1 3.
      rewrite cell_update_eq by done. unfold g1 at 1 2.
      rewrite cell_update_eq by done. by destruct (cell g q). }
    assert (forall p, p <> q -> cell g3 p = cell g p) as Hcp.
    { intros p Hp. unfold g3, g2, g1. by rewrite !cell_update_ne. }
    destruct (IH g3) as (Hwf' & Hr & Hc & Hall).
    + done.
    + rewrite Hcp by done. done.
    + intros Hul. apply Hu. by right.
    + intros p Hp. unfold g3, g2, g1. rewrite !inBounds_update. apply Hin. by right.
    + split; [done|]. split.
      { rewrite Hr. unfold g3, g2, g1. by rewrite !nrows_update. }
      split.
      { rewrite Hc. unfold g3, g2, g1. by rewrite !ncols_update. }
      intros p. destruct (decide (p = q)) as [->|Hne].
      * left. split; [left|]. split; [done|].
        destruct (Hall q) as [(_ & Hlt' & _)|(_ & ->)].
        -- rewrite Hcq in Hlt'. destruct (cell g q); simpl in Hlt'.
           apply Nat.ltb_lt in Hlt'. lia.
        -- by exists h.
      * destruct (Hall p) as [(Hpl & Hlt' & h' & Hh')|(Hpl & Hp')].
        -- left. rewrite Hcp in Hlt', Hh' by done. split; [by right|].
           split; [done|]. by exists h'.
        -- right. rewrite Hcp in Hpl, Hp' by done. split; [|done].
           destruct Hpl as [Hpl|Hpl]; [|by right]. left.
           by apply not_elem_of_cons.
  - assert (F g q = g) as ->.
    { unfold F. rewrite Hd. simpl num_plus. by rewrite Hlt. }
    destruct (IH g) as (Hwf' & Hr & Hc & Hall); try done.
    + intros Hul. apply Hu. by right.
    + intros p Hp. apply Hin. by right.
    + split_and!; try done. intros p.
      destruct (Hall p) as [(Hpl & Hlt' & Hh')|(Hpl & Hp')].
      * left. split; [by right|]. done.
      * right. split; [|done]. destruct Hpl as [Hpl|Hpl]; [|by right].
        destruct (decide (p = q)) as [->|Hne]; [by right|].
        left. by apply not_elem_of_cons.
Qed.

Lemma updateUnvisitedNeighborsAstar_spec g u d fin :
  wf_grid g -> inBounds g u -> distance (cell g u) = Num d ->
  let g' := updateUnvisitedNeighborsAstar u g fin in
  wf_grid g' /\ nrows g' = nrows g /\ ncols g' = ncols g /\
  forall p,
    (adjacent u p /\ inBounds g p /\ isVisited (cell g p) = false /\
     num_ltb (Num (d + 1)) (distance (cell g p)) = true /\
     exists h, cell g' p = relaxedNodeAstar u d h (cell g p)) \/
    (~ (adjacent u p /\ inBounds g p /\ isVisited (cell g p) = false /\
        num_ltb (Num (d + 1)) (distance (cell g p)) = true) /\
     cell g' p = cell g p).
Proof.
  intros Hwf Hu Hd. unfold updateUnvisitedNeighborsAstar.
  destruct (astar_relax_fold u d fin (getUnvisitedNeighbors u g) g)
    as (Hwf' & Hr & Hc & Hall); try done.
  - rewrite elem_of_getUnvisitedNeighbors by done.
    intros [Ha _]. by apply adjacent_irrefl in Ha.
  - intros q. rewrite elem_of_getUnvisitedNeighbors by done. tauto.
  - split_and!; try done. intros p.
    destruct (Hall p) as [(Hpl & Hlt & Hh)|(Hpl & Hp)].
    + left. apply elem_of_getUnvisitedNeighbors in Hpl; [|done..]. tauto.
    + right. split; [|done]. intros (Ha & Hb & Hv & Hlt).
      destruct Hpl as [Hpl|Hpl]; [|congruence].
      apply Hpl. by apply elem_of_getUnvisitedNeighbors.
Qed.

Lemma cell_out g p : wf_grid g -> ~ inBounds g p -> cell g p = plainNode p.1 p.2.
Proof.
  intros [Hrect _] Hnb. unfold cell.
  destruct (g !! p.1) as [r|] eqn:Hr; [|done].
  destruct (r !! p.2) as [n|] eqn:Hn; [|done].
  exfalso. apply Hnb. split.
  - by eapply lookup_lt_Some.
  - rewrite <- (Hrect _ _ Hr). by eapply lookup_lt_Some.
Qed.

(** ** The invariant of a search

    [g0] is the grid the search was called on, [s] its start node.  The
    search changes no wall and no dimension ([frame]); [Q] is
    [unvisitedNodes], [V] is [visitedNodesInOrder], and [W] are the
    finalized nodes whose neighbours have been relaxed. *)

Lemma frame_inBounds g0 g p : frame g0 g -> inBounds g p <-> inBounds g0 p.
Proof. intros (_ & Hr & Hc & _). unfold inBounds. by rewrite Hr, Hc. Qed.

Lemma frame_open g0 g p : frame g0 g -> open g p <-> open g0 p.
Proof.
  intros HF. unfold open. rewrite (frame_inBounds g0 g p HF).
  destruct HF as (_ & _ & _ & Hw). by rewrite Hw.
Qed.

Lemma linked_mono g g' s V V' v d :
  linked g s V v d ->
  previousNode (cell g' v) = previousNode (cell g v) ->
  (forall u, u ∈ V -> u ∈ V' /\ distance (cell g' u) = distance (cell g u)) ->
  linked g' s V' v d.
Proof.
  intros [(-> & -> & Hp)|(u & Hp & Hu & Ha & Hd & Hd1)] Hprev HV.
  - left. by rewrite Hprev.
  - right. exists u. destruct (HV u Hu) as [Hu' Hd']. rewrite Hprev, Hd'. done.
Qed.

Lemma elem_of_snoc {A : Type} (l : list A) (x y : A) :
  (y ∈ l ++ [x]) <-> (y ∈ l \/ y = x).
Proof. by rewrite elem_of_app, list_elem_of_singleton. Qed.

Section SearchInv.
Variable g0 : Grid.
Variable s t : pos.
Variable key : Node -> num.
Variable sortNodes : Grid -> list pos -> list pos.
Hypothesis key_visited : forall b n, key (set_isVisited b n) = key n.
Hypothesis sort_perm : forall g Q, sortNodes g Q ≡ₚ Q.
Hypothesis sort_min : forall g Q u rest,
  sortNodes g Q = u :: rest -> forall x, x ∈ Q -> num_le (key (cell g u)) (key (cell g x)).

Lemma sorted_head g Q u rest :
  sortNodes g Q = u :: rest ->
  (forall p, (p ∈ Q) <-> (p = u \/ p ∈ rest)) /\ (NoDup Q -> (u ∉ rest) /\ NoDup rest).
Proof using sort_perm.
  clear t.
  intros Hs. pose proof (sort_perm g Q) as HP. rewrite Hs in HP. split.
  - intros p. rewrite <- HP. apply elem_of_cons.
  - intros Hnd. rewrite <- HP in Hnd. by apply NoDup_cons.
Qed.

Lemma inv_skip_wall g Q V u rest :
  searchInv g0 s key g Q V V -> sortNodes g Q = u :: rest ->
  isWall (cell g u) = true -> searchInv g0 s key g rest V V.
Proof using sort_perm.
  clear t.
  intros [] Hs Hw. destruct (sorted_head _ _ _ _ Hs) as [HQ Hnd].
  destruct (Hnd inv_Q_nodup0) as [Hur Hndr].
  constructor; try done.
  - intros p Hp. apply inv_Q_bounds0, HQ. by right.
  - intros p Hp. destruct (inv_open0 p Hp) as [HpQ|HpV]; [|by right].
    apply HQ in HpQ as [->|HpQ]; [|by left].
    destruct Hp as [_ Hp]. destruct inv_frame0 as (_ & _ & _ & HW).
    rewrite <- HW in Hp. congruence.
  - intros p Hp HpQ. apply (inv_V_Q0 p Hp), HQ. by right.
Qed.

Lemma inv_visit g Q V u rest d :
  searchInv g0 s key g Q V V -> sortNodes g Q = u :: rest ->
  isWall (cell g u) = false -> distance (cell g u) = Num d ->
  searchInv g0 s key (update g u (set_isVisited true)) rest (V ++ [u]) V.
Proof using key_visited sort_perm.
  clear t.
  intros [] Hs Hw Hd. destruct (sorted_head _ _ _ _ Hs) as [HQ Hnd].
  destruct (Hnd inv_Q_nodup0) as [Hur Hndr].
  assert (u ∈ Q) as HuQ by (apply HQ; by left).
  assert (inBounds g0 u) as Hu0 by (by apply inv_Q_bounds0).
  assert (inBounds g u) as Hu by (by apply (frame_inBounds g0 g u)).
  assert (u ∉ V) as HuV by (intros HuV; by apply (inv_V_Q0 u HuV)).
  pose proof inv_frame0 as (Hwf & Hr & Hc & HW).
  set (g1 := update g u (set_isVisited true)).
  assert (forall p, distance (cell g1 p) = distance (cell g p) /\
                    previousNode (cell g1 p) = previousNode (cell g p) /\
                    isWall (cell g1 p) = isWall (cell g p) /\
                    key (cell g1 p) = key (cell g p) /\
                    isVisited (cell g1 p) =
                      if decide (p = u) then true else isVisited (cell g p)) as H1.
  { intros p. unfold g1. destruct (decide (p = u)) as [->|Hne].
    - rewrite cell_update_eq by done. rewrite key_visited. by destruct (cell g u).
    - by rewrite cell_update_ne. }
  assert (forall p x, linked g s V p x -> linked g1 s (V ++ [u]) p x) as Hlink.
  { intros p x Hl. eapply linked_mono; [done|apply H1|].
    intros q Hq. split; [apply elem_of_app; by left|apply H1]. }
  constructor.
  - split; [apply wf_update; auto with grid|]. split_and!.
    + unfold g1. by rewrite nrows_update.
    + unfold g1. by rewrite ncols_update.
    + intros p. destruct (H1 p) as (_ & _ & -> & _). apply HW.
  - done.
  - intros p Hp. apply inv_Q_bounds0, HQ. by right.
  - intros p Hp. rewrite elem_of_app, list_elem_of_singleton.
    destruct (inv_open0 p Hp) as [HpQ|HpV]; [|tauto].
    apply HQ in HpQ. tauto.
  - intros p Hp. destruct (H1 p) as (_ & _ & _ & _ & ->).
    rewrite elem_of_app, list_elem_of_singleton.
    destruct (decide (p = u)) as [->|Hne]; [tauto|].
    rewrite (inv_visited0 p Hp). tauto.
  - intros p [Hp| ->]%elem_of_snoc; [|done].
    intros HpQ. apply (inv_V_Q0 p Hp), HQ. by right.
  - apply NoDup_app. split_and!; [done| |apply NoDup_singleton].
    intros p Hp Hp'%list_elem_of_singleton. by subst.
  - intros v [Hv| ->]%elem_of_snoc.
    + destruct (inv_chain0 v Hv) as (Ho & x & Hx & Hl). split; [done|].
      exists x. destruct (H1 v) as (-> & _). split; [done|]. by apply Hlink.
    + split.
      { split; [done|]. by rewrite <- HW. }
      exists d. destruct (H1 u) as (-> & Hp1 & _). split; [done|].
      destruct (decide (u = s)) as [->|Hus].
      * destruct (inv_start0 HuV) as [Hd0 Hp0]. left. split_and!; try done.
        -- congruence.
        -- by rewrite Hp1.
      * destruct (inv_tentative0 u d Hu0 HuV Hus Hd) as (u0 & Hp0 & Hu0V & Ha & Hd0 & Hd1).
        right. exists u0. rewrite Hp1. split_and!; try done.
        -- apply elem_of_app. by left.
        -- by destruct (H1 u0) as (-> & _).
  - right. destruct inv_start_first0 as [->|HsV].
    + simpl. apply list_elem_of_singleton.
      destruct (decide (u = s)) as [->|Hus]; [done|].
      destruct (inv_tentative0 u d Hu0 HuV Hus Hd) as (u0 & _ & Hu0V & _).
      by apply elem_of_nil in Hu0V.
    + apply elem_of_app. by left.
  - intros HsV. destruct (H1 s) as (-> & -> & _). apply inv_start0.
    intros ?. apply HsV, elem_of_app. by left.
  - intros p x Hp HpV Hps Hx. destruct (H1 p) as (Hd1 & Hp1 & _).
    rewrite Hd1 in Hx. rewrite Hp1.
    assert (p ∉ V) as HpV' by (intros ?; apply HpV, elem_of_app; by left).
    destruct (inv_tentative0 p x Hp HpV' Hps Hx) as (u0 & Hp0 & Hu0V & Ha & Hd0 & Hx1).
    exists u0. split_and!; try done.
    + apply elem_of_app. by left.
    + by destruct (H1 u0) as (-> & _).
  - intros p Hp. destruct (H1 p) as (-> & _ & _ & -> & _). by apply inv_key0.
  - intros v q Hv Ha Hq. destruct (H1 q) as (-> & _).
    destruct (inv_relaxed0 v q Hv Ha Hq) as [HqV|Hx]; [|by right].
    left. apply elem_of_app. by left.
Qed.
Lemma inv_relax g1 rest V u d g' :
  searchInv g0 s key g1 rest (V ++ [u]) V ->
  distance (cell g1 u) = Num d -> relaxes key g1 u d g' ->
  searchInv g0 s key g' rest (V ++ [u]) (V ++ [u]).
Proof using Type.
  clear t.
  intros [] Hd (Hwf' & Hr' & Hc' & Hall).
  pose proof inv_frame0 as (Hwf & Hr & Hc & HW).
  assert (u ∈ V ++ [u]) as HuV by (apply elem_of_snoc; by right).
  assert (inBounds g0 u) as Hu0 by (by apply inv_chain0).
  assert (forall p, p ∈ V ++ [u] -> cell g' p = cell g1 p) as Hvis.
  { intros p Hp. destruct (Hall p) as [[-> _]|(_ & Hb & Hv & _)]; [done|].
    apply (frame_inBounds g0 g1 p inv_frame0) in Hb.
    apply (inv_visited0 p Hb) in Hp. congruence. }
  assert (forall p, inBounds g0 p -> p ∉ V ++ [u] -> isVisited (cell g1 p) = false)
    as Hunvis.
  { intros p Hp HpV. destruct (isVisited (cell g1 p)) eqn:E; [|done].
    by apply (inv_visited0 p Hp) in E. }
  assert (forall p x, p ∈ V ++ [u] -> linked g1 s (V ++ [u]) p x ->
                      linked g' s (V ++ [u]) p x) as Hlink.
  { intros p x Hp Hl. eapply linked_mono; [done|by rewrite Hvis|].
    intros q Hq. split; [done|by rewrite Hvis]. }
  constructor.
  - split; [done|]. split_and!; try congruence.
    intros p. rewrite <- HW.
    destruct (Hall p) as [[-> _]|(_ & _ & _ & _ & _ & _ & -> & _)]; done.
  - done.
  - done.
  - done.
  - intros p Hp. rewrite <- (inv_visited0 p Hp).
    destruct (Hall p) as [[-> _]|(_ & _ & Hv & _ & _ & _ & _ & Hv')]; [done|].
    rewrite Hv, Hv'. done.
  - done.
  - done.
  - intros v Hv. destruct (inv_chain0 v Hv) as (Ho & x & Hx & Hl).
    split; [done|]. exists x. rewrite (Hvis v Hv). split; [done|]. by apply Hlink.
  - done.
  - intros HsV. destruct inv_start_first0 as [E|HsV']; [|done].
    by destruct V.
  - intros p x Hp HpV Hps Hx.
    destruct (Hall p) as [[E _]|(Ha & _ & _ & Hd' & Hp' & _)].
    + rewrite E in Hx |- *.
      destruct (inv_tentative0 p x Hp HpV Hps Hx) as (u0 & Hp0 & Hu0V & Ha & Hd0 & Hx1).
      exists u0. split_and!; try done. by rewrite Hvis.
    + exists u. rewrite Hd' in Hx. injection Hx as <-.
      split_and!; try done; [|lia].
      rewrite (Hvis u HuV), Hd. f_equal. lia.
  - intros p Hp.
    destruct (Hall p) as [[-> _]|(_ & _ & _ & Hd' & _ & Hk & _)].
    + by apply inv_key0.
    + by rewrite Hk, Hd'.
  - intros v q Hv Ha Hq.
    destruct (decide (q ∈ V ++ [u])) as [HqV|HqV]; [by left|]. right.
    destruct (Hall q) as [[E Hfin]|(_ & _ & _ & Hd' & _)]; [|by eauto].
    rewrite E. apply elem_of_snoc in Hv as [Hv| ->].
    + destruct (inv_relaxed0 v q Hv Ha Hq) as [?|?]; done.
    + apply Hfin; [done| |by apply Hunvis].
      by apply (frame_inBounds g0 g1 q inv_frame0).
Qed.

Lemma post_finish g V :
  searchInv g0 s key g [] V V \/ (exists Q W, searchInv g0 s key g Q V W /\ t ∈ V) \/
  (exists Q u rest, searchInv g0 s key g Q V V /\ sortNodes g Q = u :: rest /\
     isWall (cell g u) = false /\ isInfinity (key (cell g u)) = true) ->
  searchPost g0 s t g V.
Proof using sort_min.
  intros [HI|[(Q & W & HI & Ht)|(Q & u & rest & HI & Hs & Hw & Hk)]].
  - destruct HI. constructor; try done. right. split.
    + intros Ho. destruct (inv_open0 s Ho) as [?%elem_of_nil|?]; done.
    + intros v q Hv Ha Ho.
      destruct (inv_open0 q Ho) as [?%elem_of_nil|?]; done.
  - destruct HI. constructor; try done. by left.
  - destruct HI. constructor; try done. right.
    assert (forall p, p ∈ Q -> distance (cell g p) = Infinity) as Hinf.
    { intros p Hp. pose proof (sort_min g Q u rest Hs p Hp) as Hle.
      pose proof (inv_key0 p (inv_Q_bounds0 p Hp)) as Hkp.
      destruct (key (cell g u)); [done|].
      destruct (key (cell g p)); [done|].
      by destruct (distance (cell g p)). }
    split.
    + intros Ho. destruct (inv_open0 s Ho) as [HsQ|?]; [|done].
      destruct (decide (s ∈ V)) as [?|HsV]; [done|].
      destruct (inv_start0 HsV) as [Hd _]. rewrite (Hinf s HsQ) in Hd. done.
    + intros v q Hv Ha Ho.
      destruct (inv_open0 q Ho) as [HqQ|?]; [|done].
      destruct (inv_relaxed0 v q Hv Ha (proj1 Ho)) as [?|[x Hx]]; [done|].
      rewrite (Hinf q HqQ) in Hx. done.
Qed.
End SearchInv.

(** A search run from an invariant state ends, and leaves [searchPost]. *)
Section SearchRuns.
Variable hasElement : pos -> bool.
Variable g0 : Grid.
Variable s t : pos.
Variable key : Node -> num.
Variable sortNodes : Grid -> list pos -> list pos.
Variable relax : pos -> Grid -> Grid.
Hypothesis key_visited : forall b n, key (set_isVisited b n) = key n.
Hypothesis sort_perm : forall g Q, sortNodes g Q ≡ₚ Q.
Hypothesis sort_min : forall g Q u rest,
  sortNodes g Q = u :: rest -> forall x, x ∈ Q -> num_le (key (cell g u)) (key (cell g x)).
Hypothesis relax_ok : forall g1 u d,
  wf_grid g1 -> inBounds g1 u -> distance (cell g1 u) = Num d ->
  relaxes key g1 u d (relax u g1).

Lemma popped_distance g Q V u rest :
  searchInv g0 s key g Q V V -> sortNodes g Q = u :: rest ->
  isInfinity (key (cell g u)) = false ->
  inBounds g0 u /\ exists d, distance (cell g u) = Num d.
Proof using sort_perm.
  intros HI Hs Hk.
  assert (inBounds g0 u) as Hu.
  { apply (inv_Q_bounds _ _ _ _ _ _ _ HI). rewrite <- (sort_perm g Q), Hs. by left. }
  split; [done|]. pose proof (inv_key _ _ _ _ _ _ _ HI u Hu) as E.
  rewrite Hk in E. destruct (distance (cell g u)) as [d|]; [by exists d|done].
Qed.

Lemma visited_then_relaxed g Q V u rest :
  searchInv g0 s key g Q V V -> sortNodes g Q = u :: rest ->
  isWall (cell g u) = false -> isInfinity (key (cell g u)) = false ->
  searchInv g0 s key (relax u (update g u (set_isVisited true))) rest
            (V ++ [u]) (V ++ [u]).
Proof using key_visited sort_perm relax_ok.
  intros HI Hs Hw Hk.
  destruct (popped_distance g Q V u rest HI Hs Hk) as (Hu & d & Hd).
  pose proof (inv_visit g0 s key sortNodes key_visited sort_perm
                g Q V u rest d HI Hs Hw Hd) as HI1.
  pose proof (inv_frame _ _ _ _ _ _ _ HI1) as HF1.
  assert (distance (cell (update g u (set_isVisited true)) u) = Num d) as Hd1.
  { destruct (inv_frame _ _ _ _ _ _ _ HI) as (Hwf & _).
    rewrite cell_update_eq; [by destruct (cell g u)|done|].
    by apply (frame_inBounds g0 g u (inv_frame _ _ _ _ _ _ _ HI)). }
  eapply inv_relax; [done|done|].
  apply relax_ok; [apply HF1| |done].
  by apply (frame_inBounds g0 _ u HF1).
Qed.

Lemma search_runs cls wait fuel g Q log :
  searchInv g0 s key g Q [] [] -> length Q <= fuel ->
  exists g' V log',
    searchLoop hasElement sortNodes key relax cls wait t fuel g Q [] log
    = Some (g', V, log') /\ searchPost g0 s t g' V.
Proof using key_visited sort_perm sort_min relax_ok.
  intros HI Hlen.
  apply (searchLoop_rule hasElement sortNodes key relax t sort_perm
           (fun g Q V => searchInv g0 s key g Q V V) (searchPost g0 s t));
    try done.
  - intros g1 V HI1. apply (post_finish g0 s t key sortNodes sort_min). by left.
  - intros g1 Q1 V u rest HI1 Hs Hw.
    by apply (inv_skip_wall g0 s key sortNodes sort_perm g1 Q1 V u rest).
  - intros g1 Q1 V u rest HI1 Hs Hw Hk.
    apply (post_finish g0 s t key sortNodes sort_min). right. right.
    by exists Q1, u, rest.
  - intros g1 Q1 V u rest HI1 Hs Hw Hk ->.
    destruct (popped_distance g1 Q1 V t rest HI1 Hs Hk) as (Hu & d & Hd).
    apply (post_finish g0 s t key sortNodes sort_min). right. left.
    exists rest, V. split.
    + by apply (inv_visit g0 s key sortNodes key_visited sort_perm g1 Q1 V t rest d).
    + apply elem_of_snoc. by right.
  - intros g1 Q1 V u rest HI1 Hs Hw Hk _.
    by apply (visited_then_relaxed g1 Q1 V u rest).
Qed.
End SearchRuns.

(** The state a search starts its loop in. *)
Lemma init_inv g0 s key g Q :
  frame g0 g -> inBounds g0 s ->
  NoDup Q -> (forall p, (p ∈ Q) <-> inBounds g0 p) ->
  (forall p, inBounds g0 p -> isVisited (cell g p) = false) ->
  (forall p, inBounds g0 p -> p <> s -> distance (cell g p) = Infinity) ->
  distance (cell g s) = Num 0 -> previousNode (cell g s) = None ->
  (forall p, inBounds g0 p ->
             isInfinity (key (cell g p)) = isInfinity (distance (cell g p))) ->
  searchInv g0 s key g Q [] [].
Proof.
  intros HF Hs HQ1 HQ2 Hv Hinf Hd Hp Hk. pose proof HF as (Hwf & _).
  constructor; try done.
  - intros p Hp'. by apply HQ2.
  - intros p [Hp' _]. left. by apply HQ2.
  - intros p Hp'. rewrite (Hv p Hp'), elem_of_nil. done.
  - by intros p ?%elem_of_nil.
  - apply NoDup_nil_2.
  - by intros p ?%elem_of_nil.
  - by left.
  - intros p d Hp' _ Hps Hd'. rewrite (Hinf p Hp' Hps) in Hd'. done.
  - by intros v q ?%elem_of_nil.
Qed.

Lemma foldl_each (step : Grid -> pos -> Grid) (P : pos -> Node -> Node -> Prop) :
  (forall g p, wf_grid g -> inBounds g p ->
     wf_grid (step g p) /\ nrows (step g p) = nrows g /\ ncols (step g p) = ncols g /\
     (forall q, q <> p -> cell (step g p) q = cell g q) /\
     P p (cell g p) (cell (step g p) p)) ->
  forall l g, wf_grid g -> NoDup l -> (forall p, p ∈ l -> inBounds g p) ->
  wf_grid (foldl step g l) /\
  nrows (foldl step g l) = nrows g /\ ncols (foldl step g l) = ncols g /\
  (forall q, q ∉ l -> cell (foldl step g l) q = cell g q) /\
  (forall q, q ∈ l -> P q (cell g q) (cell (foldl step g l) q)).
Proof.
  intros Hstep. induction l as [|p l IH]; intros g Hwf Hnd Hin; simpl.
  { split_and!; try done. by intros q ?%elem_of_nil. }
  apply NoDup_cons in Hnd as [Hpl Hnd].
  destruct (Hstep g p Hwf) as (Hwf1 & Hr1 & Hc1 & Hne1 & HP1); [apply Hin; by left|].
  destruct (IH (step g p) Hwf1 Hnd) as (Hwf' & Hr' & Hc' & Hnl & Hl).
  { intros q Hq. unfold inBounds. rewrite Hr1, Hc1. apply Hin. by right. }
  split_and!; try congruence.
  - intros q [Hqp Hql]%not_elem_of_cons. rewrite Hnl by done. by apply Hne1.
  - intros q [->|Hq]%elem_of_cons.
    + by rewrite Hnl.
    + assert (q <> p) as Hqp by (intros ->; done).
      specialize (Hl q Hq). by rewrite Hne1 in Hl.
Qed.

Lemma inBounds_update_2 g p f q : inBounds g q -> inBounds (update g p f) q.
Proof. by rewrite inBounds_update. Qed.

#[global] Hint Resolve inBounds_update_2 : grid.

Ltac cells :=
  repeat first
    [ rewrite cell_update_eq by (auto 12 with grid)
    | rewrite cell_update_ne by done ].

(** ** A-star: the loop from its first state *)

Lemma sortNodesByTotalDistance_min g Q u rest :
  sortNodesByTotalDistance g Q = u :: rest ->
  forall x, x ∈ Q -> num_le (totalDistance (cell g u)) (totalDistance (cell g x)).
Proof.
  intros Hs. apply (sortBy_head_min (fun p => totalDistance (cell g p)) Q u rest Hs).
Qed.

Lemma astar_relaxes fin g1 u d :
  wf_grid g1 -> inBounds g1 u -> distance (cell g1 u) = Num d ->
  relaxes totalDistance g1 u d (updateUnvisitedNeighborsAstar u g1 fin).
Proof.
  intros Hwf Hu Hd.
  destruct (updateUnvisitedNeighborsAstar_spec g1 u d fin Hwf Hu Hd)
    as (Hwf' & Hr & Hc & Hall).
  split_and!; try done. intros p.
  destruct (Hall p) as [(Ha & Hb & Hv & Hlt & h & ->)|(Hn & ->)].
  - right. split_and!; try done; by destruct (cell g1 p).
  - left. split; [done|]. intros Ha Hb Hv.
    destruct (distance (cell g1 p)) as [x|] eqn:E; [by exists x|].
    exfalso. apply Hn. rewrite ?E. done.
Qed.

Lemma astarReset_step s fin g p :
  wf_grid g -> inBounds g p ->
  wf_grid (astarReset s fin g p) /\
  nrows (astarReset s fin g p) = nrows g /\ ncols (astarReset s fin g p) = ncols g /\
  (forall q, q <> p -> cell (astarReset s fin g p) q = cell g q) /\
  (if decide (p = s) then cell (astarReset s fin g p) p = cell g p
   else exists h, cell (astarReset s fin g p) p =
     set_heuristic h (set_isVisited false (set_previousNode None
       (set_totalDistance Infinity (set_distance Infinity (cell g p)))))).
Proof.
  intros Hwf Hp. unfold astarReset. destruct (decide (p = s)) as [->|Hne].
  { by split_and!. }
  split_and!.
  - auto 12 with grid.
  - by rewrite !nrows_update.
  - by rewrite !ncols_update.
  - intros q Hq. by cells.
  - eexists. by cells.
Qed.

Section AstarRuns.
Variable hasElement : pos -> bool.
Variable grid : Grid.
Variable s t : pos.
Hypothesis grid_wf : wf_grid grid.
Hypothesis s_in : inBounds grid s.

Lemma astar_runs speed isSecondPhase :
  exists g' V log,
    astar hasElement grid s t speed isSecondPhase = Some (g', V, log) /\
    searchPost grid s t g' V.
Proof using grid_wf s_in.
  unfold astar.
  set (g1 := foldl (astarReset s t) grid (getAllNodes grid)).
  destruct (foldl_each (astarReset s t)
              (fun p n n' =>
                 if decide (p = s) then n' = n
                 else exists h, n' =
                   set_heuristic h (set_isVisited false (set_previousNode None
                     (set_totalDistance Infinity (set_distance Infinity n)))))
              (astarReset_step s t) (getAllNodes grid) grid grid_wf
              (NoDup_getAllNodes grid))
    as (Hwf1 & Hr1 & Hc1 & _ & Hin1).
  { intros p. by apply elem_of_getAllNodes. }
  fold g1 in Hwf1, Hr1, Hc1, Hin1.
  assert (inBounds g1 s) as Hs1 by (unfold inBounds; by rewrite Hr1, Hc1).
  set (g2 := update g1 s (set_distance (Num 0))).
  set (g3 := update g2 s (set_heuristic (manhattanDistance g2 s t))).
  set (g4 := update g3 s (set_totalDistance (Num (heuristic (cell g3 s))))).
  set (g5 := update g4 s (set_previousNode None)).
  set (g6 := update g5 s (set_isVisited false)).
  assert (searchInv grid s totalDistance g6 (getAllNodes grid) [] []) as HI.
  { assert (forall p, p <> s -> cell g6 p = cell g1 p) as Hne.
    { intros p Hp. unfold g6, g5, g4, g3, g2. by cells. }
    assert (exists h h', cell g6 s =
              set_isVisited false (set_previousNode None (set_totalDistance (Num h')
                (set_heuristic h (set_distance (Num 0) (cell g1 s)))))) as (h & h' & Hs6).
    { eexists _, _. unfold g6, g5, g4. cells. unfold g3 at 1. cells.
      unfold g2 at 1. by cells. }
    assert (forall p, inBounds grid p -> p <> s ->
              exists h, cell g1 p =
                set_heuristic h (set_isVisited false (set_previousNode None
                  (set_totalDistance Infinity (set_distance Infinity (cell grid p))))))
      as Hreset.
    { intros p Hp Hps. specialize (Hin1 p). rewrite decide_False in Hin1 by done.
      apply Hin1. by apply elem_of_getAllNodes. }
    assert (cell g1 s = cell grid s) as Hs1'.
    { specialize (Hin1 s). rewrite decide_True in Hin1 by done.
      apply Hin1. by apply elem_of_getAllNodes. }
    apply init_inv; try done.
    - split; [unfold g6, g5, g4, g3, g2; auto 12 with grid|].
      split_and!.
      + unfold g6, g5, g4, g3, g2. by rewrite !nrows_update.
      + unfold g6, g5, g4, g3, g2. by rewrite !ncols_update.
      + intros p. destruct (decide (p = s)) as [->|Hps].
        * rewrite Hs6, Hs1'. by destruct (cell grid s).
        * rewrite Hne by done. destruct (decide (inBounds grid p)) as [Hp|Hp].
          -- destruct (Hreset p Hp Hps) as [h0 ->]. by destruct (cell grid p).
          -- rewrite !cell_out; try done. unfold inBounds. by rewrite Hr1, Hc1.
    - apply NoDup_getAllNodes.
    - intros p. by apply elem_of_getAllNodes.
    - intros p Hp. destruct (decide (p = s)) as [->|Hps].
      + rewrite Hs6. by destruct (cell g1 s).
      + rewrite Hne by done. destruct (Hreset p Hp Hps) as [h0 ->].
        by destruct (cell grid p).
    - intros p Hp Hps. rewrite Hne by done. destruct (Hreset p Hp Hps) as [h0 ->].
      by destruct (cell grid p).
    - rewrite Hs6. by destruct (cell g1 s).
    - rewrite Hs6. by destruct (cell g1 s).
    - intros p Hp. destruct (decide (p = s)) as [->|Hps].
      + rewrite Hs6. by destruct (cell g1 s).
      + rewrite Hne by done. destruct (Hreset p Hp Hps) as [h0 ->].
        by destruct (cell grid p). }
  destruct (decide (speed = "instant")).
  - apply (search_runs hasElement grid s t totalDistance sortNodesByTotalDistance
             (fun node g => updateUnvisitedNeighborsAstar node g t)); try done.
    + apply sortNodesByTotalDistance_perm.
    + apply sortNodesByTotalDistance_min.
    + intros. by apply astar_relaxes.
  - apply (search_runs hasElement grid s t totalDistance sortNodesByTotalDistance
             (fun node g => updateUnvisitedNeighborsAstar node g t)); try done.
    + apply sortNodesByTotalDistance_perm.
    + apply sortNodesByTotalDistance_min.
    + intros. by apply astar_relaxes.
Qed.
End AstarRuns.

(** ** What [searchPost] gives *)

Lemma isPath_snoc g l u v :
  isPath g l -> last l = Some u -> adjacent u v -> open g v -> isPath g (l ++ [v]).
Proof.
  induction l as [|p l IH]; intros Hl Hlast Ha Ho; [done|].
  destruct l as [|q l].
  - simpl in *. injection Hlast as ->. tauto.
  - destruct Hl as (Hp & Hpq & Hl). split; [done|]. split; [done|].
    by apply IH.
Qed.

Lemma pathLoop_chain g0 s t g V d : forall v,
  searchPost g0 s t g V -> v ∈ V -> distance (cell g v) = Num d ->
  exists path,
    (forall fuel acc, d < fuel -> pathLoop fuel g (Some v) acc = Some (path ++ acc)) /\
    head path = Some s /\ last path = Some v /\ isPath g0 path /\
    length path = S d /\ walk g0 s v d.
Proof.
  induction d as [d IH] using lt_wf_ind. intros v HP Hv Hd.
  destruct (post_chain _ _ _ _ _ HP v Hv) as (Ho & d' & Hd' & Hl).
  assert (d' = d) as -> by congruence.
  destruct Hl as [(-> & -> & Hprev)|(u & Hprev & Hu & Ha & Hdu & Hd1)].
  - exists [s]. split_and!; try done.
    + intros [|fuel] acc Hf; [lia|]. simpl. rewrite Hprev. by destruct fuel.
    + by constructor.
  - destruct (IH (d - 1) ltac:(lia) u HP Hu Hdu)
      as (path & Hloop & Hhead & Hlast & Hpath & Hlen & Hwalk).
    exists (path ++ [v]). split_and!.
    + intros [|fuel] acc Hf; [lia|]. simpl. rewrite Hprev.
      rewrite Hloop by lia. by rewrite <- app_assoc.
    + destruct path; [done|]. done.
    + by rewrite last_snoc.
    + by eapply isPath_snoc.
    + rewrite length_app. simpl. lia.
    + replace d with (S (d - 1)) by lia. by eapply walk_step.
Qed.

Lemma visited_reachable g0 s t g V v :
  searchPost g0 s t g V -> v ∈ V -> reachable g0 s v.
Proof.
  intros HP Hv. destruct (post_chain _ _ _ _ _ HP v Hv) as (_ & d & Hd & _).
  destruct (pathLoop_chain g0 s t g V d v HP Hv Hd) as (_ & _ & _ & _ & _ & _ & Hw).
  by exists d.
Qed.

Lemma reachable_visited g0 s t g V p :
  searchPost g0 s t g V -> t ∉ V -> reachable g0 s p -> p ∈ V.
Proof.
  intros HP Ht [n Hw].
  destruct (post_exit _ _ _ _ _ HP) as [?|[Hs Hclosed]]; [done|].
  induction Hw as [Ho|p q n Hw IH Ha Ho]; [by apply Hs|].
  by apply (Hclosed p q).
Qed.


(** ** Dijkstra: levels and parity

    The relaxation of Dijkstra.js overwrites the distance of every
    unvisited neighbour.  On the grid the overwritten value is the one the
    node had: a finite distance of an unvisited node is the distance [m] of
    the last finalized node or [m + 1], and its parity is that of its
    Manhattan distance to the start, which differs between neighbours. *)

Lemma walk_open g s p n : walk g s p n -> open g p.
Proof. by destruct 1. Qed.

Lemma shortest_of_level g0 s g Q V m v x n :
  levelInv g0 s g Q V m -> v ∈ V -> distance (cell g v) = Num x ->
  walk g0 s v n -> x <= n.
Proof.
  intros [] Hv Hx Hw. destruct (decide (n <= m)) as [Hn|Hn].
  - destruct (lv_near0 v n Hw Hn) as (x' & Hx' & Hle). congruence.
  - pose proof (lv_V0 v x Hv Hx). lia.
Qed.

Lemma sortNodesByDistance_min g Q u rest :
  sortNodesByDistance g Q = u :: rest ->
  forall x, x ∈ Q -> num_le (distance (cell g u)) (distance (cell g x)).
Proof.
  intros Hs. apply (sortBy_head_min (fun p => distance (cell g p)) Q u rest Hs).
Qed.

Lemma dijkstra_relaxes g1 u d :
  wf_grid g1 -> inBounds g1 u -> distance (cell g1 u) = Num d ->
  relaxes distance g1 u d (updateUnvisitedNeighbors u g1).
Proof.
  intros Hwf Hu Hd.
  destruct (updateUnvisitedNeighbors_spec g1 u d Hwf Hu Hd)
    as (Hwf' & Hr & Hc & Hin & Hout).
  split_and!; try done. intros p.
  destruct (decide (adjacent u p /\ inBounds g1 p /\ isVisited (cell g1 p) = false))
    as [(Ha & Hb & Hv)|Hn].
  - right. rewrite (Hin p Ha Hb Hv). split_and!; try done; by destruct (cell g1 p).
  - left. rewrite (Hout p Hn). split; [done|]. intros. exfalso. by apply Hn.
Qed.

Section DijkstraLevels.
Variable g0 : Grid.
Variable s : pos.

Lemma level_skip_wall g Q V u rest m :
  sortNodesByDistance g Q = u :: rest ->
  levelInv g0 s g Q V m -> levelInv g0 s g rest V m.
Proof.
  intros Hs []. constructor; try done.
  intros q x Hq. apply lv_Q0. rewrite <- (sortNodesByDistance_perm g Q), Hs. by right.
Qed.

Lemma level_visit g Q V u rest m d :
  searchInv g0 s distance g Q V V -> parity s g -> levelInv g0 s g Q V m ->
  sortNodesByDistance g Q = u :: rest ->
  distance (cell g u) = Num d ->
  let g1 := update g u (set_isVisited true) in
  parity s g1 /\ levelInv g0 s g1 rest (V ++ [u]) d.
Proof.
  intros HI HP [] Hs Hd g1.
  assert (forall p, (p ∈ Q) <-> (p = u \/ p ∈ rest)) as HQ.
  { intros p. rewrite <- (sortNodesByDistance_perm g Q), Hs. apply elem_of_cons. }
  assert (forall p, distance (cell g1 p) = distance (cell g p)) as Hd1.
  { intros p. unfold g1. destruct (cell_update_cases g u (set_isVisited true) p)
      as [(-> & _ & ->)|(_ & ->)]; [apply HI| |done]. by destruct (cell g u). }
  assert (m <= d <= m + 1) as Hdm by (apply (lv_Q0 u d); [apply HQ; by left|done]).
  assert (forall q x, q ∈ Q -> distance (cell g q) = Num x -> d <= x) as Hmin.
  { intros q x Hq Hx. pose proof (sortNodesByDistance_min g Q u rest Hs q Hq) as Hle.
    by rewrite Hd, Hx in Hle. }
  split.
  { intros p x. rewrite Hd1. apply HP. }
  constructor.
  - intros v x [Hv| ->]%elem_of_snoc; rewrite Hd1; intros Hx.
    + pose proof (lv_V0 v x Hv Hx). lia.
    + assert (x = d) by congruence. lia.
  - intros q x Hq. rewrite Hd1. intros Hx.
    assert (q ∈ Q) as HqQ by (apply HQ; by right).
    pose proof (lv_Q0 q x HqQ Hx). pose proof (Hmin q x HqQ Hx). lia.
  - intros p n Hw Hn. rewrite Hd1.
    destruct (decide (n <= m)) as [Hnm|Hnm]; [by apply lv_near0|].
    assert (n = S m) as -> by lia. assert (d = S m) as -> by lia.
    inversion Hw as [|p' q' n' Hw' Ha Ho]; subst.
    destruct (lv_near0 p' m Hw' ltac:(lia)) as (x' & Hx' & Hle').
    assert (p' ∈ V) as Hp'V.
    { destruct (inv_open _ _ _ _ _ _ _ HI p' (walk_open _ _ _ _ Hw')) as [Hp'Q|?]; [|done].
      pose proof (Hmin p' x' Hp'Q Hx'). lia. }
    destruct (inv_relaxed _ _ _ _ _ _ _ HI p' p Hp'V Ha (proj1 Ho)) as [HpV|[x Hx]].
    + destruct (inv_chain _ _ _ _ _ _ _ HI p HpV) as (_ & x & Hx & _).
      exists x. split; [done|]. pose proof (lv_V0 p x HpV Hx). lia.
    + exists x. split; [done|].
      destruct (inv_open _ _ _ _ _ _ _ HI p Ho) as [HpQ|HpV].
      * pose proof (lv_Q0 p x HpQ Hx). lia.
      * pose proof (lv_V0 p x HpV Hx). lia.
Qed.

Lemma level_relax g1 rest V u d :
  searchInv g0 s distance g1 rest (V ++ [u]) V -> parity s g1 ->
  levelInv g0 s g1 rest (V ++ [u]) d ->
  distance (cell g1 u) = Num d ->
  let g' := updateUnvisitedNeighbors u g1 in
  parity s g' /\ levelInv g0 s g' rest (V ++ [u]) d.
Proof.
  intros HI HP [] Hd g'.
  pose proof (inv_frame _ _ _ _ _ _ _ HI) as HF. pose proof HF as (Hwf & _).
  assert (u ∈ V ++ [u]) as HuV by (apply elem_of_snoc; by right).
  assert (inBounds g1 u) as Hu.
  { apply (frame_inBounds g0 g1 u HF). by apply (inv_chain _ _ _ _ _ _ _ HI u HuV). }
  destruct (updateUnvisitedNeighbors_spec g1 u d Hwf Hu Hd)
    as (Hwf' & Hr & Hc & Hin & Hout). fold g' in Hwf', Hr, Hc, Hin, Hout.
  assert (forall p, cell g' p = cell g1 p \/
            (adjacent u p /\ inBounds g0 p /\ (p ∉ V ++ [u]) /\
             distance (cell g' p) = Num (d + 1))) as Hcases.
  { intros p.
    destruct (decide (adjacent u p /\ inBounds g1 p /\ isVisited (cell g1 p) = false))
      as [(Ha & Hb & Hv)|Hn]; [|left; by apply Hout].
    right. apply (frame_inBounds g0 g1 p HF) in Hb. split_and!; try done.
    - intros HpV. apply (inv_visited _ _ _ _ _ _ _ HI p Hb) in HpV. congruence.
    - rewrite (Hin p Ha); [by destruct (cell g1 p)|by apply (frame_inBounds g0 g1 p HF)|done]. }
  assert (forall p x, adjacent u p -> distance (cell g1 p) = Num x -> x <> d) as Hodd.
  { intros p x Ha Hx ->. destruct (HP p d Hx) as [k1 H1]. destruct (HP u d Hd) as [k2 H2].
    destruct u as [ur uc], p as [pr pc]. unfold adjacent in Ha. simpl in *. lia. }
  split.
  - intros p x Hx. destruct (Hcases p) as [E|(Ha & _ & _ & Hd')].
    + rewrite E in Hx. by apply HP.
    + rewrite Hd' in Hx. injection Hx as <-. destruct (HP u d Hd) as [k H2].
      destruct u as [ur uc], p as [pr pc]. unfold adjacent in Ha. simpl in *.
      destruct Ha as [[-> [-> | ->]]|[-> [-> | ->]]];
        first [exists k; lia | exists (S k); lia].
  - constructor.
    + intros v x Hv Hx. destruct (Hcases v) as [E|(_ & _ & HvV & _)]; [|done].
      rewrite E in Hx. by eapply lv_V0.
    + intros q x Hq Hx. destruct (Hcases q) as [E|(_ & _ & _ & Hd')].
      * rewrite E in Hx. by eapply lv_Q0.
      * rewrite Hd' in Hx. injection Hx as <-. lia.
    + intros p n Hw Hn. destruct (lv_near0 p n Hw Hn) as (x & Hx & Hle).
      exists x. split; [|done].
      destruct (Hcases p) as [E|(Ha & Hb & HpV & Hd')]; [by rewrite E|].
      destruct (inv_open _ _ _ _ _ _ _ HI p (walk_open _ _ _ _ Hw)) as [HpQ|?]; [|done].
      pose proof (lv_Q0 p x HpQ Hx). pose proof (Hodd p x Ha Hx). lia.
Qed.
End DijkstraLevels.

Lemma dijkstraReset_step g p :
  wf_grid g -> inBounds g p ->
  wf_grid (dijkstraReset g p) /\
  nrows (dijkstraReset g p) = nrows g /\ ncols (dijkstraReset g p) = ncols g /\
  (forall q, q <> p -> cell (dijkstraReset g p) q = cell g q) /\
  cell (dijkstraReset g p) p =
    set_isVisited false (set_previousNode None (set_distance Infinity (cell g p))).
Proof.
  intros Hwf Hp. unfold dijkstraReset. split_and!.
  - auto 12 with grid.
  - by rewrite !nrows_update.
  - by rewrite !ncols_update.
  - intros q Hq. by cells.
  - by cells.
Qed.

Section DijkstraRuns.
Variable hasElement : pos -> bool.
Variable grid : Grid.
Variable s t : pos.
Hypothesis grid_wf : wf_grid grid.
Hypothesis s_in : inBounds grid s.

Lemma dijkstra_loop_runs cls wait fuel g Q log :
  searchInv grid s distance g Q [] [] -> parity s g ->
  levelInv grid s g Q [] 0 -> length Q <= fuel ->
  exists g' V log',
    searchLoop hasElement sortNodesByDistance distance updateUnvisitedNeighbors
      cls wait t fuel g Q [] log = Some (g', V, log') /\
    searchPost grid s t g' V /\ shortest grid s g' V.
Proof using Type.
  clear grid_wf s_in.
  intros HI HP HL Hlen.
  pose proof (fun b n => eq_refl : distance (set_isVisited b n) = distance n) as Hkv.
  assert (sortNodesByDistance_min' : forall g Q u rest,
    sortNodesByDistance g Q = u :: rest ->
    forall x, x ∈ Q -> num_le (distance (cell g u)) (distance (cell g x)))
    by apply sortNodesByDistance_min.
  apply (searchLoop_rule hasElement sortNodesByDistance distance
           updateUnvisitedNeighbors t sortNodesByDistance_perm
           (fun g Q V => searchInv grid s distance g Q V V /\ parity s g /\
                         exists m, levelInv grid s g Q V m)
           (fun g V => searchPost grid s t g V /\ shortest grid s g V));
    try done.
  - intros g1 V (HI1 & HP1 & m & HL1). split.
    + apply (post_finish grid s t distance sortNodesByDistance
               sortNodesByDistance_min'). by left.
    + intros v x n. by apply (shortest_of_level grid s g1 [] V m).
  - intros g1 Q1 V u rest (HI1 & HP1 & m & HL1) Hs Hw. split_and!; try done.
    + by apply (inv_skip_wall grid s distance sortNodesByDistance
                  sortNodesByDistance_perm g1 Q1 V u rest).
    + exists m. by apply (level_skip_wall grid s g1 Q1 V u rest m).
  - intros g1 Q1 V u rest (HI1 & HP1 & m & HL1) Hs Hw Hk. split.
    + apply (post_finish grid s t distance sortNodesByDistance
               sortNodesByDistance_min'). right. right. by exists Q1, u, rest.
    + intros v x n. by apply (shortest_of_level grid s g1 Q1 V m).
  - intros g1 Q1 V u rest (HI1 & HP1 & m & HL1) Hs Hw Hk ->.
    destruct (popped_distance grid s distance sortNodesByDistance
                sortNodesByDistance_perm g1 Q1 V t rest HI1 Hs Hk) as (Hu & d & Hd).
    destruct (level_visit grid s g1 Q1 V t rest m d HI1 HP1 HL1 Hs Hd) as [HP2 HL2].
    split.
    + apply (post_finish grid s t distance sortNodesByDistance
               sortNodesByDistance_min'). right. left.
      exists rest, V. split.
      * by apply (inv_visit grid s distance sortNodesByDistance Hkv
                    sortNodesByDistance_perm g1 Q1 V t rest d).
      * apply elem_of_snoc. by right.
    + intros v x n. by apply (shortest_of_level grid s _ rest (V ++ [t]) d).
  - intros g1 Q1 V u rest (HI1 & HP1 & m & HL1) Hs Hw Hk _.
    destruct (popped_distance grid s distance sortNodesByDistance
                sortNodesByDistance_perm g1 Q1 V u rest HI1 Hs Hk) as (Hu & d & Hd).
    destruct (level_visit grid s g1 Q1 V u rest m d HI1 HP1 HL1 Hs Hd) as [HP2 HL2].
    pose proof (inv_visit grid s distance sortNodesByDistance Hkv
                  sortNodesByDistance_perm g1 Q1 V u rest d HI1 Hs Hw Hd) as HI2.
    assert (distance (cell (update g1 u (set_isVisited true)) u) = Num d) as Hd2.
    { destruct (inv_frame _ _ _ _ _ _ _ HI1) as (Hwf & _).
      rewrite cell_update_eq; [by destruct (cell g1 u)|done|].
      by apply (frame_inBounds grid g1 u (inv_frame _ _ _ _ _ _ _ HI1)). }
    destruct (level_relax grid s _ rest V u d HI2 HP2 HL2 Hd2) as [HP3 HL3].
    split_and!; try done.
    + apply (visited_then_relaxed grid s distance sortNodesByDistance
               updateUnvisitedNeighbors Hkv sortNodesByDistance_perm
               dijkstra_relaxes g1 Q1 V u rest); done.
    + by exists d.
  - split_and!; try done. by exists 0.
Qed.

Lemma dijkstra_runs speed isSecondPhase :
  exists g' V log,
    dijkstra hasElement grid s t speed isSecondPhase = Some (g', V, log) /\
    searchPost grid s t g' V /\ shortest grid s g' V.
Proof using grid_wf s_in.
  unfold dijkstra.
  set (g00 := update grid s (set_distance (Num 0))).
  assert (wf_grid g00) as Hwf0 by (unfold g00; auto with grid).
  assert (getAllNodes g00 = getAllNodes grid) as HQ by apply getAllNodes_update.
  rewrite HQ.
  set (g1 := foldl dijkstraReset g00 (getAllNodes grid)).
  destruct (foldl_each dijkstraReset
              (fun p n n' => n' = set_isVisited false (set_previousNode None
                                    (set_distance Infinity n)))
              dijkstraReset_step (getAllNodes grid) g00 Hwf0
              (NoDup_getAllNodes grid))
    as (Hwf1 & Hr1 & Hc1 & _ & Hin1).
  { intros p Hp. unfold g00. apply inBounds_update_2. by apply elem_of_getAllNodes. }
  fold g1 in Hwf1, Hr1, Hc1, Hin1.
  assert (nrows g1 = nrows grid) as Hr1' by (rewrite Hr1; apply nrows_update).
  assert (ncols g1 = ncols grid) as Hc1' by (rewrite Hc1; apply ncols_update).
  assert (inBounds g1 s) as Hs1 by (unfold inBounds; by rewrite Hr1', Hc1').
  set (g2 := update g1 s (set_distance (Num 0))).
  assert (forall p, inBounds grid p -> exists n,
            cell g1 p = set_isVisited false (set_previousNode None
                          (set_distance Infinity n)) /\
            isWall n = isWall (cell grid p)) as Hreset.
  { intros p Hp. exists (cell g00 p). split.
    - apply Hin1. by apply elem_of_getAllNodes.
    - unfold g00. destruct (cell_update_cases grid s (set_distance (Num 0)) p)
        as [(-> & _ & ->)|(_ & ->)]; [done| |done]. by destruct (cell grid s). }
  assert (forall p, p <> s -> cell g2 p = cell g1 p) as Hne.
  { intros p Hp. unfold g2. by cells. }
  assert (cell g2 s = set_distance (Num 0) (cell g1 s)) as Hs2.
  { unfold g2. by cells. }
  assert (forall p, inBounds grid p -> p <> s -> distance (cell g2 p) = Infinity) as Hinf.
  { intros p Hp Hps. rewrite Hne by done. destruct (Hreset p Hp) as (n & -> & _).
    by destruct n. }
  assert (distance (cell g2 s) = Num 0) as Hd0.
  { rewrite Hs2. by destruct (cell g1 s). }
  assert (frame grid g2) as HF.
  { split; [unfold g2; auto with grid|]. split_and!.
    - unfold g2. by rewrite nrows_update.
    - unfold g2. by rewrite ncols_update.
    - intros p. destruct (decide (inBounds grid p)) as [Hp|Hp].
      + destruct (Hreset p Hp) as (n & Hn & <-).
        destruct (decide (p = s)) as [->|Hps].
        * rewrite Hs2, Hn. by destruct n.
        * rewrite Hne, Hn by done. by destruct n.
      + rewrite !cell_out; try done; [unfold g2; auto with grid|].
        unfold g2. rewrite inBounds_update. unfold inBounds. by rewrite Hr1', Hc1'. }
  assert (searchInv grid s distance g2 (getAllNodes grid) [] []) as HI.
  { apply init_inv; try done.
    - apply NoDup_getAllNodes.
    - intros p. by apply elem_of_getAllNodes.
    - intros p Hp. destruct (Hreset p Hp) as (n & Hn & _).
      destruct (decide (p = s)) as [->|Hps].
      + rewrite Hs2, Hn. by destruct n.
      + rewrite Hne, Hn by done. by destruct n.
    - destruct (Hreset s s_in) as (n & Hn & _). rewrite Hs2, Hn. by destruct n. }
  assert (parity s g2) as HP.
  { intros p x Hx. destruct (decide (p = s)) as [->|Hps].
    - rewrite Hd0 in Hx. injection Hx as <-. exists (s.1 + s.2). lia.
    - destruct (decide (inBounds grid p)) as [Hp|Hp].
      + rewrite Hinf in Hx by done. done.
      + rewrite cell_out in Hx; [done|apply HF|].
        by rewrite (frame_inBounds grid g2 p HF). }
  assert (levelInv grid s g2 (getAllNodes grid) [] 0) as HL.
  { constructor.
    - by intros v x ?%elem_of_nil.
    - intros q x Hq Hx. destruct (decide (q = s)) as [->|Hqs].
      + rewrite Hd0 in Hx. injection Hx as <-. lia.
      + rewrite Hinf in Hx; [done| |done]. by apply elem_of_getAllNodes.
    - intros p n Hw Hn. assert (n = 0) as -> by lia.
      inversion Hw; subst. by exists 0. }
  destruct (decide (speed = "instant")); by apply dijkstra_loop_runs.
Qed.
End DijkstraRuns.

(** ** Test grids are well formed *)

Lemma makeGrid_lookup h w wall r c :
  r < h -> c < w ->
  cell (makeGrid h w wall) (r, c)
  = mkNode r c false false false (wall (r, c)) false Infinity Infinity 0 None.
Proof.
  intros Hr Hc. unfold cell, makeGrid. simpl.
  rewrite list_lookup_fmap, lookup_seq_lt by done. simpl.
  rewrite list_lookup_fmap, lookup_seq_lt by done. done.
Qed.

Lemma makeGrid_dims h w wall :
  nrows (makeGrid h w wall) = h /\ (0 < h -> ncols (makeGrid h w wall) = w).
Proof.
  unfold nrows, ncols, makeGrid. rewrite length_map, length_seq. split; [done|].
  intros Hh. destruct h; [lia|]. simpl. by rewrite length_map, length_seq.
Qed.

Lemma makeGrid_wf h w wall : wf_grid (makeGrid h w wall).
Proof.
  destruct (makeGrid_dims h w wall) as [Hr Hc]. split.
  - intros r l Hl. assert (r < h) as Hrh.
    { rewrite <- Hr. by eapply lookup_lt_Some. }
    rewrite Hc by lia. unfold makeGrid in Hl.
    rewrite list_lookup_fmap, lookup_seq_lt in Hl by done. simpl in Hl.
    injection Hl as <-. by rewrite length_map, length_seq.
  - intros [r c] [H1 H2]. simpl in *. rewrite Hr in H1. rewrite Hc in H2 by lia.
    by rewrite makeGrid_lookup.
Qed.

Lemma walk_from_open g s p n : walk g s p n -> open g s.
Proof. induction 1; done. Qed.

(** The cells reachable from the start can be listed: a search for a
    finish node outside the grid finalizes exactly them. *)
Lemma reachable_listed grid s :
  wf_grid grid -> inBounds grid s ->
  exists R, NoDup R /\ forall p, (p ∈ R) <-> reachable grid s p.
Proof.
  intros Hwf Hs.
  destruct (dijkstra_runs noPage grid s (nrows grid, 0) Hwf Hs "instant" false)
    as (g' & V & log & _ & HP & _).
  exists V. split; [apply HP|]. intros p. split.
  - by apply (visited_reachable grid s (nrows grid, 0) g' V).
  - apply (reachable_visited grid s (nrows grid, 0) g' V); [done|].
    intros Ht. destruct (post_chain _ _ _ _ _ HP _ Ht) as ([[Hb _] _] & _).
    simpl in Hb. lia.
Qed.

(** ** The claims about the two searches *)

Lemma post_path g0 s t g V :
  searchPost g0 s t g V -> inBounds g0 t -> isVisited (cell g t) = true ->
  exists path d,
    distance (cell g t) = Num d /\
    (forall fuel, d < fuel -> getNodesInShortestPathOrder fuel g t = Some path) /\
    head path = Some s /\ last path = Some t /\ isPath g0 path /\
    length path = S d /\ walk g0 s t d /\
    (length path = 1 -> previousNode (cell g t) = None).
Proof.
  intros HP Ht Hv. apply (post_visited _ _ _ _ _ HP t Ht) in Hv.
  destruct (post_chain _ _ _ _ _ HP t Hv) as (_ & d & Hd & Hl).
  destruct (pathLoop_chain g0 s t g V d t HP Hv Hd)
    as (path & Hloop & Hhead & Hlast & Hpath & Hlen & Hwalk).
  exists path, d. split_and!; try done.
  - intros fuel Hf. unfold getNodesInShortestPathOrder.
    rewrite (Hloop fuel [] Hf). by rewrite app_nil_r.
  - intros H1. destruct Hl as [(_ & _ & Hprev)|(u & _ & _ & _ & _ & Hd1)]; [done|lia].
Qed.

Lemma post_unreachable g0 s t g V :
  searchPost g0 s t g V -> ~ reachable g0 s t ->
  isVisited (cell g t) = false /\ NoDup V /\ forall p, (p ∈ V) <-> reachable g0 s p.
Proof.
  intros HP Hnr.
  assert (t ∉ V) as HtV.
  { intros HtV. apply Hnr. by apply (visited_reachable g0 s t g V). }
  split_and!.
  - destruct (isVisited (cell g t)) eqn:E; [|done].
    destruct (decide (inBounds g0 t)) as [Ht|Ht].
    + by apply (post_visited _ _ _ _ _ HP t Ht) in E.
    + rewrite cell_out in E; [done|apply HP|].
      by rewrite (frame_inBounds g0 g t (post_frame _ _ _ _ _ HP)).
  - apply HP.
  - intros p. split.
    + by apply (visited_reachable g0 s t g V).
    + by apply (reachable_visited g0 s t g V).
Qed.

(** C1. If the target is reachable from the start through open cells,
    [dijkstra] returns; following [previousNode] from the target ends at
    the start, and the nodes passed are a path of open, 4-adjacent cells
    from the start to the target that no walk undercuts (a shortest path,
    every step costing 1).  The returned list holds the finalized nodes,
    each once, and is the beginning of a list, without repetition, of the
    cells reachable from the start. *)
Theorem dijkstra_shortest_path hasElement grid startNode targetNode speed isSecondPhase :
  wf_grid grid -> reachable grid startNode targetNode ->
  exists g' visitedNodesInOrder log path d R,
    dijkstra hasElement grid startNode targetNode speed isSecondPhase
      = Some (g', visitedNodesInOrder, log) /\
    (forall fuel, d < fuel ->
       getNodesInShortestPathOrder fuel g' targetNode = Some path) /\
    head path = Some startNode /\ last path = Some targetNode /\
    isPath grid path /\ length path = S d /\
    (forall n, walk grid startNode targetNode n -> d <= n) /\
    NoDup visitedNodesInOrder /\
    (forall p, inBounds grid p ->
       (isVisited (cell g' p) = true) <-> (p ∈ visitedNodesInOrder)) /\
    NoDup R /\ (forall p, (p ∈ R) <-> reachable grid startNode p) /\
    visitedNodesInOrder `prefix_of` R.
Proof.
  intros Hwf [n0 Hw0].
  assert (inBounds grid startNode) as Hs by (by apply (walk_from_open _ _ _ _ Hw0)).
  assert (inBounds grid targetNode) as Ht by (by apply (walk_open _ _ _ _ Hw0)).
  destruct (dijkstra_runs hasElement grid startNode targetNode Hwf Hs speed isSecondPhase)
    as (g' & V & log & Hrun & HP & Hshort).
  assert (targetNode ∈ V) as HtV.
  { destruct (decide (targetNode ∈ V)) as [?|HtV]; [done|].
    apply (reachable_visited grid startNode targetNode g' V); [done..|].
    by exists n0. }
  assert (isVisited (cell g' targetNode) = true) as Hvis
    by (by apply (post_visited _ _ _ _ _ HP)).
  destruct (post_path grid startNode targetNode g' V HP Ht Hvis)
    as (path & d & Hd & Hloop & Hhead & Hlast & Hpath & Hlen & _ & _).
  destruct (reachable_listed grid startNode Hwf Hs) as (R0 & HR0 & HR0in).
  exists g', V, log, path, d, (V ++ filter (fun p => p ∉ V) R0).
  split_and!; try done.
  - intros n Hn. by apply (Hshort targetNode d n).
  - apply HP.
  - apply HP.
  - apply NoDup_app. split_and!.
    + apply HP.
    + intros p Hp [Hp' _]%list_elem_of_filter. done.
    + by apply NoDup_filter.
  - intros p. rewrite elem_of_app, list_elem_of_filter, HR0in. split.
    + intros [Hp|[_ Hp]]; [|done].
      by apply (visited_reachable grid startNode targetNode g' V).
    + intros Hp. destruct (decide (p ∈ V)); [by left|by right].
  - by eexists.
Qed.

(** C6. If the target is not reachable from the start, [dijkstra] and
    [astar] both return, the target is left unvisited, and the returned
    list holds, each once, exactly the cells reachable from the start
    through open cells. *)
Theorem unreachable_target hasElement grid startNode targetNode speed isSecondPhase :
  wf_grid grid -> inBounds grid startNode -> ~ reachable grid startNode targetNode ->
  (exists g' visitedNodesInOrder log,
     dijkstra hasElement grid startNode targetNode speed isSecondPhase
       = Some (g', visitedNodesInOrder, log) /\
     isVisited (cell g' targetNode) = false /\
     NoDup visitedNodesInOrder /\
     forall p, (p ∈ visitedNodesInOrder) <-> reachable grid startNode p) /\
  (exists g' visitedNodesInOrder log,
     astar hasElement grid startNode targetNode speed isSecondPhase
       = Some (g', visitedNodesInOrder, log) /\
     isVisited (cell g' targetNode) = false /\
     NoDup visitedNodesInOrder /\
     forall p, (p ∈ visitedNodesInOrder) <-> reachable grid startNode p).
Proof.
  intros Hwf Hs Hnr. split.
  - destruct (dijkstra_runs hasElement grid startNode targetNode Hwf Hs speed isSecondPhase)
      as (g' & V & log & Hrun & HP & _).
    exists g', V, log. split; [done|]. by apply (post_unreachable grid startNode).
  - destruct (astar_runs hasElement grid startNode targetNode Hwf Hs speed isSecondPhase)
      as (g' & V & log & Hrun & HP).
    exists g', V, log. split; [done|]. by apply (post_unreachable grid startNode).
Qed.

(** C8. After a search that reached the target ([isVisited] true),
    [getNodesInShortestPathOrder] returns a sequence from the start node to
    the target node, consecutive nodes 4-adjacent and none a wall; it has
    one node only when [previousNode] of the target is [null]. *)
Theorem reconstructed_path hasElement grid startNode targetNode speed isSecondPhase :
  wf_grid grid -> inBounds grid startNode -> inBounds grid targetNode ->
  (exists g' visitedNodesInOrder log,
     dijkstra hasElement grid startNode targetNode speed isSecondPhase
       = Some (g', visitedNodesInOrder, log) /\
     (isVisited (cell g' targetNode) = true ->
      exists path d,
        (forall fuel, d < fuel ->
           getNodesInShortestPathOrder fuel g' targetNode = Some path) /\
        head path = Some startNode /\ last path = Some targetNode /\
        isPath grid path /\
        (length path = 1 -> previousNode (cell g' targetNode) = None))) /\
  (exists g' visitedNodesInOrder log,
     astar hasElement grid startNode targetNode speed isSecondPhase
       = Some (g', visitedNodesInOrder, log) /\
     (isVisited (cell g' targetNode) = true ->
      exists path d,
        (forall fuel, d < fuel ->
           getNodesInShortestPathOrder fuel g' targetNode = Some path) /\
        head path = Some startNode /\ last path = Some targetNode /\
        isPath grid path /\
        (length path = 1 -> previousNode (cell g' targetNode) = None))).
Proof.
  intros Hwf Hs Ht. split.
  - destruct (dijkstra_runs hasElement grid startNode targetNode Hwf Hs speed isSecondPhase)
      as (g' & V & log & Hrun & HP & _).
    exists g', V, log. split; [done|]. intros Hv.
    destruct (post_path grid startNode targetNode g' V HP Ht Hv)
      as (path & d & _ & ? & ? & ? & ? & _ & _ & ?).
    by exists path, d.
  - destruct (astar_runs hasElement grid startNode targetNode Hwf Hs speed isSecondPhase)
      as (g' & V & log & Hrun & HP).
    exists g', V, log. split; [done|]. intros Hv.
    destruct (post_path grid startNode targetNode g' V HP Ht Hv)
      as (path & d & _ & ? & ? & ? & ? & _ & _ & ?).
    by exists path, d.
Qed.

Lemma walledRow_walk p n : walk walledRow (0, 0) p n -> p = (0, 0).
Proof.
  induction 1 as [Ho|p q n Hw IH Ha Ho]; [done|]. subst p.
  destruct q as [r c], Ho as [[Hr Hc] Hwall]. unfold adjacent in Ha.
  simpl in *. assert (r = 0) as -> by lia.
  assert (c = 1) as -> by lia. by vm_compute in Hwall.
Qed.

Lemma walledRow_unreachable : ~ reachable walledRow (0, 0) (0, 2).
Proof. intros [n Hw]. by apply walledRow_walk in Hw. Qed.

Lemma inBounds_compute g p :
  (p.1 <? nrows g) && (p.2 <? ncols g) = true -> inBounds g p.
Proof.
  intros [H1 H2]%andb_true_iff. split; by apply Nat.ltb_lt.
Qed.

Lemma dijkstra_shortest_path_witness :
  wf_grid (openGrid 2 2) /\ reachable (openGrid 2 2) (0, 0) (1, 1) /\
  exists g' visitedNodesInOrder log path,
    dijkstra noPage (openGrid 2 2) (0, 0) (1, 1) "instant" false
      = Some (g', visitedNodesInOrder, log) /\
    head path = Some (0, 0) /\ last path = Some (1, 1) /\ isPath (openGrid 2 2) path.
Proof.
  assert (wf_grid (openGrid 2 2)) as Hwf by apply makeGrid_wf.
  assert (forall p, inBounds (openGrid 2 2) p -> open (openGrid 2 2) p) as Hopen.
  { intros [r c] Hp. split; [done|]. destruct Hp as [Hr Hc]. simpl in Hr, Hc.
    unfold openGrid. by rewrite makeGrid_lookup. }
  assert (reachable (openGrid 2 2) (0, 0) (1, 1)) as Hreach.
  { exists 2. apply (walk_step _ _ (0, 1)).
    - apply (walk_step _ _ (0, 0)).
      + apply walk_start. by apply Hopen, inBounds_compute.
      + left. simpl. lia.
      + by apply Hopen, inBounds_compute.
    - right. simpl. lia.
    - by apply Hopen, inBounds_compute. }
  split; [done|]. split; [done|].
  destruct (dijkstra_shortest_path noPage (openGrid 2 2) (0, 0) (1, 1) "instant" false
              Hwf Hreach)
    as (g' & V & log & path & d & R & Hrun & _ & Hh & Hl & Hp & _).
  exists g', V, log, path. split_and!; assumption.
Defined.

Lemma unreachable_target_witness :
  wf_grid walledRow /\ inBounds walledRow (0, 0) /\
  ~ reachable walledRow (0, 0) (0, 2) /\
  exists g' visitedNodesInOrder log,
    astar noPage walledRow (0, 0) (0, 2) "fast" false
      = Some (g', visitedNodesInOrder, log) /\
    isVisited (cell g' (0, 2)) = false.
Proof.
  assert (wf_grid walledRow) as Hwf by apply makeGrid_wf.
  assert (inBounds walledRow (0, 0)) as Hs by (by apply inBounds_compute).
  split; [done|]. split; [done|]. split; [apply walledRow_unreachable|].
  destruct (unreachable_target noPage walledRow (0, 0) (0, 2) "fast" false
              Hwf Hs walledRow_unreachable)
    as [_ (g' & V & log & Hrun & Hv & _)].
  exists g', V, log. split; assumption.
Defined.

Lemma reconstructed_path_witness :
  wf_grid (openGrid 2 2) /\ inBounds (openGrid 2 2) (0, 0) /\
  inBounds (openGrid 2 2) (1, 1) /\
  exists g' visitedNodesInOrder log,
    astar noPage (openGrid 2 2) (0, 0) (1, 1) "instant" false
      = Some (g', visitedNodesInOrder, log).
Proof.
  assert (wf_grid (openGrid 2 2)) as Hwf by apply makeGrid_wf.
  assert (inBounds (openGrid 2 2) (0, 0)) as Hs by (by apply inBounds_compute).
  assert (inBounds (openGrid 2 2) (1, 1)) as Ht by (by apply inBounds_compute).
  split; [done|]. split; [done|]. split; [done|].
  destruct (reconstructed_path noPage (openGrid 2 2) (0, 0) (1, 1) "instant" false
              Hwf Hs Ht)
    as [_ (g' & V & log & Hrun & _)].
  exists g', V, log. assumption.
Defined.

(** A wall's search fields after a whole run of [dijkstra]: the wall of
    [walledRow] is left with distance 1 and the start as its
    [previousNode]. *)
Example wall_fields_after_dijkstra :
  exists g' V log,
    dijkstra noPage walledRow (0, 0) (0, 2) "instant" false = Some (g', V, log) /\
    V = [(0, 0)] /\ isWall (cell g' (0, 1)) = true /\
    distance (cell g' (0, 1)) = Num 1 /\ previousNode (cell g' (0, 1)) = Some (0, 0).
Proof. vm_compute. by eexists _, _, _. Qed.

(** The 'instant' form of [dijkstra] and its animated form differ on a page
    that has the elements: the instant form assigns another class and never
    waits. *)
Example instant_and_animated_logs :
  (snd <$> dijkstra (fun _ => true) (openGrid 1 3) (0, 0) (0, 2) "instant" false)
  = Some [ClassName 0 0 "node node-visited instant";
          ClassName 0 1 "node node-visited instant";
          ClassName 0 2 "node node-visited instant"] /\
  (snd <$> dijkstra (fun _ => true) (openGrid 1 3) (0, 0) (0, 2) "slow" false)
  = Some [ClassName 0 0 "node node-visited"; Timeout 50;
          ClassName 0 1 "node node-visited"; Timeout 50;
          ClassName 0 2 "node node-visited"].
Proof. by vm_compute. Qed.

(** C5, as stated, fails: on the open 5 by 5 grid from (0,0) to (4,4)
    [dijkstra] does not return 9 nodes. *)
Lemma open5_visited_not_9 :
  ~ exists g' visitedNodesInOrder log,
      dijkstra noPage (openGrid 5 5) (0, 0) (4, 4) "instant" false
        = Some (g', visitedNodesInOrder, log) /\
      length visitedNodesInOrder = 9.
Proof.
  intros (g' & V & log & Hrun & Hlen). vm_compute in Hrun.
  injection Hrun as <- <- <-. vm_compute in Hlen. discriminate.
Qed.

(** C5, amended. On the open 5 by 5 grid from (0,0) to (4,4), [dijkstra]
    returns all 25 nodes (the target is the one node at distance 8, and
    every node nearer is finalized before it); the reconstructed path has
    9 nodes (8 edges). *)
Theorem open5_visited_25_path_9 :
  exists g' visitedNodesInOrder log path,
    dijkstra noPage (openGrid 5 5) (0, 0) (4, 4) "instant" false
      = Some (g', visitedNodesInOrder, log) /\
    length visitedNodesInOrder = 25 /\
    getNodesInShortestPathOrder 25 g' (4, 4) = Some path /\
    length path = 9.
Proof. vm_compute. by eexists _, _, _, _. Qed.

(** ** C2: the comparison in the relaxation *)

(** C2, as stated, fails for Dijkstra.js: in the run below the relaxation
    of (1,1), finalized at distance 2, finds its neighbour (0,1) at
    distance 1, and assigns it 3 and a new [previousNode], though 2 + 1 is
    not less than 1: an update without the comparison, and a distance that
    increases within one search. *)
Lemma dijkstra_relaxes_without_comparing :
  searchLoop noPage sortNodesByDistance distance updateUnvisitedNeighbors
    "node node-visited instant" [] (0, 1) 4 cornerWall0 (getAllNodes cornerWall) [] []
  = searchLoop noPage sortNodesByDistance distance updateUnvisitedNeighbors
      "node node-visited instant" [] (0, 1) 1 cornerWall2 [(1, 1)] [(0, 0); (1, 0)] [] /\
  dijkstra noPage cornerWall (0, 0) (0, 1) "instant" false
  = Some (updateUnvisitedNeighbors (1, 1) cornerWall3, [(0, 0); (1, 0); (1, 1)], []) /\
  distance (cell cornerWall3 (1, 1)) = Num 2 /\
  distance (cell cornerWall3 (0, 1)) = Num 1 /\
  previousNode (cell cornerWall3 (0, 1)) = Some (0, 0) /\
  num_ltb (num_plus (distance (cell cornerWall3 (1, 1))) 1)
          (distance (cell cornerWall3 (0, 1))) = false /\
  distance (cell (updateUnvisitedNeighbors (1, 1) cornerWall3) (0, 1)) = Num 3 /\
  previousNode (cell (updateUnvisitedNeighbors (1, 1) cornerWall3) (0, 1)) = Some (1, 1).
Proof. by vm_compute. Qed.

Lemma astar_relax_infinity u fin l : forall g,
  distance (cell g u) = Infinity ->
  foldl (fun g' neighbor =>
     let tentativeDistance := num_plus (distance (cell g' u)) 1 in
     if num_ltb tentativeDistance (distance (cell g' neighbor)) then
       let g1 := update g' neighbor (set_previousNode (Some u)) in
       let g2 := update g1 neighbor (set_distance tentativeDistance) in
       update g2 neighbor
         (set_totalDistance
            (num_plus (distance (cell g2 neighbor))
                      (manhattanDistance g2 neighbor fin)))
     else g') g l = g.
Proof.
  induction l as [|q l IH]; intros g Hd; [done|].
  cbn [foldl]. rewrite Hd. cbn [num_plus num_ltb]. by apply IH.
Qed.

Lemma astar_relax_monotone g u fin :
  wf_grid g -> inBounds g u ->
  let g' := updateUnvisitedNeighborsAstar u g fin in
  wf_grid g' /\ nrows g' = nrows g /\ ncols g' = ncols g /\
  forall p, num_le (distance (cell g' p)) (distance (cell g p)).
Proof.
  intros Hwf Hu g'. destruct (distance (cell g u)) as [d|] eqn:Hd.
  - destruct (updateUnvisitedNeighborsAstar_spec g u d fin Hwf Hu Hd)
      as (Hwf' & Hr & Hc & Hall). split_and!; try done. intros p.
    destruct (Hall p) as [(_ & _ & _ & Hlt & h & E)|(_ & E)]; unfold g'; rewrite E.
    + apply num_ltb_spec in Hlt as (x & [= <-] & [Ey|(y & Ey & Hxy)]);
        destruct (cell g p); simpl in *; subst; simpl; lia.
    + apply num_le_refl.
  - unfold g', updateUnvisitedNeighborsAstar.
    rewrite astar_relax_infinity by done. split_and!; try done.
    intros p. apply num_le_refl.
Qed.

Lemma astar_loop_monotone hasElement cls wait t fuel : forall g Q V log g' V' log',
  wf_grid g -> (forall q, q ∈ Q -> inBounds g q) ->
  searchLoop hasElement sortNodesByTotalDistance totalDistance
    (fun node g => updateUnvisitedNeighborsAstar node g t) cls wait t fuel g Q V log
  = Some (g', V', log') ->
  forall p, num_le (distance (cell g' p)) (distance (cell g p)).
Proof.
  induction fuel as [|fuel IH]; intros g Q V log g' V' log' Hwf HQ Hrun p.
  { destruct Q; [|done]. cbn [searchLoop] in Hrun. injection Hrun as <- <- <-. apply num_le_refl. }
  destruct Q as [|q0 Q0].
  { cbn [searchLoop] in Hrun. injection Hrun as <- <- <-. apply num_le_refl. }
  cbn [searchLoop] in Hrun.
  destruct (sortNodesByTotalDistance g (q0 :: Q0)) as [|u rest] eqn:Hs; [done|].
  assert (forall q, q ∈ u :: rest -> inBounds g q) as HQ'.
  { intros q Hq. apply HQ. by rewrite <- (sortNodesByTotalDistance_perm g (q0 :: Q0)), Hs. }
  destruct (isWall (cell g u)).
  { eapply IH; [done| |done]. intros q Hq. apply HQ'. by right. }
  destruct (isInfinity (totalDistance (cell g u))).
  { injection Hrun as <- <- <-. apply num_le_refl. }
  set (g1 := update g u (set_isVisited true)) in Hrun.
  assert (wf_grid g1) as Hwf1 by (unfold g1; auto with grid).
  assert (inBounds g1 u) as Hu1 by (apply inBounds_update_2, HQ'; by left).
  assert (distance (cell g1 p) = distance (cell g p)) as Hd1.
  { unfold g1. destruct (cell_update_cases g u (set_isVisited true) p Hwf)
      as [(-> & _ & ->)|(_ & ->)]; [by destruct (cell g u)|done]. }
  destruct (decide (u = t)).
  { injection Hrun as <- <- <-. rewrite Hd1. apply num_le_refl. }
  destruct (astar_relax_monotone g1 u t Hwf1 Hu1) as (Hwf2 & Hr2 & Hc2 & Hmono).
  eapply num_le_trans; [|rewrite <- Hd1; apply Hmono].
  eapply IH; [exact Hwf2| |exact Hrun].
  intros q Hq. unfold inBounds. rewrite Hr2, Hc2. apply inBounds_update_2, HQ'. by right.
Qed.

(** C2, amended. The relaxation of AStar.js changes a neighbour only when
    [node.distance + 1] is less than the neighbour's distance, and no
    node's distance increases while the loop of [astar] runs.  The
    relaxation of Dijkstra.js does not compare: every unvisited neighbour
    inside the grid is given [node.distance + 1] and [previousNode = node]. *)
Theorem relaxation_comparison grid u d finishNode :
  wf_grid grid -> inBounds grid u -> distance (cell grid u) = Num d ->
  (forall p,
     cell (updateUnvisitedNeighborsAstar u grid finishNode) p <> cell grid p ->
     num_ltb (num_plus (distance (cell grid u)) 1) (distance (cell grid p)) = true /\
     distance (cell (updateUnvisitedNeighborsAstar u grid finishNode) p) = Num (d + 1) /\
     previousNode (cell (updateUnvisitedNeighborsAstar u grid finishNode) p) = Some u) /\
  (forall hasElement cls wait fuel Q V log g' V' log',
     (forall q, q ∈ Q -> inBounds grid q) ->
     searchLoop hasElement sortNodesByTotalDistance totalDistance
       (fun node g => updateUnvisitedNeighborsAstar node g finishNode)
       cls wait finishNode fuel grid Q V log = Some (g', V', log') ->
     forall p, num_le (distance (cell g' p)) (distance (cell grid p))) /\
  (forall p,
     adjacent u p -> inBounds grid p -> isVisited (cell grid p) = false ->
     distance (cell (updateUnvisitedNeighbors u grid) p) = Num (d + 1) /\
     previousNode (cell (updateUnvisitedNeighbors u grid) p) = Some u).
Proof.
  intros Hwf Hu Hd. split_and!.
  - intros p Hne.
    destruct (updateUnvisitedNeighborsAstar_spec grid u d finishNode Hwf Hu Hd)
      as (_ & _ & _ & Hall).
    destruct (Hall p) as [(_ & _ & _ & Hlt & h & E)|(_ & E)]; [|done].
    rewrite Hd, E. split_and!; [done|by destruct (cell grid p)..].
  - intros hasElement cls wait fuel Q V log g' V' log' HQ Hrun.
    by apply (astar_loop_monotone hasElement cls wait finishNode fuel grid Q V log g' V' log').
  - intros p Ha Hp Hv.
    destruct (updateUnvisitedNeighbors_spec grid u d Hwf Hu Hd) as (_ & _ & _ & Hin & _).
    rewrite (Hin p Ha Hp Hv). by destruct (cell grid p).
Qed.

Lemma relaxation_comparison_witness :
  wf_grid cornerWall3 /\ inBounds cornerWall3 (1, 1) /\
  distance (cell cornerWall3 (1, 1)) = Num 2 /\
  distance (cell (updateUnvisitedNeighbors (1, 1) cornerWall3) (0, 1)) = Num (2 + 1) /\
  previousNode (cell (updateUnvisitedNeighbors (1, 1) cornerWall3) (0, 1)) = Some (1, 1).
Proof.
  assert (wf_grid cornerWall3) as Hwf.
  { unfold cornerWall3, cornerWall2, cornerWall1.
    apply wf_update; [|apply keepsPlace_set_isVisited].
    apply updateUnvisitedNeighbors_spec with (d := 1);
      [|by apply inBounds_compute|reflexivity].
    apply wf_update; [|apply keepsPlace_set_isVisited].
    apply updateUnvisitedNeighbors_spec with (d := 0);
      [|by apply inBounds_compute|reflexivity].
    apply wf_update; [|apply keepsPlace_set_isVisited].
    unfold cornerWall0. apply wf_update; [|apply keepsPlace_set_distance].
    apply (foldl_each dijkstraReset (fun _ _ _ => True)).
    - intros g p Hg Hp. destruct (dijkstraReset_step g p Hg Hp) as (? & ? & ? & ? & _).
      by split_and!.
    - apply wf_update; [apply makeGrid_wf|apply keepsPlace_set_distance].
    - apply NoDup_getAllNodes.
    - intros p Hp. apply inBounds_update_2. apply elem_of_getAllNodes; [|done].
      apply makeGrid_wf. }
  assert (inBounds cornerWall3 (1, 1)) as Hu by (by apply inBounds_compute).
  split; [exact Hwf|]. split; [exact Hu|]. split; [reflexivity|].
  destruct (relaxation_comparison cornerWall3 (1, 1) 2 (0, 1) Hwf Hu eq_refl)
    as (_ & _ & Hdijkstra).
  apply (Hdijkstra (0, 1)); [right; simpl; lia|by apply inBounds_compute|reflexivity].
Defined.

(** ** C9: role changes *)

(** C9 fails on [randomizeNodes]: it draws the new start and the new end
    from the grid with all roles cleared before it marks either, so that
    two draws of the same cell make one node both start and end.  From a
    grid where the roles are exclusive it reaches one where they are not. *)
Theorem randomizeNodes_same_cell :
  Roles.roleInvariant (Roles.grid twoByTwo) /\
  Roles.startNode (Roles.randomizeNodes zeroDraws twoByTwo 0).1 = Some (0, 0) /\
  Roles.endNode (Roles.randomizeNodes zeroDraws twoByTwo 0).1 = Some (0, 0) /\
  isStart (cell (Roles.grid (Roles.randomizeNodes zeroDraws twoByTwo 0).1) (0, 0)) = true /\
  isEnd (cell (Roles.grid (Roles.randomizeNodes zeroDraws twoByTwo 0).1) (0, 0)) = true /\
  ~ Roles.roleInvariant (Roles.grid (Roles.randomizeNodes zeroDraws twoByTwo 0).1).
Proof.
  split_and!; try reflexivity.
  - split_and!; try (vm_compute; lia).
    intros [r c] [Hr Hc]. simpl in Hr, Hc.
    assert ((r = 0 \/ r = 1) /\ (c = 0 \/ c = 1)) as [[-> | ->] [-> | ->]] by lia;
      vm_compute; lia.
  - intros [Hroles _]. specialize (Hroles (0, 0)).
    assert (inBounds (Roles.grid (Roles.randomizeNodes zeroDraws twoByTwo 0).1) (0, 0))
      as Hb by (by apply inBounds_compute).
    apply Hroles in Hb. vm_compute in Hb. lia.
Qed.

(** ** Maze generators: what a generator may change *)

Section MazeFacts.
Import Maze.
Local Open Scope Z_scope.

Lemma sameBut_refl T b : sameBut T b b.
Proof. by split_and!. Qed.

Lemma sameBut_trans (T : Z * Z -> Prop) b0 b1 b2 :
  sameBut T b0 b1 -> sameBut T b1 b2 -> sameBut T b0 b2.
Proof.
  intros (H1 & H2 & H3 & H4 & H5 & H6 & H7) (K1 & K2 & K3 & K4 & K5 & K6 & K7).
  split_and!; try congruence.
  - intros node Hn. rewrite K6, H6; done.
  - intros node. by rewrite K7, H7.
Qed.

Lemma sameBut_weaken (T T' : Z * Z -> Prop) b0 b :
  (forall node, T node -> T' node) -> sameBut T b0 b -> sameBut T' b0 b.
Proof.
  intros HT (H1 & H2 & H3 & H4 & H5 & H6 & H7). split_and!; try done.
  intros node Hn. apply H6. intros ?. by apply Hn, HT.
Qed.

Lemma isSpecialNode_sameBut T b0 b node :
  sameBut T b0 b -> isSpecialNode b node = isSpecialNode b0 node.
Proof. intros (_ & _ & H3 & H4 & H5 & _). unfold isSpecialNode. by rewrite H3, H4, H5. Qed.


Lemma openAt_sameBut (T : Z * Z -> Prop) b0 b node :
  sameBut T b0 b -> ~ T node -> openAt b node <-> openAt b0 node.
Proof. intros (_ & _ & _ & _ & _ & H6 & _) Hn. unfold openAt. by rewrite H6. Qed.

Lemma dense_sameBut T b0 b : sameBut T b0 b -> dense b0 -> dense b.
Proof.
  intros (H1 & H2 & _ & _ & _ & _ & H7) Hd r c Hr Hc. apply H7, Hd; congruence.
Qed.

(** The primitive assignments. *)
Lemma setStatus_spec b node s :
  is_Some (nodes b !! node) ->
  exists b', setStatus b node s = Some b' /\ sameBut (eq node) b b' /\
             wallsToAnimate b' = wallsToAnimate b /\
             exists n, nodes b' !! node = Some n /\ nodeStatus n = s.
Proof.
  intros [n Hn]. unfold setStatus. rewrite Hn. eexists. split; [done|].
  split_and!; try done.
  - unfold sameBut. simpl. split_and!; try done.
    + intros x Hx. by rewrite lookup_insert_ne.
    + intros x. destruct (decide (node = x)) as [->|Hne].
      * rewrite lookup_insert_eq, Hn. split; eauto.
      * by rewrite lookup_insert_ne.
  - simpl. rewrite lookup_insert_eq. eauto.
Qed.

Lemma setWeight_spec b node w :
  is_Some (nodes b !! node) ->
  exists b', setWeight b node w = Some b' /\ sameBut (eq node) b b' /\
             wallsToAnimate b' = wallsToAnimate b /\
             forall n, nodes b !! node = Some n ->
                       exists n', nodes b' !! node = Some n' /\
                                  nodeStatus n' = nodeStatus n.
Proof.
  intros [n Hn]. unfold setWeight. rewrite Hn. eexists. split; [done|].
  split_and!; try done.
  - unfold sameBut. simpl. split_and!; try done.
    + intros x Hx. by rewrite lookup_insert_ne.
    + intros x. destruct (decide (node = x)) as [->|Hne].
      * rewrite lookup_insert_eq, Hn. split; eauto.
      * by rewrite lookup_insert_ne.
  - intros n0 Hn0. simpl. rewrite lookup_insert_eq. eexists. split; [done|].
    simpl. congruence.
Qed.

Lemma push_sameBut T b a : sameBut T b (push b a).
Proof. by split_and!. Qed.


Lemma cleanWalls_push sp b a :
  cleanWalls sp b -> (forall node, animId a = Some node -> sp node = false) ->
  cleanWalls sp (push b a).
Proof.
  intros Hc Ha x node [Hx| ->]%elem_of_snoc Hid; [by eapply Hc|by apply Ha].
Qed.


Lemma cleanWalls_same sp b b' :
  wallsToAnimate b' = wallsToAnimate b -> cleanWalls sp b -> cleanWalls sp b'.
Proof. intros E Hc a node. rewrite E. apply Hc. Qed.

(** Loops: an invariant [I] of the iterations, and a property [P] that an
    iteration at a value in [hit] sets up and every iteration keeps. *)
Lemma forEach_loop {A S : Type} (I P : S -> Prop) (hit : A -> Prop) (l : list A)
      (body : A -> S -> option S) :
  (forall x s, x ∈ l -> I s ->
     exists s', body x s = Some s' /\ I s' /\ (hit x -> P s') /\ (P s -> P s')) ->
  forall s, I s ->
  exists s', forEach l body s = Some s' /\ I s' /\
             ((exists x, x ∈ l /\ hit x) -> P s') /\ (P s -> P s').
Proof.
  induction l as [|x l IH]; intros Hbody s HI.
  { simpl. exists s. split_and!; try done. by intros (x & ?%elem_of_nil & _). }
  simpl. destruct (Hbody x s) as (s1 & -> & HI1 & Hhit & Hkeep); [by left|done|].
  destruct (IH (fun y s2 Hy => Hbody y s2 (list_elem_of_further _ _ _ Hy)) s1 HI1)
    as (s' & Hs' & HI' & Hhit' & Hkeep').
  exists s'. split_and!; try done.
  - intros (y & [->|Hy]%elem_of_cons & Hy').
    + by apply Hkeep', Hhit.
    + apply Hhit'. by exists y.
  - intros HP. by apply Hkeep', Hkeep.
Qed.

Lemma forEach_total {A S : Type} (I : S -> Prop) (l : list A)
      (body : A -> S -> option S) :
  (forall x s, x ∈ l -> I s -> exists s', body x s = Some s' /\ I s') ->
  forall s, I s -> exists s', forEach l body s = Some s' /\ I s'.
Proof.
  intros Hbody s HI.
  destruct (forEach_loop I (fun _ => True) (fun _ => False) l body) with (s := s)
    as (s' & Hs' & HI' & _); [|done|by exists s'].
  intros x s1 Hx HI1. destruct (Hbody x s1 Hx HI1) as (s2 & ? & ?). by exists s2.
Qed.

Lemma elem_of_range lo hi x : x ∈ range lo hi <-> lo <= x < hi.
Proof. unfold range. rewrite elem_of_seqZ. lia. Qed.

End MazeFacts.

(** ** Paths on a board *)

Ltac region := unfold ringed, inRegion in *; simpl in *; lia.

Section BoardPaths.
Import Maze.
Local Open Scope Z_scope.

Lemma connected_start b S p q : connected b S p q -> S p /\ openAt b p.
Proof. induction 1; done. Qed.

Lemma connected_end b S p q : connected b S p q -> S q /\ openAt b q.
Proof. destruct 1; done. Qed.

Lemma connected_trans b S p q r :
  connected b S p q -> connected b S q r -> connected b S p r.
Proof.
  intros Hpq Hqr. induction Hqr as [|r1 r2 Hqr IH Ha HS Ho]; [done|].
  by eapply connected_step.
Qed.

Lemma adjacentCells_sym p q : adjacentCells p q -> adjacentCells q p.
Proof. unfold adjacentCells. lia. Qed.

Lemma connected_sym b S p q : connected b S p q -> connected b S q p.
Proof.
  induction 1 as [|q r Hpq IH Ha HS Ho]; [by constructor|].
  destruct (connected_end _ _ _ _ Hpq) as [HSq Hoq].
  eapply connected_trans; [|exact IH].
  eapply connected_step; [by constructor|by apply adjacentCells_sym|done|done].
Qed.

Lemma connected_weaken b (S S' : Z * Z -> Prop) p q :
  (forall x, S x -> S' x) -> connected b S p q -> connected b S' p q.
Proof.
  intros HS. induction 1; [constructor; auto|eapply connected_step; eauto].
Qed.

Lemma connected_transfer b b' (S : Z * Z -> Prop) p q :
  (forall x, S x -> openAt b x -> openAt b' x) ->
  connected b S p q -> connected b' S p q.
Proof.
  intros HS. induction 1; [constructor; auto|eapply connected_step; eauto].
Qed.

(** Along a row and along a column of open cells. *)
Lemma connected_row b (S : Z * Z -> Prop) r c1 (n : nat) :
  (forall c, c1 <= c <= c1 + Z.of_nat n -> S (r, c) /\ openAt b (r, c)) ->
  connected b S (r, c1) (r, c1 + Z.of_nat n).
Proof.
  induction n as [|n IH]; intros Hall.
  - rewrite Z.add_0_r. constructor; apply Hall; lia.
  - eapply connected_step.
    + apply IH. intros c Hc. apply Hall. lia.
    + left. simpl. lia.
    + apply Hall. lia.
    + apply Hall. lia.
Qed.

Lemma connected_col b (S : Z * Z -> Prop) c r1 (n : nat) :
  (forall r, r1 <= r <= r1 + Z.of_nat n -> S (r, c) /\ openAt b (r, c)) ->
  connected b S (r1, c) (r1 + Z.of_nat n, c).
Proof.
  induction n as [|n IH]; intros Hall.
  - rewrite Z.add_0_r. constructor; apply Hall; lia.
  - eapply connected_step.
    + apply IH. intros r Hr. apply Hall. lia.
    + right. simpl. lia.
    + apply Hall. lia.
    + apply Hall. lia.
Qed.

Lemma connected_row_to b (S : Z * Z -> Prop) r c1 c2 :
  c1 <= c2 -> (forall c, c1 <= c <= c2 -> S (r, c) /\ openAt b (r, c)) ->
  connected b S (r, c1) (r, c2).
Proof.
  intros Hle Hall. replace c2 with (c1 + Z.of_nat (Z.to_nat (c2 - c1))) by lia.
  apply connected_row. intros c Hc. apply Hall. lia.
Qed.

Lemma connected_col_to b (S : Z * Z -> Prop) c r1 r2 :
  r1 <= r2 -> (forall r, r1 <= r <= r2 -> S (r, c) /\ openAt b (r, c)) ->
  connected b S (r1, c) (r2, c).
Proof.
  intros Hle Hall. replace r2 with (r1 + Z.of_nat (Z.to_nat (r2 - r1))) by lia.
  apply connected_col. intros r Hr. apply Hall. lia.
Qed.

(** In a rectangle of open cells every cell is connected to the corner. *)
Lemma rectangle_connected b r1 r2 c1 c2 node :
  (forall x, inRegion r1 r2 c1 c2 x -> openAt b x) ->
  inRegion r1 r2 c1 c2 node ->
  connected b (inRegion r1 r2 c1 c2) (r1, c1) node.
Proof.
  intros Hopen Hn. destruct node as [r c]. destruct Hn as [Hr Hc]. simpl in *.
  eapply (connected_trans _ _ _ (r1, c)).
  - apply connected_row_to; [lia|]. intros c' Hc'.
    assert (inRegion r1 r2 c1 c2 (r1, c')) by (unfold inRegion; simpl; lia).
    split; [done|by apply Hopen].
  - apply connected_col_to; [lia|]. intros r' Hr'.
    assert (inRegion r1 r2 c1 c2 (r', c)) by (unfold inRegion; simpl; lia).
    split; [done|by apply Hopen].
Qed.

(** Random indices stay in range. *)
Lemma floorTimes_range x n : 0 < n -> 0 <= floorTimes x n < n.
Proof.
  intros Hn. unfold floorTimes, denom.
  assert (0 < Z.of_nat (numer x + slack x + 1)) as Hd by lia. split.
  - apply Z.div_pos; lia.
  - apply Z.div_lt_upper_bound; [lia|]. nia.
Qed.

Lemma range2_lookup lo hi (i : nat) :
  Z.of_nat i < (hi - lo + 1) `div` 2 ->
  range2 lo hi !! i = Some (lo + 2 * Z.of_nat i).
Proof.
  intros Hi. unfold range2. rewrite list_lookup_fmap.
  rewrite lookup_seqZ_lt by lia. simpl. f_equal; lia.
Qed.

Lemma range2_length lo hi : Z.of_nat (length (range2 lo hi)) = Z.max 0 ((hi - lo + 1) `div` 2).
Proof. unfold range2. rewrite length_fmap, length_seqZ. lia. Qed.
End BoardPaths.

(** ** Recursive division *)

Section RecursiveDivision.
Import Maze.
Local Open Scope Z_scope.

Lemma drawCell_spec type node b :
  is_Some (nodes b !! node) ->
  exists b', drawCell type node b = Some b' /\ sameBut (eq node) b b' /\
             wallsToAnimate b' = wallsToAnimate b ++ [AnimId node (Some type)].
Proof.
  intros Hn. unfold drawCell.
  destruct (setStatus_spec (push b (AnimId node (Some type))) node
              (if decide (type = "wall") then Wall else Unvisited) Hn)
    as (b1 & -> & H1 & Hw1 & _).
  destruct (setWeight_spec b1 node (if decide (type = "wall") then 0 else 15))
    as (b2 & -> & H2 & Hw2 & _).
  { apply H1. exact Hn. }
  exists b2. split; [done|]. split.
  - eapply sameBut_trans; [|exact H2]. eapply sameBut_trans; [|exact H1].
    apply push_sameBut.
  - by rewrite Hw2, Hw1.
Qed.

(** A wall line: the cells [cellOf x] for [lo <= x < hi], but for the
    passage and the special nodes. *)
Lemma drawLine_spec type passage (cellOf : Z -> Z * Z) lo hi b :
  (forall x, lo <= x < hi -> is_Some (nodes b !! cellOf x)) ->
  exists b',
    forEach (range lo hi) (fun x b1 =>
      if negb (bool_decide (x = passage)) && negb (isSpecialNode b1 (cellOf x))
      then drawCell type (cellOf x) b1
      else Some b1) b = Some b' /\
    sameBut (fun node => (exists x, lo <= x < hi /\ node = cellOf x) /\
                         isSpecialNode b node = false) b b' /\
    (cleanWalls (isSpecialNode b) b -> cleanWalls (isSpecialNode b) b').
Proof.
  intros Hsome.
  set (T := fun node => (exists x, lo <= x < hi /\ node = cellOf x) /\
                        isSpecialNode b node = false).
  apply (forEach_total
           (fun b1 => sameBut T b b1 /\
                      (cleanWalls (isSpecialNode b) b -> cleanWalls (isSpecialNode b) b1))).
  - intros x b1 Hx%elem_of_range [HS HC].
    rewrite (isSpecialNode_sameBut T b b1 _ HS).
    destruct (negb (bool_decide (x = passage)) && negb (isSpecialNode b (cellOf x)))
      eqn:Hcond; [|by exists b1].
    apply andb_true_iff in Hcond as [_ Hsp%negb_true_iff].
    destruct (drawCell_spec type (cellOf x) b1) as (b2 & -> & H2 & Hw2).
    { apply HS. by apply Hsome. }
    exists b2. split; [done|]. split.
    + eapply sameBut_trans; [exact HS|]. eapply sameBut_weaken; [|exact H2].
      intros node <-. split; [by exists x|done].
    + intros Hc a node. rewrite Hw2. intros [Ha| ->]%elem_of_snoc Hid.
      * by apply (HC Hc a).
      * simpl in Hid. by injection Hid as <-.
  - split; [apply sameBut_refl|done].
Qed.

Lemma surround_spec type b :
  dense b ->
  exists b', surround type b = Some b' /\
    sameBut (fun node => onBorder b node /\ isSpecialNode b node = false) b b' /\
    (cleanWalls (isSpecialNode b) b -> cleanWalls (isSpecialNode b) b').
Proof.
  intros Hd.
  set (T := fun node => onBorder b node /\ isSpecialNode b node = false).
  set (I := fun b1 => sameBut T b b1 /\
              (cleanWalls (isSpecialNode b) b -> cleanWalls (isSpecialNode b) b1)).
  apply (forEach_total I); [|split; [apply sameBut_refl|done]].
  intros row b1 Hrow%elem_of_range HI1.
  apply (forEach_total I); [|done].
  intros col b2 Hcol%elem_of_range [HS HC].
  assert (width b1 = width b) as Hw1 by apply HI1. rewrite Hw1 in Hcol.
  assert (height b2 = height b) as Hh by apply HS.
  assert (width b2 = width b) as Hw by apply HS.
  rewrite Hh, Hw, (isSpecialNode_sameBut T b b2 _ HS).
  destruct (bool_decide (row = 0) || bool_decide (col = 0) ||
            bool_decide (row = height b - 1) || bool_decide (col = width b - 1))
    eqn:Hb; [|by exists b2].
  destruct (isSpecialNode b (row, col)) eqn:Hsp; [by exists b2|]. simpl.
  destruct (drawCell_spec type (row, col) b2) as (b3 & -> & H3 & Hw3).
  { apply HS. by apply Hd. }
  exists b3. split; [done|]. split.
  - eapply sameBut_trans; [exact HS|]. eapply sameBut_weaken; [|exact H3].
    intros node <-. split; [|done]. split; [done|]. simpl.
    rewrite !orb_true_iff, !bool_decide_eq_true in Hb. tauto.
  - intros Hc a node. rewrite Hw3. intros [Ha| ->]%elem_of_snoc Hid.
    + by apply (HC Hc a).
    + simpl in Hid. by injection Hid as <-.
Qed.
(** A wall along row [cr] and the two halves divided further: with the row
    above and the column to the left open, all open cells stay connected. *)
Lemma split_horizontal b b1 b2 b3 rs re cs ce cr :
  rs <= cr <= re -> cs <= ce ->
  sameBut (fun node => (exists x, cs <= x < ce + 1 /\ node = (cr, x)) /\
                       isSpecialNode b node = false) b b1 ->
  sameBut (fun node => inRegion rs (cr - 2) cs ce node /\
                       isSpecialNode b1 node = false) b1 b2 ->
  sameBut (fun node => inRegion (cr + 2) re cs ce node /\
                       isSpecialNode b2 node = false) b2 b3 ->
  ((forall node, ringed rs (cr - 2) cs ce node -> openAt b1 node) ->
   forall node, ringed rs (cr - 2) cs ce node -> openAt b2 node ->
     connected b2 (ringed rs (cr - 2) cs ce) (rs - 1, cs - 1) node) ->
  ((forall node, ringed (cr + 2) re cs ce node -> openAt b2 node) ->
   forall node, ringed (cr + 2) re cs ce node -> openAt b3 node ->
     connected b3 (ringed (cr + 2) re cs ce) (cr + 2 - 1, cs - 1) node) ->
  (forall node, ringed rs re cs ce node -> openAt b node) ->
  forall node, ringed rs re cs ce node -> openAt b3 node ->
    connected b3 (ringed rs re cs ce) (rs - 1, cs - 1) node.
Proof.
  intros Hcr Hc H1 H2 H3 HT HB Hopen [r c] Hin Ho.
  assert (forall x, x.1 <> cr \/ x.2 < cs -> openAt b1 x <-> openAt b x) as F1.
  { intros x Hx. apply (openAt_sameBut _ _ _ _ H1).
    intros [(y & Hy & ->) _]. simpl in Hx. lia. }
  assert (forall x, ~ inRegion rs (cr - 2) cs ce x -> openAt b2 x <-> openAt b1 x) as F2.
  { intros x Hx. apply (openAt_sameBut _ _ _ _ H2). tauto. }
  assert (forall x, ~ inRegion (cr + 2) re cs ce x -> openAt b3 x <-> openAt b2 x) as F3.
  { intros x Hx. apply (openAt_sameBut _ _ _ _ H3). tauto. }
  assert (forall x, ringed rs re cs ce x -> x.1 = cr - 1 \/ x.2 = cs - 1 ->
                    openAt b3 x) as Hfree.
  { intros x Hx Hx'. apply F3; [region|]. apply F2; [region|].
    apply F1; [region|]. by apply Hopen. }
  assert (forall r', rs - 1 <= r' <= re ->
            connected b3 (ringed rs re cs ce) (rs - 1, cs - 1) (r', cs - 1)) as Hcol.
  { intros r' Hr'. apply connected_col_to; [lia|]. intros r'' Hr''.
    assert (ringed rs re cs ce (r'', cs - 1)) by region.
    split; [done|]. apply Hfree; [done|]. by right. }
  assert (forall c', cs - 1 <= c' <= ce ->
            connected b3 (ringed rs re cs ce) (rs - 1, cs - 1) (cr - 1, c')) as Hrow.
  { intros c' Hc'. eapply connected_trans; [apply (Hcol (cr - 1)); lia|].
    apply connected_row_to; [lia|]. intros c'' Hc''.
    assert (ringed rs re cs ce (cr - 1, c'')) by region.
    split; [done|]. apply Hfree; [done|]. by left. }
  destruct (Z_lt_le_dec r (cr - 1)) as [Hlt|Hge].
  - (* in the upper half *)
    assert (ringed rs (cr - 2) cs ce (r, c)) as HinT by region.
    eapply connected_weaken; [|eapply connected_transfer;
      [|apply HT with (node := (r, c))]].
    + intros x Hx. region.
    + intros x Hx Hox. apply F3; [region|done].
    + intros x Hx. apply F1; [region|]. apply Hopen. region.
    + done.
    + apply F3; [region|done].
  - destruct (Z_le_gt_dec r cr) as [Hle|Hgt].
    + destruct (decide (r = cr - 1)) as [->|Hne]; [apply Hrow; region|].
      assert (r = cr) as -> by lia.
      eapply connected_step; [apply (Hrow c); region| |done|done].
      right. simpl. lia.
    + (* in the lower half *)
      eapply connected_trans; [apply (Hcol (cr + 2 - 1)); region|].
      eapply connected_weaken; [|apply HB with (node := (r, c))].
      * intros x Hx. region.
      * intros x Hx. apply F2; [region|]. apply F1; [region|]. apply Hopen. region.
      * region.
      * done.
Qed.

(** The same for a wall along column [cc]. *)
Lemma split_vertical b b1 b2 b3 rs re cs ce cc :
  cs <= cc <= ce -> rs <= re ->
  sameBut (fun node => (exists x, rs <= x < re + 1 /\ node = (x, cc)) /\
                       isSpecialNode b node = false) b b1 ->
  sameBut (fun node => inRegion rs re cs (cc - 2) node /\
                       isSpecialNode b1 node = false) b1 b2 ->
  sameBut (fun node => inRegion rs re (cc + 2) ce node /\
                       isSpecialNode b2 node = false) b2 b3 ->
  ((forall node, ringed rs re cs (cc - 2) node -> openAt b1 node) ->
   forall node, ringed rs re cs (cc - 2) node -> openAt b2 node ->
     connected b2 (ringed rs re cs (cc - 2)) (rs - 1, cs - 1) node) ->
  ((forall node, ringed rs re (cc + 2) ce node -> openAt b2 node) ->
   forall node, ringed rs re (cc + 2) ce node -> openAt b3 node ->
     connected b3 (ringed rs re (cc + 2) ce) (rs - 1, cc + 2 - 1) node) ->
  (forall node, ringed rs re cs ce node -> openAt b node) ->
  forall node, ringed rs re cs ce node -> openAt b3 node ->
    connected b3 (ringed rs re cs ce) (rs - 1, cs - 1) node.
Proof.
  intros Hcc Hr H1 H2 H3 HL HR Hopen [r c] Hin Ho.
  assert (forall x, x.2 <> cc \/ x.1 < rs -> openAt b1 x <-> openAt b x) as F1.
  { intros x Hx. apply (openAt_sameBut _ _ _ _ H1).
    intros [(y & Hy & ->) _]. simpl in Hx. lia. }
  assert (forall x, ~ inRegion rs re cs (cc - 2) x -> openAt b2 x <-> openAt b1 x) as F2.
  { intros x Hx. apply (openAt_sameBut _ _ _ _ H2). tauto. }
  assert (forall x, ~ inRegion rs re (cc + 2) ce x -> openAt b3 x <-> openAt b2 x) as F3.
  { intros x Hx. apply (openAt_sameBut _ _ _ _ H3). tauto. }
  assert (forall x, ringed rs re cs ce x -> x.2 = cc - 1 \/ x.1 = rs - 1 ->
                    openAt b3 x) as Hfree.
  { intros x Hx Hx'. apply F3; [region|]. apply F2; [region|].
    apply F1; [region|]. by apply Hopen. }
  assert (forall c', cs - 1 <= c' <= ce ->
            connected b3 (ringed rs re cs ce) (rs - 1, cs - 1) (rs - 1, c')) as Hrow.
  { intros c' Hc'. apply connected_row_to; [lia|]. intros c'' Hc''.
    assert (ringed rs re cs ce (rs - 1, c'')) by region.
    split; [done|]. apply Hfree; [done|]. by right. }
  assert (forall r', rs - 1 <= r' <= re ->
            connected b3 (ringed rs re cs ce) (rs - 1, cs - 1) (r', cc - 1)) as Hcol.
  { intros r' Hr'. eapply connected_trans; [apply (Hrow (cc - 1)); lia|].
    apply connected_col_to; [lia|]. intros r'' Hr''.
    assert (ringed rs re cs ce (r'', cc - 1)) by region.
    split; [done|]. apply Hfree; [done|]. by left. }
  destruct (Z_lt_le_dec c (cc - 1)) as [Hlt|Hge].
  - (* in the left half *)
    assert (ringed rs re cs (cc - 2) (r, c)) as HinL by region.
    eapply connected_weaken; [|eapply connected_transfer;
      [|apply HL with (node := (r, c))]].
    + intros x Hx. region.
    + intros x Hx Hox. apply F3; [region|done].
    + intros x Hx. apply F1; [region|]. apply Hopen. region.
    + done.
    + apply F3; [region|done].
  - destruct (Z_le_gt_dec c cc) as [Hle|Hgt].
    + destruct (decide (c = cc - 1)) as [->|Hne]; [apply Hcol; region|].
      assert (c = cc) as -> by lia.
      eapply connected_step; [apply (Hcol r); region| |done|done].
      left. simpl. lia.
    + (* in the right half *)
      eapply connected_trans; [apply (Hrow (cc + 2 - 1)); region|].
      eapply connected_weaken; [|apply HR with (node := (r, c))].
      * intros x Hx. region.
      * intros x Hx. apply F2; [region|]. apply F1; [region|]. apply Hopen. region.
      * region.
      * done.
Qed.
Lemma horizontalWall_spec type cr passage cs ce b :
  (forall x, cs <= x < ce + 1 -> is_Some (nodes b !! (cr, x))) ->
  exists b', horizontalWall type cr passage cs ce b = Some b' /\
    sameBut (fun node => (exists x, cs <= x < ce + 1 /\ node = (cr, x)) /\
                         isSpecialNode b node = false) b b' /\
    (cleanWalls (isSpecialNode b) b -> cleanWalls (isSpecialNode b) b').
Proof. intros H. exact (drawLine_spec type passage (fun col => (cr, col)) _ _ b H). Qed.

Lemma verticalWall_spec type cc passage rs re b :
  (forall x, rs <= x < re + 1 -> is_Some (nodes b !! (x, cc))) ->
  exists b', verticalWall type cc passage rs re b = Some b' /\
    sameBut (fun node => (exists x, rs <= x < re + 1 /\ node = (x, cc)) /\
                         isSpecialNode b node = false) b b' /\
    (cleanWalls (isSpecialNode b) b -> cleanWalls (isSpecialNode b) b').
Proof. intros H. exact (drawLine_spec type passage (fun row => (row, cc)) _ _ b H). Qed.

Lemma cleanWalls_ext sp sp' b :
  (forall node, sp node = sp' node) -> cleanWalls sp b -> cleanWalls sp' b.
Proof. intros He Hc a node Ha Hid. rewrite <- He. by eapply Hc. Qed.

Lemma range2_pick (rnd : nat -> draw) (k : nat) lo hi :
  lo <= hi ->
  let n := length (range2 lo (hi + 1)) in
  n <> 0%nat /\
  exists cur, range2 lo (hi + 1) !! Z.to_nat (floorTimes (rnd k) (Z.of_nat n)) = Some cur /\
              lo <= cur <= hi.
Proof.
  intros Hle n. pose proof (range2_length lo (hi + 1)) as Hlen. fold n in Hlen.
  assert (1 <= (hi + 1 - lo + 1) `div` 2) by (apply Z.div_le_lower_bound; lia).
  split; [lia|].
  pose proof (floorTimes_range (rnd k) (Z.of_nat n) ltac:(lia)) as Hidx.
  eexists. split; [apply range2_lookup; lia|].
  pose proof (Z.mul_div_le (hi + 1 - lo + 1) 2 ltac:(lia)). lia.
Qed.

(** The recursion proper, its border drawn already: it returns, changes
    cells of its region only, never a special node, and keeps the open
    cells of the ringed region connected. *)
Lemma recursive_division_inner fuel : forall rnd b k rs re cs ce orientation type,
  dense b -> 0 <= rs -> 0 <= cs -> re < height b -> ce < width b ->
  (Z.to_nat (re - rs + 1) + Z.to_nat (ce - cs + 1) < fuel)%nat ->
  exists b' k',
    generateRecursiveMaze fuel rnd b k rs re cs ce orientation true type = Some (b', k') /\
    sameBut (fun node => inRegion rs re cs ce node /\ isSpecialNode b node = false) b b' /\
    (cleanWalls (isSpecialNode b) b -> cleanWalls (isSpecialNode b) b') /\
    ((forall node, ringed rs re cs ce node -> openAt b node) ->
     forall node, ringed rs re cs ce node -> openAt b' node ->
       connected b' (ringed rs re cs ce) (rs - 1, cs - 1) node).
Proof.
  induction fuel as [|fuel IH];
    intros rnd b k rs re cs ce o type Hd Hrs Hcs Hre Hce Hfuel; [lia|].
  cbn [generateRecursiveMaze].
  destruct (bool_decide (re < rs) || bool_decide (ce < cs)) eqn:Hempty.
  { exists b, k. split; [done|]. split; [apply sameBut_refl|]. split; [done|].
    intros Hopen node Hn _. by apply rectangle_connected. }
  apply orb_false_iff in Hempty as [Hr%bool_decide_eq_false Hc%bool_decide_eq_false].
  destruct (decide (o = "horizontal")) as [Ho|Ho].
  - destruct (range2_pick rnd k rs re ltac:(lia)) as (Hn & cr & Hcr & Hin).
    rewrite bool_decide_false by done. rewrite Hcr.
    match goal with |- context [horizontalWall _ _ ?p _ _ _] => set (passage := p) end.
    destruct (horizontalWall_spec type cr passage cs ce b) as (b1 & -> & HS1 & HC1).
    { intros x Hx. apply Hd; lia. }
    assert (height b1 = height b) as Hh1 by apply HS1.
    assert (width b1 = width b) as Hw1 by apply HS1.
    match goal with |- context [generateRecursiveMaze fuel rnd b1 _ _ _ _ _ ?o1] =>
      destruct (IH rnd b1 (k + 2)%nat rs (cr - 2) cs ce o1 type)
        as (b2 & k2 & -> & HS2 & HC2 & HP2) end;
      [by eapply dense_sameBut|lia..|].
    assert (height b2 = height b1) as Hh2 by apply HS2.
    assert (width b2 = width b1) as Hw2 by apply HS2.
    match goal with |- context [generateRecursiveMaze fuel rnd b2 _ _ _ _ _ ?o2] =>
      destruct (IH rnd b2 k2 (cr + 2) re cs ce o2 type)
        as (b3 & k3 & -> & HS3 & HC3 & HP3) end;
      [eapply dense_sameBut; [exact HS2|by eapply dense_sameBut]|lia..|].
    assert (forall node, isSpecialNode b1 node = isSpecialNode b node) as E1
      by (intros; by eapply isSpecialNode_sameBut).
    assert (forall node, isSpecialNode b2 node = isSpecialNode b node) as E2.
    { intros. etrans; [by eapply isSpecialNode_sameBut|apply E1]. }
    exists b3, k3. split; [done|]. split; [|split].
    + eapply sameBut_trans; [|eapply sameBut_trans].
      * eapply sameBut_weaken; [|exact HS1].
        intros node [(x & Hx & ->) Hs]. split; [region|done].
      * eapply sameBut_weaken; [|exact HS2].
        intros node [Hx Hs]. rewrite E1 in Hs. split; [region|done].
      * eapply sameBut_weaken; [|exact HS3].
        intros node [Hx Hs]. rewrite E2 in Hs. split; [region|done].
    + intros Hcl. apply (cleanWalls_ext _ _ _ E2), HC3.
      apply (cleanWalls_ext (isSpecialNode b1)); [intros; by rewrite E1, E2|].
      apply HC2. apply (cleanWalls_ext (isSpecialNode b)); [done|]. by apply HC1.
    + apply (split_horizontal b b1 b2 b3 rs re cs ce cr); [lia|lia|done..].
  - destruct (range2_pick rnd k cs ce ltac:(lia)) as (Hn & cc & Hcc & Hin).
    rewrite bool_decide_false by done. rewrite Hcc.
    match goal with |- context [verticalWall _ _ ?p _ _ _] => set (passage := p) end.
    destruct (verticalWall_spec type cc passage rs re b) as (b1 & -> & HS1 & HC1).
    { intros x Hx. apply Hd; lia. }
    assert (height b1 = height b) as Hh1 by apply HS1.
    assert (width b1 = width b) as Hw1 by apply HS1.
    match goal with |- context [generateRecursiveMaze fuel rnd b1 _ _ _ _ _ ?o1] =>
      destruct (IH rnd b1 (k + 2)%nat rs re cs (cc - 2) o1 type)
        as (b2 & k2 & -> & HS2 & HC2 & HP2) end;
      [by eapply dense_sameBut|lia..|].
    assert (height b2 = height b1) as Hh2 by apply HS2.
    assert (width b2 = width b1) as Hw2 by apply HS2.
    match goal with |- context [generateRecursiveMaze fuel rnd b2 _ _ _ _ _ ?o2] =>
      destruct (IH rnd b2 k2 rs re (cc + 2) ce o2 type)
        as (b3 & k3 & -> & HS3 & HC3 & HP3) end;
      [eapply dense_sameBut; [exact HS2|by eapply dense_sameBut]|lia..|].
    assert (forall node, isSpecialNode b1 node = isSpecialNode b node) as E1
      by (intros; by eapply isSpecialNode_sameBut).
    assert (forall node, isSpecialNode b2 node = isSpecialNode b node) as E2.
    { intros. etrans; [by eapply isSpecialNode_sameBut|apply E1]. }
    exists b3, k3. split; [done|]. split; [|split].
    + eapply sameBut_trans; [|eapply sameBut_trans].
      * eapply sameBut_weaken; [|exact HS1].
        intros node [(x & Hx & ->) Hs]. split; [region|done].
      * eapply sameBut_weaken; [|exact HS2].
        intros node [Hx Hs]. rewrite E1 in Hs. split; [region|done].
      * eapply sameBut_weaken; [|exact HS3].
        intros node [Hx Hs]. rewrite E2 in Hs. split; [region|done].
    + intros Hcl. apply (cleanWalls_ext _ _ _ E2), HC3.
      apply (cleanWalls_ext (isSpecialNode b1)); [intros; by rewrite E1, E2|].
      apply HC2. apply (cleanWalls_ext (isSpecialNode b)); [done|]. by apply HC1.
    + apply (split_vertical b b1 b2 b3 rs re cs ce cc); [lia|lia|done..].
Qed.
(** The first call, which draws the border. *)
Lemma generateRecursiveMaze_border fuel rnd b k rs re cs ce o type :
  rs <= re -> cs <= ce ->
  generateRecursiveMaze (S fuel) rnd b k rs re cs ce o false type =
  match surround type b with
  | Some b0 => generateRecursiveMaze (S fuel) rnd b0 k rs re cs ce o true type
  | None => None
  end.
Proof.
  intros Hr Hc. cbn [generateRecursiveMaze].
  rewrite !bool_decide_false by lia. cbn [orb].
  destruct (surround type b); reflexivity.
Qed.


Lemma connected_boxed b S p q :
  (forall r, adjacentCells p r -> ~ openAt b r) -> connected b S p q -> q = p.
Proof.
  intros Hbox. induction 1 as [|q r Hpq IH Ha HS Ho]; [done|].
  subst q. by destruct (Hbox r).
Qed.

Lemma emptyBoard_lookup h w s t o node n :
  nodes (emptyBoard h w s t o) !! node = Some n <->
  (0 <= node.1 < h /\ 0 <= node.2 < w) /\ n = mkBNode Unvisited 0.
Proof.
  unfold emptyBoard. simpl.
  set (l := (fun p => (p, mkBNode Unvisited 0)) <$>
              (r ← range 0 h; (fun c => (r, c)) <$> range 0 w)).
  assert (forall x, (node, x) ∈ l <->
            (0 <= node.1 < h /\ 0 <= node.2 < w) /\ x = mkBNode Unvisited 0) as Hl.
  { intros x. unfold l. rewrite list_elem_of_fmap. split.
    - intros (p & [= <- ->] & Hp). apply list_elem_of_bind in Hp as (r & Hp & Hr).
      apply list_elem_of_fmap in Hp as (c & -> & Hc).
      apply elem_of_range in Hr, Hc. simpl. split; [lia|done].
    - intros [[Hr Hc] ->]. exists node. split; [done|].
      apply list_elem_of_bind. exists node.1. split; [|apply elem_of_range; lia].
      apply list_elem_of_fmap. exists node.2. split; [by destruct node|].
      apply elem_of_range. lia. }
  split.
  - intros H%elem_of_list_to_map_2. by apply Hl.
  - intros H. apply elem_of_list_to_map_1'; [|by apply Hl].
    intros y Hy%Hl. destruct H as [_ ->]. by destruct Hy as [_ ->].
Qed.

Lemma emptyBoard_dense h w s t o : dense (emptyBoard h w s t o).
Proof.
  intros r c Hr Hc. exists (mkBNode Unvisited 0).
  apply emptyBoard_lookup. simpl in *. done.
Qed.

Lemma emptyBoard_noWalls h w s t o : noWalls (emptyBoard h w s t o).
Proof. intros node n [_ ->]%emptyBoard_lookup. done. Qed.
End RecursiveDivision.

(** ** Recursive division keeps the maze connected (claim C3) *)

Section RecursiveDivisionConnected.
Import Maze.
Local Open Scope Z_scope.

Lemma closedAt_not_open b node : closedAt b node = true -> ~ openAt b node.
Proof.
  unfold closedAt. intros Hc (n & Hn & Ho). rewrite Hn in Hc.
  apply bool_decide_eq_true in Hc. congruence.
Qed.

(** C3, counterexample: with Start in the corner of the 32 by 75 board of
    the page, and the arguments of the page's call, the border drawn by
    the generator closes both neighbours of Start: no path leads from
    Start to End. *)
Lemma recursive_division_boxes_start :
  exists b' k',
    generateRecursiveMaze 200 zeroDraws cornerBoard 0 2 30 2 73 "horizontal" false "wall"
      = Some (b', k') /\
    ~ connected b' (fun _ => True) (start b') (target b').
Proof.
  set (r := generateRecursiveMaze 200 zeroDraws cornerBoard 0 2 30 2 73
              "horizontal" false "wall").
  assert (match r with
          | Some (b', _) =>
              bool_decide (start b' = (0, 0)) && bool_decide (target b' = (10, 10)) &&
              closedAt b' (0, 1) && closedAt b' (1, 0) &&
              closedAt b' (0, -1) && closedAt b' (-1, 0)
          | None => false
          end = true) as Hr by (vm_compute; reflexivity).
  destruct r as [[b' k']|]; [|discriminate]. exists b', k'. split; [reflexivity|].
  repeat (apply andb_true_iff in Hr as [Hr ?]).
  apply bool_decide_eq_true in Hr.
  match goal with H : bool_decide (target b' = _) = true |- _ =>
    apply bool_decide_eq_true in H; rename H into Ht end.
  intros Hconn. apply connected_boxed in Hconn; [congruence|].
  rewrite Hr. intros [r' c'] Ha. apply closedAt_not_open.
  assert ((r', c') = (0, 1) \/ (r', c') = (1, 0) \/ (r', c') = (0, -1) \/
          (r', c') = (-1, 0)) as Hcases.
  { unfold adjacentCells in Ha. simpl in Ha.
    assert ((r' = 0 /\ c' = 1) \/ (r' = 1 /\ c' = 0) \/ (r' = 0 /\ c' = -1) \/
            (r' = -1 /\ c' = 0)) as [[-> ->]|[[-> ->]|[[-> ->]|[-> ->]]]] by lia;
      auto. }
  destruct Hcases as [->|[->|[->| ->]]]; assumption.
Qed.

(** C3, amended: on a board that holds all its cells and has no wall, for
    a region that leaves the border free and has Start and End in it, or
    in the row above it or the column left of it, the generator returns
    for every sequence of draws (its fuel above the sum of the sides of
    the region), and Start, End and every open cell of that ringed region
    are connected by paths of open cells. *)
Theorem recursive_division_connected fuel rnd b k rs re cs ce orientation type :
  dense b -> noWalls b ->
  2 <= rs <= re -> 2 <= cs <= ce -> re <= height b - 2 -> ce <= width b - 2 ->
  ringed rs re cs ce (start b) -> ringed rs re cs ce (target b) ->
  (Z.to_nat (re - rs + 1) + Z.to_nat (ce - cs + 1) < fuel)%nat ->
  exists b' k',
    generateRecursiveMaze fuel rnd b k rs re cs ce orientation false type = Some (b', k') /\
    start b' = start b /\ target b' = target b /\
    connected b' (ringed rs re cs ce) (start b) (target b) /\
    (forall node, ringed rs re cs ce node -> openAt b' node ->
       connected b' (ringed rs re cs ce) (start b) node).
Proof.
  intros Hd Hnw Hr Hc Hre Hce Hs Ht Hfuel.
  destruct fuel as [|fuel]; [lia|].
  rewrite generateRecursiveMaze_border by lia.
  destruct (surround_spec type b Hd) as (b0 & -> & HS0 & _).
  assert (height b0 = height b) as Hh0 by apply HS0.
  assert (width b0 = width b) as Hw0 by apply HS0.
  destruct (recursive_division_inner (S fuel) rnd b0 k rs re cs ce orientation type)
    as (b' & k' & Hgen & HS & _ & Hconn); [by eapply dense_sameBut|lia..|].
  assert (forall node, isSpecialNode b0 node = isSpecialNode b node) as E0
    by (intros; by eapply isSpecialNode_sameBut).
  assert (forall node, ringed rs re cs ce node -> openAt b0 node) as Hopen0.
  { intros [r c] Hn. apply (openAt_sameBut _ _ _ _ HS0).
    - intros [[_ Hb] _]. region.
    - destruct (Hd r c) as [n Hlook]; [region..|].
      exists n. split; [done|]. by eapply Hnw. }
  assert (forall node, ringed rs re cs ce node -> isSpecialNode b node = true ->
                       openAt b' node) as Hsp.
  { intros node Hn Hspecial. apply (openAt_sameBut _ _ _ _ HS).
    - intros [_ Hf]. rewrite E0 in Hf. congruence.
    - by apply Hopen0. }
  assert (start b' = start b) as Es.
  { etrans; [apply HS|apply HS0]. }
  assert (target b' = target b) as Et.
  { etrans; [apply HS|apply HS0]. }
  assert (isSpecialNode b (start b) = true) as Hss.
  { unfold isSpecialNode. by rewrite bool_decide_true. }
  assert (isSpecialNode b (target b) = true) as Hst.
  { unfold isSpecialNode. rewrite (bool_decide_true (target b = target b)) by done.
    by rewrite orb_true_r. }
  specialize (Hconn Hopen0).
  assert (forall node, ringed rs re cs ce node -> openAt b' node ->
            connected b' (ringed rs re cs ce) (start b) node) as Hall.
  { intros node Hn Ho. eapply connected_trans; [|by apply Hconn].
    apply connected_sym, Hconn; [done|by apply Hsp]. }
  exists b', k'. split; [done|]. split; [done|]. split; [done|]. split; [|done].
  apply Hall; [done|by apply Hsp].
Qed.

Lemma recursive_division_connected_witness :
  exists b' k',
    generateRecursiveMaze 20 zeroDraws (emptyBoard 8 9 (1, 1) (6, 7) None) 0
      2 6 2 7 "horizontal" false "wall" = Some (b', k') /\
    connected b' (ringed 2 6 2 7) (1, 1) (6, 7).
Proof.
  destruct (recursive_division_connected 20 zeroDraws
              (emptyBoard 8 9 (1, 1) (6, 7) None) 0 2 6 2 7 "horizontal" "wall")
    as (b' & k' & Hgen & _ & _ & Hconn & _).
  - apply emptyBoard_dense.
  - apply emptyBoard_noWalls.
  - lia.
  - lia.
  - simpl. lia.
  - simpl. lia.
  - unfold ringed, inRegion. simpl. lia.
  - unfold ringed, inRegion. simpl. lia.
  - simpl. lia.
  - exists b', k'. split; [exact Hgen|exact Hconn].
Defined.
End RecursiveDivisionConnected.

(** ** The generators and the special nodes *)

Section Generators.
Import Maze.
Local Open Scope Z_scope.











(** *** The stair maze *)




(** *** Clearing around the special nodes *)





(** *** The random maze *)




(** *** The basic random maze *)



End Generators.

(** ** The generators keep the special nodes (claim C4) *)

Section GeneratorsAndSpecialNodes.
Import Maze.
Local Open Scope Z_scope.



End GeneratorsAndSpecialNodes.

(** * Further properties of the code *)

(** ** A* finds a shortest path *)

Lemma manhattanDistance_coords g p t :
  wf_grid g -> inBounds g p -> manhattanDistance g p t = gridDistance p t.
Proof.
  intros Hwf Hp. unfold manhattanDistance, gridDistance.
  destruct (proj2 Hwf p Hp) as [-> ->].
  destruct (decide (inBounds g t)) as [Ht|Ht].
  - by destruct (proj2 Hwf t Ht) as [-> ->].
  - by rewrite (cell_out g t Hwf Ht).
Qed.

Lemma gridDistance_refl p : gridDistance p p = 0.
Proof. unfold gridDistance, absDiff. lia. Qed.

Lemma gridDistance_sym p q : gridDistance p q = gridDistance q p.
Proof. unfold gridDistance, absDiff. lia. Qed.

Lemma gridDistance_triangle p q r :
  gridDistance p r <= gridDistance p q + gridDistance q r.
Proof. unfold gridDistance, absDiff. lia. Qed.

Lemma gridDistance_adjacent p q : adjacent p q -> gridDistance p q = 1.
Proof. unfold adjacent, gridDistance, absDiff. lia. Qed.

Lemma gridDistance_walk g s p n : walk g s p n -> gridDistance s p <= n.
Proof.
  induction 1 as [|p q n Hw IH Ha Ho]; [by rewrite gridDistance_refl|].
  pose proof (gridDistance_triangle s p q). rewrite (gridDistance_adjacent p q Ha) in *.
  lia.
Qed.

(** The relaxation of AStar.js keeps [totalDistance] at the distance plus
    the heuristic. *)
Lemma astar_relax_total u fin l : forall g,
  wf_grid g -> (forall q, q ∈ l -> inBounds g q) ->
  (forall p x, inBounds g p -> distance (cell g p) = Num x ->
     totalDistance (cell g p) = Num (x + gridDistance p fin)) ->
  let g' := foldl (fun g' neighbor =>
     let tentativeDistance := num_plus (distance (cell g' u)) 1 in
     if num_ltb tentativeDistance (distance (cell g' neighbor)) then
       let g1 := update g' neighbor (set_previousNode (Some u)) in
       let g2 := update g1 neighbor (set_distance tentativeDistance) in
       update g2 neighbor
         (set_totalDistance
            (num_plus (distance (cell g2 neighbor))
                      (manhattanDistance g2 neighbor fin)))
     else g') g l in
  forall p x, inBounds g p -> distance (cell g' p) = Num x ->
    totalDistance (cell g' p) = Num (x + gridDistance p fin).
Proof.
  match goal with |- context [foldl ?f] => set (F := f) end.
  induction l as [|q l IH]; intros g Hwf Hin HK g'; subst g'; [done|].
  change (foldl F g (q :: l)) with (foldl F (F g q) l).
  assert (inBounds g q) as Hq by (apply Hin; left).
  assert (wf_grid (F g q) /\ (forall p, inBounds (F g q) p <-> inBounds g p) /\
          forall p x, inBounds g p -> distance (cell (F g q) p) = Num x ->
            totalDistance (cell (F g q) p) = Num (x + gridDistance p fin))
    as (Hwf1 & Hb1 & HK1).
  { unfold F. cbv zeta.
    destruct (num_ltb (num_plus (distance (cell g u)) 1) (distance (cell g q)));
      [|by split_and!].
    set (g1 := update g q (set_previousNode (Some u))).
    set (g2 := update g1 q (set_distance (num_plus (distance (cell g u)) 1))).
    assert (wf_grid g2) as Hwf2 by (unfold g2, g1; auto with grid).
    assert (inBounds g2 q) as Hq2 by (unfold g2, g1; auto with grid).
    split_and!.
    - auto with grid.
    - intros p. unfold g2, g1. by rewrite !inBounds_update.
    - intros p x Hp. destruct (decide (p = q)) as [->|Hpq].
      + rewrite cell_update_eq by done.
        rewrite (manhattanDistance_coords g2 q fin Hwf2 Hq2).
        assert (distance (cell g2 q) = num_plus (distance (cell g u)) 1) as Hd2.
        { unfold g2. rewrite cell_update_eq; [by destruct (cell g1 q)| |];
            unfold g1; auto with grid. }
        revert Hd2. destruct (cell g2 q); simpl. intros ->.
        destruct (num_plus (distance (cell g u)) 1) as [y|]; simpl; [|done].
        by intros [= ->].
      + unfold g2, g1. rewrite !cell_update_ne by done. by apply HK. }
  intros p x Hp. apply IH; try done.
  - intros q' Hq'. apply Hb1, Hin. by right.
  - intros p' x' Hp'. apply HK1. by apply Hb1.
  - by apply Hb1.
Qed.

Lemma updateUnvisitedNeighborsAstar_total g u fin :
  wf_grid g -> inBounds g u ->
  (forall p x, inBounds g p -> distance (cell g p) = Num x ->
     totalDistance (cell g p) = Num (x + gridDistance p fin)) ->
  forall p x, inBounds g p ->
    distance (cell (updateUnvisitedNeighborsAstar u g fin) p) = Num x ->
    totalDistance (cell (updateUnvisitedNeighborsAstar u g fin) p)
    = Num (x + gridDistance p fin).
Proof.
  intros Hwf Hu HK. unfold updateUnvisitedNeighborsAstar.
  apply (astar_relax_total u fin (getUnvisitedNeighbors u g) g Hwf); [|done].
  intros q Hq. by apply (elem_of_getUnvisitedNeighbors g u q Hwf Hu) in Hq as (_ & ? & _).
Qed.

Section AstarLeast.
Variable g0 : Grid.
Variable s t : pos.

(** Every walk from the start ends in a finalized node or has passed a
    queued node whose distance and remaining steps fit in the walk. *)
Lemma astar_frontier g Q V p n :
  searchInv g0 s totalDistance g Q V V -> astarInv g0 s t g V V ->
  walk g0 s p n ->
  p ∈ V \/ exists y x, y ∈ Q /\ distance (cell g y) = Num x /\
                       x + gridDistance y p <= n.
Proof.
  intros HI HA. induction 1 as [Hs|p q n Hw IH Ha Ho].
  - destruct (inv_open _ _ _ _ _ _ _ HI s Hs) as [HsQ|HsV]; [|by left].
    right. exists s, 0. split; [done|].
    assert (s ∉ V) as HsV by (intros HsV; by apply (inv_V_Q _ _ _ _ _ _ _ HI s HsV)).
    split; [by apply (inv_start _ _ _ _ _ _ _ HI)|].
    rewrite gridDistance_refl. lia.
  - destruct (inv_open _ _ _ _ _ _ _ HI q Ho) as [HqQ|HqV]; [|by left].
    right. destruct IH as [HpV|(y & x & Hy & Hx & Hle)].
    + destruct (inv_chain _ _ _ _ _ _ _ HI p HpV) as (_ & dp & Hdp & _).
      pose proof (as_least _ _ _ _ _ _ HA p dp n HpV Hdp Hw) as Hdpn.
      destruct (as_next _ _ _ _ _ _ HA p q dp HpV Ha (proj1 Ho) Hdp)
        as [HqV|(x & Hx & Hle)].
      * by destruct (inv_V_Q _ _ _ _ _ _ _ HI q HqV).
      * exists q, x. split; [done|]. split; [done|].
        rewrite gridDistance_refl. lia.
    + exists y, x. split; [done|]. split; [done|].
      pose proof (gridDistance_triangle y p q).
      rewrite (gridDistance_adjacent p q Ha) in *. lia.
Qed.

Lemma astar_visit g Q V u rest d :
  searchInv g0 s totalDistance g Q V V -> astarInv g0 s t g V V ->
  sortNodesByTotalDistance g Q = u :: rest ->
  distance (cell g u) = Num d ->
  astarInv g0 s t (update g u (set_isVisited true)) (V ++ [u]) V.
Proof.
  intros HI HA Hs Hd.
  pose proof (inv_frame _ _ _ _ _ _ _ HI) as HF. pose proof HF as (Hwf & _).
  assert (u ∈ Q) as HuQ.
  { rewrite <- (sortNodesByTotalDistance_perm g Q), Hs. by left. }
  assert (inBounds g0 u) as Hu0 by (by apply (inv_Q_bounds _ _ _ _ _ _ _ HI)).
  assert (forall p, distance (cell (update g u (set_isVisited true)) p)
                    = distance (cell g p) /\
                    totalDistance (cell (update g u (set_isVisited true)) p)
                    = totalDistance (cell g p)) as Hsame.
  { intros p. destruct (cell_update_cases g u (set_isVisited true) p Hwf)
      as [(-> & _ & ->)|(_ & ->)]; [|done]. by destruct (cell g u). }
  constructor.
  - intros v x n [Hv| ->]%elem_of_snoc; rewrite (proj1 (Hsame _)); intros Hx Hw.
    + by apply (as_least _ _ _ _ _ _ HA v x n).
    + assert (x = d) as -> by congruence.
      destruct (astar_frontier g Q V u n HI HA Hw) as [HuV|(y & x & Hy & Hx' & Hle)].
      { by destruct (inv_V_Q _ _ _ _ _ _ _ HI u HuV). }
      pose proof (sortNodesByTotalDistance_min g Q u rest Hs y Hy) as Hmin.
      rewrite (as_total _ _ _ _ _ _ HA u d Hu0 Hd) in Hmin.
      rewrite (as_total _ _ _ _ _ _ HA y x
                 (inv_Q_bounds _ _ _ _ _ _ _ HI y Hy) Hx') in Hmin.
      simpl in Hmin. pose proof (gridDistance_triangle y u t). lia.
  - intros p x Hp. destruct (Hsame p) as [-> ->]. by apply (as_total _ _ _ _ _ _ HA).
  - intros v q dv Hv Ha Hq. rewrite (proj1 (Hsame v)), (proj1 (Hsame q)). intros Hdv.
    destruct (as_next _ _ _ _ _ _ HA v q dv Hv Ha Hq Hdv) as [HqV|?]; [|by right].
    left. apply elem_of_snoc. by left.
Qed.

Lemma astar_relax_inv g1 rest V u d :
  searchInv g0 s totalDistance g1 rest (V ++ [u]) V ->
  astarInv g0 s t g1 (V ++ [u]) V ->
  distance (cell g1 u) = Num d ->
  astarInv g0 s t (updateUnvisitedNeighborsAstar u g1 t) (V ++ [u]) (V ++ [u]).
Proof.
  intros HI HA Hd.
  pose proof (inv_frame _ _ _ _ _ _ _ HI) as HF. pose proof HF as (Hwf & _).
  assert (u ∈ V ++ [u]) as HuV by (apply elem_of_snoc; by right).
  assert (inBounds g0 u) as Hu0 by (by apply (inv_chain _ _ _ _ _ _ _ HI u HuV)).
  assert (inBounds g1 u) as Hu by (by apply (frame_inBounds g0 g1 u HF)).
  destruct (updateUnvisitedNeighborsAstar_spec g1 u d t Hwf Hu Hd)
    as (Hwf' & Hr & Hc & Hall).
  set (g' := updateUnvisitedNeighborsAstar u g1 t) in *.
  assert (forall p, p ∈ V ++ [u] -> cell g' p = cell g1 p) as Hvis.
  { intros p Hp. destruct (Hall p) as [(_ & Hb & Hv & _)|[_ ->]]; [|done].
    apply (frame_inBounds g0 g1 p HF) in Hb.
    apply (inv_visited _ _ _ _ _ _ _ HI p Hb) in Hp. congruence. }
  assert (forall p x, distance (cell g1 p) = Num x ->
            exists x', distance (cell g' p) = Num x' /\ x' <= x) as Hdown.
  { intros p x Hx. destruct (Hall p) as [(_ & _ & _ & Hlt & h & ->)|[_ ->]].
    - exists (d + 1). split; [by destruct (cell g1 p)|].
      rewrite Hx in Hlt. simpl in Hlt. apply Nat.ltb_lt in Hlt. lia.
    - by exists x. }
  constructor.
  - intros v x n Hv. rewrite (Hvis v Hv). by apply (as_least _ _ _ _ _ _ HA).
  - intros p x Hp. apply updateUnvisitedNeighborsAstar_total; try done.
    + intros p' x' Hp'. apply (as_total _ _ _ _ _ _ HA).
      by apply (frame_inBounds g0 g1 p' HF).
    + by apply (frame_inBounds g0 g1 p HF).
  - intros v q dv [Hv| ->]%elem_of_snoc Ha Hq.
    + rewrite (Hvis v) by (apply elem_of_snoc; by left). intros Hdv.
      destruct (as_next _ _ _ _ _ _ HA v q dv Hv Ha Hq Hdv) as [?|(x & Hx & Hle)];
        [by left|].
      right. destruct (Hdown q x Hx) as (x' & Hx' & Hle'). exists x'. split; [done|lia].
    + rewrite (Hvis u HuV), Hd. intros [= <-].
      destruct (isVisited (cell g1 q)) eqn:Hvq.
      { left. by apply (inv_visited _ _ _ _ _ _ _ HI q Hq). }
      right. destruct (Hall q) as [(_ & _ & _ & _ & h & ->)|[Hn ->]].
      * exists (d + 1). split; [by destruct (cell g1 q)|lia].
      * destruct (distance (cell g1 q)) as [x|] eqn:Hx.
        -- exists x. split; [done|].
           destruct (decide (x <= d + 1)) as [?|Hgt]; [done|].
           exfalso. apply Hn. split_and!; try done.
           ++ by apply (frame_inBounds g0 g1 q HF).
           ++ simpl. apply Nat.ltb_lt. lia.
        -- exfalso. apply Hn. split_and!; try done.
           by apply (frame_inBounds g0 g1 q HF).
Qed.
End AstarLeast.

Section AstarLeastRuns.
Variable hasElement : pos -> bool.
Variable grid : Grid.
Variable s t : pos.
Hypothesis grid_wf : wf_grid grid.
Hypothesis s_in : inBounds grid s.

Lemma astar_loop_least cls wait fuel g Q log :
  searchInv grid s totalDistance g Q [] [] -> astarInv grid s t g [] [] ->
  length Q <= fuel ->
  exists g' V log',
    searchLoop hasElement sortNodesByTotalDistance totalDistance
      (fun node g => updateUnvisitedNeighborsAstar node g t)
      cls wait t fuel g Q [] log = Some (g', V, log') /\
    searchPost grid s t g' V /\ shortest grid s g' V.
Proof using Type.
  clear grid_wf s_in.
  intros HI HA Hlen.
  pose proof (fun b n => eq_refl : totalDistance (set_isVisited b n) = totalDistance n)
    as Hkv.
  apply (searchLoop_rule hasElement sortNodesByTotalDistance totalDistance
           (fun node g => updateUnvisitedNeighborsAstar node g t) t
           sortNodesByTotalDistance_perm
           (fun g Q V => searchInv grid s totalDistance g Q V V /\
                         astarInv grid s t g V V)
           (fun g V => searchPost grid s t g V /\ shortest grid s g V));
    try done.
  - intros g1 V (HI1 & HA1). split.
    + apply (post_finish grid s t totalDistance sortNodesByTotalDistance
               sortNodesByTotalDistance_min). by left.
    + intros v x n. apply (as_least _ _ _ _ _ _ HA1).
  - intros g1 Q1 V u rest (HI1 & HA1) Hs Hw. split; [|done].
    by apply (inv_skip_wall grid s totalDistance sortNodesByTotalDistance
                sortNodesByTotalDistance_perm g1 Q1 V u rest).
  - intros g1 Q1 V u rest (HI1 & HA1) Hs Hw Hk. split.
    + apply (post_finish grid s t totalDistance sortNodesByTotalDistance
               sortNodesByTotalDistance_min). right. right. by exists Q1, u, rest.
    + intros v x n. apply (as_least _ _ _ _ _ _ HA1).
  - intros g1 Q1 V u rest (HI1 & HA1) Hs Hw Hk ->.
    destruct (popped_distance grid s totalDistance sortNodesByTotalDistance
                sortNodesByTotalDistance_perm g1 Q1 V t rest HI1 Hs Hk) as (Hu & d & Hd).
    pose proof (astar_visit grid s t g1 Q1 V t rest d HI1 HA1 Hs Hd) as HA2.
    split.
    + apply (post_finish grid s t totalDistance sortNodesByTotalDistance
               sortNodesByTotalDistance_min). right. left.
      exists rest, V. split.
      * by apply (inv_visit grid s totalDistance sortNodesByTotalDistance Hkv
                    sortNodesByTotalDistance_perm g1 Q1 V t rest d).
      * apply elem_of_snoc. by right.
    + intros v x n. apply (as_least _ _ _ _ _ _ HA2).
  - intros g1 Q1 V u rest (HI1 & HA1) Hs Hw Hk _.
    destruct (popped_distance grid s totalDistance sortNodesByTotalDistance
                sortNodesByTotalDistance_perm g1 Q1 V u rest HI1 Hs Hk) as (Hu & d & Hd).
    pose proof (astar_visit grid s t g1 Q1 V u rest d HI1 HA1 Hs Hd) as HA2.
    pose proof (inv_visit grid s totalDistance sortNodesByTotalDistance Hkv
                  sortNodesByTotalDistance_perm g1 Q1 V u rest d HI1 Hs Hw Hd) as HI2.
    assert (distance (cell (update g1 u (set_isVisited true)) u) = Num d) as Hd2.
    { destruct (inv_frame _ _ _ _ _ _ _ HI1) as (Hwf & _).
      rewrite cell_update_eq; [by destruct (cell g1 u)|done|].
      by apply (frame_inBounds grid g1 u (inv_frame _ _ _ _ _ _ _ HI1)). }
    split.
    + apply (visited_then_relaxed grid s totalDistance sortNodesByTotalDistance
               (fun node g => updateUnvisitedNeighborsAstar node g t) Hkv
               sortNodesByTotalDistance_perm (astar_relaxes t) g1 Q1 V u rest); done.
    + by apply (astar_relax_inv grid s t _ rest V u d).
Qed.

Lemma astar_runs_least speed isSecondPhase :
  exists g' V log,
    astar hasElement grid s t speed isSecondPhase = Some (g', V, log) /\
    searchPost grid s t g' V /\ shortest grid s g' V.
Proof using grid_wf s_in.
  unfold astar.
  set (g1 := foldl (astarReset s t) grid (getAllNodes grid)).
  destruct (foldl_each (astarReset s t)
              (fun p n n' =>
                 if decide (p = s) then n' = n
                 else exists h, n' =
                   set_heuristic h (set_isVisited false (set_previousNode None
                     (set_totalDistance Infinity (set_distance Infinity n)))))
              (astarReset_step s t) (getAllNodes grid) grid grid_wf
              (NoDup_getAllNodes grid))
    as (Hwf1 & Hr1 & Hc1 & _ & Hin1).
  { intros p. by apply elem_of_getAllNodes. }
  fold g1 in Hwf1, Hr1, Hc1, Hin1.
  assert (inBounds g1 s) as Hs1 by (unfold inBounds; by rewrite Hr1, Hc1).
  set (g2 := update g1 s (set_distance (Num 0))).
  set (g3 := update g2 s (set_heuristic (manhattanDistance g2 s t))).
  set (g4 := update g3 s (set_totalDistance (Num (heuristic (cell g3 s))))).
  set (g5 := update g4 s (set_previousNode None)).
  set (g6 := update g5 s (set_isVisited false)).
  assert (wf_grid g2) as Hwf2 by (unfold g2; auto with grid).
  assert (inBounds g2 s) as Hs2 by (unfold g2; auto with grid).
  assert (forall p, p <> s -> cell g6 p = cell g1 p) as Hne.
  { intros p Hp. unfold g6, g5, g4, g3, g2. by cells. }
  assert (cell g6 s =
            set_isVisited false (set_previousNode None
              (set_totalDistance (Num (gridDistance s t))
                (set_heuristic (gridDistance s t)
                   (set_distance (Num 0) (cell g1 s)))))) as Hs6.
  { unfold g6, g5, g4. cells. unfold g3 at 1 2. cells.
    rewrite (manhattanDistance_coords g2 s t Hwf2 Hs2).
    unfold g2. cells. by destruct (cell g1 s). }
  assert (forall p, inBounds grid p -> p <> s ->
            exists h, cell g1 p =
              set_heuristic h (set_isVisited false (set_previousNode None
                (set_totalDistance Infinity (set_distance Infinity (cell grid p))))))
    as Hreset.
  { intros p Hp Hps. specialize (Hin1 p). rewrite decide_False in Hin1 by done.
    apply Hin1. by apply elem_of_getAllNodes. }
  assert (cell g1 s = cell grid s) as Hs1'.
  { specialize (Hin1 s). rewrite decide_True in Hin1 by done.
    apply Hin1. by apply elem_of_getAllNodes. }
  assert (searchInv grid s totalDistance g6 (getAllNodes grid) [] []) as HI.
  { apply init_inv; try done.
    - split; [unfold g6, g5, g4, g3, g2; auto 12 with grid|].
      split_and!.
      + unfold g6, g5, g4, g3, g2. by rewrite !nrows_update.
      + unfold g6, g5, g4, g3, g2. by rewrite !ncols_update.
      + intros p. destruct (decide (p = s)) as [->|Hps].
        * rewrite Hs6, Hs1'. by destruct (cell grid s).
        * rewrite Hne by done. destruct (decide (inBounds grid p)) as [Hp|Hp].
          -- destruct (Hreset p Hp Hps) as [h0 ->]. by destruct (cell grid p).
          -- rewrite !cell_out; try done. unfold inBounds. by rewrite Hr1, Hc1.
    - apply NoDup_getAllNodes.
    - intros p. by apply elem_of_getAllNodes.
    - intros p Hp. destruct (decide (p = s)) as [->|Hps].
      + rewrite Hs6. by destruct (cell g1 s).
      + rewrite Hne by done. destruct (Hreset p Hp Hps) as [h0 ->].
        by destruct (cell grid p).
    - intros p Hp Hps. rewrite Hne by done. destruct (Hreset p Hp Hps) as [h0 ->].
      by destruct (cell grid p).
    - rewrite Hs6. by destruct (cell g1 s).
    - rewrite Hs6. by destruct (cell g1 s).
    - intros p Hp. destruct (decide (p = s)) as [->|Hps].
      + rewrite Hs6. by destruct (cell g1 s).
      + rewrite Hne by done. destruct (Hreset p Hp Hps) as [h0 ->].
        by destruct (cell grid p). }
  assert (astarInv grid s t g6 [] []) as HA.
  { constructor.
    - by intros v x n ?%elem_of_nil.
    - intros p x Hp. destruct (decide (p = s)) as [->|Hps].
      + rewrite Hs6. destruct (cell g1 s); simpl. by intros [= <-].
      + rewrite Hne by done. destruct (Hreset p Hp Hps) as [h0 ->].
        by destruct (cell grid p).
    - by intros v q dv ?%elem_of_nil. }
  destruct (decide (speed = "instant")); by apply astar_loop_least.
Qed.
End AstarLeastRuns.

(** A-star returns a shortest path: if the finish node is reachable from
    the start, [astar] returns, and following [previousNode] from the
    finish node gives a path of open, 4-adjacent cells from the start that
    no walk undercuts. *)
Theorem astar_shortest_path hasElement grid startNode finishNode speed isSecondPhase :
  wf_grid grid -> reachable grid startNode finishNode ->
  exists g' visitedNodesInOrder log path d,
    astar hasElement grid startNode finishNode speed isSecondPhase
      = Some (g', visitedNodesInOrder, log) /\
    (forall fuel, d < fuel ->
       getNodesInShortestPathOrder fuel g' finishNode = Some path) /\
    head path = Some startNode /\ last path = Some finishNode /\
    isPath grid path /\ length path = S d /\
    (forall n, walk grid startNode finishNode n -> d <= n).
Proof.
  intros Hwf [n0 Hw0].
  assert (inBounds grid startNode) as Hs by (by apply (walk_from_open _ _ _ _ Hw0)).
  assert (inBounds grid finishNode) as Ht by (by apply (walk_open _ _ _ _ Hw0)).
  destruct (astar_runs_least hasElement grid startNode finishNode Hwf Hs speed isSecondPhase)
    as (g' & V & log & Hrun & HP & Hshort).
  assert (finishNode ∈ V) as HtV.
  { destruct (decide (finishNode ∈ V)) as [?|HtV]; [done|].
    apply (reachable_visited grid startNode finishNode g' V); [done..|].
    by exists n0. }
  assert (isVisited (cell g' finishNode) = true) as Hvis
    by (by apply (post_visited _ _ _ _ _ HP)).
  destruct (post_path grid startNode finishNode g' V HP Ht Hvis)
    as (path & d & Hd & Hloop & Hhead & Hlast & Hpath & Hlen & _ & _).
  exists g', V, log, path, d.
  split_and!; try done.
  intros n Hn. by apply (Hshort finishNode d n).
Qed.

Lemma openGrid_open h w p : inBounds (openGrid h w) p -> open (openGrid h w) p.
Proof.
  intros Hp. split; [done|]. destruct p as [r c], Hp as [Hr Hc].
  pose proof (makeGrid_dims h w (fun _ => false)) as [Hn Hm].
  unfold openGrid in *. simpl in Hr, Hc. rewrite Hn in Hr. rewrite Hm in Hc by lia.
  by rewrite makeGrid_lookup.
Qed.

Lemma openGrid22_reachable : reachable (openGrid 2 2) (0, 0) (1, 1).
Proof.
  exists 2. apply (walk_step _ _ (0, 1)).
  - apply (walk_step _ _ (0, 0)).
    + apply walk_start. by apply openGrid_open, inBounds_compute.
    + left. simpl. lia.
    + by apply openGrid_open, inBounds_compute.
  - right. simpl. lia.
  - by apply openGrid_open, inBounds_compute.
Qed.

Lemma astar_shortest_path_witness :
  exists g' visitedNodesInOrder log path,
    astar noPage (openGrid 2 2) (0, 0) (1, 1) "instant" false
      = Some (g', visitedNodesInOrder, log) /\
    head path = Some (0, 0) /\ last path = Some (1, 1) /\
    isPath (openGrid 2 2) path.
Proof.
  destruct (astar_shortest_path noPage (openGrid 2 2) (0, 0) (1, 1) "instant" false
              (makeGrid_wf 2 2 _) openGrid22_reachable)
    as (g' & V & log & path & d & Hrun & _ & Hh & Hl & Hp & _).
  exists g', V, log, path. split_and!; assumption.
Defined.

(** ** The heuristic *)

(** Straight walks on a grid without walls. *)
Lemma walk_down g s r c n k :
  (forall p, inBounds g p -> isWall (cell g p) = false) ->
  walk g s (r, c) n -> r + k < nrows g -> walk g s (r + k, c) (n + k).
Proof.
  intros Hopen Hw. induction k as [|k IH]; intros Hk.
  { by rewrite !Nat.add_0_r. }
  rewrite !Nat.add_succ_r. apply (walk_step _ _ (r + k, c)); [apply IH; lia| |].
  - right. simpl. lia.
  - assert (inBounds g (S (r + k), c)) as Hb.
    { split; simpl; [lia|]. by destruct (walk_open _ _ _ _ Hw) as [[_ ?] _]. }
    split; [done|by apply Hopen].
Qed.

Lemma walk_up g s r c n k :
  (forall p, inBounds g p -> isWall (cell g p) = false) ->
  walk g s (r, c) n -> k <= r -> walk g s (r - k, c) (n + k).
Proof.
  intros Hopen Hw. induction k as [|k IH]; intros Hk.
  { by rewrite Nat.sub_0_r, Nat.add_0_r. }
  rewrite Nat.add_succ_r. apply (walk_step _ _ (r - k, c)); [apply IH; lia| |].
  - right. simpl. lia.
  - assert (inBounds g (r - S k, c)) as Hb.
    { destruct (walk_open _ _ _ _ Hw) as [[Hr ?] _]. split; simpl in *; [lia|done]. }
    split; [done|by apply Hopen].
Qed.

Lemma walk_right g s r c n k :
  (forall p, inBounds g p -> isWall (cell g p) = false) ->
  walk g s (r, c) n -> c + k < ncols g -> walk g s (r, c + k) (n + k).
Proof.
  intros Hopen Hw. induction k as [|k IH]; intros Hk.
  { by rewrite !Nat.add_0_r. }
  rewrite !Nat.add_succ_r. apply (walk_step _ _ (r, c + k)); [apply IH; lia| |].
  - left. simpl. lia.
  - assert (inBounds g (r, S (c + k))) as Hb.
    { split; simpl; [|lia]. by destruct (walk_open _ _ _ _ Hw) as [[? _] _]. }
    split; [done|by apply Hopen].
Qed.

Lemma walk_left g s r c n k :
  (forall p, inBounds g p -> isWall (cell g p) = false) ->
  walk g s (r, c) n -> k <= c -> walk g s (r, c - k) (n + k).
Proof.
  intros Hopen Hw. induction k as [|k IH]; intros Hk.
  { by rewrite Nat.sub_0_r, Nat.add_0_r. }
  rewrite Nat.add_succ_r. apply (walk_step _ _ (r, c - k)); [apply IH; lia| |].
  - left. simpl. lia.
  - assert (inBounds g (r, c - S k)) as Hb.
    { destruct (walk_open _ _ _ _ Hw) as [[? Hc] _]. split; simpl in *; [done|lia]. }
    split; [done|by apply Hopen].
Qed.

(** [manhattanDistance] never exceeds the steps of a walk between the two
    nodes, walls or not, changes by one between neighbours, and is the
    length of a walk where the grid has no wall. *)
Theorem manhattanDistance_admissible g node finishNode :
  wf_grid g -> inBounds g node -> inBounds g finishNode ->
  (forall n, walk g node finishNode n -> manhattanDistance g node finishNode <= n) /\
  (forall q, inBounds g q -> adjacent node q ->
     manhattanDistance g node finishNode <= manhattanDistance g q finishNode + 1) /\
  ((forall p, inBounds g p -> isWall (cell g p) = false) ->
   walk g node finishNode (manhattanDistance g node finishNode)).
Proof.
  intros Hwf Hp Ht. rewrite (manhattanDistance_coords g node finishNode Hwf Hp).
  split; [|split].
  - intros n Hw. by apply (gridDistance_walk g).
  - intros q Hq Ha. rewrite (manhattanDistance_coords g q finishNode Hwf Hq).
    pose proof (gridDistance_triangle node q finishNode).
    rewrite (gridDistance_adjacent node q Ha) in *. lia.
  - intros Hopen. destruct node as [r c], finishNode as [r' c'].
    assert (walk g (r, c) (r, c) 0) as H0.
    { apply walk_start. split; [done|by apply Hopen]. }
    destruct Hp as [Hr Hc], Ht as [Hr' Hc']. simpl in *.
    unfold gridDistance, absDiff. simpl.
    assert (walk g (r, c) (r', c) ((r - r') + (r' - r))) as H1.
    { destruct (decide (r <= r')) as [Hle|Hgt].
      - replace r' with (r + (r' - r)) at 1 by lia.
        replace (r - r' + (r' - r)) with (0 + (r' - r)) by lia.
        apply walk_down; [done..|lia].
      - replace r' with (r - (r - r')) at 1 by lia.
        replace (r - r' + (r' - r)) with (0 + (r - r')) by lia.
        apply walk_up; [done..|lia]. }
    destruct (decide (c <= c')) as [Hle|Hgt].
    + replace c' with (c + (c' - c)) at 1 by lia.
      replace (r - r' + (r' - r) + (c - c' + (c' - c)))
        with ((r - r' + (r' - r)) + (c' - c)) by lia.
      apply walk_right; [done..|lia].
    + replace c' with (c - (c - c')) at 1 by lia.
      replace (r - r' + (r' - r) + (c - c' + (c' - c)))
        with ((r - r' + (r' - r)) + (c - c')) by lia.
      apply walk_left; [done..|lia].
Qed.

Lemma manhattanDistance_admissible_witness :
  manhattanDistance (openGrid 2 2) (0, 0) (1, 1) <= 2 /\
  walk (openGrid 2 2) (0, 0) (1, 1) (manhattanDistance (openGrid 2 2) (0, 0) (1, 1)).
Proof.
  destruct (manhattanDistance_admissible (openGrid 2 2) (0, 0) (1, 1)
              (makeGrid_wf 2 2 _)) as (_ & _ & Hw).
  - apply inBounds_compute. reflexivity.
  - apply inBounds_compute. reflexivity.
  - split; [vm_compute; lia|]. apply Hw. intros p Hp.
    apply (openGrid_open 2 2 p Hp).
Defined.

(** ** The search stops at the finish node *)

Lemma searchLoop_last hasElement sortNodes key relax cls wait t fuel :
  forall g Q V log g' V' log',
    searchLoop hasElement sortNodes key relax cls wait t fuel g Q V log
    = Some (g', V', log') ->
    t ∉ V -> t ∈ V' -> last V' = Some t.
Proof.
  induction fuel as [|fuel IH]; intros g Q V log g' V' log' Hrun HtV HtV'.
  { destruct Q; [|done]. simpl in Hrun. injection Hrun as <- <- <-. done. }
  destruct Q as [|q Q].
  { simpl in Hrun. injection Hrun as <- <- <-. done. }
  cbn [searchLoop] in Hrun.
  destruct (sortNodes g (q :: Q)) as [|u rest]; [done|].
  destruct (isWall (cell g u)); [by eapply IH|].
  destruct (isInfinity (key (cell g u))).
  { injection Hrun as <- <- <-. done. }
  destruct (decide (u = t)) as [->|Hut].
  { injection Hrun as <- <- <-. apply last_snoc. }
  eapply IH; [exact Hrun| |done].
  intros [?| ->]%elem_of_snoc; done.
Qed.

(** Both searches stop at the finish node: when it is finalized it is the
    last node of the returned list. *)
Theorem search_stops_at_finish hasElement grid startNode finishNode speed isSecondPhase :
  wf_grid grid -> inBounds grid startNode ->
  (exists g' visitedNodesInOrder log,
     dijkstra hasElement grid startNode finishNode speed isSecondPhase
       = Some (g', visitedNodesInOrder, log) /\
     (finishNode ∈ visitedNodesInOrder -> last visitedNodesInOrder = Some finishNode)) /\
  (exists g' visitedNodesInOrder log,
     astar hasElement grid startNode finishNode speed isSecondPhase
       = Some (g', visitedNodesInOrder, log) /\
     (finishNode ∈ visitedNodesInOrder -> last visitedNodesInOrder = Some finishNode)).
Proof.
  intros Hwf Hs. split.
  - destruct (dijkstra_runs hasElement grid startNode finishNode Hwf Hs speed isSecondPhase)
      as (g' & V & log & Hrun & _).
    exists g', V, log. split; [done|]. intros Ht.
    unfold dijkstra in Hrun.
    destruct (decide (speed = "instant"));
      eapply searchLoop_last; try exact Hrun; try done; by intros ?%elem_of_nil.
  - destruct (astar_runs hasElement grid startNode finishNode Hwf Hs speed isSecondPhase)
      as (g' & V & log & Hrun & _).
    exists g', V, log. split; [done|]. intros Ht.
    unfold astar in Hrun.
    destruct (decide (speed = "instant"));
      eapply searchLoop_last; try exact Hrun; try done; by intros ?%elem_of_nil.
Qed.

Lemma search_stops_at_finish_witness :
  exists g' visitedNodesInOrder log,
    dijkstra noPage (openGrid 2 2) (0, 0) (1, 1) "instant" false
      = Some (g', visitedNodesInOrder, log) /\
    (( (1, 1) : pos) ∈ visitedNodesInOrder -> last visitedNodesInOrder = Some (1, 1)).
Proof.
  destruct (search_stops_at_finish noPage (openGrid 2 2) (0, 0) (1, 1) "instant" false
              (makeGrid_wf 2 2 _)) as [H _].
  - apply inBounds_compute. reflexivity.
  - exact H.
Defined.

(** ** [Array.prototype.sort] with the comparators of the searches *)

Section SortSpec.
Context {A : Type}.
Variable key : A -> num.

Let cmp : A -> A -> sign := fun a b => num_minus (key a) (key b).

Lemma insertBy_elem (x y : A) l : y ∈ insertBy cmp x l <-> y = x \/ y ∈ l.
Proof. rewrite (insertBy_perm cmp x l). apply elem_of_cons. Qed.

Lemma insertBy_sorted x l :
  ascendingBy key l -> ascendingBy key (insertBy cmp x l).
Proof.
  induction l as [|y l IH]; simpl; [done|]. intros [Hall Hs].
  assert (cmp y x <> Negative ->
          ascendingBy key (x :: y :: l)) as Hfront.
  { intros Hc. apply num_minus_not_negative in Hc. simpl. split; [|done].
    constructor; [done|]. eapply Forall_impl; [exact Hall|].
    intros z Hz. by eapply num_le_trans. }
  destruct (cmp y x) eqn:Hc; try (by apply Hfront).
  simpl. split; [|by apply IH].
  apply Forall_forall. intros z [->|Hz]%insertBy_elem.
  - unfold cmp in Hc. destruct (key y) as [a|], (key x) as [b|]; simpl in *;
      try done. destruct (Nat.compare_spec a b); try done. lia.
  - by apply (proj1 (Forall_forall _ _) Hall).
Qed.

Lemma insertBy_stable d x l :
  filter (fun a => key a = d) (insertBy cmp x l)
  = filter (fun a => key a = d) (x :: l).
Proof.
  induction l as [|y l IH]; [done|]. simpl.
  destruct (cmp y x) eqn:Hc; try done.
  rewrite !filter_cons, IH, !filter_cons.
  destruct (decide (key y = d)) as [Hy|Hy], (decide (key x = d)) as [Hx|Hx]; try done.
  exfalso. unfold cmp in Hc. rewrite Hy, Hx in Hc.
  destruct d as [a|]; simpl in Hc; [|done]. by rewrite Nat.compare_refl in Hc.
Qed.

Lemma sortBy_spec l :
  sortBy cmp l ≡ₚ l /\ ascendingBy key (sortBy cmp l) /\
  forall d, filter (fun a => key a = d) (sortBy cmp l) = filter (fun a => key a = d) l.
Proof.
  split; [apply sortBy_perm|]. split.
  - induction l as [|x l IH]; [done|]. by apply insertBy_sorted.
  - intros d. induction l as [|x l IH]; [done|].
    change (sortBy cmp (x :: l)) with (insertBy cmp x (sortBy cmp l)).
    rewrite insertBy_stable, !filter_cons, IH. done.
Qed.
End SortSpec.

(** [sortNodesByDistance] and [sortNodesByTotalDistance] reorder the
    nodes: the result is in ascending order of the key, [Infinity] last,
    and nodes of equal key keep their order. *)
Theorem sortNodes_ascending_stable g nodes :
  (sortNodesByDistance g nodes ≡ₚ nodes /\
   ascendingBy (fun a => distance (cell g a)) (sortNodesByDistance g nodes) /\
   forall d, filter (fun a => distance (cell g a) = d) (sortNodesByDistance g nodes)
             = filter (fun a => distance (cell g a) = d) nodes) /\
  (sortNodesByTotalDistance g nodes ≡ₚ nodes /\
   ascendingBy (fun a => totalDistance (cell g a))
     (sortNodesByTotalDistance g nodes) /\
   forall d, filter (fun a => totalDistance (cell g a) = d)
               (sortNodesByTotalDistance g nodes)
             = filter (fun a => totalDistance (cell g a) = d) nodes).
Proof.
  split.
  - apply (sortBy_spec (fun p => distance (cell g p)) nodes).
  - apply (sortBy_spec (fun p => totalDistance (cell g p)) nodes).
Qed.

(** ** The helpers of the searches *)

(** [getUnvisitedNeighbors] returns the nodes next to [node] (up, down,
    left, right) that lie inside the grid and have [isVisited] false,
    each once: at most four, walls among them. *)
Theorem getUnvisitedNeighbors_exact g node :
  wf_grid g -> inBounds g node ->
  (forall q, q ∈ getUnvisitedNeighbors node g <->
             adjacent node q /\ inBounds g q /\ isVisited (cell g q) = false) /\
  NoDup (getUnvisitedNeighbors node g) /\
  length (getUnvisitedNeighbors node g) <= 4.
Proof.
  intros Hwf Hu. split; [intros q; by apply elem_of_getUnvisitedNeighbors|].
  destruct (proj2 Hwf node Hu) as [Hr Hc].
  unfold getUnvisitedNeighbors. rewrite Hr, Hc.
  destruct node as [r c]. simpl.
  set (l := (if 0 <? r then [(r - 1, c)] else []) ++
            (if r <? nrows g - 1 then [(r + 1, c)] else []) ++
            (if 0 <? c then [(r, c - 1)] else []) ++
            (if c <? ncols g - 1 then [(r, c + 1)] else [])).
  assert (NoDup l /\ length l <= 4) as [Hnd Hlen].
  { unfold l.
    destruct (0 <? r) eqn:E1, (r <? nrows g - 1) eqn:E2,
             (0 <? c) eqn:E3, (c <? ncols g - 1) eqn:E4;
      simpl; (split; [|lia]);
      apply Nat.ltb_lt in E1 || clear E1; apply Nat.ltb_lt in E3 || clear E3;
      repeat (apply NoDup_cons; split;
              [rewrite ?elem_of_cons, ?elem_of_nil, ?pos_eq_iff; simpl; lia|]);
      apply NoDup_nil_2. }
  split; [by apply NoDup_filter|].
  etrans; [apply length_filter|done].
Qed.

Lemma getUnvisitedNeighbors_exact_witness :
  length (getUnvisitedNeighbors (0, 0) (openGrid 2 2)) <= 4 /\
  NoDup (getUnvisitedNeighbors (0, 0) (openGrid 2 2)).
Proof.
  destruct (getUnvisitedNeighbors_exact (openGrid 2 2) (0, 0) (makeGrid_wf 2 2 _))
    as (_ & Hnd & Hlen).
  - apply inBounds_compute. reflexivity.
  - split; assumption.
Defined.

Lemma rowNodes_lookup {B : Type} (k : nat) (l : list B) c :
  c < length l -> imap (fun c (_ : B) => (k, c)) l !! c = Some (k, c).
Proof.
  intros Hc. rewrite list_lookup_imap.
  destruct (lookup_lt_is_Some_2 l c Hc) as [x ->]. done.
Qed.

Lemma allNodes_lookup (g : list (list Node)) (w : nat) : forall k r c,
  (forall l, l ∈ g -> length l = w) -> r < length g -> c < w ->
  concat (imap (fun r l => imap (fun c (_ : Node) => (k + r, c)) l) g) !! (r * w + c)
  = Some (k + r, c).
Proof.
  induction g as [|x g IH]; intros k r c Hlen Hr Hc; [simpl in Hr; lia|].
  rewrite imap_cons. simpl concat.
  assert (length x = w) as Hx by (apply Hlen; left).
  assert (length (imap (fun c (_ : Node) => (k + 0, c)) x) = w) as Hx'
    by (by rewrite length_imap).
  destruct r as [|r].
  - rewrite lookup_app_l by (rewrite Hx'; lia). simpl.
    rewrite rowNodes_lookup by lia. done.
  - rewrite lookup_app_r by (rewrite Hx'; lia). rewrite Hx'.
    replace (S r * w + c - w) with (r * w + c) by lia.
    rewrite (imap_ext _ (fun r l => imap (fun c (_ : Node) => (S k + r, c)) l)).
    + rewrite IH; [f_equal; f_equal; lia| |simpl in Hr; lia|done].
      intros l Hl. apply Hlen. by right.
    + intros i l _. simpl. apply imap_ext. intros j n _. f_equal. lia.
Qed.

Lemma length_concat_imap {B C : Type} (w : nat) (g : list (list B)) :
  forall f : nat -> list B -> list C,
  (forall i l, length (f i l) = length l) -> (forall l, l ∈ g -> length l = w) ->
  length (concat (imap f g)) = length g * w.
Proof.
  induction g as [|x g IH]; intros f Hf Hlen; [done|].
  rewrite imap_cons. simpl. rewrite length_app, Hf, (Hlen x) by left. f_equal.
  apply IH; [intros i l; apply Hf|]. intros l Hl. apply Hlen. by right.
Qed.

(** [getAllNodes] lists every node of the grid once, row by row: the node
    at row [r] and column [c] is the entry [r * cols + c]. *)
Theorem getAllNodes_row_major g :
  wf_grid g ->
  length (getAllNodes g) = nrows g * ncols g /\
  NoDup (getAllNodes g) /\
  forall r c, r < nrows g -> c < ncols g ->
    getAllNodes g !! (r * ncols g + c) = Some (r, c).
Proof.
  intros Hwf. pose proof Hwf as [Hrect _].
  assert (forall l, l ∈ g -> length l = ncols g) as Hlen.
  { intros l [i Hi]%list_elem_of_lookup_1. by eapply Hrect. }
  split; [|split; [apply NoDup_getAllNodes|]].
  - unfold getAllNodes, nrows. apply length_concat_imap; [|done].
    intros i l. apply length_imap.
  - intros r c Hr Hc. unfold getAllNodes.
    apply (allNodes_lookup g (ncols g) 0 r c Hlen Hr Hc).
Qed.

Lemma getAllNodes_row_major_witness :
  getAllNodes (openGrid 2 3) !! 4 = Some (1, 1).
Proof.
  destruct (getAllNodes_row_major (openGrid 2 3) (makeGrid_wf 2 3 _)) as (_ & _ & H).
  apply (H 1 1); vm_compute; lia.
Defined.

(** ** Dijkstra finalizes the nodes in order of distance *)

Lemma ascendingBy_snoc {A : Type} (key : A -> num) l u :
  ascendingBy key l -> Forall (fun v => num_le (key v) (key u)) l ->
  ascendingBy key (l ++ [u]).
Proof.
  induction l as [|x l IH]; simpl; [done|].
  intros [Hall Hs] Hle. apply Forall_cons in Hle as [Hxu Hle]. split; [|by apply IH].
  apply Forall_app. split; [done|]. by constructor.
Qed.

Lemma ascendingBy_ext {A : Type} (key key' : A -> num) l :
  (forall v, v ∈ l -> key' v = key v) -> ascendingBy key l -> ascendingBy key' l.
Proof.
  induction l as [|x l IH]; simpl; [done|]. intros He [Hall Hs]. split.
  - rewrite (He x) by left. apply Forall_forall. intros y Hy.
    rewrite (He y) by (by right). by apply (proj1 (Forall_forall _ _) Hall).
  - apply IH; [|done]. intros v Hv. apply He. by right.
Qed.

Section DijkstraOrder.
Variable hasElement : pos -> bool.
Variable grid : Grid.
Variable s t : pos.
Hypothesis grid_wf : wf_grid grid.
Hypothesis s_in : inBounds grid s.

(** The state [dijkstra] starts its loop in. *)
Lemma dijkstra_first_state :
  exists g2,
    searchInv grid s distance g2 (getAllNodes grid) [] [] /\ parity s g2 /\
    levelInv grid s g2 (getAllNodes grid) [] 0 /\
    forall speed isSecondPhase,
      dijkstra hasElement grid s t speed isSecondPhase =
      if decide (speed = "instant") then
        searchLoop hasElement sortNodesByDistance distance updateUnvisitedNeighbors
          ("node " +:+ visitedClass isSecondPhase +:+ " instant") []
          t (length (getAllNodes grid)) g2 (getAllNodes grid) [] []
      else
        searchLoop hasElement sortNodesByDistance distance updateUnvisitedNeighbors
          ("node " +:+ visitedClass isSecondPhase)
          [Timeout (if decide (speed = "slow") then 50 else 10)]
          t (length (getAllNodes grid)) g2 (getAllNodes grid) [] [].
Proof using grid_wf s_in.
  set (g00 := update grid s (set_distance (Num 0))).
  assert (wf_grid g00) as Hwf0 by (unfold g00; auto with grid).
  assert (getAllNodes g00 = getAllNodes grid) as HQ by apply getAllNodes_update.
  set (g1 := foldl dijkstraReset g00 (getAllNodes grid)).
  destruct (foldl_each dijkstraReset
              (fun p n n' => n' = set_isVisited false (set_previousNode None
                                    (set_distance Infinity n)))
              dijkstraReset_step (getAllNodes grid) g00 Hwf0
              (NoDup_getAllNodes grid))
    as (Hwf1 & Hr1 & Hc1 & _ & Hin1).
  { intros p Hp. unfold g00. apply inBounds_update_2. by apply elem_of_getAllNodes. }
  fold g1 in Hwf1, Hr1, Hc1, Hin1.
  assert (nrows g1 = nrows grid) as Hr1' by (rewrite Hr1; apply nrows_update).
  assert (ncols g1 = ncols grid) as Hc1' by (rewrite Hc1; apply ncols_update).
  assert (inBounds g1 s) as Hs1 by (unfold inBounds; by rewrite Hr1', Hc1').
  set (g2 := update g1 s (set_distance (Num 0))).
  exists g2.
  assert (forall p, inBounds grid p -> exists n,
            cell g1 p = set_isVisited false (set_previousNode None
                          (set_distance Infinity n)) /\
            isWall n = isWall (cell grid p)) as Hreset.
  { intros p Hp. exists (cell g00 p). split.
    - apply Hin1. by apply elem_of_getAllNodes.
    - unfold g00. destruct (cell_update_cases grid s (set_distance (Num 0)) p)
        as [(-> & _ & ->)|(_ & ->)]; [done| |done]. by destruct (cell grid s). }
  assert (forall p, p <> s -> cell g2 p = cell g1 p) as Hne.
  { intros p Hp. unfold g2. by cells. }
  assert (cell g2 s = set_distance (Num 0) (cell g1 s)) as Hs2.
  { unfold g2. by cells. }
  assert (forall p, inBounds grid p -> p <> s -> distance (cell g2 p) = Infinity) as Hinf.
  { intros p Hp Hps. rewrite Hne by done. destruct (Hreset p Hp) as (n & -> & _).
    by destruct n. }
  assert (distance (cell g2 s) = Num 0) as Hd0.
  { rewrite Hs2. by destruct (cell g1 s). }
  assert (frame grid g2) as HF.
  { split; [unfold g2; auto with grid|]. split_and!.
    - unfold g2. by rewrite nrows_update.
    - unfold g2. by rewrite ncols_update.
    - intros p. destruct (decide (inBounds grid p)) as [Hp|Hp].
      + destruct (Hreset p Hp) as (n & Hn & <-).
        destruct (decide (p = s)) as [->|Hps].
        * rewrite Hs2, Hn. by destruct n.
        * rewrite Hne, Hn by done. by destruct n.
      + rewrite !cell_out; try done; [unfold g2; auto with grid|].
        unfold g2. rewrite inBounds_update. unfold inBounds. by rewrite Hr1', Hc1'. }
  split_and!.
  - apply init_inv; try done.
    + apply NoDup_getAllNodes.
    + intros p. by apply elem_of_getAllNodes.
    + intros p Hp. destruct (Hreset p Hp) as (n & Hn & _).
      destruct (decide (p = s)) as [->|Hps].
      * rewrite Hs2, Hn. by destruct n.
      * rewrite Hne, Hn by done. by destruct n.
    + destruct (Hreset s s_in) as (n & Hn & _). rewrite Hs2, Hn. by destruct n.
  - intros p x Hx. destruct (decide (p = s)) as [->|Hps].
    + rewrite Hd0 in Hx. injection Hx as <-. exists (s.1 + s.2). lia.
    + destruct (decide (inBounds grid p)) as [Hp|Hp].
      * rewrite Hinf in Hx by done. done.
      * rewrite cell_out in Hx; [done|apply HF|].
        by rewrite (frame_inBounds grid g2 p HF).
  - constructor.
    + by intros v x ?%elem_of_nil.
    + intros q x Hq Hx. destruct (decide (q = s)) as [->|Hqs].
      * rewrite Hd0 in Hx. injection Hx as <-. lia.
      * rewrite Hinf in Hx; [done| |done]. by apply elem_of_getAllNodes.
    + intros p n Hw Hn. assert (n = 0) as -> by lia.
      inversion Hw; subst. by exists 0.
  - intros speed isSecondPhase. unfold dijkstra. fold g00. rewrite HQ. fold g1 g2.
    reflexivity.
Qed.

Lemma dijkstra_loop_ordered cls wait fuel g Q log :
  searchInv grid s distance g Q [] [] -> parity s g ->
  levelInv grid s g Q [] 0 -> length Q <= fuel ->
  exists g' V log',
    searchLoop hasElement sortNodesByDistance distance updateUnvisitedNeighbors
      cls wait t fuel g Q [] log = Some (g', V, log') /\
    searchPost grid s t g' V /\ shortest grid s g' V /\
    ascendingBy (fun p => distance (cell g' p)) V.
Proof using Type.
  clear grid_wf s_in.
  intros HI HP HL Hlen.
  pose proof (fun b n => eq_refl : distance (set_isVisited b n) = distance n) as Hkv.
  assert (forall g1 Q1 V u rest m d,
    searchInv grid s distance g1 Q1 V V -> levelInv grid s g1 Q1 V m ->
    sortNodesByDistance g1 Q1 = u :: rest -> distance (cell g1 u) = Num d ->
    ascendingBy (fun p => distance (cell g1 p)) V ->
    ascendingBy (fun p => distance (cell (update g1 u (set_isVisited true)) p))
      (V ++ [u])) as Hvisit.
  { intros g1 Q1 V u rest m d HI1 HL1 Hs Hd Hasc.
    destruct (inv_frame _ _ _ _ _ _ _ HI1) as (Hwf & _).
    assert (forall p, distance (cell (update g1 u (set_isVisited true)) p)
                      = distance (cell g1 p)) as Hsame.
    { intros p. destruct (cell_update_cases g1 u (set_isVisited true) p Hwf)
        as [(-> & _ & ->)|(_ & ->)]; [|done]. by destruct (cell g1 u). }
    apply (ascendingBy_ext (fun p => distance (cell g1 p))); [intros; apply Hsame|].
    apply ascendingBy_snoc; [done|]. apply Forall_forall. intros v Hv.
    destruct (inv_chain _ _ _ _ _ _ _ HI1 v Hv) as (_ & x & Hx & _).
    rewrite Hx, Hd. simpl.
    pose proof (lv_V _ _ _ _ _ _ HL1 v x Hv Hx).
    assert (u ∈ Q1) as HuQ.
    { rewrite <- (sortNodesByDistance_perm g1 Q1), Hs. by left. }
    pose proof (lv_Q _ _ _ _ _ _ HL1 u d HuQ Hd). lia. }
  apply (searchLoop_rule hasElement sortNodesByDistance distance
           updateUnvisitedNeighbors t sortNodesByDistance_perm
           (fun g Q V => searchInv grid s distance g Q V V /\ parity s g /\
                         (exists m, levelInv grid s g Q V m) /\
                         ascendingBy (fun p => distance (cell g p)) V)
           (fun g V => searchPost grid s t g V /\ shortest grid s g V /\
                       ascendingBy (fun p => distance (cell g p)) V));
    try done.
  - intros g1 V (HI1 & HP1 & (m & HL1) & Hasc). split_and!; [| |done].
    + apply (post_finish grid s t distance sortNodesByDistance
               sortNodesByDistance_min). by left.
    + intros v x n. by apply (shortest_of_level grid s g1 [] V m).
  - intros g1 Q1 V u rest (HI1 & HP1 & (m & HL1) & Hasc) Hs Hw. split_and!; try done.
    + by apply (inv_skip_wall grid s distance sortNodesByDistance
                  sortNodesByDistance_perm g1 Q1 V u rest).
    + exists m. by apply (level_skip_wall grid s g1 Q1 V u rest m).
  - intros g1 Q1 V u rest (HI1 & HP1 & (m & HL1) & Hasc) Hs Hw Hk. split_and!; [| |done].
    + apply (post_finish grid s t distance sortNodesByDistance
               sortNodesByDistance_min). right. right. by exists Q1, u, rest.
    + intros v x n. by apply (shortest_of_level grid s g1 Q1 V m).
  - intros g1 Q1 V u rest (HI1 & HP1 & (m & HL1) & Hasc) Hs Hw Hk ->.
    destruct (popped_distance grid s distance sortNodesByDistance
                sortNodesByDistance_perm g1 Q1 V t rest HI1 Hs Hk) as (Hu & d & Hd).
    destruct (level_visit grid s g1 Q1 V t rest m d HI1 HP1 HL1 Hs Hd) as [HP2 HL2].
    split_and!.
    + apply (post_finish grid s t distance sortNodesByDistance
               sortNodesByDistance_min). right. left.
      exists rest, V. split.
      * by apply (inv_visit grid s distance sortNodesByDistance Hkv
                    sortNodesByDistance_perm g1 Q1 V t rest d).
      * apply elem_of_snoc. by right.
    + intros v x n. by apply (shortest_of_level grid s _ rest (V ++ [t]) d).
    + by apply (Hvisit g1 Q1 V t rest m d).
  - intros g1 Q1 V u rest (HI1 & HP1 & (m & HL1) & Hasc) Hs Hw Hk _.
    destruct (popped_distance grid s distance sortNodesByDistance
                sortNodesByDistance_perm g1 Q1 V u rest HI1 Hs Hk) as (Hu & d & Hd).
    destruct (level_visit grid s g1 Q1 V u rest m d HI1 HP1 HL1 Hs Hd) as [HP2 HL2].
    pose proof (inv_visit grid s distance sortNodesByDistance Hkv
                  sortNodesByDistance_perm g1 Q1 V u rest d HI1 Hs Hw Hd) as HI2.
    pose proof (inv_frame _ _ _ _ _ _ _ HI2) as HF2. pose proof HF2 as (Hwf2 & _).
    assert (inBounds (update g1 u (set_isVisited true)) u) as Hu2
      by (by apply (frame_inBounds grid _ u HF2)).
    assert (distance (cell (update g1 u (set_isVisited true)) u) = Num d) as Hd2.
    { destruct (inv_frame _ _ _ _ _ _ _ HI1) as (Hwf & _).
      rewrite cell_update_eq; [by destruct (cell g1 u)|done|].
      by apply (frame_inBounds grid g1 u (inv_frame _ _ _ _ _ _ _ HI1)). }
    destruct (level_relax grid s _ rest V u d HI2 HP2 HL2 Hd2) as [HP3 HL3].
    split_and!; try done.
    + apply (visited_then_relaxed grid s distance sortNodesByDistance
               updateUnvisitedNeighbors Hkv sortNodesByDistance_perm
               dijkstra_relaxes g1 Q1 V u rest); done.
    + by exists d.
    + destruct (updateUnvisitedNeighbors_spec _ u d Hwf2 Hu2 Hd2)
        as (_ & _ & _ & _ & Hout).
      apply (ascendingBy_ext
               (fun p => distance (cell (update g1 u (set_isVisited true)) p)));
        [|by apply (Hvisit g1 Q1 V u rest m d)].
      intros v Hv. rewrite Hout; [done|]. intros (_ & Hb & Hvis).
      apply (frame_inBounds grid _ v HF2) in Hb.
      apply (inv_visited _ _ _ _ _ _ _ HI2 v Hb) in Hv. congruence.
  - split_and!; try done. by exists 0.
Qed.
End DijkstraOrder.

(** [dijkstra] finalizes the nodes in ascending order of their distance,
    and the distance it leaves in a finalized node is the least number of
    steps from the start. *)
Theorem dijkstra_visits_by_distance hasElement grid startNode endNode speed isSecondPhase :
  wf_grid grid -> inBounds grid startNode ->
  exists g' visitedNodesInOrder log,
    dijkstra hasElement grid startNode endNode speed isSecondPhase
      = Some (g', visitedNodesInOrder, log) /\
    ascendingBy (fun p => distance (cell g' p)) visitedNodesInOrder /\
    forall v, v ∈ visitedNodesInOrder ->
      exists d, distance (cell g' v) = Num d /\ walk grid startNode v d /\
                forall n, walk grid startNode v n -> d <= n.
Proof.
  intros Hwf Hs.
  destruct (dijkstra_first_state hasElement grid startNode endNode Hwf Hs)
    as (g2 & HI & HP & HL & Hrun).
  assert (exists g' V log,
            dijkstra hasElement grid startNode endNode speed isSecondPhase
              = Some (g', V, log) /\
            searchPost grid startNode endNode g' V /\ shortest grid startNode g' V /\
            ascendingBy (fun p => distance (cell g' p)) V)
    as (g' & V & log & Hr & HPost & Hshort & Hasc).
  { rewrite Hrun. destruct (decide (speed = "instant"));
      by apply dijkstra_loop_ordered. }
  exists g', V, log. split; [done|]. split; [done|]. intros v Hv.
  destruct (post_chain _ _ _ _ _ HPost v Hv) as (_ & d & Hd & _).
  destruct (pathLoop_chain grid startNode endNode g' V d v HPost Hv Hd)
    as (_ & _ & _ & _ & _ & _ & Hw).
  exists d. split; [done|]. split; [done|]. intros n Hn. by apply (Hshort v d n).
Qed.

Lemma dijkstra_visits_by_distance_witness :
  exists g' visitedNodesInOrder log,
    dijkstra noPage (openGrid 2 2) (0, 0) (1, 1) "fast" false
      = Some (g', visitedNodesInOrder, log) /\
    ascendingBy (fun p => distance (cell g' p)) visitedNodesInOrder.
Proof.
  destruct (dijkstra_visits_by_distance noPage (openGrid 2 2) (0, 0) (1, 1) "fast" false
              (makeGrid_wf 2 2 _)) as (g' & V & log & Hrun & Hasc & _).
  - apply inBounds_compute. reflexivity.
  - exists g', V, log. split; assumption.
Defined.

(** ** A search sees nothing of an earlier one *)

Lemma grid_ext g g' :
  wf_grid g -> wf_grid g' -> nrows g' = nrows g -> ncols g' = ncols g ->
  (forall p, inBounds g p -> cell g' p = cell g p) -> g' = g.
Proof.
  intros Hwf Hwf' Hr Hc Hcell. apply list_eq. intros i.
  destruct (decide (i < nrows g)) as [Hi|Hi].
  - destruct (lookup_lt_is_Some_2 g i Hi) as [l Hl].
    destruct (lookup_lt_is_Some_2 g' i) as [l' Hl']; [unfold nrows in *; lia|].
    rewrite Hl, Hl'. f_equal. apply list_eq. intros j.
    pose proof (proj1 Hwf _ _ Hl) as Hlen. pose proof (proj1 Hwf' _ _ Hl') as Hlen'.
    destruct (decide (j < ncols g)) as [Hj|Hj].
    + specialize (Hcell (i, j) (conj Hi Hj)). unfold cell in Hcell. simpl in Hcell.
      rewrite Hl, Hl' in Hcell.
      destruct (lookup_lt_is_Some_2 l j) as [n Hn]; [lia|].
      destruct (lookup_lt_is_Some_2 l' j) as [n' Hn']; [lia|].
      rewrite Hn, Hn' in *. by f_equal.
    + rewrite !lookup_ge_None_2; [done|lia|lia].
  - rewrite !lookup_ge_None_2; [done|unfold nrows in *; lia..].
Qed.

Lemma getAllNodes_shape g g' :
  wf_grid g -> wf_grid g' -> nrows g' = nrows g -> ncols g' = ncols g ->
  getAllNodes g' = getAllNodes g.
Proof.
  intros Hwf Hwf' Hr Hc.
  assert (forall h : Grid, wf_grid h ->
            getAllNodes h = concat ((fun r => (fun c => (r, c)) <$> seq 0 (ncols h))
                                      <$> seq 0 (nrows h))) as Hform.
  { intros h [Hrect _]. unfold getAllNodes, nrows. f_equal.
    rewrite <- (imap_seq_0 h (fun r => (fun c => (r, c)) <$> seq 0 (ncols h))).
    apply imap_ext. intros i l Hl. simpl.
    rewrite (imap_seq_0 l (fun c => (i, c))). by rewrite (Hrect _ _ Hl). }
  by rewrite (Hform g Hwf), (Hform g' Hwf'), Hr, Hc.
Qed.

Section FieldsKept.
Context {T : Type}.
Variable kept : Node -> T.
Variable g0 : Grid.

Lemma fields_refl : wf_grid g0 -> sameBut_fields kept g0 g0.
Proof. intros Hwf. by split_and!. Qed.

Lemma fields_update g p f :
  sameBut_fields kept g0 g -> keepsPlace f -> (forall n, kept (f n) = kept n) ->
  sameBut_fields kept g0 (update g p f).
Proof.
  intros (Hwf & Hr & Hc & Hk) Hplace Hf. split_and!.
  - by apply wf_update.
  - by rewrite nrows_update.
  - by rewrite ncols_update.
  - intros q Hq. destruct (cell_update_cases g p f q Hwf) as [(-> & _ & ->)|(_ & ->)].
    + rewrite Hf. by apply Hk.
    + by apply Hk.
Qed.

Lemma fields_foldl (step : Grid -> pos -> Grid) l :
  (forall g p, sameBut_fields kept g0 g -> sameBut_fields kept g0 (step g p)) ->
  forall g, sameBut_fields kept g0 g -> sameBut_fields kept g0 (foldl step g l).
Proof.
  intros Hstep. induction l as [|p l IH]; intros g Hg; [done|].
  simpl. by apply IH, Hstep.
Qed.

Lemma fields_searchLoop hasElement sortNodes key relax cls wait t fuel :
  (forall b n, kept (set_isVisited b n) = kept n) ->
  (forall g u, sameBut_fields kept g0 g -> sameBut_fields kept g0 (relax u g)) ->
  forall g Q V log g' V' log',
    searchLoop hasElement sortNodes key relax cls wait t fuel g Q V log
    = Some (g', V', log') ->
    sameBut_fields kept g0 g -> sameBut_fields kept g0 g'.
Proof.
  intros Hvis Hrelax.
  induction fuel as [|fuel IH]; intros g Q V log g' V' log' Hrun Hg.
  { destruct Q; [|done]. simpl in Hrun. by injection Hrun as <- <- <-. }
  destruct Q as [|q Q].
  { simpl in Hrun. by injection Hrun as <- <- <-. }
  cbn [searchLoop] in Hrun.
  destruct (sortNodes g (q :: Q)) as [|u rest]; [done|].
  destruct (isWall (cell g u)); [by eapply IH|].
  destruct (isInfinity (key (cell g u))).
  { by injection Hrun as <- <- <-. }
  assert (sameBut_fields kept g0 (update g u (set_isVisited true))) as Hg1.
  { apply fields_update; [done|apply keepsPlace_set_isVisited|apply Hvis]. }
  destruct (decide (u = t)) as [->|Hut].
  { by injection Hrun as <- <- <-. }
  eapply IH; [exact Hrun|]. by apply Hrelax.
Qed.
End FieldsKept.

Lemma dijkstra_unfold hasElement grid s t speed isSecondPhase :
  dijkstra hasElement grid s t speed isSecondPhase =
  if decide (speed = "instant") then
    searchLoop hasElement sortNodesByDistance distance updateUnvisitedNeighbors
      ("node " +:+ visitedClass isSecondPhase +:+ " instant") []
      t (length (getAllNodes grid)) (dijkstraStart grid s) (getAllNodes grid) [] []
  else
    searchLoop hasElement sortNodesByDistance distance updateUnvisitedNeighbors
      ("node " +:+ visitedClass isSecondPhase)
      [Timeout (if decide (speed = "slow") then 50 else 10)]
      t (length (getAllNodes grid)) (dijkstraStart grid s) (getAllNodes grid) [] [].
Proof.
  unfold dijkstra, dijkstraStart.
  by rewrite (getAllNodes_update grid s (set_distance (Num 0))).
Qed.

Lemma astar_unfold hasElement grid s t speed isSecondPhase :
  astar hasElement grid s t speed isSecondPhase =
  if decide (speed = "instant") then
    searchLoop hasElement sortNodesByTotalDistance totalDistance
      (fun node g => updateUnvisitedNeighborsAstar node g t)
      ("node " +:+ visitedClass isSecondPhase) []
      t (length (getAllNodes grid)) (astarStart grid s t) (getAllNodes grid) [] []
  else
    searchLoop hasElement sortNodesByTotalDistance totalDistance
      (fun node g => updateUnvisitedNeighborsAstar node g t)
      ("node " +:+ visitedClass isSecondPhase)
      [Timeout (if decide (speed = "slow") then 50 else 10)]
      t (length (getAllNodes grid)) (astarStart grid s t) (getAllNodes grid) [] [].
Proof. reflexivity. Qed.

Lemma dijkstraStart_cells grid s :
  wf_grid grid -> inBounds grid s ->
  wf_grid (dijkstraStart grid s) /\
  nrows (dijkstraStart grid s) = nrows grid /\
  ncols (dijkstraStart grid s) = ncols grid /\
  forall p, inBounds grid p ->
    cell (dijkstraStart grid s) p =
    mkNode p.1 p.2 (isStart (cell grid p)) (isEnd (cell grid p))
           (isCheckpoint (cell grid p)) (isWall (cell grid p)) false
           (if decide (p = s) then Num 0 else Infinity)
           (totalDistance (cell grid p)) (heuristic (cell grid p)) None.
Proof.
  intros Hwf Hs. unfold dijkstraStart.
  set (g00 := update grid s (set_distance (Num 0))).
  assert (wf_grid g00) as Hwf0 by (unfold g00; auto with grid).
  set (g1 := foldl dijkstraReset g00 (getAllNodes grid)).
  destruct (foldl_each dijkstraReset
              (fun p n n' => n' = set_isVisited false (set_previousNode None
                                    (set_distance Infinity n)))
              dijkstraReset_step (getAllNodes grid) g00 Hwf0
              (NoDup_getAllNodes grid))
    as (Hwf1 & Hr1 & Hc1 & _ & Hin1).
  { intros p Hp. unfold g00. apply inBounds_update_2. by apply elem_of_getAllNodes. }
  fold g1 in Hwf1, Hr1, Hc1, Hin1.
  assert (nrows g1 = nrows grid) as Hr1' by (rewrite Hr1; apply nrows_update).
  assert (ncols g1 = ncols grid) as Hc1' by (rewrite Hc1; apply ncols_update).
  assert (inBounds g1 s) as Hs1 by (unfold inBounds; by rewrite Hr1', Hc1').
  split_and!.
  - auto with grid.
  - by rewrite nrows_update.
  - by rewrite ncols_update.
  - intros p Hp. destruct (proj2 Hwf p Hp) as [Hrow Hcol].
    assert (cell g1 p = set_isVisited false (set_previousNode None
                          (set_distance Infinity (cell g00 p)))) as Hp1.
    { apply Hin1. by apply elem_of_getAllNodes. }
    destruct (decide (p = s)) as [->|Hps].
    + rewrite cell_update_eq by done. rewrite Hp1. unfold g00.
      rewrite cell_update_eq by done. rewrite <- Hrow, <- Hcol.
      by destruct (cell grid s).
    + rewrite cell_update_ne by done. rewrite Hp1. unfold g00.
      rewrite cell_update_ne by done. rewrite <- Hrow, <- Hcol.
      by destruct (cell grid p).
Qed.

Lemma astarReset_exact s fin g p :
  wf_grid g -> inBounds g p ->
  wf_grid (astarReset s fin g p) /\
  nrows (astarReset s fin g p) = nrows g /\ ncols (astarReset s fin g p) = ncols g /\
  (forall q, q <> p -> cell (astarReset s fin g p) q = cell g q) /\
  (if decide (p = s) then cell (astarReset s fin g p) p = cell g p
   else cell (astarReset s fin g p) p =
     set_heuristic (gridDistance p fin) (set_isVisited false (set_previousNode None
       (set_totalDistance Infinity (set_distance Infinity (cell g p)))))).
Proof.
  intros Hwf Hp. unfold astarReset. destruct (decide (p = s)) as [->|Hne].
  { by split_and!. }
  split_and!.
  - auto 12 with grid.
  - by rewrite !nrows_update.
  - by rewrite !ncols_update.
  - intros q Hq. by cells.
  - rewrite manhattanDistance_coords by (auto 12 with grid). by cells.
Qed.

Lemma astarStart_cells grid s t :
  wf_grid grid -> inBounds grid s ->
  wf_grid (astarStart grid s t) /\
  nrows (astarStart grid s t) = nrows grid /\
  ncols (astarStart grid s t) = ncols grid /\
  forall p, inBounds grid p ->
    cell (astarStart grid s t) p =
    mkNode p.1 p.2 (isStart (cell grid p)) (isEnd (cell grid p))
           (isCheckpoint (cell grid p)) (isWall (cell grid p)) false
           (if decide (p = s) then Num 0 else Infinity)
           (if decide (p = s) then Num (gridDistance s t) else Infinity)
           (gridDistance p t) None.
Proof.
  intros Hwf Hs. unfold astarStart.
  set (g1 := foldl (astarReset s t) grid (getAllNodes grid)).
  destruct (foldl_each (astarReset s t)
              (fun p n n' =>
                 if decide (p = s) then n' = n
                 else n' =
                   set_heuristic (gridDistance p t) (set_isVisited false
                     (set_previousNode None
                        (set_totalDistance Infinity (set_distance Infinity n)))))
              (astarReset_exact s t) (getAllNodes grid) grid Hwf
              (NoDup_getAllNodes grid))
    as (Hwf1 & Hr1 & Hc1 & _ & Hin1).
  { intros p. by apply elem_of_getAllNodes. }
  fold g1 in Hwf1, Hr1, Hc1, Hin1.
  assert (inBounds g1 s) as Hs1 by (unfold inBounds; by rewrite Hr1, Hc1).
  set (g2 := update g1 s (set_distance (Num 0))).
  assert (wf_grid g2) as Hwf2 by (unfold g2; auto with grid).
  assert (inBounds g2 s) as Hs2 by (unfold g2; auto with grid).
  set (g3 := update g2 s (set_heuristic (manhattanDistance g2 s t))).
  split_and!.
  - unfold g3, g2. auto 12 with grid.
  - unfold g3, g2. by rewrite !nrows_update.
  - unfold g3, g2. by rewrite !ncols_update.
  - intros p Hp. destruct (proj2 Hwf p Hp) as [Hrow Hcol].
    specialize (Hin1 p (proj2 (elem_of_getAllNodes grid p Hwf) Hp)).
    destruct (decide (p = s)) as [->|Hps].
    + cells. unfold g3 at 1 2. cells.
      rewrite (manhattanDistance_coords g2 s t Hwf2 Hs2).
      unfold g2. cells. rewrite Hin1, <- Hrow, <- Hcol. by destruct (cell grid s).
    + unfold g3, g2. cells. rewrite Hin1, <- Hrow, <- Hcol. by destruct (cell grid p).
Qed.

Lemma dijkstra_relax_fields g0 u g :
  sameBut_fields dijkstraKept g0 g ->
  sameBut_fields dijkstraKept g0 (updateUnvisitedNeighbors u g).
Proof.
  intros Hg. unfold updateUnvisitedNeighbors.
  apply fields_foldl; [|done]. intros g1 p Hg1. cbv zeta.
  apply fields_update; [|auto with grid|by intros []].
  apply fields_update; [done|auto with grid|by intros []].
Qed.

Lemma astar_relax_fields g0 fin u g :
  sameBut_fields boardFields g0 g ->
  sameBut_fields boardFields g0 (updateUnvisitedNeighborsAstar u g fin).
Proof.
  intros Hg. unfold updateUnvisitedNeighborsAstar.
  apply fields_foldl; [|done]. intros g1 p Hg1. cbv zeta.
  destruct (num_ltb _ _); [|done].
  apply fields_update; [|auto with grid|by intros []].
  apply fields_update; [|auto with grid|by intros []].
  apply fields_update; [done|auto with grid|by intros []].
Qed.

Lemma dijkstraStart_fields grid s :
  wf_grid grid -> sameBut_fields dijkstraKept grid (dijkstraStart grid s).
Proof.
  intros Hwf. unfold dijkstraStart.
  apply fields_update; [|auto with grid|by intros []].
  apply fields_foldl.
  - intros g p Hg. unfold dijkstraReset.
    repeat (apply fields_update; [|auto with grid|by intros []]). done.
  - apply fields_update; [by apply fields_refl|auto with grid|by intros []].
Qed.

Lemma astarStart_fields grid s t :
  wf_grid grid -> sameBut_fields boardFields grid (astarStart grid s t).
Proof.
  intros Hwf. unfold astarStart.
  repeat (apply fields_update; [|auto with grid|by intros []]).
  apply fields_foldl; [|by apply fields_refl].
  intros g p Hg. unfold astarReset. destruct (decide (p = s)); [done|].
  repeat (apply fields_update; [|auto with grid|by intros []]). done.
Qed.

Lemma dijkstra_fields hasElement grid s t speed isSecondPhase g' V log :
  wf_grid grid ->
  dijkstra hasElement grid s t speed isSecondPhase = Some (g', V, log) ->
  sameBut_fields dijkstraKept grid g'.
Proof.
  intros Hwf Hrun. rewrite dijkstra_unfold in Hrun.
  destruct (decide (speed = "instant"));
    (eapply fields_searchLoop; [| |exact Hrun|by apply dijkstraStart_fields]);
    [by intros b []|intros; by apply dijkstra_relax_fields
    |by intros b []|intros; by apply dijkstra_relax_fields].
Qed.

Lemma astar_fields hasElement grid s t speed isSecondPhase g' V log :
  wf_grid grid ->
  astar hasElement grid s t speed isSecondPhase = Some (g', V, log) ->
  sameBut_fields boardFields grid g'.
Proof.
  intros Hwf Hrun. rewrite astar_unfold in Hrun.
  destruct (decide (speed = "instant"));
    (eapply fields_searchLoop; [| |exact Hrun|by apply astarStart_fields]);
    [by intros b []|intros; by apply astar_relax_fields
    |by intros b []|intros; by apply astar_relax_fields].
Qed.

(** The searches assign only their own fields: after [dijkstra] every node
    has its roles, wall, [totalDistance] and [heuristic] as before, after
    [astar] its roles and wall; the grid keeps its dimensions. *)
Theorem searches_keep_the_board hasElement grid startNode finishNode speed isSecondPhase :
  wf_grid grid -> inBounds grid startNode ->
  (exists g' visitedNodesInOrder log,
     dijkstra hasElement grid startNode finishNode speed isSecondPhase
       = Some (g', visitedNodesInOrder, log) /\
     nrows g' = nrows grid /\ ncols g' = ncols grid /\
     forall p, inBounds grid p ->
       row (cell g' p) = p.1 /\ col (cell g' p) = p.2 /\
       isStart (cell g' p) = isStart (cell grid p) /\
       isEnd (cell g' p) = isEnd (cell grid p) /\
       isCheckpoint (cell g' p) = isCheckpoint (cell grid p) /\
       isWall (cell g' p) = isWall (cell grid p) /\
       totalDistance (cell g' p) = totalDistance (cell grid p) /\
       heuristic (cell g' p) = heuristic (cell grid p)) /\
  (exists g' visitedNodesInOrder log,
     astar hasElement grid startNode finishNode speed isSecondPhase
       = Some (g', visitedNodesInOrder, log) /\
     nrows g' = nrows grid /\ ncols g' = ncols grid /\
     forall p, inBounds grid p ->
       row (cell g' p) = p.1 /\ col (cell g' p) = p.2 /\
       isStart (cell g' p) = isStart (cell grid p) /\
       isEnd (cell g' p) = isEnd (cell grid p) /\
       isCheckpoint (cell g' p) = isCheckpoint (cell grid p) /\
       isWall (cell g' p) = isWall (cell grid p)).
Proof.
  intros Hwf Hs. split.
  - destruct (dijkstra_runs hasElement grid startNode finishNode Hwf Hs speed isSecondPhase)
      as (g' & V & log & Hrun & _).
    destruct (dijkstra_fields _ _ _ _ _ _ _ _ _ Hwf Hrun) as (Hwf' & Hr & Hc & Hk).
    exists g', V, log. split_and!; try done. intros p Hp.
    assert (inBounds g' p) as Hp' by (unfold inBounds; by rewrite Hr, Hc).
    destruct (proj2 Hwf' p Hp') as [-> ->]. specialize (Hk p Hp).
    unfold dijkstraKept in Hk. injection Hk as -> -> -> -> -> ->. done.
  - destruct (astar_runs hasElement grid startNode finishNode Hwf Hs speed isSecondPhase)
      as (g' & V & log & Hrun & _).
    destruct (astar_fields _ _ _ _ _ _ _ _ _ Hwf Hrun) as (Hwf' & Hr & Hc & Hk).
    exists g', V, log. split_and!; try done. intros p Hp.
    assert (inBounds g' p) as Hp' by (unfold inBounds; by rewrite Hr, Hc).
    destruct (proj2 Hwf' p Hp') as [-> ->]. specialize (Hk p Hp).
    unfold boardFields in Hk. injection Hk as -> -> -> ->. done.
Qed.

Lemma searches_keep_the_board_witness :
  exists g' visitedNodesInOrder log,
    astar noPage walledRow (0, 0) (0, 2) "fast" false
      = Some (g', visitedNodesInOrder, log) /\
    isWall (cell g' (0, 1)) = isWall (cell walledRow (0, 1)).
Proof.
  destruct (searches_keep_the_board noPage walledRow (0, 0) (0, 2) "fast" false
              (makeGrid_wf 1 3 _)) as [_ (g' & V & log & Hrun & _ & _ & Hk)].
  - apply inBounds_compute. reflexivity.
  - exists g', V, log. split; [exact Hrun|].
    apply (Hk (0, 1)). apply inBounds_compute. reflexivity.
Defined.

(** A search sees nothing of an earlier one: on the grid a search has left,
    [dijkstra] after [dijkstra] and [astar] after either search run as on
    the grid before it, with the same result. *)
Theorem search_after_search hasElement grid s t speed phase g1 V1 log1
        hasElement' s' t' speed' phase' :
  wf_grid grid -> inBounds grid s' ->
  (dijkstra hasElement grid s t speed phase = Some (g1, V1, log1) ->
   dijkstra hasElement' g1 s' t' speed' phase'
   = dijkstra hasElement' grid s' t' speed' phase') /\
  (dijkstra hasElement grid s t speed phase = Some (g1, V1, log1) \/
   astar hasElement grid s t speed phase = Some (g1, V1, log1) ->
   astar hasElement' g1 s' t' speed' phase'
   = astar hasElement' grid s' t' speed' phase').
Proof.
  intros Hwf Hs'. split.
  - intros Hrun.
    destruct (dijkstra_fields _ _ _ _ _ _ _ _ _ Hwf Hrun) as (Hwf1 & Hr & Hc & Hk).
    assert (inBounds g1 s') as Hs1 by (unfold inBounds; by rewrite Hr, Hc).
    rewrite !dijkstra_unfold, (getAllNodes_shape grid g1 Hwf Hwf1 Hr Hc).
    destruct (dijkstraStart_cells grid s' Hwf Hs') as (Hwa & Hra & Hca & Hcella).
    destruct (dijkstraStart_cells g1 s' Hwf1 Hs1) as (Hwb & Hrb & Hcb & Hcellb).
    assert (dijkstraStart g1 s' = dijkstraStart grid s') as ->; [|done].
    apply grid_ext; try done; try congruence.
    intros p Hp. assert (inBounds grid p) as Hp0 by (unfold inBounds in *; congruence).
    assert (inBounds g1 p) as Hp1 by (unfold inBounds in *; congruence).
    rewrite (Hcella p Hp0), (Hcellb p Hp1). specialize (Hk p Hp0).
    unfold dijkstraKept in Hk. by injection Hk as -> -> -> -> -> ->.
  - intros Hrun.
    assert (sameBut_fields boardFields grid g1) as (Hwf1 & Hr & Hc & Hk).
    { destruct Hrun as [Hrun|Hrun]; [|by eapply astar_fields].
      destruct (dijkstra_fields _ _ _ _ _ _ _ _ _ Hwf Hrun) as (Hwf1 & Hr & Hc & Hk).
      split_and!; try done. intros p Hp. specialize (Hk p Hp).
      unfold dijkstraKept in Hk. unfold boardFields.
      by injection Hk as -> -> -> -> _ _. }
    assert (inBounds g1 s') as Hs1 by (unfold inBounds; by rewrite Hr, Hc).
    rewrite !astar_unfold, (getAllNodes_shape grid g1 Hwf Hwf1 Hr Hc).
    destruct (astarStart_cells grid s' t' Hwf Hs') as (Hwa & Hra & Hca & Hcella).
    destruct (astarStart_cells g1 s' t' Hwf1 Hs1) as (Hwb & Hrb & Hcb & Hcellb).
    assert (astarStart g1 s' t' = astarStart grid s' t') as ->; [|done].
    apply grid_ext; try done; try congruence.
    intros p Hp. assert (inBounds grid p) as Hp0 by (unfold inBounds in *; congruence).
    assert (inBounds g1 p) as Hp1 by (unfold inBounds in *; congruence).
    rewrite (Hcella p Hp0), (Hcellb p Hp1). specialize (Hk p Hp0).
    unfold boardFields in Hk. by injection Hk as -> -> -> ->.
Qed.

Lemma search_after_search_witness :
  exists g1 V1 log1,
    dijkstra noPage (openGrid 2 2) (0, 0) (1, 1) "fast" false = Some (g1, V1, log1) /\
    dijkstra noPage g1 (1, 1) (0, 0) "instant" true
    = dijkstra noPage (openGrid 2 2) (1, 1) (0, 0) "instant" true /\
    astar noPage g1 (1, 1) (0, 0) "instant" true
    = astar noPage (openGrid 2 2) (1, 1) (0, 0) "instant" true.
Proof.
  assert (inBounds (openGrid 2 2) (0, 0)) as Hs by (apply inBounds_compute; reflexivity).
  assert (inBounds (openGrid 2 2) (1, 1)) as Ht by (apply inBounds_compute; reflexivity).
  destruct (dijkstra_runs noPage (openGrid 2 2) (0, 0) (1, 1) (makeGrid_wf 2 2 _) Hs
              "fast" false) as (g1 & V1 & log1 & Hrun & _).
  exists g1, V1, log1. split; [exact Hrun|].
  destruct (search_after_search noPage (openGrid 2 2) (0, 0) (1, 1) "fast" false
              g1 V1 log1 noPage (1, 1) (0, 0) "instant" true (makeGrid_wf 2 2 _) Ht)
    as [Hd Ha].
  split; [exact (Hd Hrun)|]. apply Ha. left. exact Hrun.
Defined.

(** ** Role changes *)

Section RoleFacts.
Import Roles Editing.

Lemma floorTimes_index x n :
  0 < n -> Z.to_nat (floorTimes x (Z.of_nat n)) < n.
Proof.
  intros Hn. pose proof (floorTimes_range x (Z.of_nat n) ltac:(lia)). lia.
Qed.

Lemma randomAttempts_spec attempts rnd g : forall k,
  0 < nrows g -> 0 < ncols g ->
  let r := randomAttempts attempts rnd g k in
  (forall p, r.1 = Some p -> inBounds g p /\ isEmpty (cell g p) = true) /\
  k <= r.2 <= k + 2 * attempts.
Proof.
  induction attempts as [|n IH]; intros k Hr Hc; simpl.
  { split; [done|lia]. }
  destruct (isEmpty (cell g _)) eqn:He; simpl.
  - split; [|lia]. intros p [= <-]. split; [|done].
    split; simpl; by apply floorTimes_index.
  - destruct (IH (S (S k)) Hr Hc) as [H1 H2]. split; [done|lia].
Qed.

Lemma getRandomEmptyPosition_some rnd g k p :
  wf_grid g -> 0 < nrows g -> 0 < ncols g ->
  (getRandomEmptyPosition rnd g k).1 = Some p ->
  inBounds g p /\ isEmpty (cell g p) = true.
Proof.
  intros Hwf Hr Hc. unfold getRandomEmptyPosition.
  destruct (randomAttempts_spec 100 rnd g k Hr Hc) as [Hsome _].
  destruct (randomAttempts 100 rnd g k) as [[q|] k'] eqn:E; simpl in *.
  - intros [= <-]. by apply Hsome.
  - intros Hq. apply head_Some_elem_of in Hq.
    apply list_elem_of_filter in Hq as [He Hq]. split; [|done].
    by apply elem_of_getAllNodes.
Qed.

(** [getRandomEmptyPosition] returns a node of the grid that is no wall
    and has no role, and [null] only when the grid has no such node; it
    makes at most 200 draws. *)
Theorem getRandomEmptyPosition_empty rnd g k :
  wf_grid g -> 0 < nrows g -> 0 < ncols g ->
  (forall p, (getRandomEmptyPosition rnd g k).1 = Some p ->
     inBounds g p /\ isEmpty (cell g p) = true) /\
  ((getRandomEmptyPosition rnd g k).1 = None <->
   forall p, inBounds g p -> isEmpty (cell g p) = false) /\
  k <= (getRandomEmptyPosition rnd g k).2 <= k + 200.
Proof.
  intros Hwf Hr Hc. unfold getRandomEmptyPosition.
  destruct (randomAttempts_spec 100 rnd g k Hr Hc) as [Hsome Hk].
  destruct (randomAttempts 100 rnd g k) as [[p|] k'] eqn:E; simpl in *.
  - split; [|split; [|lia]].
    + intros q [= <-]. by apply Hsome.
    + split; [done|]. intros Hnone. destruct (Hsome p eq_refl) as [Hp He].
      rewrite (Hnone p Hp) in He. done.
  - set (l := filter (fun p => isEmpty (cell g p) = true) (getAllNodes g)).
    split; [|split; [|lia]].
    + intros q Hq. apply head_Some_elem_of in Hq.
      apply list_elem_of_filter in Hq as [He Hq]. split; [|done].
      by apply elem_of_getAllNodes.
    + split.
      * intros Hnone p Hp. destruct (isEmpty (cell g p)) eqn:He; [|done].
        assert (p ∈ l) as Hin.
        { apply list_elem_of_filter. split; [done|]. by apply elem_of_getAllNodes. }
        destruct l; [by apply elem_of_nil in Hin|done].
      * intros Hnone. destruct l as [|q l'] eqn:El; [done|].
        assert (q ∈ l) as Hq by (rewrite El; left). unfold l in Hq.
        apply list_elem_of_filter in Hq as [He Hq].
        apply elem_of_getAllNodes in Hq; [|done]. rewrite (Hnone q Hq) in He. done.
Qed.

Lemma getRandomEmptyPosition_empty_witness :
  inBounds (openGrid 2 2) (0, 0) /\ isEmpty (cell (openGrid 2 2) (0, 0)) = true.
Proof.
  apply (getRandomEmptyPosition_empty zeroDraws (openGrid 2 2) 0 (makeGrid_wf 2 2 _)).
  - vm_compute. lia.
  - vm_compute. lia.
  - vm_compute. reflexivity.
Defined.

Lemma holds_clearRoles t n : holds t (clearRoles n) = false.
Proof. by destruct t as [[]|], n. Qed.

Lemma cell_map_map (f : Node -> Node) g p :
  wf_grid g -> inBounds g p -> cell (map (map f) g) p = f (cell g p).
Proof.
  intros Hwf Hp. destruct (wf_lookup g p Hwf Hp) as (r & n & Hr & Hn & ->).
  unfold cell. rewrite list_lookup_fmap, Hr. simpl.
  by rewrite list_lookup_fmap, Hn.
Qed.

Lemma wf_map_map (f : Node -> Node) g :
  wf_grid g -> keepsPlace f ->
  wf_grid (map (map f) g) /\ nrows (map (map f) g) = nrows g /\
  ncols (map (map f) g) = ncols g.
Proof.
  intros Hwf Hf.
  assert (nrows (map (map f) g) = nrows g) as Hr by (unfold nrows; by rewrite length_map).
  assert (ncols (map (map f) g) = ncols g) as Hc.
  { unfold ncols. destruct g; [done|]. simpl. by rewrite length_map. }
  split; [|done]. split.
  - intros r l. rewrite list_lookup_fmap. destruct (g !! r) as [l0|] eqn:E; [|done].
    simpl. intros [= <-]. rewrite length_map, Hc. by apply (proj1 Hwf r).
  - intros p Hp. assert (inBounds g p) as Hp0 by (unfold inBounds in *; congruence).
    rewrite cell_map_map by done. destruct (Hf (cell g p)) as [-> ->].
    by apply (proj2 Hwf).
Qed.

Lemma wf_update_at g p (f : Node -> Node) :
  wf_grid g -> inBounds g p ->
  row (f (cell g p)) = p.1 -> col (f (cell g p)) = p.2 ->
  wf_grid (update g p f).
Proof.
  intros Hwf Hp Hrow Hcol. pose proof Hwf as [Hrect Hplace]. split.
  - intros r l Hl. rewrite ncols_update. unfold update in Hl.
    destruct (decide (r = p.1)) as [->|Hr].
    + rewrite list_lookup_alter_eq in Hl.
      destruct (g !! p.1) as [l0|] eqn:E; simpl in Hl; [|done].
      injection Hl as <-. rewrite length_alter. by eapply Hrect.
    + rewrite list_lookup_alter_ne in Hl by done. by eapply Hrect.
  - intros q Hq. apply inBounds_update in Hq.
    destruct (decide (q = p)) as [->|Hne].
    + by rewrite cell_update_eq.
    + rewrite cell_update_ne by done. by apply Hplace.
Qed.

(** The node [handleDrop] writes at the target, and the other nodes. *)
Lemma handleDrop_cells s target t :
  wf_grid (grid s) -> inBounds (grid s) target ->
  isDragging (dragging s) = true -> draggedNodeType (dragging s) = Some t ->
  isWall (cell (grid s) target) = false ->
  wf_grid (grid (handleDrop s target)) /\
  nrows (grid (handleDrop s target)) = nrows (grid s) /\
  ncols (grid (handleDrop s target)) = ncols (grid s) /\
  dragging (handleDrop s target) = mkDragging false None /\
  forall p, inBounds (grid s) p ->
    cell (grid (handleDrop s target)) p =
      if decide (p = target)
      then set_isCheckpoint (bool_decide (t = checkpoint))
             (set_isEnd (bool_decide (t = end_))
                (set_isStart (bool_decide (t = start)) (cell (grid s) target)))
      else if holds (Some t) (cell (grid s) p) then clearRoles (cell (grid s) p)
      else cell (grid s) p.
Proof.
  intros Hwf Ht Hdrag Hty Hw. unfold handleDrop. rewrite Hdrag, Hw, Hty. simpl.
  destruct (proj2 Hwf target Ht) as [Hrow Hcol]. rewrite Hrow, Hcol.
  replace (target.1, target.2) with target by (by destruct target).
  set (clr := fun n => if holds (Some t) n then clearRoles n else n).
  assert (keepsPlace clr) as Hclr.
  { intros n. unfold clr. destruct (holds (Some t) n); [|done]. by destruct n. }
  destruct (wf_map_map clr (grid s) Hwf Hclr) as (Hwf1 & Hr1 & Hc1).
  assert (forall p, inBounds (grid s) p -> inBounds (map (map clr) (grid s)) p) as Hin
    by (intros p Hp; unfold inBounds; by rewrite Hr1, Hc1).
  assert (forall r : nodeType, bool_decide (Some t = Some r) = bool_decide (t = r)) as Hdec.
  { intros r. apply bool_decide_ext. split; [by intros [= ->]|by intros ->]. }
  rewrite !Hdec.
  split_and!.
  - apply wf_update_at; auto; by destruct (cell (grid s) target).
  - by rewrite nrows_update.
  - by rewrite ncols_update.
  - done.
  - intros p Hp. destruct (decide (p = target)) as [->|Hne].
    + by rewrite cell_update_eq by auto.
    + rewrite cell_update_ne by done. by apply cell_map_map.
Qed.

(** [handleDrop] leaves the dragged role on the target node and nowhere
    else, and the target with no other role: a role the target had before
    is gone.  No other node gains a role and no wall changes.  Without a
    drag, or onto a wall, nothing happens. *)
Theorem handleDrop_moves_role s target t :
  wf_grid (grid s) -> inBounds (grid s) target ->
  (isDragging (dragging s) = false \/ isWall (cell (grid s) target) = true ->
   handleDrop s target = s) /\
  (isDragging (dragging s) = true -> draggedNodeType (dragging s) = Some t ->
   isWall (cell (grid s) target) = false ->
   dragging (handleDrop s target) = mkDragging false None /\
   (forall p, inBounds (grid s) p ->
      (holds (Some t) (cell (grid (handleDrop s target)) p) = true <-> p = target)) /\
   roles (cell (grid (handleDrop s target)) target) = 1 /\
   (forall p, inBounds (grid s) p -> p <> target ->
      roles (cell (grid (handleDrop s target)) p) <= roles (cell (grid s) p)) /\
   (forall p, inBounds (grid s) p ->
      isWall (cell (grid (handleDrop s target)) p) = isWall (cell (grid s) p))).
Proof.
  intros Hwf Ht. split.
  { unfold handleDrop. intros [-> | ->]; [done|]. by rewrite orb_true_r. }
  intros Hdrag Hty Hw.
  destruct (handleDrop_cells s target t Hwf Ht Hdrag Hty Hw) as (_ & _ & _ & Hd & Hcell).
  split_and!.
  - done.
  - intros p Hp. rewrite Hcell by done. destruct (decide (p = target)) as [->|Hne].
    + split; [done|]. intros _. destruct t, (cell (grid s) target); reflexivity.
    + split; [|done].
      destruct (holds (Some t) (cell (grid s) p)) eqn:E; [|congruence].
      by rewrite holds_clearRoles.
  - rewrite Hcell by done. rewrite decide_True by done.
    destruct t, (cell (grid s) target); reflexivity.
  - intros p Hp Hne. rewrite Hcell by done. rewrite decide_False by done.
    destruct (holds (Some t) (cell (grid s) p)); [|done].
    unfold roles. destruct (cell (grid s) p) as [? ? [] [] [] ? ? ? ? ? ?]; simpl; lia.
  - intros p Hp. rewrite Hcell by done. destruct (decide (p = target)) as [->|Hne].
    + by destruct (cell (grid s) target).
    + destruct (holds (Some t) (cell (grid s) p)); [|done].
      by destruct (cell (grid s) p).
Qed.

Lemma twoByTwo_wf : wf_grid (grid twoByTwo).
Proof.
  apply wf_update; [|by intros []]. apply wf_update; [|by intros []].
  apply makeGrid_wf.
Qed.

Lemma handleDrop_moves_role_witness :
  holds (Some end_)
    (cell (grid (handleDrop (handleDragStart twoByTwo (1, 1)) (0, 0))) (0, 0)) = true /\
  roles (cell (grid (handleDrop (handleDragStart twoByTwo (1, 1)) (0, 0))) (0, 0)) = 1 /\
  holds (Some end_)
    (cell (grid (handleDrop (handleDragStart twoByTwo (1, 1)) (0, 0))) (1, 1)) = false.
Proof.
  assert (inBounds (grid (handleDragStart twoByTwo (1, 1))) (0, 0)) as Hb
    by (apply inBounds_compute; reflexivity).
  destruct (handleDrop_moves_role (handleDragStart twoByTwo (1, 1)) (0, 0) end_
              twoByTwo_wf Hb) as [_ H].
  destruct (H eq_refl eq_refl eq_refl) as (_ & Hiff & Hone & _).
  split; [by apply Hiff|]. split; [exact Hone|].
  destruct (holds _ _) eqn:E; [|reflexivity].
  apply Hiff in E; [discriminate E|]. apply inBounds_compute. reflexivity.
Defined.
End RoleFacts.

(** ** Drawing walls *)

Section WallFacts.
Import Roles Editing.

Lemma nodeAt_cell g r c :
  wf_grid g -> inBounds g (r, c) -> nodeAt g r c = Some (cell g (r, c)).
Proof.
  intros Hwf Hb. destruct (wf_lookup g (r, c) Hwf Hb) as (l & n & Hl & Hn & ->).
  unfold nodeAt. simpl in *. by rewrite Hl.
Qed.

Lemma nodeAt_out g r c :
  wf_grid g -> ~ inBounds g (r, c) -> nodeAt g r c = None.
Proof.
  intros [Hrect _] Hb. unfold nodeAt. destruct (g !! r) as [l|] eqn:Hl; [|done].
  apply lookup_ge_None_2. rewrite (Hrect _ _ Hl).
  destruct (decide (c < ncols g)); [|lia]. exfalso. apply Hb. split; simpl; [|done].
  by eapply lookup_lt_Some.
Qed.

Lemma isSpecial_set_isWall b n : isSpecial (set_isWall b n) = isSpecial n.
Proof. done. Qed.

Lemma keepsPlace_set_isWall b : keepsPlace (set_isWall b).
Proof. by intros []. Qed.

(** Writing [{...node, isWall: b}] at the place of [node]. *)
Lemma update_wall g p b :
  wf_grid g -> inBounds g p ->
  let g' := update g p (fun _ => set_isWall b (cell g p)) in
  wf_grid g' /\ nrows g' = nrows g /\ ncols g' = ncols g /\
  cell g' p = set_isWall b (cell g p) /\
  (forall q, q <> p -> cell g' q = cell g q).
Proof.
  intros Hwf Hp. simpl. split_and!.
  - apply wf_update_at; try done; simpl; by apply (proj2 Hwf).
  - apply nrows_update.
  - apply ncols_update.
  - by rewrite cell_update_eq.
  - intros q Hq. by apply cell_update_ne.
Qed.

Lemma boostStep_spec g cr cc mode acc offset :
  wf_grid acc.1 -> nrows acc.1 = nrows g -> ncols acc.1 = ncols g ->
  let r := boostStep g cr cc mode acc offset in
  wf_grid r.1 /\ nrows r.1 = nrows g /\ ncols r.1 = ncols g /\
  (forall p, inBounds g p ->
     cell r.1 p =
       if decide (hit [offset] cr cc p /\ isSpecial (cell acc.1 p) = false)
       then set_isWall (bool_decide (mode = add)) (cell acc.1 p)
       else cell acc.1 p) /\
  (r.2 = true <->
   acc.2 = true \/ exists p, inBounds g p /\ hit [offset] cr cc p /\
                             isSpecial (cell acc.1 p) = false).
Proof.
  intros Hwf Hr Hc. unfold boostStep.
  set (newRow := (Z.of_nat cr + offset.1)%Z). set (newCol := (Z.of_nat cc + offset.2)%Z).
  assert (forall p, hit [offset] cr cc p <->
            Z.of_nat p.1 = newRow /\ Z.of_nat p.2 = newCol) as Hhit.
  { intros p. unfold hit. rewrite Exists_cons, Exists_nil. tauto. }
  destruct ((0 <=? newRow) && (newRow <? Z.of_nat (nrows g)) &&
            (0 <=? newCol) && (newCol <? Z.of_nat (ncols g)))%Z eqn:Hin.
  - apply andb_true_iff in Hin as [Hin H4]. apply andb_true_iff in Hin as [Hin H3].
    apply andb_true_iff in Hin as [H1 H2].
    apply Z.leb_le in H1, H3. apply Z.ltb_lt in H2, H4.
    set (q := (Z.to_nat newRow, Z.to_nat newCol)).
    assert (inBounds g q) as Hq by (split; simpl; lia).
    assert (inBounds acc.1 q) as Hq' by (unfold inBounds; by rewrite Hr, Hc).
    assert (forall p, hit [offset] cr cc p <-> p = q) as Hhitq.
    { intros p. rewrite Hhit. unfold q. destruct p as [a b]. simpl. split.
      - intros [<- <-]. by rewrite !Nat2Z.id.
      - intros [= -> ->]. lia. }
    assert (negb (isStart (cell acc.1 q)) && negb (isEnd (cell acc.1 q)) &&
            negb (isCheckpoint (cell acc.1 q)) = negb (isSpecial (cell acc.1 q))) as ->.
    { unfold isSpecial. by destruct (isStart _), (isEnd _), (isCheckpoint _). }
    destruct (isSpecial (cell acc.1 q)) eqn:Hsp; simpl.
    + split_and!; try done.
      * intros p Hp. destruct (decide _) as [[Hh Hs]|]; [|done].
        apply Hhitq in Hh as ->. congruence.
      * split; [by left|]. intros [?|(p & _ & Hh & Hs)]; [done|].
        apply Hhitq in Hh as ->. congruence.
    + destruct (update_wall acc.1 q (bool_decide (mode = add)) Hwf Hq')
        as (Hwf' & Hr' & Hc' & Heq & Hne).
      split_and!; try congruence.
      * intros p Hp. destruct (decide (p = q)) as [->|Hpq].
        -- rewrite decide_True; [done|]. split; [by apply Hhitq|done].
        -- rewrite decide_False; [by apply Hne|]. intros [Hh _]. by apply Hhitq in Hh.
      * split; [|done]. intros _. right. exists q. split; [done|].
        split; [by apply Hhitq|done].
  - assert (forall p, inBounds g p -> ~ hit [offset] cr cc p) as Hno.
    { intros p [Hp1 Hp2] [E1 E2]%Hhit.
      assert ((0 <=? newRow) && (newRow <? Z.of_nat (nrows g)) &&
              (0 <=? newCol) && (newCol <? Z.of_nat (ncols g)) = true)%Z; [|congruence].
      rewrite !andb_true_iff. rewrite !Z.leb_le, !Z.ltb_lt. lia. }
    split_and!; try done.
    + intros p Hp. rewrite decide_False; [done|]. intros [Hh _]. by apply (Hno p).
    + split; [by left|]. intros [?|(p & Hp & Hh & _)]; [done|]. by destruct (Hno p).
Qed.

Lemma boost_fold g cr cc mode offsets : forall acc,
  wf_grid acc.1 -> nrows acc.1 = nrows g -> ncols acc.1 = ncols g ->
  let r := foldl (boostStep g cr cc mode) acc offsets in
  wf_grid r.1 /\ nrows r.1 = nrows g /\ ncols r.1 = ncols g /\
  (forall p, inBounds g p ->
     cell r.1 p =
       if decide (hit offsets cr cc p /\ isSpecial (cell acc.1 p) = false)
       then set_isWall (bool_decide (mode = add)) (cell acc.1 p)
       else cell acc.1 p) /\
  (r.2 = true <->
   acc.2 = true \/ exists p, inBounds g p /\ hit offsets cr cc p /\
                             isSpecial (cell acc.1 p) = false).
Proof.
  induction offsets as [|o offsets IH]; intros acc Hwf Hr Hc; simpl.
  { split_and!; try done.
    split; [by left|]. intros [?|(p & _ & Ho & _)]; [done|].
    by apply Exists_nil in Ho. }
  destruct (boostStep_spec g cr cc mode acc o Hwf Hr Hc) as (Hwf1 & Hr1 & Hc1 & Hcell1 & Hany1).
  destruct (IH (boostStep g cr cc mode acc o) Hwf1 Hr1 Hc1)
    as (Hwf2 & Hr2 & Hc2 & Hcell2 & Hany2).
  assert (forall p, hit (o :: offsets) cr cc p <-> hit [o] cr cc p \/ hit offsets cr cc p)
    as Hcons.
  { intros p. unfold hit. rewrite !Exists_cons, Exists_nil. tauto. }
  assert (forall p, inBounds g p ->
            isSpecial (cell (boostStep g cr cc mode acc o).1 p) = isSpecial (cell acc.1 p))
    as Hsp.
  { intros p Hp. rewrite (Hcell1 p Hp). by destruct (decide _). }
  split_and!; try done.
  - intros p Hp. rewrite (Hcell2 p Hp), (Hsp p Hp), (Hcell1 p Hp).
    destruct (isSpecial (cell acc.1 p)) eqn:Es.
    { rewrite !decide_False; [done|by intros [_ ?]..]. }
    destruct (decide (hit [o] cr cc p /\ false = false)) as [[H1 _]|N1];
      destruct (decide (hit offsets cr cc p /\ false = false)) as [[H2 _]|N2].
    + rewrite decide_True; [by destruct (cell acc.1 p)|]. split; [|done]. apply Hcons. by left.
    + rewrite decide_True; [done|]. split; [|done]. apply Hcons. by left.
    + rewrite decide_True; [done|]. split; [|done]. apply Hcons. by right.
    + rewrite decide_False; [done|]. intros [[?|?]%Hcons _]; [apply N1|apply N2]; done.
  - rewrite Hany2, Hany1. split.
    + intros [[?|(p & Hp & Hh & Hs)]|(p & Hp & Hh & Hs)]; [by left|right..].
      * exists p. split; [done|]. split; [|done]. apply Hcons. by left.
      * exists p. split; [done|]. rewrite (Hsp p Hp) in Hs. split; [|done].
        apply Hcons. by right.
    + intros [?|(p & Hp & [Hh|Hh]%Hcons & Hs)]; [by left; left|..].
      * left. right. by exists p.
      * right. exists p. by rewrite (Hsp p Hp).
Qed.

Lemma hit_pattern cr cc p :
  hit pattern cr cc p <-> gridDistance p (cr, cc) <= 1.
Proof.
  unfold hit, pattern, gridDistance, absDiff.
  rewrite !Exists_cons, Exists_nil. simpl. lia.
Qed.

(** [createBoostWalls] gives the wall mode to the centre and to its four
    neighbours, where they lie in the grid and have no role, wherever the
    centre lies; it changes nothing else, and [anyWallCreated] tells
    whether there was such a node. *)
Theorem createBoostWalls_plus g centerRow centerCol mode :
  wf_grid g ->
  wf_grid (createBoostWalls g centerRow centerCol mode).1 /\
  nrows (createBoostWalls g centerRow centerCol mode).1 = nrows g /\
  ncols (createBoostWalls g centerRow centerCol mode).1 = ncols g /\
  (forall p, inBounds g p ->
     cell (createBoostWalls g centerRow centerCol mode).1 p =
       if decide (gridDistance p (centerRow, centerCol) <= 1 /\
                  isSpecial (cell g p) = false)
       then set_isWall (bool_decide (mode = add)) (cell g p)
       else cell g p) /\
  ((createBoostWalls g centerRow centerCol mode).2 = true <->
   exists p, inBounds g p /\ gridDistance p (centerRow, centerCol) <= 1 /\
             isSpecial (cell g p) = false).
Proof.
  intros Hwf. unfold createBoostWalls.
  destruct (boost_fold g centerRow centerCol mode pattern (g, false) Hwf eq_refl eq_refl)
    as (Hwf' & Hr & Hc & Hcell & Hany).
  split_and!; try done.
  - intros p Hp. rewrite (Hcell p Hp). simpl.
    destruct (decide (hit _ _ _ _ /\ _)) as [[Hh Hs]|Hn].
    + rewrite decide_True; [done|]. split; [by apply hit_pattern|done].
    + rewrite decide_False; [done|]. intros [Hd Hs]. apply Hn.
      split; [by apply hit_pattern|done].
  - rewrite Hany. simpl. split.
    + intros [?|(p & Hp & Hh & Hs)]; [done|]. exists p. by rewrite <- hit_pattern.
    + intros (p & Hp & Hh & Hs). right. exists p. by rewrite hit_pattern.
Qed.

Lemma createBoostWalls_plus_witness :
  isWall (cell (createBoostWalls (grid twoByTwo) 0 1 add).1 (0, 1)) = true /\
  isWall (cell (createBoostWalls (grid twoByTwo) 0 1 add).1 (0, 0)) = false.
Proof.
  assert (wf_grid (grid twoByTwo)) as Hwf.
  { apply wf_update; [|by intros []]. apply wf_update; [|by intros []].
    apply makeGrid_wf. }
  destruct (createBoostWalls_plus (grid twoByTwo) 0 1 add Hwf) as (_ & _ & _ & Hcell & _).
  split.
  - rewrite (Hcell (0, 1)) by (apply inBounds_compute; reflexivity). reflexivity.
  - rewrite (Hcell (0, 0)) by (apply inBounds_compute; reflexivity). reflexivity.
Defined.

Lemma set_isWall_twice b b' n : set_isWall b (set_isWall b' n) = set_isWall b n.
Proof. done. Qed.

Lemma set_isWall_same n : set_isWall (isWall n) n = n.
Proof. by destruct n. Qed.

Lemma getNewGridWithWallMode_spec g row col mode :
  wf_grid g -> inBounds g (row, col) ->
  exists g', getNewGridWithWallMode g row col mode = Some g' /\
    wf_grid g' /\ nrows g' = nrows g /\ ncols g' = ncols g /\
    cell g' (row, col) =
      (if isSpecial (cell g (row, col)) then cell g (row, col)
       else set_isWall (bool_decide (mode = add)) (cell g (row, col))) /\
    (forall q, q <> (row, col) -> cell g' q = cell g q).
Proof.
  intros Hwf Hb. unfold getNewGridWithWallMode. rewrite (nodeAt_cell g row col Hwf Hb).
  destruct (isSpecial (cell g (row, col))) eqn:Hs.
  - exists g. by split_and!.
  - eexists. split; [done|].
    by apply (update_wall g (row, col) (bool_decide (mode = add)) Hwf Hb).
Qed.

(** A click on a node of the grid, while no search runs and nothing is
    dragged, leaves the nodes with a role as they are and changes no field
    but [isWall].  On a node with no role it toggles the wall; nothing else
    changes, but that with the boost on, a click on an open node also makes
    walls of the neighbours with no role.  With the boost off a second
    click on the node gives the grid back.  A click outside of the grid
    raises an error. *)
Theorem handleMouseDown_toggles g row col boost :
  wf_grid g ->
  (~ inBounds g (row, col) -> handleMouseDown false false boost g row col = None) /\
  (inBounds g (row, col) ->
   exists g', handleMouseDown false false boost g row col = Some g' /\
     wf_grid g' /\ nrows g' = nrows g /\ ncols g' = ncols g /\
     (forall p, inBounds g p -> isSpecial (cell g p) = true -> cell g' p = cell g p) /\
     (forall p, inBounds g p -> set_isWall false (cell g' p) = set_isWall false (cell g p)) /\
     (isSpecial (cell g (row, col)) = false ->
      isWall (cell g' (row, col)) = negb (isWall (cell g (row, col)))) /\
     (forall p, inBounds g p -> p <> (row, col) -> cell g' p <> cell g p ->
        boost = true /\ isWall (cell g (row, col)) = false /\
        gridDistance p (row, col) = 1 /\ isWall (cell g' p) = true) /\
     (boost = true -> isSpecial (cell g (row, col)) = false ->
      isWall (cell g (row, col)) = false ->
      forall p, inBounds g p -> gridDistance p (row, col) <= 1 ->
        isSpecial (cell g p) = false -> isWall (cell g' p) = true) /\
     (boost = false -> handleMouseDown false false false g' row col = Some g)).
Proof.
  intros Hwf. unfold handleMouseDown. simpl. split.
  { intros Hb. by rewrite nodeAt_out. }
  intros Hb. rewrite (nodeAt_cell g row col Hwf Hb).
  set (n := cell g (row, col)).
  destruct (isSpecial n) eqn:Hs.
  { exists g. split_and!; try done.
    intros _. rewrite (nodeAt_cell g row col Hwf Hb). fold n. by rewrite Hs. }
  destruct (boost && bool_decide ((if isWall n then remove else add) = add)) eqn:Hboost.
  - apply andb_true_iff in Hboost as [-> Hmode].
    assert (isWall n = false) as Hw by (by destruct (isWall n)).
    rewrite Hw.
    destruct (boost_fold g row col add pattern (g, false) Hwf eq_refl eq_refl)
      as (Hwf' & Hr & Hc & Hcell & _).
    change (foldl (boostStep g row col add) (g, false) pattern)
      with (createBoostWalls g row col add) in *.
    change ((g, false).1) with g in Hcell.
    eexists. split; [reflexivity|].
    split_and!; try done.
    + intros p Hp Hsp. rewrite (Hcell p Hp). rewrite decide_False; [done|].
      intros [_ ?]. congruence.
    + intros p Hp. rewrite (Hcell p Hp). by destruct (decide _).
    + intros _. rewrite (Hcell _ Hb). fold n. rewrite decide_True; [reflexivity|].
      split; [|done]. apply hit_pattern. rewrite gridDistance_refl. lia.
    + intros p Hp Hne Hch. rewrite (Hcell p Hp) in Hch |- *.
      destruct (decide _) as [[Hh Hsp]|]; [|done]. split_and!; try done.
      apply hit_pattern in Hh.
      assert (gridDistance p (row, col) <> 0); [|lia].
      intros H0. apply Hne. unfold gridDistance, absDiff in H0. destruct p; simpl in *.
      f_equal; lia.
    + intros _ _ _ p Hp Hd Hsp. rewrite (Hcell p Hp). rewrite decide_True; [done|].
      split; [by apply hit_pattern|done].
  - destruct (getNewGridWithWallMode_spec g row col (if isWall n then remove else add) Hwf Hb)
      as (g' & -> & Hwf' & Hr & Hc & Heq & Hne).
    fold n in Heq. rewrite Hs in Heq.
    assert (bool_decide ((if isWall n then remove else add) = add) = negb (isWall n)) as Hb'
      by (by destruct (isWall n)).
    rewrite Hb' in Heq.
    exists g'. split; [done|]. split_and!; try done.
    + intros p Hp Hsp. apply Hne. intros ->. fold n in Hsp. congruence.
    + intros p Hp. destruct (decide (p = (row, col))) as [->|Hp'].
      * rewrite Heq. done.
      * by rewrite Hne.
    + intros _. by rewrite Heq.
    + intros p Hp Hp' Hch. by rewrite Hne in Hch.
    + intros -> _ Hw. by rewrite Hw in Hboost.
    + intros _. assert (inBounds g' (row, col)) as Hb2 by (unfold inBounds; by rewrite Hr, Hc).
      rewrite (nodeAt_cell g' row col Hwf' Hb2), Heq. rewrite isSpecial_set_isWall, Hs.
      simpl.
      destruct (getNewGridWithWallMode_spec g' row col
                  (if negb (isWall n) then remove else add) Hwf' Hb2)
        as (g2 & -> & Hwf2 & Hr2 & Hc2 & Heq2 & Hne2).
      f_equal. apply grid_ext; try done; try congruence.
      intros p Hp. destruct (decide (p = (row, col))) as [->|Hp'].
      * rewrite Heq2, Heq, isSpecial_set_isWall, Hs, set_isWall_twice.
        fold n. destruct n as [? ? ? ? ? []]; reflexivity.
      * by rewrite Hne2, Hne.
Qed.

Lemma handleMouseDown_toggles_witness :
  exists g', handleMouseDown false false false (openGrid 2 2) 0 1 = Some g' /\
    isWall (cell g' (0, 1)) = true /\
    handleMouseDown false false false g' 0 1 = Some (openGrid 2 2).
Proof.
  destruct (handleMouseDown_toggles (openGrid 2 2) 0 1 false (makeGrid_wf 2 2 _))
    as [_ H].
  destruct H as (g' & Hrun & _ & _ & _ & _ & _ & Htoggle & _ & _ & Hback).
  - apply inBounds_compute. reflexivity.
  - exists g'. split; [exact Hrun|]. split; [by apply Htoggle|by apply Hback].
Defined.
End WallFacts.

(** ** The roles under the edits *)

Section RoleInvariants.
Import Roles Editing.

Lemma filter_length_mono {A} (P Q : A -> Prop) `{!forall x, Decision (P x)}
    `{!forall x, Decision (Q x)} (l : list A) :
  (forall x, x ∈ l -> P x -> Q x) -> length (filter P l) <= length (filter Q l).
Proof.
  induction l as [|a l IH]; intros HPQ; [done|].
  rewrite !filter_cons.
  assert (length (filter P l) <= length (filter Q l)) as IH'.
  { apply IH. intros x Hx. apply HPQ. by right. }
  destruct (decide (P a)) as [Ha|Ha].
  - rewrite decide_True by (apply HPQ; [left|done]). simpl. lia.
  - destruct (decide (Q a)); simpl; lia.
Qed.

Lemma filter_only {A} (P : A -> Prop) `{!forall x, Decision (P x)} (l : list A) x :
  NoDup l -> (forall y, y ∈ l -> P y -> y = x) ->
  filter P l = [] \/ filter P l = [x].
Proof.
  induction l as [|a l IH]; intros Hnd HPQ; [by left|].
  apply NoDup_cons in Hnd as [Ha Hnd]. rewrite filter_cons.
  destruct (decide (P a)) as [HPa|HPa].
  - assert (a = x) as -> by (apply HPQ; [left|done]).
    right. f_equal. destruct (filter P l) as [|b l'] eqn:E; [done|].
    assert (b ∈ filter P l) as Hb by (rewrite E; left).
    apply list_elem_of_filter in Hb as [HPb Hb].
    assert (b = x) as -> by (apply HPQ; [by right|done]). done.
  - apply IH; [done|]. intros y Hy. apply HPQ. by right.
Qed.

Lemma filter_the {A} (P : A -> Prop) `{!forall x, Decision (P x)} (l : list A) x :
  NoDup l -> x ∈ l -> (forall y, y ∈ l -> P y <-> y = x) -> filter P l = [x].
Proof.
  intros Hnd Hx HPQ. destruct (filter_only P l x Hnd) as [E|E]; [by intros y Hy ?%HPQ| |done].
  assert (x ∈ filter P l) as Hin by (apply list_elem_of_filter; split; [by apply HPQ|done]).
  rewrite E in Hin. by apply elem_of_nil in Hin.
Qed.

(** The holders of a role on a grid of the same shape. *)
Lemma holders_mono f f' g g' :
  wf_grid g -> wf_grid g' -> nrows g' = nrows g -> ncols g' = ncols g ->
  (forall p, inBounds g p -> f' (cell g' p) = true -> f (cell g p) = true) ->
  length (holders f' g') <= length (holders f g).
Proof.
  intros Hwf Hwf' Hr Hc H. unfold holders.
  rewrite (getAllNodes_shape g g' Hwf Hwf' Hr Hc).
  apply filter_length_mono. intros p Hp. apply H. by apply elem_of_getAllNodes.
Qed.

Lemma holders_only f g x :
  wf_grid g -> (forall p, inBounds g p -> f (cell g p) = true -> p = x) ->
  length (holders f g) <= 1.
Proof.
  intros Hwf H. unfold holders.
  destruct (filter_only (fun p => f (cell g p) = true) (getAllNodes g) x) as [-> | ->].
  - apply NoDup_getAllNodes.
  - intros p Hp. apply H. by apply elem_of_getAllNodes.
  - simpl. lia.
  - simpl. lia.
Qed.

Lemma holders_the f g x :
  wf_grid g -> inBounds g x ->
  (forall p, inBounds g p -> f (cell g p) = true <-> p = x) ->
  holders f g = [x].
Proof.
  intros Hwf Hx H. unfold holders. apply filter_the.
  - apply NoDup_getAllNodes.
  - by apply elem_of_getAllNodes.
  - intros p Hp. apply H. by apply elem_of_getAllNodes.
Qed.

Lemma roleInvariant_holds g :
  roleInvariant g <->
  (forall p, inBounds g p -> roles (cell g p) <= 1) /\
  forall t, length (holders (holds (Some t)) g) <= 1.
Proof.
  unfold roleInvariant. split.
  - intros (H0 & H1 & H2 & H3). split; [done|]. by intros [].
  - intros (H0 & H). split; [done|].
    split; [exact (H start)|]. split; [exact (H end_)|exact (H checkpoint)].
Qed.

Lemma isSpecial_roles n : isSpecial n = true <-> 0 < roles n.
Proof.
  unfold isSpecial, roles. destruct (isStart n), (isEnd n), (isCheckpoint n); simpl;
    split; (done || lia).
Qed.

Lemma handleDragStart_spec s source :
  isSpecial (cell (grid s) source) = true -> roles (cell (grid s) source) <= 1 ->
  exists t, holds (Some t) (cell (grid s) source) = true /\
    (forall t', holds (Some t') (cell (grid s) source) = true -> t' = t) /\
    handleDragStart s source =
      mkState (grid s) (startNode s) (endNode s) (checkpointOf s)
              (mkDragging true (Some t)).
Proof.
  unfold handleDragStart, isSpecial, roles.
  destruct (isStart (cell (grid s) source)) eqn:E1;
    destruct (isEnd (cell (grid s) source)) eqn:E2;
    destruct (isCheckpoint (cell (grid s) source)) eqn:E3; simpl; intros Hs Hr;
    try done; try lia.
  - exists start. split_and!; try done. intros []; simpl; congruence.
  - exists end_. split_and!; try done. intros []; simpl; congruence.
  - exists checkpoint. split_and!; try done. intros []; simpl; congruence.
Qed.

(** Dragging the node with a role onto a node that is no wall keeps the
    roles right: where every node had at most one role, every role at most
    one holder and no role sat on a wall, the same holds after the drop,
    and the target is the one holder of the dragged role. *)
Theorem drag_and_drop_keeps_roles s source target :
  wf_grid (grid s) -> inBounds (grid s) source -> inBounds (grid s) target ->
  roleInvariant (grid s) -> rolesOffWalls (grid s) ->
  isSpecial (cell (grid s) source) = true ->
  isWall (cell (grid s) target) = false ->
  roleInvariant (grid (handleDrop (handleDragStart s source) target)) /\
  rolesOffWalls (grid (handleDrop (handleDragStart s source) target)) /\
  (forall t, holds (Some t) (cell (grid s) source) = true ->
     holders (holds (Some t)) (grid (handleDrop (handleDragStart s source) target))
     = [target]) /\
  (source <> target ->
   roles (cell (grid (handleDrop (handleDragStart s source) target)) source) = 0).
Proof.
  intros Hwf Hsrc Htgt Hinv Hoff Hsp Hw.
  apply roleInvariant_holds in Hinv as [Hone Hhold].
  destruct (handleDragStart_spec s source Hsp (Hone source Hsrc)) as (t & Ht & Huniq & ->).
  set (s1 := mkState _ _ _ _ _).
  destruct (handleDrop_cells s1 target t Hwf Htgt eq_refl eq_refl Hw)
    as (Hwf' & Hr & Hc & _ & Hcell).
  change (grid s1) with (grid s) in *.
  assert (forall p, inBounds (grid (handleDrop s1 target)) p <-> inBounds (grid s) p) as Hin.
  { intros p. unfold inBounds. by rewrite Hr, Hc. }
  assert (forall p, inBounds (grid s) p ->
            (holds (Some t) (cell (grid (handleDrop s1 target)) p) = true <-> p = target))
    as Hiff.
  { intros p Hp. rewrite Hcell by done. destruct (decide (p = target)) as [->|Hne].
    - split; [done|]. intros _. destruct t, (cell (grid s) target); reflexivity.
    - split; [|done].
      destruct (holds (Some t) (cell (grid s) p)) eqn:E; [|congruence].
      by rewrite holds_clearRoles. }
  split_and!.
  - apply roleInvariant_holds. split.
    + intros p Hp%Hin. rewrite Hcell by done. destruct (decide (p = target)) as [->|Hne].
      * unfold roles. destruct t, (cell (grid s) target); simpl; lia.
      * specialize (Hone p Hp). destruct (holds (Some t) (cell (grid s) p)); [|done].
        unfold roles. destruct (cell (grid s) p); simpl; lia.
    + intros r. destruct (decide (r = t)) as [->|Hrt].
      * apply (holders_only _ _ target); [done|]. intros p Hp%Hin. by apply Hiff.
      * etransitivity; [|apply (Hhold r)].
        apply holders_mono; try done. intros p Hp. rewrite Hcell by done.
        destruct (decide (p = target)) as [->|Hne].
        -- destruct r, t, (cell (grid s) target); simpl; try done.
        -- destruct (holds (Some t) (cell (grid s) p)); [|done].
           by rewrite holds_clearRoles.
  - intros p Hp%Hin. rewrite Hcell by done. destruct (decide (p = target)) as [->|Hne].
    + intros _. by destruct (cell (grid s) target).
    + destruct (holds (Some t) (cell (grid s) p)) eqn:E.
      * by destruct (cell (grid s) p).
      * by apply Hoff.
  - intros t' ->%Huniq. apply holders_the; [done|by apply Hin|].
    intros p Hp%Hin. by apply Hiff.
  - intros Hne. rewrite Hcell by done. rewrite decide_False by done. by rewrite Ht.
Qed.

Lemma twoByTwo_roles : roleInvariant (grid twoByTwo) /\ rolesOffWalls (grid twoByTwo).
Proof.
  assert (forall p, inBounds (grid twoByTwo) p ->
            p = (0, 0) \/ p = (0, 1) \/ p = (1, 0) \/ p = (1, 1)) as Hcases.
  { intros [r c] [Hr Hc]. simpl in Hr, Hc.
    assert ((r = 0 \/ r = 1) /\ (c = 0 \/ c = 1)) as [[-> | ->] [-> | ->]] by lia; tauto. }
  split.
  - split_and!; try (vm_compute; lia).
    intros p [->|[->|[->| ->]]]%Hcases; vm_compute; lia.
  - intros p [->|[->|[->| ->]]]%Hcases; reflexivity.
Qed.

Lemma drag_and_drop_keeps_roles_witness :
  roleInvariant (grid (handleDrop (handleDragStart twoByTwo (0, 0)) (0, 1))) /\
  holders (holds (Some start)) (grid (handleDrop (handleDragStart twoByTwo (0, 0)) (0, 1)))
  = [(0, 1)].
Proof.
  destruct (drag_and_drop_keeps_roles twoByTwo (0, 0) (0, 1) twoByTwo_wf)
    as (Hinv & _ & Hthe & _).
  - apply inBounds_compute. reflexivity.
  - apply inBounds_compute. reflexivity.
  - apply twoByTwo_roles.
  - apply twoByTwo_roles.
  - reflexivity.
  - reflexivity.
  - split; [exact Hinv|]. apply Hthe. reflexivity.
Defined.
End RoleInvariants.

(** ** Checkpoints *)

Section CheckpointFacts.
Import Roles Editing.

Lemma keepsPlace_set_isCheckpoint b : keepsPlace (set_isCheckpoint b).
Proof. by intros []. Qed.

Lemma keepsPlace_set_isStart b : keepsPlace (set_isStart b).
Proof. by intros []. Qed.

Lemma keepsPlace_set_isEnd b : keepsPlace (set_isEnd b).
Proof. by intros []. Qed.

Lemma isEmpty_fields n :
  isEmpty n = true <->
  isWall n = false /\ isStart n = false /\ isEnd n = false /\ isCheckpoint n = false.
Proof.
  unfold isEmpty. destruct (isWall n), (isStart n), (isEnd n), (isCheckpoint n); simpl;
    split; (done || by intros (? & ? & ? & ?)).
Qed.

(** [addCheckpoint] marks a node that is no wall and has no role, records
    its position and changes no other node; [removeCheckpoint] after it
    gives the grid back.  Where the grid has no free node it does nothing.
    It keeps the roles off the walls, and it keeps the roles exclusive and
    single if the grid had no checkpoint: it does not look for one. *)
Theorem addCheckpoint_removeCheckpoint rnd s k :
  wf_grid (grid s) -> 0 < nrows (grid s) -> 0 < ncols (grid s) ->
  ((getRandomEmptyPosition rnd (grid s) k).1 = None ->
   (addCheckpoint rnd s k).1 = s) /\
  (forall p, (getRandomEmptyPosition rnd (grid s) k).1 = Some p ->
     inBounds (grid s) p /\ isEmpty (cell (grid s) p) = true /\
     checkpointOf (addCheckpoint rnd s k).1 = mkCheckpoint p.1 p.2 true /\
     cell (grid (addCheckpoint rnd s k).1) p = set_isCheckpoint true (cell (grid s) p) /\
     (forall q, q <> p ->
        cell (grid (addCheckpoint rnd s k).1) q = cell (grid s) q) /\
     grid (removeCheckpoint (addCheckpoint rnd s k).1) = grid s /\
     checkpointOf (removeCheckpoint (addCheckpoint rnd s k).1)
     = mkCheckpoint p.1 p.2 false /\
     (rolesOffWalls (grid s) -> rolesOffWalls (grid (addCheckpoint rnd s k).1)) /\
     (roleInvariant (grid s) -> holders isCheckpoint (grid s) = [] ->
      roleInvariant (grid (addCheckpoint rnd s k).1)) /\
     (holders isCheckpoint (grid s) <> [] ->
      ~ roleInvariant (grid (addCheckpoint rnd s k).1))).
Proof.
  intros Hwf Hr Hc. unfold addCheckpoint.
  pose proof (getRandomEmptyPosition_some rnd (grid s) k) as Hsome.
  destruct (getRandomEmptyPosition rnd (grid s) k) as [[[r c]|] k'] eqn:E; simpl in *.
  2:{ split; [done|]. by intros p. }
  split; [done|]. intros p [= <-].
  destruct (Hsome (r, c) Hwf Hr Hc eq_refl) as [Hp He].
  apply isEmpty_fields in He as He'. destruct He' as (Hw & Hst & Hen & Hcp).
  set (g1 := update (grid s) (r, c) (set_isCheckpoint true)).
  assert (wf_grid g1) as Hwf1 by (apply wf_update; [done|apply keepsPlace_set_isCheckpoint]).
  assert (forall q, inBounds g1 q <-> inBounds (grid s) q) as Hin
    by (intros q; apply inBounds_update).
  assert (cell g1 (r, c) = set_isCheckpoint true (cell (grid s) (r, c))) as Heq
    by (by apply cell_update_eq).
  assert (forall q, q <> (r, c) -> cell g1 q = cell (grid s) q) as Hne
    by (intros q Hq; by apply cell_update_ne).
  unfold removeCheckpoint. simpl. fold g1.
  split_and!; try done.
  - apply grid_ext; try done.
    + exact (wf_update g1 (r, c) _ Hwf1 (keepsPlace_set_isCheckpoint false)).
    + unfold g1. by rewrite !nrows_update.
    + unfold g1. by rewrite !ncols_update.
    + intros q Hq. destruct (decide (q = (r, c))) as [->|Hq'].
      * rewrite cell_update_eq by (done || by apply Hin). rewrite Heq.
        revert Hcp. by destruct (cell (grid s) (r, c)); simpl; intros ->.
      * rewrite cell_update_ne by done. by apply Hne.
  - intros Hoff q Hq%Hin. destruct (decide (q = (r, c))) as [->|Hq'].
    + rewrite Heq. intros _. by destruct (cell (grid s) (r, c)).
    + rewrite Hne by done. by apply Hoff.
  - intros Hinv Hnone. apply roleInvariant_holds in Hinv as [Hone Hhold].
    apply roleInvariant_holds. split.
    + intros q Hq%Hin. destruct (decide (q = (r, c))) as [->|Hq'].
      * rewrite Heq. unfold roles. revert Hst Hen.
        destruct (cell (grid s) (r, c)); simpl. by intros -> ->.
      * rewrite Hne by done. by apply Hone.
    + intros t. destruct (decide (t = checkpoint)) as [->|Ht].
      * apply (holders_only _ _ (r, c)); [done|]. intros q Hq%Hin Hhas.
        destruct (decide (q = (r, c))) as [->|Hq']; [done|]. rewrite Hne in Hhas by done.
        assert (q ∈ holders isCheckpoint (grid s)) as Hmem.
        { unfold holders. apply list_elem_of_filter. split; [done|].
          by apply elem_of_getAllNodes. }
        rewrite Hnone in Hmem. by apply elem_of_nil in Hmem.
      * etransitivity; [|apply (Hhold t)].
        apply holders_mono; try done; [apply nrows_update|apply ncols_update|].
        intros q Hq. destruct (decide (q = (r, c))) as [->|Hq'].
        -- fold g1. rewrite Heq. destruct t; try done; by destruct (cell (grid s) (r, c)).
        -- fold g1. by rewrite Hne.
  - intros Hsome' [_ (_ & _ & Hle)].
    destruct (holders isCheckpoint (grid s)) as [|q l] eqn:Eh; [done|].
    assert (q ∈ holders isCheckpoint (grid s)) as Hq by (rewrite Eh; left).
    apply list_elem_of_filter in Hq as [Hcq Hq].
    assert (q <> (r, c)) as Hq' by (intros ->; congruence).
    assert (forall x, x ∈ getAllNodes (grid s) -> x ∈ getAllNodes g1) as Hall.
    { intros x Hx. unfold g1. by rewrite getAllNodes_update. }
    assert (q ∈ holders isCheckpoint g1) as H1.
    { apply list_elem_of_filter. split; [by rewrite Hne|by apply Hall]. }
    assert ((r, c) ∈ holders isCheckpoint g1) as H2.
    { apply list_elem_of_filter. split; [by rewrite Heq|].
      apply Hall. by apply elem_of_getAllNodes. }
    destruct (holders isCheckpoint g1) as [|x [|y l']]; simpl in Hle; [|..|lia].
    + by apply elem_of_nil in H1.
    + apply list_elem_of_singleton in H1, H2. congruence.
Qed.

Lemma addCheckpoint_removeCheckpoint_witness :
  checkpointOf (addCheckpoint zeroDraws twoByTwo 0).1 = mkCheckpoint 0 1 true /\
  grid (removeCheckpoint (addCheckpoint zeroDraws twoByTwo 0).1) = grid twoByTwo.
Proof.
  destruct (addCheckpoint_removeCheckpoint zeroDraws twoByTwo 0 twoByTwo_wf) as [_ H].
  - vm_compute. lia.
  - vm_compute. lia.
  - destruct (H (0, 1)) as (_ & _ & Hcp & _ & _ & Hback & _).
    + vm_compute. reflexivity.
    + split; [exact Hcp|exact Hback].
Defined.

(** [handleDrop] does not record where it puts the checkpoint:
    [removeCheckpoint] after the checkpoint was dragged to another node
    clears the node it was dragged from, and leaves the checkpoint on the
    grid while the state says there is none. *)
Theorem removeCheckpoint_after_drag s r c target :
  wf_grid (grid s) -> inBounds (grid s) (r, c) -> inBounds (grid s) target ->
  checkpointOf s = mkCheckpoint r c true ->
  isCheckpoint (cell (grid s) (r, c)) = true ->
  isStart (cell (grid s) (r, c)) = false -> isEnd (cell (grid s) (r, c)) = false ->
  target <> (r, c) -> isWall (cell (grid s) target) = false ->
  cpExists (checkpointOf
    (removeCheckpoint (handleDrop (handleDragStart s (r, c)) target))) = false /\
  isCheckpoint (cell (grid
    (removeCheckpoint (handleDrop (handleDragStart s (r, c)) target))) target) = true /\
  holders isCheckpoint (grid
    (removeCheckpoint (handleDrop (handleDragStart s (r, c)) target))) <> [].
Proof.
  intros Hwf Hc Ht Hcp Hic Hst Hen Hne Hw.
  assert (handleDragStart s (r, c) =
          mkState (grid s) (startNode s) (endNode s) (checkpointOf s)
                  (mkDragging true (Some checkpoint))) as ->.
  { unfold handleDragStart. by rewrite Hst, Hen, Hic. }
  set (s1 := mkState _ _ _ _ _).
  destruct (handleDrop_cells s1 target checkpoint Hwf Ht eq_refl eq_refl Hw)
    as (Hwf' & Hr & Hc' & _ & Hcell).
  change (grid s1) with (grid s) in *.
  assert (checkpointOf (handleDrop s1 target) = mkCheckpoint r c true) as Hcp'.
  { unfold handleDrop, s1. simpl. rewrite Hw. simpl. done. }
  unfold removeCheckpoint. rewrite Hcp'. simpl.
  assert (isCheckpoint (cell (update (grid (handleDrop s1 target)) (r, c)
                                (set_isCheckpoint false)) target) = true) as Hres.
  { rewrite cell_update_ne by done. rewrite Hcell by done. rewrite decide_True by done.
    reflexivity. }
  split; [done|]. split; [done|].
  intros Hnone.
  assert (target ∈ holders isCheckpoint
            (update (grid (handleDrop s1 target)) (r, c) (set_isCheckpoint false))) as Hin.
  { apply list_elem_of_filter. split; [done|]. rewrite getAllNodes_update.
    apply elem_of_getAllNodes; [done|]. unfold inBounds. by rewrite Hr, Hc'. }
  rewrite Hnone in Hin. by apply elem_of_nil in Hin.
Qed.

Lemma removeCheckpoint_after_drag_witness :
  cpExists (checkpointOf
    (removeCheckpoint
       (handleDrop (handleDragStart (addCheckpoint zeroDraws twoByTwo 0).1 (0, 1)) (1, 0))))
  = false /\
  isCheckpoint (cell (grid
    (removeCheckpoint
       (handleDrop (handleDragStart (addCheckpoint zeroDraws twoByTwo 0).1 (0, 1)) (1, 0))))
    (1, 0)) = true.
Proof.
  assert (wf_grid (grid (addCheckpoint zeroDraws twoByTwo 0).1)) as Hwf.
  { change (wf_grid (update (grid twoByTwo) (0, 1) (set_isCheckpoint true))).
    apply wf_update; [apply twoByTwo_wf|apply keepsPlace_set_isCheckpoint]. }
  destruct (removeCheckpoint_after_drag (addCheckpoint zeroDraws twoByTwo 0).1 0 1 (1, 0) Hwf)
    as (H1 & H2 & _).
  - apply inBounds_compute. reflexivity.
  - apply inBounds_compute. reflexivity.
  - reflexivity.
  - reflexivity.
  - reflexivity.
  - reflexivity.
  - discriminate.
  - reflexivity.
  - split; [exact H1|exact H2].
Defined.
End CheckpointFacts.

(** ** [randomizeNodes] and the walls *)

Section RandomizeFacts.
Import Roles Editing.

Lemma setFlag_cells g o f :
  wf_grid g -> keepsPlace f -> (forall q, o = Some q -> inBounds g q) ->
  wf_grid (setFlag g o f) /\ nrows (setFlag g o f) = nrows g /\
  ncols (setFlag g o f) = ncols g /\
  forall p, cell (setFlag g o f) p =
            if decide (o = Some p) then f (cell g p) else cell g p.
Proof.
  intros Hwf Hf Ho. destruct o as [q|]; simpl.
  - split_and!.
    + by apply wf_update.
    + apply nrows_update.
    + apply ncols_update.
    + intros p. destruct (decide (Some q = Some p)) as [[= ->]|Hne].
      * apply cell_update_eq; [done|]. by apply Ho.
      * apply cell_update_ne. congruence.
  - split_and!; try done.
Qed.

Lemma keepsPlace_clearRoles : keepsPlace clearRoles.
Proof. by intros []. Qed.

(** The grid [randomizeNodes] leaves, by the three positions drawn. *)
Lemma randomizeNodes_cells rnd s k :
  wf_grid (grid s) -> 0 < nrows (grid s) -> 0 < ncols (grid s) ->
  exists newCheckpoint,
    (cpExists (checkpointOf s) = false -> newCheckpoint = None) /\
    (forall q, newCheckpoint = Some q \/ startNode (randomizeNodes rnd s k).1 = Some q \/
               endNode (randomizeNodes rnd s k).1 = Some q ->
       inBounds (grid s) q /\ isWall (cell (grid s) q) = false) /\
    (forall q, newCheckpoint = Some q ->
       checkpointOf (randomizeNodes rnd s k).1 = mkCheckpoint q.1 q.2 true) /\
    (newCheckpoint = None ->
       checkpointOf (randomizeNodes rnd s k).1 = checkpointOf s) /\
    wf_grid (grid (randomizeNodes rnd s k).1) /\
    nrows (grid (randomizeNodes rnd s k).1) = nrows (grid s) /\
    ncols (grid (randomizeNodes rnd s k).1) = ncols (grid s) /\
    forall p, inBounds (grid s) p ->
      cell (grid (randomizeNodes rnd s k).1) p =
        (if decide (endNode (randomizeNodes rnd s k).1 = Some p) then set_isEnd true else id)
          ((if decide (startNode (randomizeNodes rnd s k).1 = Some p)
            then set_isStart true else id)
             ((if decide (newCheckpoint = Some p) then set_isCheckpoint true else id)
                (clearRoles (cell (grid s) p)))).
Proof.
  intros Hwf Hr Hc. unfold randomizeNodes.
  destruct (wf_map_map clearRoles (grid s) Hwf keepsPlace_clearRoles) as (Hwf0 & Hr0 & Hc0).
  set (newGrid := map (map clearRoles) (grid s)) in *.
  assert (forall k0 q, (getRandomEmptyPosition rnd newGrid k0).1 = Some q ->
            inBounds (grid s) q /\ isWall (cell (grid s) q) = false) as Hdraw.
  { intros k0 q Hq.
    apply getRandomEmptyPosition_some in Hq as [Hq He]; try done; try lia.
    assert (inBounds (grid s) q) as Hq' by (unfold inBounds in *; congruence).
    split; [done|]. unfold newGrid in He. rewrite cell_map_map in He by done.
    apply isEmpty_fields in He as [Hw _]. revert Hw. by destruct (cell (grid s) q). }
  assert (forall q, inBounds (grid s) q -> inBounds newGrid q) as Hin0
    by (intros q Hq; unfold inBounds in *; congruence).
  pose proof (Hdraw k) as Hd1.
  destruct (getRandomEmptyPosition rnd newGrid k) as [newStart k1].
  pose proof (Hdraw k1) as Hd2.
  destruct (getRandomEmptyPosition rnd newGrid k1) as [newEnd k2].
  pose proof (Hdraw k2) as Hd3. simpl in Hd1, Hd2.
  set (drawn := if cpExists (checkpointOf s)
                then getRandomEmptyPosition rnd newGrid k2 else (None, k2)).
  assert (forall q, drawn.1 = Some q ->
            inBounds (grid s) q /\ isWall (cell (grid s) q) = false) as Hd3'.
  { unfold drawn. destruct (cpExists (checkpointOf s)); [done|]. by intros q. }
  assert (cpExists (checkpointOf s) = false -> drawn.1 = None) as Hnone.
  { unfold drawn. by intros ->. }
  clearbody drawn. destruct drawn as [newCheckpoint k3]. simpl in Hd3', Hnone.
  exists newCheckpoint.
  destruct (setFlag_cells newGrid newCheckpoint (set_isCheckpoint true) Hwf0
              (keepsPlace_set_isCheckpoint true)) as (Hwf1 & Hr1 & Hc1 & Hcell1).
  { intros q ->. apply Hin0. by apply Hd3'. }
  destruct (setFlag_cells _ newStart (set_isStart true) Hwf1
              (keepsPlace_set_isStart true)) as (Hwf2 & Hr2 & Hc2 & Hcell2).
  { intros q ->. unfold inBounds. rewrite Hr1, Hc1. apply Hin0. by apply Hd1. }
  destruct (setFlag_cells _ newEnd (set_isEnd true) Hwf2
              (keepsPlace_set_isEnd true)) as (Hwf3 & Hr3 & Hc3 & Hcell3).
  { intros q ->. unfold inBounds. rewrite Hr2, Hc2, Hr1, Hc1. apply Hin0. by apply Hd2. }
  assert (forall p, inBounds (grid s) p ->
            cell (setFlag (setFlag (setFlag newGrid newCheckpoint (set_isCheckpoint true))
                             newStart (set_isStart true)) newEnd (set_isEnd true)) p =
            (if decide (newEnd = Some p) then set_isEnd true else id)
              ((if decide (newStart = Some p) then set_isStart true else id)
                 ((if decide (newCheckpoint = Some p) then set_isCheckpoint true else id)
                    (clearRoles (cell (grid s) p))))) as Hcells.
  { intros p Hp. rewrite Hcell3, Hcell2, Hcell1. unfold newGrid.
    rewrite cell_map_map by done.
    by destruct (decide (newEnd = Some p)), (decide (newStart = Some p)),
         (decide (newCheckpoint = Some p)). }
  destruct newCheckpoint as [[r c]|]; cbn [fst grid startNode endNode checkpointOf].
  - split_and!; try done; try congruence.
    + intros q [Hq|[Hq|Hq]]; [by apply Hd3'|by apply Hd1|by apply Hd2].
    + by intros q [= <-].
  - split_and!; try done; try congruence.
    intros q [Hq|[Hq|Hq]]; [done|by apply Hd1|by apply Hd2].
Qed.

(** [randomizeNodes] never moves a wall and never puts a role on one, and
    it leaves at most one start, one end and one checkpoint, at the
    positions the state records; without a checkpoint in the state it
    leaves none on the grid. *)
Theorem randomizeNodes_places_roles rnd s k :
  wf_grid (grid s) -> 0 < nrows (grid s) -> 0 < ncols (grid s) ->
  wf_grid (grid (randomizeNodes rnd s k).1) /\
  nrows (grid (randomizeNodes rnd s k).1) = nrows (grid s) /\
  ncols (grid (randomizeNodes rnd s k).1) = ncols (grid s) /\
  (forall p, inBounds (grid s) p ->
     isWall (cell (grid (randomizeNodes rnd s k).1) p) = isWall (cell (grid s) p)) /\
  rolesOffWalls (grid (randomizeNodes rnd s k).1) /\
  (forall p, inBounds (grid s) p ->
     (isStart (cell (grid (randomizeNodes rnd s k).1) p) = true <->
      startNode (randomizeNodes rnd s k).1 = Some p) /\
     (isEnd (cell (grid (randomizeNodes rnd s k).1) p) = true <->
      endNode (randomizeNodes rnd s k).1 = Some p) /\
     (isCheckpoint (cell (grid (randomizeNodes rnd s k).1) p) = true ->
      checkpointOf (randomizeNodes rnd s k).1 = mkCheckpoint p.1 p.2 true)) /\
  length (holders isStart (grid (randomizeNodes rnd s k).1)) <= 1 /\
  length (holders isEnd (grid (randomizeNodes rnd s k).1)) <= 1 /\
  length (holders isCheckpoint (grid (randomizeNodes rnd s k).1)) <= 1 /\
  (cpExists (checkpointOf s) = false ->
   holders isCheckpoint (grid (randomizeNodes rnd s k).1) = []).
Proof.
  intros Hwf Hr Hc.
  destruct (randomizeNodes_cells rnd s k Hwf Hr Hc)
    as (newCheckpoint & Hnone & Hdrawn & Hcp & Hcp' & Hwf' & Hr' & Hc' & Hcell).
  set (s' := (randomizeNodes rnd s k).1) in *.
  assert (forall p, inBounds (grid s') p <-> inBounds (grid s) p) as Hin
    by (intros p; unfold inBounds; by rewrite Hr', Hc').
  assert (forall p, inBounds (grid s) p ->
            (isStart (cell (grid s') p) = true <-> startNode s' = Some p) /\
            (isEnd (cell (grid s') p) = true <-> endNode s' = Some p) /\
            (isCheckpoint (cell (grid s') p) = true <-> newCheckpoint = Some p) /\
            isWall (cell (grid s') p) = isWall (cell (grid s) p)) as Hflags.
  { intros p Hp. rewrite (Hcell p Hp).
    destruct (decide (endNode s' = Some p)) as [He|He],
             (decide (startNode s' = Some p)) as [Hs|Hs],
             (decide (newCheckpoint = Some p)) as [Hk|Hk];
      destruct (cell (grid s) p); simpl; split_and!; try done; try (split; done). }
  split_and!; try done.
  - intros p Hp. by apply Hflags.
  - intros p Hp%Hin Hsp. destruct (Hflags p Hp) as (H1 & H2 & H3 & ->).
    unfold isSpecial in Hsp.
    destruct (isStart (cell (grid s') p)) eqn:E1.
    { apply (Hdrawn p). right. left. by apply H1. }
    destruct (isEnd (cell (grid s') p)) eqn:E2.
    { apply (Hdrawn p). right. right. by apply H2. }
    simpl in Hsp. apply (Hdrawn p). left. by apply H3.
  - intros p Hp. destruct (Hflags p Hp) as (H1 & H2 & H3 & _). split_and!; try done.
    intros Hk%H3. by apply Hcp.
  - destruct (startNode s') as [q|] eqn:E.
    + apply (holders_only _ _ q); [done|]. intros p Hp%Hin Hp'.
      apply (Hflags p Hp) in Hp'. congruence.
    + apply (holders_only _ _ (0, 0)); [done|]. intros p Hp%Hin Hp'.
      apply (Hflags p Hp) in Hp'. congruence.
  - destruct (endNode s') as [q|] eqn:E.
    + apply (holders_only _ _ q); [done|]. intros p Hp%Hin Hp'.
      apply (Hflags p Hp) in Hp'. congruence.
    + apply (holders_only _ _ (0, 0)); [done|]. intros p Hp%Hin Hp'.
      apply (Hflags p Hp) in Hp'. congruence.
  - destruct newCheckpoint as [q|] eqn:E.
    + apply (holders_only _ _ q); [done|]. intros p Hp%Hin Hp'.
      apply (Hflags p Hp) in Hp'. congruence.
    + apply (holders_only _ _ (0, 0)); [done|]. intros p Hp%Hin Hp'.
      apply (Hflags p Hp) in Hp'. congruence.
  - intros Hno. specialize (Hnone Hno).
    destruct (holders isCheckpoint (grid s')) as [|p l] eqn:E; [done|].
    assert (p ∈ holders isCheckpoint (grid s')) as Hp by (rewrite E; left).
    apply list_elem_of_filter in Hp as [Hp' Hp]. apply elem_of_getAllNodes in Hp; [|done].
    apply Hin in Hp. apply (Hflags p Hp) in Hp'. congruence.
Qed.

Lemma randomizeNodes_places_roles_witness :
  length (holders isStart (grid (randomizeNodes zeroDraws twoByTwo 0).1)) <= 1 /\
  rolesOffWalls (grid (randomizeNodes zeroDraws twoByTwo 0).1).
Proof.
  destruct (randomizeNodes_places_roles zeroDraws twoByTwo 0 twoByTwo_wf)
    as (_ & _ & _ & _ & Hoff & _ & Hone & _).
  - vm_compute. lia.
  - vm_compute. lia.
  - split; [exact Hone|exact Hoff].
Defined.

Lemma clearWalls_cells g :
  wf_grid g ->
  wf_grid (clearWalls g) /\ nrows (clearWalls g) = nrows g /\
  ncols (clearWalls g) = ncols g /\
  forall p, inBounds g p -> cell (clearWalls g) p = set_isWall false (cell g p).
Proof.
  intros Hwf. unfold clearWalls.
  set (f := fun node => if isWall node then set_isWall false node else node).
  assert (keepsPlace f) as Hf.
  { intros n. unfold f. destruct (isWall n); [|done]. by destruct n. }
  destruct (wf_map_map f g Hwf Hf) as (Hwf' & Hr & Hc). split_and!; try done.
  intros p Hp. rewrite cell_map_map by done. unfold f.
  destruct (isWall (cell g p)) eqn:E; [done|]. rewrite <- E. by rewrite set_isWall_same.
Qed.

(** Drawing and clearing walls keeps the roles where they are and off the
    walls: a click, the boost pattern, [getNewGridWithWallMode] and
    [clearWalls] leave [isStart], [isEnd] and [isCheckpoint] of every node
    as they were (they assign no field but [isWall]), and where no node
    with a role was a wall none is after them.  After [clearWalls] no node
    is a wall, and no field but [isWall] has changed. *)
Theorem wall_edits_keep_roles g :
  wf_grid g -> rolesOffWalls g ->
  (forall isRunning isDragging boost row col g',
     handleMouseDown isRunning isDragging boost g row col = Some g' ->
     rolesOffWalls g' /\
     forall p, inBounds g p ->
       isStart (cell g' p) = isStart (cell g p) /\
       isEnd (cell g' p) = isEnd (cell g p) /\
       isCheckpoint (cell g' p) = isCheckpoint (cell g p) /\
       exists b, cell g' p = set_isWall b (cell g p)) /\
  (forall row col mode g',
     getNewGridWithWallMode g row col mode = Some g' ->
     rolesOffWalls g' /\
     forall p, inBounds g p ->
       isStart (cell g' p) = isStart (cell g p) /\
       isEnd (cell g' p) = isEnd (cell g p) /\
       isCheckpoint (cell g' p) = isCheckpoint (cell g p) /\
       exists b, cell g' p = set_isWall b (cell g p)) /\
  (forall row col mode,
     rolesOffWalls (createBoostWalls g row col mode).1 /\
     forall p, inBounds g p ->
       isStart (cell (createBoostWalls g row col mode).1 p) = isStart (cell g p) /\
       isEnd (cell (createBoostWalls g row col mode).1 p) = isEnd (cell g p) /\
       isCheckpoint (cell (createBoostWalls g row col mode).1 p)
         = isCheckpoint (cell g p) /\
       exists b, cell (createBoostWalls g row col mode).1 p = set_isWall b (cell g p)) /\
  rolesOffWalls (clearWalls g) /\
  (forall p, inBounds g p -> cell (clearWalls g) p = set_isWall false (cell g p)) /\
  clearWalls (clearWalls g) = clearWalls g.
Proof.
  intros Hwf Hoff.
  assert (forall g', wf_grid g' -> nrows g' = nrows g -> ncols g' = ncols g ->
            (forall p, inBounds g p ->
               cell g' p = cell g p \/
               (isSpecial (cell g p) = false /\ exists b, cell g' p = set_isWall b (cell g p))) ->
            rolesOffWalls g' /\
            forall p, inBounds g p ->
              isStart (cell g' p) = isStart (cell g p) /\
              isEnd (cell g' p) = isEnd (cell g p) /\
              isCheckpoint (cell g' p) = isCheckpoint (cell g p) /\
              exists b, cell g' p = set_isWall b (cell g p)) as Hkeep.
  { intros g' Hwf' Hr Hc Hcells. split.
    - intros p Hp Hsp. assert (inBounds g p) as Hp0 by (unfold inBounds in *; congruence).
      destruct (Hcells p Hp0) as [E|(Hns & b & E)]; rewrite E in Hsp |- *.
      + by apply Hoff.
      + rewrite isSpecial_set_isWall in Hsp. congruence.
    - intros p Hp. destruct (Hcells p Hp) as [->|(_ & b & ->)].
      + split_and!; [done..|]. exists (isWall (cell g p)).
        by rewrite set_isWall_same.
      + split_and!; [by destruct (cell g p)..|]. by exists b. }
  assert (forall row col mode g',
            getNewGridWithWallMode g row col mode = Some g' ->
            rolesOffWalls g' /\
            forall p, inBounds g p ->
              isStart (cell g' p) = isStart (cell g p) /\
              isEnd (cell g' p) = isEnd (cell g p) /\
              isCheckpoint (cell g' p) = isCheckpoint (cell g p) /\
              exists b, cell g' p = set_isWall b (cell g p)) as Hnew.
  { intros row col mode g' Hg'.
    destruct (decide (inBounds g (row, col))) as [Hb|Hb].
    - destruct (getNewGridWithWallMode_spec g row col mode Hwf Hb)
        as (g2 & Hg2 & Hwf2 & Hr & Hc & Heq & Hne).
      rewrite Hg2 in Hg'. injection Hg' as <-. apply Hkeep; try done.
      intros p Hp. destruct (decide (p = (row, col))) as [->|Hp']; [|left; by apply Hne].
      rewrite Heq. destruct (isSpecial (cell g (row, col))); [by left|].
      right. split; [done|]. by eexists.
    - unfold getNewGridWithWallMode in Hg'. by rewrite nodeAt_out in Hg'. }
  assert (forall row col mode,
            rolesOffWalls (createBoostWalls g row col mode).1 /\
            forall p, inBounds g p ->
              isStart (cell (createBoostWalls g row col mode).1 p) = isStart (cell g p) /\
              isEnd (cell (createBoostWalls g row col mode).1 p) = isEnd (cell g p) /\
              isCheckpoint (cell (createBoostWalls g row col mode).1 p)
                = isCheckpoint (cell g p) /\
              exists b, cell (createBoostWalls g row col mode).1 p
                        = set_isWall b (cell g p)) as Hboost.
  { intros row col mode.
    destruct (boost_fold g row col mode pattern (g, false) Hwf eq_refl eq_refl)
      as (Hwf' & Hr & Hc & Hcell & _).
    apply Hkeep; try done. intros p Hp.
    change (foldl (boostStep g row col mode) (g, false) pattern)
      with (createBoostWalls g row col mode) in Hcell.
    rewrite (Hcell p Hp). change ((g, false).1) with g.
    destruct (decide _) as [[_ Hs]|]; [|by left]. right. split; [done|]. by eexists. }
  destruct (clearWalls_cells g Hwf) as (Hwfc & Hrc & Hcc & Hcellc).
  split_and!; try done.
  - intros isRunning isDragging boost row col g'. unfold handleMouseDown.
    destruct (isRunning || isDragging).
    { intros [= <-]. split; [done|]. intros p Hp. split_and!; [done..|].
      exists (isWall (cell g p)). by rewrite set_isWall_same. }
    destruct (nodeAt g row col) as [node|]; [|done].
    destruct (isSpecial node).
    { intros [= <-]. split; [done|]. intros p Hp. split_and!; [done..|].
      exists (isWall (cell g p)). by rewrite set_isWall_same. }
    destruct (boost && _).
    + intros [= <-]. apply Hboost.
    + apply Hnew.
  - apply Hkeep; try done. intros p Hp. rewrite (Hcellc p Hp).
    destruct (isSpecial (cell g p)) eqn:Hs.
    + left. rewrite <- (Hoff p Hp Hs). apply set_isWall_same.
    + right. split; [done|]. by eexists.
  - destruct (clearWalls_cells (clearWalls g) Hwfc) as (Hwf2 & Hr2 & Hc2 & Hcell2).
    apply grid_ext; try done. intros p Hp. rewrite Hcell2 by done.
    assert (inBounds g p) as Hp0 by (unfold inBounds in *; congruence).
    by rewrite (Hcellc p Hp0).
Qed.

Lemma wall_edits_keep_roles_witness :
  rolesOffWalls (clearWalls (grid twoByTwo)) /\
  rolesOffWalls (createBoostWalls (grid twoByTwo) 0 1 add).1.
Proof.
  destruct (wall_edits_keep_roles (grid twoByTwo) twoByTwo_wf)
    as (_ & _ & Hboost & Hclear & _).
  - apply twoByTwo_roles.
  - split; [exact Hclear|]. apply (Hboost 0 1 add).
Defined.
End RandomizeFacts.

(** ** The first grid *)

Section InitialGrid.
Import Roles Editing.

Lemma initializeGrid_dims h w s e cp :
  nrows (initializeGrid h w s e cp) = h /\
  (0 < h -> ncols (initializeGrid h w s e cp) = w).
Proof.
  unfold initializeGrid, nrows. rewrite length_map, length_seq. split; [done|].
  intros Hh. destruct h; [lia|]. unfold ncols. simpl. by rewrite length_map, length_seq.
Qed.

Lemma initializeGrid_cell h w s e cp r c :
  r < h -> c < w -> cell (initializeGrid h w s e cp) (r, c) = createNode s e cp r c.
Proof.
  intros Hr Hc. unfold cell, initializeGrid. simpl.
  rewrite list_lookup_fmap, lookup_seq_lt by done. simpl.
  by rewrite list_lookup_fmap, lookup_seq_lt.
Qed.

(** The grid [initializeGrid] builds is a rectangle of [height] by [width]
    nodes that carry their coordinates, with no wall; the start and the end
    are the nodes at the recorded positions, and the checkpoint is on the
    grid only if the state has one.  With the three positions apart every
    node has at most one role and every role at most one holder. *)
Theorem initializeGrid_wellformed height width startNode endNode cp :
  0 < height ->
  wf_grid (initializeGrid height width startNode endNode cp) /\
  nrows (initializeGrid height width startNode endNode cp) = height /\
  ncols (initializeGrid height width startNode endNode cp) = width /\
  (forall p, inBounds (initializeGrid height width startNode endNode cp) p ->
     isWall (cell (initializeGrid height width startNode endNode cp) p) = false /\
     (isStart (cell (initializeGrid height width startNode endNode cp) p) = true <->
      p = startNode) /\
     (isEnd (cell (initializeGrid height width startNode endNode cp) p) = true <->
      p = endNode) /\
     (isCheckpoint (cell (initializeGrid height width startNode endNode cp) p) = true <->
      cpExists cp = true /\ p = (cpRow cp, cpCol cp))) /\
  rolesOffWalls (initializeGrid height width startNode endNode cp) /\
  (startNode <> endNode ->
   (cpExists cp = true ->
    (cpRow cp, cpCol cp) <> startNode /\ (cpRow cp, cpCol cp) <> endNode) ->
   roleInvariant (initializeGrid height width startNode endNode cp)).
Proof.
  intros Hh. set (g := initializeGrid height width startNode endNode cp).
  destruct (initializeGrid_dims height width startNode endNode cp) as [Hr Hc].
  specialize (Hc Hh). fold g in Hr, Hc.
  assert (forall p, inBounds g p -> cell g p = createNode startNode endNode cp p.1 p.2)
    as Hcell.
  { intros [r c] [H1 H2]. simpl in *. apply initializeGrid_cell; lia. }
  assert (wf_grid g) as Hwf.
  { split.
    - intros r l Hl. rewrite Hc. unfold g, initializeGrid in Hl.
      rewrite list_lookup_fmap in Hl. destruct (seq 0 height !! r); [|done].
      simpl in Hl. injection Hl as <-. by rewrite length_map, length_seq.
    - intros p Hp. by rewrite (Hcell p Hp). }
  assert (forall p, inBounds g p ->
            isWall (cell g p) = false /\
            (isStart (cell g p) = true <-> p = startNode) /\
            (isEnd (cell g p) = true <-> p = endNode) /\
            (isCheckpoint (cell g p) = true <->
             cpExists cp = true /\ p = (cpRow cp, cpCol cp))) as Hflags.
  { intros [r c] Hp. rewrite (Hcell _ Hp). simpl. split; [done|].
    destruct startNode as [sr sc], endNode as [er ec]. simpl.
    rewrite !andb_true_iff, !bool_decide_eq_true.
    split_and!; split; try (by intros [-> ->]); try (by intros [= -> ->]).
    - by intros [[? ->] ->].
    - by intros [-> [= -> ->]]. }
  split_and!; try done.
  - intros p Hp _. by apply Hflags.
  - intros Hse Hcp. apply roleInvariant_holds. split.
    + intros p Hp. destruct (Hflags p Hp) as (_ & H1 & H2 & H3). unfold roles.
      destruct (isStart (cell g p)) eqn:E1; destruct (isEnd (cell g p)) eqn:E2;
        destruct (isCheckpoint (cell g p)) eqn:E3; simpl; try lia; exfalso.
      * apply Hse. by rewrite <- (proj1 H1), <- (proj1 H2).
      * apply Hse. by rewrite <- (proj1 H1), <- (proj1 H2).
      * destruct (proj1 H3 eq_refl) as [Hex Hp3]. destruct (Hcp Hex) as [Hn _].
        apply Hn. by rewrite <- Hp3, (proj1 H1).
      * destruct (proj1 H3 eq_refl) as [Hex Hp3]. destruct (Hcp Hex) as [_ Hn].
        apply Hn. by rewrite <- Hp3, (proj1 H2).
    + intros [].
      * apply (holders_only _ _ startNode); [done|]. intros p Hp Hs. by apply (Hflags p Hp).
      * apply (holders_only _ _ endNode); [done|]. intros p Hp Hs. by apply (Hflags p Hp).
      * apply (holders_only _ _ (cpRow cp, cpCol cp)); [done|]. intros p Hp Hs.
        by apply (Hflags p Hp) in Hs as [_ ->].
Qed.

Lemma initializeGrid_wellformed_witness :
  wf_grid (initializeGrid 2 3 (0, 0) (1, 2) (mkCheckpoint 0 1 false)) /\
  roleInvariant (initializeGrid 2 3 (0, 0) (1, 2) (mkCheckpoint 0 1 false)).
Proof.
  destruct (initializeGrid_wellformed 2 3 (0, 0) (1, 2) (mkCheckpoint 0 1 false))
    as (Hwf & _ & _ & _ & _ & Hinv).
  - lia.
  - split; [exact Hwf|]. apply Hinv; [discriminate|discriminate].
Defined.
End InitialGrid.

(** ** The random maze *)

Section RandomMazeFacts.
Import Editing OldRandomMaze.

Lemma spliceEach_absent t walls : t ∉ walls -> spliceEach t walls = walls.
Proof.
  induction walls as [|w l IH]; intros Ht; [done|]. simpl.
  apply not_elem_of_cons in Ht as [Hw Hl].
  rewrite decide_False by done. by rewrite IH.
Qed.

(** Where no wall is listed twice, the loop with [splice] removes the wall. *)
Lemma spliceEach_filter t walls :
  NoDup walls -> spliceEach t walls = filter (fun p => p <> t) walls.
Proof.
  induction walls as [|w l IH]; intros Hnd; [done|].
  apply NoDup_cons in Hnd as [Hw Hnd]. simpl. rewrite filter_cons.
  destruct (decide (w = t)) as [->|Hne].
  - rewrite decide_False by (intros H; by apply H).
    assert (filter (fun p => p <> t) l = l) as ->.
    { clear IH Hnd. induction l as [|x l IH]; [done|].
      apply not_elem_of_cons in Hw as [Hx Hl]. rewrite filter_cons.
      rewrite decide_True by done. by rewrite IH. }
    destruct l as [|n l']; [done|]. apply not_elem_of_cons in Hw as [_ Hl].
    by rewrite spliceEach_absent.
  - rewrite decide_True by done. by rewrite IH.
Qed.

Lemma filter_filter_and {A} (P Q : A -> Prop) `{!forall x, Decision (P x)}
    `{!forall x, Decision (Q x)} (l : list A) :
  filter P (filter Q l) = filter (fun x => Q x /\ P x) l.
Proof.
  induction l as [|a l IH]; [done|]. rewrite !filter_cons.
  destruct (decide (Q a)) as [HQ|HQ].
  - rewrite filter_cons. destruct (decide (P a)) as [HP|HP].
    + rewrite decide_True by done. by rewrite IH.
    + rewrite decide_False by (by intros [_ ?]). done.
  - rewrite decide_False by (by intros [? _]). done.
Qed.

Lemma filter_same {A} (P Q : A -> Prop) `{!forall x, Decision (P x)}
    `{!forall x, Decision (Q x)} (l : list A) :
  (forall x, x ∈ l -> P x <-> Q x) -> filter P l = filter Q l.
Proof.
  induction l as [|a l IH]; intros HPQ; [done|]. rewrite !filter_cons.
  rewrite IH by (intros x Hx; apply HPQ; by right).
  destruct (decide (P a)) as [HP|HP].
  - rewrite decide_True; [done|]. apply HPQ; [left|done].
  - rewrite decide_False; [done|]. intros HQ. apply HP. apply HPQ; [left|done].
Qed.

Lemma clear_fold g node offsets : forall walls,
  NoDup walls -> (forall p, p ∈ walls -> inBounds g p) ->
  foldl (fun walls (offset : Z * Z) =>
           let newRow := (Z.of_nat node.1 + offset.1)%Z in
           let newCol := (Z.of_nat node.2 + offset.2)%Z in
           if ((0 <=? newRow) && (newRow <? Z.of_nat (nrows g)) &&
               (0 <=? newCol) && (newCol <? Z.of_nat (ncols g)))%Z
           then spliceEach (Z.to_nat newRow, Z.to_nat newCol) walls
           else walls)
        walls offsets
  = filter (fun p => ~ hit offsets node.1 node.2 p) walls.
Proof.
  induction offsets as [|o offsets IH]; intros walls Hnd Hin; simpl.
  { symmetry. clear Hnd Hin. induction walls as [|w l IHl]; [done|]. rewrite filter_cons.
    rewrite decide_True by (intros H; by apply Exists_nil in H). by rewrite IHl. }
  set (newRow := (Z.of_nat node.1 + o.1)%Z). set (newCol := (Z.of_nat node.2 + o.2)%Z).
  assert ((if ((0 <=? newRow) && (newRow <? Z.of_nat (nrows g)) &&
               (0 <=? newCol) && (newCol <? Z.of_nat (ncols g)))%Z
           then spliceEach (Z.to_nat newRow, Z.to_nat newCol) walls else walls)
          = filter (fun p => ~ hit [o] node.1 node.2 p) walls) as ->.
  { assert (forall p, hit [o] node.1 node.2 p <->
              Z.of_nat p.1 = newRow /\ Z.of_nat p.2 = newCol) as Hhit.
    { intros p. unfold hit. rewrite Exists_cons, Exists_nil. tauto. }
    destruct ((0 <=? newRow) && (newRow <? Z.of_nat (nrows g)) &&
              (0 <=? newCol) && (newCol <? Z.of_nat (ncols g)))%Z eqn:Hb.
    - rewrite spliceEach_filter by done. apply filter_same. intros p Hp.
      rewrite Hhit. apply andb_true_iff in Hb as [Hb H4]. apply andb_true_iff in Hb as [Hb H3].
      apply andb_true_iff in Hb as [H1 H2]. apply Z.leb_le in H1, H3.
      destruct p as [a b]. simpl. split.
      + intros Hne [E1 E2]. apply Hne. f_equal; lia.
      + intros Hn [= -> ->]. apply Hn. lia.
    - symmetry. transitivity (filter (fun _ : pos => True) walls).
      + apply filter_same. intros p Hp. split; [done|]. intros _ [E1 E2]%Hhit.
        destruct (Hin p Hp) as [Hp1 Hp2].
        assert ((0 <=? newRow) && (newRow <? Z.of_nat (nrows g)) &&
                (0 <=? newCol) && (newCol <? Z.of_nat (ncols g)) = true)%Z; [|congruence].
        rewrite !andb_true_iff, !Z.leb_le, !Z.ltb_lt. lia.
      + clear. induction walls as [|w l IHl]; [done|]. rewrite filter_cons.
        rewrite decide_True by done. by rewrite IHl. }
  rewrite IH.
  - rewrite filter_filter_and. apply filter_same. intros p _. unfold hit.
    rewrite (Exists_cons _ o offsets), Exists_cons, Exists_nil. tauto.
  - by apply NoDup_filter.
  - intros p [_ Hp]%list_elem_of_filter. by apply Hin.
Qed.

Lemma hit_clearOffsets node p :
  hit clearOffsets node.1 node.2 p <-> near node p.
Proof.
  unfold hit, near, absDiff. rewrite Exists_exists. split.
  - intros ([i j] & Hin & H1 & H2). simpl in *.
    unfold clearOffsets in Hin. apply list_elem_of_bind in Hin as (i' & Hin & Hi).
    apply list_elem_of_bind in Hin as (j' & Hin & Hj).
    apply list_elem_of_singleton in Hin as [= -> ->].
    rewrite !elem_of_cons, elem_of_nil in Hi, Hj. lia.
  - intros [H1 H2].
    exists ((Z.of_nat p.1 - Z.of_nat node.1)%Z, (Z.of_nat p.2 - Z.of_nat node.2)%Z).
    split; [|simpl; lia]. unfold clearOffsets.
    apply list_elem_of_bind. eexists. split.
    + apply list_elem_of_bind. eexists. split; [by apply list_elem_of_singleton|].
      rewrite !elem_of_cons, elem_of_nil. lia.
    + rewrite !elem_of_cons, elem_of_nil. lia.
Qed.

Lemma clearAroundNode_filter g node walls :
  NoDup walls -> (forall p, p ∈ walls -> inBounds g p) ->
  clearAroundNode g node walls = filter (fun p => ~ near node p) walls.
Proof.
  intros Hnd Hin. unfold clearAroundNode. rewrite clear_fold by done.
  apply filter_same. intros p _. by rewrite hit_clearOffsets.
Qed.

Lemma gridPositions_spec g :
  NoDup (gridPositions g) /\ forall p, p ∈ gridPositions g <-> inBounds g p.
Proof.
  unfold gridPositions, inBounds. generalize (ncols g) as w, (nrows g) as h. intros w h.
  split.
  - apply NoDup_alt. intros i j p Hi Hj.
    assert (forall i, concat (map (fun row => map (fun col => (row, col)) (seq 0 w)) (seq 0 h))
                        !! i = Some p -> i = p.1 * w + p.2 /\ p.2 < w) as Hidx.
    { clear. induction h as [|h IH] using nat_ind; [done|].
      rewrite seq_S, map_app, concat_app. simpl. intros i.
      assert (length (concat (map (fun row => map (fun col => (row, col)) (seq 0 w))
                                (seq 0 h))) = h * w) as Hlen.
      { clear. induction h as [|h IH]; [done|].
        rewrite seq_S, map_app, concat_app, length_app, IH. simpl.
        rewrite length_app, length_map, length_seq. simpl. lia. }
      destruct (decide (i < h * w)) as [Hi|Hi].
      - rewrite lookup_app_l by lia. apply IH.
      - rewrite lookup_app_r by lia. rewrite Hlen, app_nil_r.
        rewrite list_lookup_fmap. intros Hc.
        destruct (seq 0 w !! (i - h * w)) as [c|] eqn:E; [|done].
        apply lookup_seq in E as [-> E]. injection Hc as <-. simpl. lia. }
    destruct (Hidx i Hi) as [-> _]. by destruct (Hidx j Hj) as [-> _].
  - intros [r c]. rewrite list_elem_of_In, in_concat. simpl. split.
    + intros (l & Hl%list_elem_of_In & Hc%list_elem_of_In).
      apply list_elem_of_fmap in Hl as (r' & -> & Hr).
      apply list_elem_of_fmap in Hc as (c' & [= -> ->] & Hc).
      apply elem_of_seq in Hr, Hc. lia.
    + intros [Hr Hc]. exists (map (fun col => (r, col)) (seq 0 w)).
      rewrite <- !list_elem_of_In. split.
      * apply list_elem_of_fmap. exists r. split; [done|]. apply elem_of_seq. lia.
      * apply list_elem_of_fmap. exists c. split; [done|]. apply elem_of_seq. lia.
Qed.

Lemma firstPass_fold rnd s f cp positions : forall acc,
  NoDup positions -> NoDup acc.1 -> (forall p, p ∈ acc.1 -> p ∉ positions) ->
  let r := foldl (fun (acc : list pos * nat) (p : pos) =>
                    if isSpecialNode s f cp p.1 p.2 then acc
                    else if below (rnd acc.2) 28 100 then (acc.1 ++ [p], S acc.2)
                    else (acc.1, S acc.2)) acc positions in
  NoDup r.1 /\
  (forall p, p ∈ r.1 ->
     p ∈ acc.1 \/ (p ∈ positions /\ isSpecialNode s f cp p.1 p.2 = false)) /\
  (forall p, p ∈ acc.1 -> p ∈ r.1) /\
  r.2 = acc.2 + length (filter (fun p => isSpecialNode s f cp p.1 p.2 = false) positions).
Proof.
  induction positions as [|q l IH]; intros acc Hnd Hacc Hdisj; simpl.
  { split_and!; try done; try lia. intros p Hp. by left. }
  apply NoDup_cons in Hnd as [Hq Hnd]. rewrite filter_cons.
  set (step := if isSpecialNode s f cp q.1 q.2 then acc
               else if below (rnd acc.2) 28 100 then (acc.1 ++ [q], S acc.2)
               else (acc.1, S acc.2)).
  assert (NoDup step.1 /\ (forall p, p ∈ step.1 -> p ∉ l) /\
          (forall p, p ∈ step.1 ->
             p ∈ acc.1 \/ (p = q /\ isSpecialNode s f cp q.1 q.2 = false)) /\
          (forall p, p ∈ acc.1 -> p ∈ step.1) /\
          step.2 = acc.2 + (if isSpecialNode s f cp q.1 q.2 then 0 else 1)) as (S1 & S2 & S3 & S4 & S5).
  { unfold step. destruct (isSpecialNode s f cp q.1 q.2) eqn:Es.
    - split_and!; [done| |by left|done|lia].
      intros p Hp Hl. apply (Hdisj p Hp). by right.
    - destruct (below (rnd acc.2) 28 100); simpl.
      + split_and!.
        * apply NoDup_app. split; [done|]. split; [|apply NoDup_singleton].
          intros p Hp ->%list_elem_of_singleton. apply (Hdisj q Hp). left.
        * intros p [Hp| ->%list_elem_of_singleton]%elem_of_app; [|done].
          intros Hl. apply (Hdisj p Hp). by right.
        * intros p [Hp| ->%list_elem_of_singleton]%elem_of_app; [by left|by right].
        * intros p Hp. apply elem_of_app. by left.
        * lia.
      + split_and!; [done| |by left|done|lia].
        intros p Hp Hl. apply (Hdisj p Hp). by right. }
  destruct (IH step Hnd S1 S2) as (R1 & R2 & R3 & R4).
  split_and!; try done.
  - intros p Hp. destruct (R2 p Hp) as [Hs|[Hl Hs]].
    + destruct (S3 p Hs) as [?|[-> ?]]; [by left|]. right. split; [left|done].
    + right. split; [by right|done].
  - intros p Hp. by apply R3, S4.
  - rewrite R4, S5. destruct (isSpecialNode s f cp q.1 q.2) eqn:Es.
    + rewrite decide_False by congruence. lia.
    + rewrite decide_True by done. simpl. lia.
Qed.

(** [generateRandomMaze] lists every wall once; a wall is a node of the
    grid that is none of the special nodes and lies more than two rows or
    more than two columns from each of them, and clearing removes no other
    wall of the first pass.  It takes one draw for each node of the grid
    that is not special, and gives nothing without a start or a finish. *)
Theorem generateRandomMaze_clears rnd g startNode finishNode checkpointNode k :
  (startNode = None \/ finishNode = None ->
   generateRandomMaze rnd g startNode finishNode checkpointNode k = None) /\
  (forall s f, startNode = Some s -> finishNode = Some f ->
   exists walls k',
     generateRandomMaze rnd g startNode finishNode checkpointNode k = Some (walls, k') /\
     NoDup walls /\
     (forall p, p ∈ walls <->
        p ∈ (firstPass rnd g s f checkpointNode k).1 /\
        ~ near s p /\ ~ near f p /\
        forall c, checkpointNode = Some c -> ~ near c p) /\
     (forall p, p ∈ walls ->
        inBounds g p /\ isSpecialNode s f checkpointNode p.1 p.2 = false) /\
     k' = k + length (filter (fun p => isSpecialNode s f checkpointNode p.1 p.2 = false)
                             (gridPositions g))).
Proof.
  split.
  { intros [-> | ->]; [done|]. by destruct startNode. }
  intros s f -> ->. unfold generateRandomMaze.
  destruct (gridPositions_spec g) as [Hnd Hpos].
  destruct (firstPass_fold rnd s f checkpointNode (gridPositions g) ([], k) Hnd
              (NoDup_nil_2) ltac:(intros p Hp; by apply elem_of_nil in Hp))
    as (F1 & F2 & _ & F4).
  fold (firstPass rnd g s f checkpointNode k) in F1, F2, F4.
  set (first := firstPass rnd g s f checkpointNode k) in *.
  assert (forall p, p ∈ first.1 ->
            inBounds g p /\ isSpecialNode s f checkpointNode p.1 p.2 = false) as Hfirst.
  { intros p Hp. destruct (F2 p Hp) as [Hn|[Hg Hs]]; [by apply elem_of_nil in Hn|].
    split; [by apply Hpos|done]. }
  assert (forall l : list pos, (forall p, p ∈ l -> p ∈ first.1) ->
            forall p, p ∈ l -> inBounds g p) as Hsub.
  { intros l Hl p Hp. by apply Hfirst, Hl. }
  rewrite (clearAroundNode_filter g s first.1) by (done || by apply Hsub).
  set (w1 := filter (fun p => ~ near s p) first.1).
  assert (NoDup w1) as N1 by (by apply NoDup_filter).
  assert (forall p, p ∈ w1 -> p ∈ first.1) as I1
    by (by intros p [_ ?]%list_elem_of_filter).
  rewrite (clearAroundNode_filter g f w1) by (done || by apply Hsub).
  set (w2 := filter (fun p => ~ near f p) w1).
  assert (NoDup w2) as N2 by (by apply NoDup_filter).
  assert (forall p, p ∈ w2 -> p ∈ first.1) as I2
    by (intros p [_ ?]%list_elem_of_filter; by apply I1).
  assert (forall p, p ∈ w2 <-> p ∈ first.1 /\ ~ near s p /\ ~ near f p) as E2.
  { intros p. unfold w2, w1. rewrite !list_elem_of_filter. tauto. }
  eexists _, _. split; [reflexivity|].
  destruct checkpointNode as [c|].
  - rewrite (clearAroundNode_filter g c w2) by (done || by apply Hsub).
    split_and!.
    + by apply NoDup_filter.
    + intros p. rewrite list_elem_of_filter, E2. split.
      * intros (Hc & H1 & H2 & H3). split_and!; try done. by intros c' [= <-].
      * intros (H1 & H2 & H3 & Hc). split_and!; try done. by apply Hc.
    + intros p [_ Hp]%list_elem_of_filter. by apply Hfirst, I2.
    + by rewrite F4.
  - split_and!; try done.
    + intros p. rewrite E2. split.
      * intros (H1 & H2 & H3). by split_and!.
      * intros (H1 & H2 & H3 & _). by split_and!.
    + intros p Hp. by apply Hfirst, I2.
Qed.

Lemma generateRandomMaze_clears_witness :
  exists walls k',
    generateRandomMaze zeroDraws (openGrid 1 8) (Some (0, 0)) (Some (0, 7)) None 0
    = Some (walls, k') /\
    NoDup walls /\ k' = 6 /\
    forall p, p ∈ walls -> ~ near (0, 0) p /\ ~ near (0, 7) p.
Proof.
  destruct (generateRandomMaze_clears zeroDraws (openGrid 1 8) (Some (0, 0)) (Some (0, 7))
              None 0) as [_ H].
  destruct (H (0, 0) (0, 7) eq_refl eq_refl) as (walls & k' & Hrun & Hnd & Hin & _ & Hk).
  exists walls, k'. split; [exact Hrun|]. split; [exact Hnd|]. split; [exact Hk|].
  intros p Hp. apply Hin in Hp as (_ & H1 & H2 & _). by split.
Defined.
End RandomMazeFacts.

(** ** The route by the checkpoint *)

Section RouteFacts.
Import Visualization.

Lemma fields_trans {T} (kept : Node -> T) g0 g1 g2 :
  sameBut_fields kept g0 g1 -> sameBut_fields kept g1 g2 -> sameBut_fields kept g0 g2.
Proof.
  intros (W1 & R1 & C1 & K1) (W2 & R2 & C2 & K2). split_and!; try congruence.
  intros p Hp. rewrite K2, K1; try done. unfold inBounds in *. congruence.
Qed.

Lemma open_fields g g' p :
  sameBut_fields boardFields g g' -> open g' p <-> open g p.
Proof.
  intros (_ & Hr & Hc & Hk). unfold open, inBounds. rewrite Hr, Hc. split.
  - intros [Hp Hw]. split; [done|]. specialize (Hk p Hp). unfold boardFields in Hk.
    injection Hk as _ _ _ Hk. congruence.
  - intros [Hp Hw]. split; [done|]. specialize (Hk p Hp). unfold boardFields in Hk.
    injection Hk as _ _ _ Hk. congruence.
Qed.

Lemma walk_fields g g' s p n :
  sameBut_fields boardFields g g' -> walk g' s p n <-> walk g s p n.
Proof.
  intros HF. split.
  - induction 1 as [Ho|p q n Hw IH Ha Ho].
    + apply walk_start. by apply (open_fields g g').
    + eapply walk_step; [done..|]. by apply (open_fields g g').
  - induction 1 as [Ho|p q n Hw IH Ha Ho].
    + apply walk_start. by apply (open_fields g g').
    + eapply walk_step; [done..|]. by apply (open_fields g g').
Qed.

Lemma isPath_fields g g' path :
  sameBut_fields boardFields g g' -> isPath g' path -> isPath g path.
Proof.
  intros HF. induction path as [|p l IH]; [done|]. simpl.
  intros [Ho Hl]. split; [by apply (open_fields g g')|].
  destruct l as [|q l']; [done|]. destruct Hl as [Ha Hl]. split; [done|]. by apply IH.
Qed.

Lemma findCheckpointPosition_fields g g' :
  wf_grid g -> sameBut_fields boardFields g g' ->
  findCheckpointPosition g' = findCheckpointPosition g.
Proof.
  intros Hwf (Hwf' & Hr & Hc & Hk). unfold findCheckpointPosition.
  rewrite (getAllNodes_shape g g' Hwf Hwf' Hr Hc). f_equal.
  apply filter_same. intros p Hp%elem_of_getAllNodes; [|done].
  specialize (Hk p Hp). unfold boardFields in Hk. injection Hk as _ _ Hk _.
  by rewrite Hk.
Qed.

Lemma clearVisualization_fields hasElement g :
  wf_grid g -> (forall p, inBounds g p -> hasElement p = true) ->
  exists g0, clearVisualization hasElement g = Some g0 /\
    sameBut_fields boardFields g g0.
Proof.
  intros Hwf Hpage. unfold clearVisualization.
  assert (forallb (fun p => hasElement (row (cell g p), col (cell g p))) (getAllNodes g)
          = true) as ->.
  { apply forallb_forall. intros p Hp%list_elem_of_In%elem_of_getAllNodes; [|done].
    destruct (proj2 Hwf p Hp) as [-> ->]. destruct p. by apply Hpage. }
  eexists. split; [done|]. apply fields_foldl; [|by apply fields_refl].
  intros g1 p H1. unfold clearNode.
  repeat (apply fields_update; [|auto with grid|by intros []]). done.
Qed.

Lemma dijkstraReset_fields g :
  wf_grid g -> sameBut_fields boardFields g (foldl dijkstraReset g (getAllNodes g)).
Proof.
  intros Hwf. apply fields_foldl; [|by apply fields_refl].
  intros g1 p H1. unfold dijkstraReset.
  repeat (apply fields_update; [|auto with grid|by intros []]). done.
Qed.

Lemma astarPhaseReset_fields g :
  wf_grid g -> sameBut_fields boardFields g (foldl astarPhaseReset g (getAllNodes g)).
Proof.
  intros Hwf. apply fields_foldl; [|by apply fields_refl].
  intros g1 p H1. unfold astarPhaseReset.
  repeat (apply fields_update; [|auto with grid|by intros []]). done.
Qed.

(** The two visualizations, by what they need of the engine and of the
    reset between the phases. *)
Section Engine.
Variable hasElement : pos -> bool.
Variable search :
  Grid -> pos -> pos -> string -> bool -> option (Grid * list pos * list event).
Variable reset : Grid -> pos -> Grid.
Hypothesis search_runs : forall g s t speed phase,
  wf_grid g -> inBounds g s ->
  exists g' V log, search g s t speed phase = Some (g', V, log) /\
    searchPost g s t g' V /\ shortest g s g' V /\ sameBut_fields boardFields g g'.
Hypothesis reset_fields : forall g,
  wf_grid g -> sameBut_fields boardFields g (foldl reset g (getAllNodes g)).

(** A search on a grid with the walls of [g] finds a shortest path of [g]
    where there is a walk. *)
Lemma search_path g g0 s t speed phase :
  sameBut_fields boardFields g g0 -> reachable g s t ->
  exists g1 V log path d,
    search g0 s t speed phase = Some (g1, V, log) /\
    sameBut_fields boardFields g g1 /\
    isVisited (cell g1 t) = true /\
    (forall fuel, d < fuel -> getNodesInShortestPathOrder fuel g1 t = Some path) /\
    shortestPath g s t path.
Proof using search_runs.
  intros HF [n0 Hw0]. pose proof HF as (Hwf0 & Hr0 & Hc0 & _).
  apply (walk_fields g g0) in Hw0 as Hw0'; [|done].
  assert (inBounds g0 s) as Hs by (by apply (walk_from_open _ _ _ _ Hw0')).
  assert (inBounds g0 t) as Ht by (by apply (walk_open _ _ _ _ Hw0')).
  destruct (search_runs g0 s t speed phase Hwf0 Hs) as (g1 & V & log & Hrun & HP & Hsh & HF1).
  assert (t ∈ V) as HtV.
  { destruct (decide (t ∈ V)) as [?|HtV]; [done|].
    apply (reachable_visited g0 s t g1 V); [done..|]. by exists n0. }
  assert (isVisited (cell g1 t) = true) as Hvis by (by apply (post_visited _ _ _ _ _ HP)).
  destruct (post_path g0 s t g1 V HP Ht Hvis)
    as (path & d & Hd & Hloop & Hhead & Hlast & Hpath & Hlen & _ & _).
  exists g1, V, log, path, d. split_and!; try done.
  - by apply (fields_trans _ g g0 g1).
  - split_and!; try done.
    + by apply (isPath_fields g g0).
    + intros n Hn. rewrite Hlen. apply le_n_S. apply (Hsh t d n); [done..|].
      by apply (walk_fields g g0).
Qed.

Lemma search_unreached g g0 s t speed phase :
  sameBut_fields boardFields g g0 -> inBounds g s -> ~ reachable g s t ->
  exists g1 V log,
    search g0 s t speed phase = Some (g1, V, log) /\
    sameBut_fields boardFields g g1 /\ isVisited (cell g1 t) = false.
Proof using search_runs.
  intros HF Hs Hnr. pose proof HF as (Hwf0 & Hr0 & Hc0 & _).
  assert (inBounds g0 s) as Hs0 by (unfold inBounds in *; congruence).
  destruct (search_runs g0 s t speed phase Hwf0 Hs0) as (g1 & V & log & Hrun & HP & _ & HF1).
  exists g1, V, log. split_and!; try done.
  - by apply (fields_trans _ g g0 g1).
  - apply (post_unreachable g0 s t g1 V HP). intros [n Hw]. apply Hnr. exists n.
    by apply (walk_fields g g0).
Qed.

Lemma direct_path g g0 s e speed :
  sameBut_fields boardFields g g0 -> reachable g s e ->
  exists g' path n,
    (forall fuel, n < fuel ->
       direct search fuel g0 s e speed = Some (g', [path])) /\
    shortestPath g s e path.
Proof using search_runs.
  intros HF Hre.
  destruct (search_path g g0 s e speed false HF Hre)
    as (g1 & V & log & path & d & Hrun & _ & _ & Hloop & Hpath).
  exists g1, path, d. split; [|done]. intros fuel Hf. unfold direct.
  by rewrite Hrun, (Hloop fuel Hf).
Qed.

Lemma visualize_routes g speed s e :
  wf_grid g -> (forall p, inBounds g p -> hasElement p = true) ->
  findLast isStart g = Some s -> findLast isEnd g = Some e ->
  routes (visualize hasElement search reset) g speed s e.
Proof using search_runs reset_fields.
  intros Hwf Hpage Hs He.
  destruct (clearVisualization_fields hasElement g Hwf Hpage) as (g0 & Hclear & HF0).
  pose proof (findCheckpointPosition_fields g _ Hwf HF0) as Hcp0.
  split_and!.
  - intros c Hc Hsc Hce.
    destruct (search_path g _ s c speed false HF0 Hsc)
      as (g1 & V1 & log1 & p1 & d1 & Hrun1 & HF1 & Hvis1 & Hloop1 & Hp1).
    pose proof HF1 as (Hwf1 & _).
    assert (sameBut_fields boardFields g (foldl reset g1 (getAllNodes g1))) as HF2.
    { apply (fields_trans _ g g1); [done|]. by apply reset_fields. }
    destruct (search_path g _ c e speed true HF2 Hce)
      as (g3 & V3 & log3 & p2 & d2 & Hrun3 & _ & _ & Hloop3 & Hp2).
    exists g3, p1, p2, (d1 + d2). split; [|done]. intros fuel Hf.
    unfold visualize. rewrite Hs, He, Hclear, Hcp0, Hc, Hrun1, Hvis1. simpl.
    rewrite (Hloop1 fuel) by lia. rewrite Hrun3. by rewrite (Hloop3 fuel) by lia.
  - intros c Hc Hnsc Hse.
    assert (inBounds g s) as Hsin.
    { destruct Hse as [n Hw]. by apply (walk_from_open _ _ _ _ Hw). }
    destruct (search_unreached g _ s c speed false HF0 Hsin Hnsc)
      as (g1 & V1 & log1 & Hrun1 & HF1 & Hvis1).
    destruct (direct_path g g1 s e speed HF1 Hse) as (g' & path & n & Hrun & Hpath).
    exists g', path, n. split; [|done]. intros fuel Hf.
    unfold visualize. rewrite Hs, He, Hclear, Hcp0, Hc, Hrun1, Hvis1. simpl. by apply Hrun.
  - intros Hc Hse.
    destruct (direct_path g _ s e speed HF0 Hse) as (g' & path & n & Hrun & Hpath).
    exists g', path, n. split; [|done]. intros fuel Hf.
    unfold visualize. rewrite Hs, He, Hclear, Hcp0, Hc. by apply Hrun.
Qed.
End Engine.

Lemma fields_board g g' :
  sameBut_fields dijkstraKept g g' -> sameBut_fields boardFields g g'.
Proof.
  intros (Hwf & Hr & Hc & Hk). split_and!; try done. intros p Hp.
  specialize (Hk p Hp). unfold dijkstraKept in Hk. unfold boardFields.
  by injection Hk as -> -> -> -> _ _.
Qed.

(** With a checkpoint that can be reached, [visualizeDijkstra] and
    [visualizeAStar] hand to [animatePath] a shortest path from the start
    to the checkpoint and then a shortest path from the checkpoint to the
    end, whatever the first phase left in the nodes; with a checkpoint out
    of reach, or without one, a shortest path from the start to the end.
    The page has the element of every node. *)
Theorem checkpoint_route hasElement g speed s e :
  wf_grid g -> (forall p, inBounds g p -> hasElement p = true) ->
  findLast isStart g = Some s -> findLast isEnd g = Some e ->
  routes (visualizeDijkstra hasElement) g speed s e /\
  routes (visualizeAStar hasElement) g speed s e.
Proof.
  intros Hwf Hpage Hs He. split.
  - apply (visualize_routes hasElement (dijkstra hasElement) dijkstraReset); try done.
    + intros g0 s0 t0 speed0 phase Hwf0 Hs0.
      destruct (dijkstra_runs hasElement g0 s0 t0 Hwf0 Hs0 speed0 phase)
        as (g' & V & log & Hrun & HP & Hsh).
      exists g', V, log. split_and!; try done.
      apply fields_board. by eapply dijkstra_fields.
    + apply dijkstraReset_fields.
  - apply (visualize_routes hasElement (astar hasElement) astarPhaseReset); try done.
    + intros g0 s0 t0 speed0 phase Hwf0 Hs0.
      destruct (astar_runs_least hasElement g0 s0 t0 Hwf0 Hs0 speed0 phase)
        as (g' & V & log & Hrun & HP & Hsh).
      exists g', V, log. split_and!; try done. by eapply astar_fields.
    + apply astarPhaseReset_fields.
Qed.

Lemma checkpoint_route_witness :
  exists g' toCheckpoint toEnd n,
    (forall fuel, n < fuel ->
       visualizeDijkstra (fun _ => true) fuel
         (Roles.grid (Roles.addCheckpoint zeroDraws twoByTwo 0).1) "fast"
       = Some (g', [toCheckpoint; toEnd])) /\
    shortestPath (Roles.grid (Roles.addCheckpoint zeroDraws twoByTwo 0).1)
      (0, 0) (0, 1) toCheckpoint /\
    shortestPath (Roles.grid (Roles.addCheckpoint zeroDraws twoByTwo 0).1)
      (0, 1) (1, 1) toEnd.
Proof.
  set (g := Roles.grid (Roles.addCheckpoint zeroDraws twoByTwo 0).1).
  assert (wf_grid g) as Hwf.
  { change (wf_grid (update (Roles.grid twoByTwo) (0, 1) (set_isCheckpoint true))).
    apply wf_update; [apply twoByTwo_wf|apply keepsPlace_set_isCheckpoint]. }
  assert (forall p, (p.1 <? 2) && (p.2 <? 2) = true -> open g p) as Hopen.
  { intros [r c] Hp. apply andb_true_iff in Hp as [Hr%Nat.ltb_lt Hc%Nat.ltb_lt].
    simpl in Hr, Hc.
    assert ((r = 0 \/ r = 1) /\ (c = 0 \/ c = 1)) as [[-> | ->] [-> | ->]] by lia;
      (split; [apply inBounds_compute; reflexivity|reflexivity]). }
  destruct (checkpoint_route (fun _ => true) g "fast" (0, 0) (1, 1) Hwf)
    as [(Hroute & _ & _) _].
  - done.
  - reflexivity.
  - reflexivity.
  - apply (Hroute (0, 1)).
    + reflexivity.
    + exists 1. apply (walk_step g (0, 0) (0, 0) (0, 1) 0).
      * apply walk_start. by apply Hopen.
      * left. simpl. split; [reflexivity|]. right. reflexivity.
      * by apply Hopen.
    + exists 1. apply (walk_step g (0, 1) (0, 1) (1, 1) 0).
      * apply walk_start. by apply Hopen.
      * right. simpl. split; [reflexivity|]. right. reflexivity.
      * by apply Hopen.
Defined.
End RouteFacts.

(** ** The depth-first maze *)

Section DFSMazeFacts.
Import Editing.

Lemma filter_if_singleton {A} (P : A -> Prop) `{!forall x, Decision (P x)} (b : bool) x :
  filter P (if b then [x] else []) = if b && bool_decide (P x) then [x] else [].
Proof.
  destruct b; [|done]. simpl. rewrite filter_cons, filter_nil.
  destruct (decide (P x)) as [HP|HP].
  - by rewrite bool_decide_true.
  - by rewrite bool_decide_false.
Qed.

(** The two engines and the maze ask for the same neighbours. *)
Lemma getUnvisitedNeighbors_same node g :
  DFSMaze.getUnvisitedNeighbors node g = getUnvisitedNeighbors node g.
Proof.
  unfold DFSMaze.getUnvisitedNeighbors, getUnvisitedNeighbors.
  rewrite !filter_app, !filter_if_singleton.
  assert (forall n, bool_decide (isVisited n = false) = negb (isVisited n)) as Hn
    by (intros n; by destruct (isVisited n)).
  by rewrite !Hn.
Qed.

Lemma getUnvisitedNeighbors_length node g :
  length (DFSMaze.getUnvisitedNeighbors node g) <= 4.
Proof.
  unfold DFSMaze.getUnvisitedNeighbors. rewrite !length_app.
  repeat match goal with |- context [if ?b then _ else _] => destruct b end;
    simpl; lia.
Qed.

Lemma getWallBetween_adjacent g a b :
  wf_grid g -> inBounds g a -> inBounds g b -> adjacent a b ->
  DFSMaze.getWallBetween g a b = None.
Proof.
  intros Hwf Ha Hb Hadj. unfold DFSMaze.getWallBetween.
  destruct (proj2 Hwf a Ha) as [-> ->]. destruct (proj2 Hwf b Hb) as [-> ->].
  destruct (Z.eqb_spec (Z.abs (Z.of_nat b.1 - Z.of_nat a.1)) 2) as [E|_].
  { unfold adjacent in Hadj. lia. }
  destruct (Z.eqb_spec (Z.abs (Z.of_nat b.2 - Z.of_nat a.2)) 2) as [E|_]; [|done].
  unfold adjacent in Hadj. lia.
Qed.

Lemma grows_refl g : wf_grid g -> DFSMaze.grows g g.
Proof. intros Hwf. split; [by apply fields_refl|done]. Qed.

Lemma grows_inBounds g g' p : DFSMaze.grows g g' -> inBounds g' p <-> inBounds g p.
Proof. intros [(_ & Hr & Hc & _) _]. unfold inBounds. by rewrite Hr, Hc. Qed.

Lemma grows_trans g1 g2 g3 : DFSMaze.grows g1 g2 -> DFSMaze.grows g2 g3 -> DFSMaze.grows g1 g3.
Proof.
  intros H12 H23. pose proof H12 as [F12 V12]. pose proof H23 as [F23 V23].
  split; [by apply (fields_trans _ g1 g2 g3)|].
  intros p Hp Hv. apply V23; [by apply (grows_inBounds g1 g2)|by apply V12].
Qed.

Lemma grows_wf g g' : DFSMaze.grows g g' -> wf_grid g'.
Proof. by intros [(? & _) _]. Qed.

Lemma grows_closed g g' p : DFSMaze.grows g g' -> DFSMaze.closed g p -> DFSMaze.closed g' p.
Proof.
  intros Hg Hc q Ha Hq. apply (grows_inBounds g g') in Hq; [|done].
  apply (proj2 Hg); [done|]. by apply Hc.
Qed.

Lemma filter_length_lt {A} (P Q : A -> Prop) `{!forall x, Decision (P x)}
    `{!forall x, Decision (Q x)} (l : list A) x :
  (forall y, y ∈ l -> P y -> Q y) -> x ∈ l -> Q x -> ~ P x ->
  length (filter P l) < length (filter Q l).
Proof.
  induction l as [|a l IH]; intros HPQ Hx HQ HP; [by apply elem_of_nil in Hx|].
  rewrite !filter_cons.
  assert (length (filter P l) <= length (filter Q l)) as Hle.
  { apply filter_length_mono. intros y Hy. apply HPQ. by right. }
  apply elem_of_cons in Hx as [<-|Hx].
  - rewrite decide_False by done. rewrite decide_True by done. simpl. lia.
  - assert (length (filter P l) < length (filter Q l)) as Hlt.
    { apply IH; try done. intros y Hy. apply HPQ. by right. }
    destruct (decide (P a)) as [Ha|Ha].
    + rewrite decide_True by (apply HPQ; [left|done]). simpl. lia.
    + destruct (decide (Q a)); simpl; lia.
Qed.

Lemma grows_unvisited g g' :
  wf_grid g -> DFSMaze.grows g g' -> DFSMaze.unvisited g' <= DFSMaze.unvisited g.
Proof.
  intros Hwf [(Hwf' & Hr & Hc & _) Hv]. unfold DFSMaze.unvisited.
  rewrite (getAllNodes_shape g g' Hwf Hwf' Hr Hc). apply filter_length_mono.
  intros p Hp%elem_of_getAllNodes Hn; [|done].
  destruct (isVisited (cell g p)) eqn:E; [|done]. rewrite (Hv p Hp E) in Hn. done.
Qed.

Lemma grows_unvisited_lt g g' x :
  wf_grid g -> DFSMaze.grows g g' -> inBounds g x ->
  isVisited (cell g x) = false -> isVisited (cell g' x) = true ->
  DFSMaze.unvisited g' < DFSMaze.unvisited g.
Proof.
  intros Hwf [(Hwf' & Hr & Hc & _) Hv] Hx Hx0 Hx1. unfold DFSMaze.unvisited.
  rewrite (getAllNodes_shape g g' Hwf Hwf' Hr Hc). apply (filter_length_lt _ _ _ x).
  - intros p Hp%elem_of_getAllNodes Hn; [|done].
    destruct (isVisited (cell g p)) eqn:E; [|done]. rewrite (Hv p Hp E) in Hn. done.
  - by apply elem_of_getAllNodes.
  - done.
  - by rewrite Hx1.
Qed.

(** [neighbor.isVisited = true] *)
Lemma visit_grows g p :
  wf_grid g -> inBounds g p ->
  DFSMaze.grows g (update g p (set_isVisited true)) /\
  isVisited (cell (update g p (set_isVisited true)) p) = true /\
  forall q, q <> p -> cell (update g p (set_isVisited true)) q = cell g q.
Proof.
  intros Hwf Hp. split_and!.
  - split.
    + apply fields_update; [by apply fields_refl|auto with grid|by intros []].
    + intros q Hq Hv. destruct (decide (q = p)) as [->|Hne].
      * by rewrite cell_update_eq.
      * by rewrite cell_update_ne.
  - by rewrite cell_update_eq.
  - intros q Hq. by apply cell_update_ne.
Qed.

Lemma elem_of_delete_or {A} (l : list A) i x q :
  l !! i = Some x -> q ∈ l -> q = x \/ q ∈ delete i l.
Proof.
  intros Hi Hq. rewrite <- (take_drop_middle l i x Hi) in Hq.
  rewrite delete_take_drop. rewrite !elem_of_app in *. rewrite elem_of_cons in Hq. tauto.
Qed.

Lemma dfsLoop_step fuel rnd node neighbors g k :
  neighbors <> [] ->
  DFSMaze.dfsLoop (S fuel) rnd node neighbors g k =
  match neighbors !! Z.to_nat (floorTimes (rnd k) (Z.of_nat (length neighbors))) with
  | None => None
  | Some neighbor =>
      let g1 :=
        match DFSMaze.getWallBetween g node neighbor with
        | Some wallNode => update g wallNode (set_isWall false)
        | None => g
        end in
      let g2 := update g1 neighbor (set_isVisited true) in
      match DFSMaze.dfsLoop fuel rnd neighbor (DFSMaze.getUnvisitedNeighbors neighbor g2)
                    g2 (S k) with
      | None => None
      | Some (g3, k3) =>
          DFSMaze.dfsLoop fuel rnd node
            (delete (Z.to_nat (floorTimes (rnd k) (Z.of_nat (length neighbors))))
                    neighbors) g3 k3
      end
  end.
Proof. intros Hne. by destruct neighbors. Qed.

(** The loop of [DFSMaze.dfs] ends: a call of [DFSMaze.dfs] on a node that was not visited
    leaves one node less to visit, and a call on a visited node of the
    list finds it DFSMaze.closed and returns at once. *)
Lemma dfsLoop_runs rnd : forall fuel node neighbors g k,
  wf_grid g -> inBounds g node ->
  (forall q, q ∈ neighbors ->
     adjacent node q /\ inBounds g q /\ (isVisited (cell g q) = false \/ DFSMaze.closed g q)) ->
  5 * DFSMaze.unvisited g + length neighbors <= fuel ->
  exists g' k', DFSMaze.dfsLoop fuel rnd node neighbors g k = Some (g', k') /\
                DFSMaze.dfsPost g neighbors g'.
Proof.
  induction fuel as [|fuel IH]; intros node neighbors g k Hwf Hnode Hpre Hfuel.
  { destruct neighbors; [|simpl in Hfuel; lia]. exists g, k. split; [done|].
    split_and!; [by apply grows_refl|congruence|by intros q ?%elem_of_nil]. }
  destruct (decide (neighbors = [])) as [->|Hne].
  { exists g, k. split; [done|].
    split_and!; [by apply grows_refl|congruence|by intros q ?%elem_of_nil]. }
  assert (0 < length neighbors) as Hpos by (destruct neighbors; [done|simpl; lia]).
  rewrite dfsLoop_step by done.
  set (randomIndex := Z.to_nat (floorTimes (rnd k) (Z.of_nat (length neighbors)))).
  assert (randomIndex < length neighbors) as Hidx by (by apply floorTimes_index).
  destruct (lookup_lt_is_Some_2 neighbors randomIndex Hidx) as [neighbor Hnb].
  rewrite Hnb.
  assert (neighbor ∈ neighbors) as Hin by (by eapply list_elem_of_lookup_2).
  destruct (Hpre neighbor Hin) as (Hadj & Hnbin & Hstate).
  rewrite (getWallBetween_adjacent g node neighbor Hwf Hnode Hnbin Hadj). cbv zeta.
  destruct (visit_grows g neighbor Hwf Hnbin) as (Hg2 & Hv2 & Hne2).
  set (g2 := update g neighbor (set_isVisited true)) in *.
  pose proof (grows_wf _ _ Hg2) as Hwf2.
  assert (inBounds g2 neighbor) as Hnbin2 by (by apply (grows_inBounds g g2)).
  assert (forall q, q ∈ DFSMaze.getUnvisitedNeighbors neighbor g2 ->
            adjacent neighbor q /\ inBounds g2 q /\ isVisited (cell g2 q) = false) as HL.
  { intros q. rewrite getUnvisitedNeighbors_same. by apply elem_of_getUnvisitedNeighbors. }
  assert (5 * DFSMaze.unvisited g2 + length (DFSMaze.getUnvisitedNeighbors neighbor g2) <= fuel)
    as Hfuel2.
  { destruct (isVisited (cell g neighbor)) eqn:E.
    - destruct Hstate as [?|Hcl]; [done|].
      assert (DFSMaze.getUnvisitedNeighbors neighbor g2 = []) as ->.
      { destruct (DFSMaze.getUnvisitedNeighbors neighbor g2) as [|q l] eqn:El; [done|].
        destruct (HL q) as (Ha & Hq & Hu); [left|].
        rewrite (grows_closed g g2 neighbor Hg2 Hcl q Ha Hq) in Hu. done. }
      pose proof (grows_unvisited g g2 Hwf Hg2). simpl. lia.
    - pose proof (grows_unvisited_lt g g2 neighbor Hwf Hg2 Hnbin E Hv2).
      pose proof (getUnvisitedNeighbors_length neighbor g2). lia. }
  destruct (IH neighbor (DFSMaze.getUnvisitedNeighbors neighbor g2) g2 (S k) Hwf2 Hnbin2)
    as (g3 & k3 & Hrun3 & Hg3 & Hnew3 & Hall3); [|done|].
  { intros q Hq. destruct (HL q Hq) as (? & ? & ?). split_and!; try done. by left. }
  rewrite Hrun3.
  pose proof (grows_wf _ _ Hg3) as Hwf3.
  pose proof (grows_trans _ _ _ Hg2 Hg3) as Hg13.
  assert (DFSMaze.closed g3 neighbor) as Hclosed.
  { destruct (isVisited (cell g neighbor)) eqn:E.
    - destruct Hstate as [?|Hcl]; [done|]. by apply (grows_closed g g3).
    - intros q Ha Hq. apply (grows_inBounds g2 g3) in Hq as Hq2; [|done].
      destruct (isVisited (cell g2 q)) eqn:E2.
      + by apply (proj2 Hg3).
      + apply Hall3. rewrite getUnvisitedNeighbors_same.
        by apply elem_of_getUnvisitedNeighbors. }
  destruct (IH node (delete randomIndex neighbors) g3 k3 Hwf3)
    as (g4 & k4 & Hrun4 & Hg4 & Hnew4 & Hall4).
  { by apply (grows_inBounds g g3). }
  { intros q Hq%list_elem_of_delete_inv. destruct (Hpre q Hq) as (Ha & Hqin & Hst).
    split_and!; [done|by apply (grows_inBounds g g3)|].
    destruct (isVisited (cell g3 q)) eqn:E3; [right|by left].
    destruct (decide (q = neighbor)) as [->|Hqn]; [done|].
    destruct (isVisited (cell g q)) eqn:E.
    - destruct Hst as [?|Hcl]; [done|]. by apply (grows_closed g g3).
    - apply Hnew3; [by apply (grows_inBounds g g2)| |done]. by rewrite Hne2. }
  { rewrite length_delete by done.
    pose proof (grows_unvisited g g3 Hwf Hg13). lia. }
  exists g4, k4. split; [done|].
  pose proof (grows_trans _ _ _ Hg13 Hg4) as Hg14.
  split_and!; try done.
  - intros p Hp Hu Hv. destruct (isVisited (cell g3 p)) eqn:E3.
    + apply (grows_closed g3 g4); [done|].
      destruct (decide (p = neighbor)) as [->|Hpn]; [done|].
      apply Hnew3; [by apply (grows_inBounds g g2)| |done]. by rewrite Hne2.
    + apply Hnew4; [by apply (grows_inBounds g g3)|done..].
  - intros q Hq. destruct (elem_of_delete_or neighbors randomIndex neighbor q Hnb Hq)
      as [->|Hq'].
    + apply (proj2 Hg4); [by apply (grows_inBounds g2 g3)|]. by apply (proj2 Hg3).
    + by apply Hall4.
Qed.

Lemma wallUp_cells g :
  wf_grid g ->
  wf_grid (foldl DFSMaze.wallUp g (getAllNodes g)) /\
  nrows (foldl DFSMaze.wallUp g (getAllNodes g)) = nrows g /\
  ncols (foldl DFSMaze.wallUp g (getAllNodes g)) = ncols g /\
  forall p, inBounds g p ->
    cell (foldl DFSMaze.wallUp g (getAllNodes g)) p =
      if DFSMaze.isSpecial (cell g p) then cell g p else set_isWall true (cell g p).
Proof.
  intros Hwf.
  destruct (foldl_each DFSMaze.wallUp
              (fun _ n n' => n' = if DFSMaze.isSpecial n then n else set_isWall true n))
    with (l := getAllNodes g) (g := g) as (Hwf' & Hr & Hc & _ & Hcell).
  - intros g1 p Hwf1 Hp. unfold DFSMaze.wallUp.
    assert (negb (isStart (cell g1 p)) && negb (isEnd (cell g1 p)) &&
            negb (isCheckpoint (cell g1 p)) = negb (DFSMaze.isSpecial (cell g1 p))) as ->.
    { unfold DFSMaze.isSpecial. by destruct (isStart _), (isEnd _), (isCheckpoint _). }
    destruct (DFSMaze.isSpecial (cell g1 p)); simpl; [by split_and!|].
    split_and!.
    + apply wf_update; [done|apply keepsPlace_set_isWall].
    + apply nrows_update.
    + apply ncols_update.
    + intros q Hq. by apply cell_update_ne.
    + by apply cell_update_eq.
  - done.
  - apply NoDup_getAllNodes.
  - intros p Hp. by apply elem_of_getAllNodes.
  - split_and!; try done. intros p Hp. apply Hcell. by apply elem_of_getAllNodes.
Qed.

Lemma hit_clearOffsets1 r c p :
  hit DFSMaze.clearOffsets r c p <-> absDiff p.1 r <= 1 /\ absDiff p.2 c <= 1.
Proof.
  unfold hit, absDiff. rewrite Exists_exists. split.
  - intros ([i j] & Hin & H1 & H2). simpl in *.
    unfold DFSMaze.clearOffsets in Hin. apply list_elem_of_bind in Hin as (i' & Hin & Hi).
    apply list_elem_of_bind in Hin as (j' & Hin & Hj).
    apply list_elem_of_singleton in Hin as [= -> ->].
    rewrite !elem_of_cons, elem_of_nil in Hi, Hj. lia.
  - intros [H1 H2].
    exists ((Z.of_nat p.1 - Z.of_nat r)%Z, (Z.of_nat p.2 - Z.of_nat c)%Z).
    split; [|simpl; lia]. unfold DFSMaze.clearOffsets.
    apply list_elem_of_bind. eexists. split.
    + apply list_elem_of_bind. eexists. split; [by apply list_elem_of_singleton|].
      rewrite !elem_of_cons, elem_of_nil. lia.
    + rewrite !elem_of_cons, elem_of_nil. lia.
Qed.

(** The nine assignments around a special node. *)
Lemma clear_inner g r c offsets : forall acc,
  wf_grid acc -> nrows acc = nrows g -> ncols acc = ncols g ->
  let res :=
    foldl (fun g' (offset : Z * Z) =>
             let newRow := (Z.of_nat r + offset.1)%Z in
             let newCol := (Z.of_nat c + offset.2)%Z in
             if ((0 <=? newRow) && (newRow <? Z.of_nat (nrows g)) &&
                 (0 <=? newCol) && (newCol <? Z.of_nat (ncols g)))%Z
             then update g' (Z.to_nat newRow, Z.to_nat newCol) (set_isWall false)
             else g')
          acc offsets in
  wf_grid res /\ nrows res = nrows g /\ ncols res = ncols g /\
  forall p, inBounds g p ->
    cell res p = if decide (hit offsets r c p) then set_isWall false (cell acc p)
                 else cell acc p.
Proof.
  induction offsets as [|o offsets IH]; intros acc Hwf Hr Hc; simpl.
  { split_and!; try done. }
  set (newRow := (Z.of_nat r + o.1)%Z). set (newCol := (Z.of_nat c + o.2)%Z).
  set (acc1 := if ((0 <=? newRow) && (newRow <? Z.of_nat (nrows g)) &&
                   (0 <=? newCol) && (newCol <? Z.of_nat (ncols g)))%Z
               then update acc (Z.to_nat newRow, Z.to_nat newCol) (set_isWall false)
               else acc).
  assert (wf_grid acc1 /\ nrows acc1 = nrows g /\ ncols acc1 = ncols g /\
          forall p, inBounds g p ->
            cell acc1 p = if decide (hit [o] r c p) then set_isWall false (cell acc p)
                          else cell acc p) as (Hwf1 & Hr1 & Hc1 & Hcell1).
  { assert (forall p, hit [o] r c p <->
              Z.of_nat p.1 = newRow /\ Z.of_nat p.2 = newCol) as Hhit.
    { intros p. unfold hit. rewrite Exists_cons, Exists_nil. tauto. }
    unfold acc1.
    destruct ((0 <=? newRow) && (newRow <? Z.of_nat (nrows g)) &&
              (0 <=? newCol) && (newCol <? Z.of_nat (ncols g)))%Z eqn:Hb.
    - apply andb_true_iff in Hb as [Hb H4]. apply andb_true_iff in Hb as [Hb H3].
      apply andb_true_iff in Hb as [H1 H2].
      apply Z.leb_le in H1, H3. apply Z.ltb_lt in H2, H4.
      set (q := (Z.to_nat newRow, Z.to_nat newCol)).
      assert (inBounds acc q) as Hq by (split; simpl; lia).
      split_and!.
      + apply wf_update; [done|apply keepsPlace_set_isWall].
      + by rewrite nrows_update.
      + by rewrite ncols_update.
      + intros p Hp. destruct (decide (hit [o] r c p)) as [Hh|Hh].
        * assert (p = q) as ->.
          { apply Hhit in Hh as [E1 E2]. unfold q. destruct p. simpl in *. f_equal; lia. }
          by apply cell_update_eq.
        * apply cell_update_ne. intros ->. apply Hh, Hhit. unfold q. simpl. lia.
    - split_and!; try done. intros p [Hp1 Hp2]. rewrite decide_False; [done|].
      intros [E1 E2]%Hhit.
      assert ((0 <=? newRow) && (newRow <? Z.of_nat (nrows g)) &&
              (0 <=? newCol) && (newCol <? Z.of_nat (ncols g)) = true)%Z; [|congruence].
      rewrite !andb_true_iff, !Z.leb_le, !Z.ltb_lt. lia. }
  destruct (IH acc1 Hwf1 Hr1 Hc1) as (Hwf2 & Hr2 & Hc2 & Hcell2).
  split_and!; try done. intros p Hp.
  etransitivity; [exact (Hcell2 p Hp)|]. rewrite (Hcell1 p Hp).
  assert (hit (o :: offsets) r c p <-> hit [o] r c p \/ hit offsets r c p) as Hcons.
  { unfold hit. rewrite !Exists_cons, Exists_nil. tauto. }
  destruct (decide (hit [o] r c p)) as [H1|H1];
    destruct (decide (hit offsets r c p)) as [H2|H2].
  - rewrite decide_True by tauto. done.
  - rewrite decide_True by tauto. done.
  - rewrite decide_True by tauto. done.
  - rewrite decide_False by tauto. done.
Qed.

Lemma clearAround_cells g0 acc q :
  wf_grid g0 -> wf_grid acc -> nrows acc = nrows g0 -> ncols acc = ncols g0 ->
  inBounds g0 q -> DFSMaze.isSpecial (cell acc q) = DFSMaze.isSpecial (cell g0 q) ->
  wf_grid (DFSMaze.clearAround acc q) /\ nrows (DFSMaze.clearAround acc q) = nrows g0 /\
  ncols (DFSMaze.clearAround acc q) = ncols g0 /\
  forall p, inBounds g0 p ->
    cell (DFSMaze.clearAround acc q) p =
      if decide (DFSMaze.isSpecial (cell g0 q) = true /\
                 absDiff p.1 q.1 <= 1 /\ absDiff p.2 q.2 <= 1)
      then set_isWall false (cell acc p) else cell acc p.
Proof.
  intros Hwf0 Hwf Hr Hc Hq Hsp. unfold DFSMaze.clearAround. rewrite Hsp.
  destruct (DFSMaze.isSpecial (cell g0 q)) eqn:E.
  - assert (inBounds acc q) as Hq' by (unfold inBounds; by rewrite Hr, Hc).
    destruct (proj2 Hwf q Hq') as [-> ->].
    destruct (clear_inner acc q.1 q.2 DFSMaze.clearOffsets acc Hwf eq_refl eq_refl)
      as (Hwf1 & Hr1 & Hc1 & Hcell1).
    split_and!; [exact Hwf1|by rewrite <- Hr|by rewrite <- Hc|]. intros p Hp.
    etransitivity; [apply Hcell1; unfold inBounds; by rewrite Hr, Hc|].
    destruct (decide (hit DFSMaze.clearOffsets q.1 q.2 p)) as [Hh|Hh].
    + rewrite decide_True; [done|]. split; [done|]. by apply hit_clearOffsets1.
    + rewrite decide_False; [done|]. intros [_ Hn]. by apply Hh, hit_clearOffsets1.
  - by split_and!.
Qed.

Lemma clearAroundSpecialNodes_cells g :
  wf_grid g ->
  wf_grid (DFSMaze.clearAroundSpecialNodes g) /\
  nrows (DFSMaze.clearAroundSpecialNodes g) = nrows g /\
  ncols (DFSMaze.clearAroundSpecialNodes g) = ncols g /\
  forall p, inBounds g p ->
    cell (DFSMaze.clearAroundSpecialNodes g) p =
      if decide (DFSMaze.nearSpecial g p) then set_isWall false (cell g p) else cell g p.
Proof.
  intros Hwf. unfold DFSMaze.clearAroundSpecialNodes, DFSMaze.nearSpecial.
  assert (forall l visited acc,
            (forall q, q ∈ l -> inBounds g q) ->
            wf_grid acc -> nrows acc = nrows g -> ncols acc = ncols g ->
            (forall p, inBounds g p ->
               cell acc p =
                 if decide (Exists (fun q => DFSMaze.isSpecial (cell g q) = true /\
                                      absDiff p.1 q.1 <= 1 /\ absDiff p.2 q.2 <= 1) visited)
                 then set_isWall false (cell g p) else cell g p) ->
            wf_grid (foldl DFSMaze.clearAround acc l) /\
            nrows (foldl DFSMaze.clearAround acc l) = nrows g /\
            ncols (foldl DFSMaze.clearAround acc l) = ncols g /\
            forall p, inBounds g p ->
              cell (foldl DFSMaze.clearAround acc l) p =
                if decide (Exists (fun q => DFSMaze.isSpecial (cell g q) = true /\
                                     absDiff p.1 q.1 <= 1 /\ absDiff p.2 q.2 <= 1)
                                  (visited ++ l))
                then set_isWall false (cell g p) else cell g p) as Hfold.
  { induction l as [|q l IH]; intros visited acc Hl Hwfa Hr Hc Hcell; simpl.
    { rewrite app_nil_r. by split_and!. }
    assert (inBounds g q) as Hq by (apply Hl; left).
    assert (DFSMaze.isSpecial (cell acc q) = DFSMaze.isSpecial (cell g q)) as Hsp.
    { rewrite (Hcell q Hq). by destruct (decide _). }
    destruct (clearAround_cells g acc q Hwf Hwfa Hr Hc Hq Hsp) as (Hwf1 & Hr1 & Hc1 & Hcell1).
    destruct (IH (visited ++ [q]) (DFSMaze.clearAround acc q)) as (Hwf2 & Hr2 & Hc2 & Hcell2);
      try done.
    - intros x Hx. apply Hl. by right.
    - intros p Hp. rewrite (Hcell1 p Hp), (Hcell p Hp).
      assert (Exists (fun q => DFSMaze.isSpecial (cell g q) = true /\
                        absDiff p.1 q.1 <= 1 /\ absDiff p.2 q.2 <= 1) (visited ++ [q]) <->
              Exists (fun q => DFSMaze.isSpecial (cell g q) = true /\
                        absDiff p.1 q.1 <= 1 /\ absDiff p.2 q.2 <= 1) visited \/
              (DFSMaze.isSpecial (cell g q) = true /\
               absDiff p.1 q.1 <= 1 /\ absDiff p.2 q.2 <= 1)) as Hsnoc.
      { rewrite Exists_app, Exists_cons, Exists_nil. tauto. }
      destruct (decide (DFSMaze.isSpecial (cell g q) = true /\
                        absDiff p.1 q.1 <= 1 /\ absDiff p.2 q.2 <= 1)) as [H1|H1];
        destruct (decide (Exists _ visited)) as [H2|H2].
      + rewrite decide_True by (apply Hsnoc; tauto). done.
      + rewrite decide_True by (apply Hsnoc; tauto). done.
      + rewrite decide_True by (apply Hsnoc; tauto). done.
      + rewrite decide_False by (rewrite Hsnoc; tauto). done.
    - split_and!; try done. intros p Hp. rewrite (Hcell2 p Hp).
      by rewrite <- app_assoc. }
  destruct (Hfold (getAllNodes g) [] g) as (Hwf' & Hr & Hc & Hcell); try done.
  intros q Hq. by apply elem_of_getAllNodes.
Qed.

(** [DFSMaze.generateDFSMaze] opens no passage: [DFSMaze.getWallBetween] finds no wall
    between two nodes next to each other, so that the search only marks
    nodes as visited.  It ends, and the walls it leaves are the nodes that
    are not special and have no special node next to them, diagonals
    counted; no role changes.  On a grid without a first node it raises an
    error. *)
Theorem generateDFSMaze_opens_nothing rnd g k :
  wf_grid g ->
  (~ inBounds g (0, 0) -> forall fuel, DFSMaze.generateDFSMaze fuel rnd g k = None) /\
  (inBounds g (0, 0) ->
   forall fuel, 5 * length (getAllNodes g) + 4 <= fuel ->
   exists g' k',
     DFSMaze.generateDFSMaze fuel rnd g k = Some (g', k') /\
     wf_grid g' /\ nrows g' = nrows g /\ ncols g' = ncols g /\
     forall p, inBounds g p ->
       isStart (cell g' p) = isStart (cell g p) /\
       isEnd (cell g' p) = isEnd (cell g p) /\
       isCheckpoint (cell g' p) = isCheckpoint (cell g p) /\
       (isWall (cell g' p) = true <-> ~ DFSMaze.nearSpecial g p)).
Proof.
  intros Hwf. unfold DFSMaze.generateDFSMaze. split.
  { intros Hout fuel. by rewrite nodeAt_out. }
  intros H00 fuel Hfuel. rewrite (nodeAt_cell g 0 0 Hwf H00).
  destruct (visit_grows g (0, 0) Hwf H00) as (Hg1 & _ & _).
  set (g1 := update g (0, 0) (set_isVisited true)) in *.
  pose proof (grows_wf _ _ Hg1) as Hwf1. pose proof Hg1 as [(_ & Hr1 & Hc1 & Hk1) _].
  destruct (wallUp_cells g1 Hwf1) as (Hwf2 & Hr2 & Hc2 & Hcell2).
  set (g2 := foldl DFSMaze.wallUp g1 (getAllNodes g1)) in *.
  assert (inBounds g2 (0, 0)) as H002 by (unfold inBounds in *; congruence).
  assert (length (getAllNodes g2) = length (getAllNodes g)) as Hlen.
  { rewrite (getAllNodes_shape g g2); try done; congruence. }
  destruct (dfsLoop_runs rnd fuel (0, 0) (DFSMaze.getUnvisitedNeighbors (0, 0) g2) g2 k
              Hwf2 H002) as (g3 & k3 & Hrun & Hg3 & _ & _).
  { intros q. rewrite getUnvisitedNeighbors_same.
    intros (? & ? & ?)%elem_of_getUnvisitedNeighbors; try done. split_and!; try done.
    by left. }
  { pose proof (getUnvisitedNeighbors_length (0, 0) g2).
    assert (DFSMaze.unvisited g2 <= length (getAllNodes g2)) by apply length_filter. lia. }
  unfold DFSMaze.dfs. rewrite Hrun.
  pose proof (grows_wf _ _ Hg3) as Hwf3. pose proof Hg3 as [(_ & Hr3 & Hc3 & Hk3) _].
  destruct (clearAroundSpecialNodes_cells g3 Hwf3) as (Hwf4 & Hr4 & Hc4 & Hcell4).
  eexists _, _. split; [reflexivity|].
  assert (forall p, inBounds g p -> inBounds g1 p /\ inBounds g2 p /\ inBounds g3 p) as Hin.
  { intros p Hp. unfold inBounds in *. rewrite Hr3, Hc3, Hr2, Hc2, Hr1, Hc1. tauto. }
  assert (forall p, inBounds g p -> boardFields (cell g3 p) =
            if DFSMaze.isSpecial (cell g p) then boardFields (cell g p)
            else boardFields (set_isWall true (cell g p))) as Hfields.
  { intros p Hp. destruct (Hin p Hp) as (Hp1 & Hp2 & Hp3).
    rewrite (Hk3 p Hp2), (Hcell2 p Hp1).
    assert (DFSMaze.isSpecial (cell g1 p) = DFSMaze.isSpecial (cell g p)) as ->.
    { specialize (Hk1 p Hp). unfold boardFields in Hk1. unfold DFSMaze.isSpecial.
      by injection Hk1 as -> -> -> _. }
    specialize (Hk1 p Hp). unfold boardFields in *.
    destruct (DFSMaze.isSpecial (cell g p)); [done|]. simpl.
    by injection Hk1 as -> -> -> _. }
  assert (forall p, DFSMaze.nearSpecial g3 p <-> DFSMaze.nearSpecial g p) as Hnear.
  { intros p. unfold DFSMaze.nearSpecial.
    rewrite (getAllNodes_shape g g3) by (done || congruence).
    rewrite !Exists_exists. split.
    - intros (q & Hq & Hsp & Hd). exists q. split; [done|]. split; [|done].
      apply elem_of_getAllNodes in Hq; [|done]. specialize (Hfields q Hq).
      unfold boardFields, DFSMaze.isSpecial in *.
      destruct (isStart (cell g q) || isEnd (cell g q) || isCheckpoint (cell g q)) eqn:E;
        [done|]. simpl in Hfields. injection Hfields as H1 H2 H3 _.
      rewrite H1, H2, H3 in Hsp. congruence.
    - intros (q & Hq & Hsp & Hd). exists q. split; [done|]. split; [|done].
      apply elem_of_getAllNodes in Hq; [|done]. specialize (Hfields q Hq).
      rewrite Hsp in Hfields. unfold boardFields, DFSMaze.isSpecial in *.
      injection Hfields as H1 H2 H3 _. by rewrite H1, H2, H3. }
  split_and!; try congruence.
  intros p Hp. destruct (Hin p Hp) as (Hp1 & Hp2 & Hp3).
  rewrite (Hcell4 p Hp3). specialize (Hfields p Hp).
  assert (~ DFSMaze.nearSpecial g p -> DFSMaze.isSpecial (cell g p) = false) as Hself.
  { intros Hn. destruct (DFSMaze.isSpecial (cell g p)) eqn:E; [|done]. exfalso. apply Hn.
    unfold DFSMaze.nearSpecial. apply Exists_exists. exists p.
    split; [by apply elem_of_getAllNodes|]. split; [done|]. unfold absDiff. lia. }
  destruct (decide (DFSMaze.nearSpecial g3 p)) as [Hn|Hn].
  - apply Hnear in Hn as Hn'. unfold boardFields in Hfields.
    destruct (DFSMaze.isSpecial (cell g p)); simpl in Hfields;
      injection Hfields as H1 H2 H3 _; destruct (cell g3 p); simpl in *;
      split_and!; try done; split; try done.
  - assert (~ DFSMaze.nearSpecial g p) as Hn' by (by rewrite <- Hnear).
    rewrite (Hself Hn') in Hfields. unfold boardFields in Hfields. simpl in Hfields.
    injection Hfields as H1 H2 H3 H4. split_and!; try done.
Qed.

Lemma generateDFSMaze_opens_nothing_witness :
  exists g' k',
    DFSMaze.generateDFSMaze 100 zeroDraws (Roles.grid twoByTwo) 0 = Some (g', k') /\
    forall p, inBounds (Roles.grid twoByTwo) p ->
      isWall (cell g' p) = true <-> ~ DFSMaze.nearSpecial (Roles.grid twoByTwo) p.
Proof.
  destruct (generateDFSMaze_opens_nothing zeroDraws (Roles.grid twoByTwo) 0 twoByTwo_wf)
    as [_ H].
  destruct (H (inBounds_compute (Roles.grid twoByTwo) (0, 0) eq_refl) 100) as (g' & k' & Hrun & _ & _ & _ & Hp).
  - vm_compute. lia.
  - exists g', k'. split; [exact Hrun|]. intros p Hin. by apply Hp.
Defined.
End DFSMazeFacts.

(** * The two loops of an engine *)

Section TwoLoops.
Variable hasElement : pos -> bool.

(** The results of the two loops of [dijkstra], iteration by iteration:
    the same grid and the same visited order, whatever was logged. *)
Lemma dijkstra_loops_agree isSecondPhase delay t fuel : forall g Q V log1 log2,
  fst <$> LoopByLoop.dijkstraInstant hasElement isSecondPhase t fuel g Q V log1 =
  fst <$> LoopByLoop.dijkstraAnimated hasElement isSecondPhase delay t fuel g Q V log2.
Proof.
  induction fuel as [|fuel IH]; intros g Q V log1 log2.
  { destruct Q; reflexivity. }
  destruct Q as [|q Q]; [reflexivity|].
  cbn [LoopByLoop.dijkstraInstant LoopByLoop.dijkstraAnimated].
  destruct (sortNodesByDistance g (q :: Q)) as [|u rest]; [reflexivity|].
  destruct (isWall (cell g u)); [apply IH|].
  destruct (isInfinity (distance (cell g u))); [reflexivity|].
  destruct (decide (u = t)); [reflexivity|]. apply IH.
Qed.

Lemma astar_loops_agree isSecondPhase delay t fuel : forall g Q V log1 log2,
  fst <$> LoopByLoop.astarInstant hasElement isSecondPhase t fuel g Q V log1 =
  fst <$> LoopByLoop.astarAnimated hasElement isSecondPhase delay t fuel g Q V log2.
Proof.
  induction fuel as [|fuel IH]; intros g Q V log1 log2.
  { destruct Q; reflexivity. }
  destruct Q as [|q Q]; [reflexivity|].
  cbn [LoopByLoop.astarInstant LoopByLoop.astarAnimated].
  destruct (sortNodesByTotalDistance g (q :: Q)) as [|u rest]; [reflexivity|].
  destruct (isWall (cell g u)); [apply IH|].
  destruct (isInfinity (totalDistance (cell g u))); [reflexivity|].
  destruct (decide (u = t)); [reflexivity|]. apply IH.
Qed.

(** Each loop is the instance of [searchLoop] that [dijkstra] and [astar]
    above run in its place. *)
Ltac loop_instance IH :=
  let u := fresh "u" in
  let rest := fresh "rest" in
  match goal with
  | |- context [sortNodesByDistance ?g ?Q] =>
      destruct (sortNodesByDistance g Q) as [|u rest]; [reflexivity|]
  | |- context [sortNodesByTotalDistance ?g ?Q] =>
      destruct (sortNodesByTotalDistance g Q) as [|u rest]; [reflexivity|]
  end;
  match goal with
  | |- context [isWall (cell ?g u)] =>
      destruct (isWall (cell g u)); [apply IH|]
  end;
  match goal with
  | |- context [isInfinity ?k] => destruct (isInfinity k); [reflexivity|]
  end;
  unfold paint;
  repeat match goal with
         | |- context [if ?b then _ else _] => destruct b
         end;
  rewrite ?app_nil_r; first [reflexivity | apply IH].

Lemma dijkstraInstant_searchLoop isSecondPhase t fuel : forall g Q V log,
  LoopByLoop.dijkstraInstant hasElement isSecondPhase t fuel g Q V log =
  searchLoop hasElement sortNodesByDistance distance updateUnvisitedNeighbors
    ("node " +:+ visitedClass isSecondPhase +:+ " instant") []
    t fuel g Q V log.
Proof.
  induction fuel as [|fuel IH]; intros g Q V log.
  { destruct Q; reflexivity. }
  destruct Q as [|q Q]; [reflexivity|].
  cbn [LoopByLoop.dijkstraInstant searchLoop].
  loop_instance IH.
Qed.

Lemma dijkstraAnimated_searchLoop isSecondPhase delay t fuel : forall g Q V log,
  LoopByLoop.dijkstraAnimated hasElement isSecondPhase delay t fuel g Q V log =
  searchLoop hasElement sortNodesByDistance distance updateUnvisitedNeighbors
    ("node " +:+ visitedClass isSecondPhase) [Timeout delay]
    t fuel g Q V log.
Proof.
  induction fuel as [|fuel IH]; intros g Q V log.
  { destruct Q; reflexivity. }
  destruct Q as [|q Q]; [reflexivity|].
  cbn [LoopByLoop.dijkstraAnimated searchLoop].
  loop_instance IH.
Qed.

Lemma astarInstant_searchLoop isSecondPhase t fuel : forall g Q V log,
  LoopByLoop.astarInstant hasElement isSecondPhase t fuel g Q V log =
  searchLoop hasElement sortNodesByTotalDistance totalDistance
    (fun node g => updateUnvisitedNeighborsAstar node g t)
    ("node " +:+ visitedClass isSecondPhase) []
    t fuel g Q V log.
Proof.
  induction fuel as [|fuel IH]; intros g Q V log.
  { destruct Q; reflexivity. }
  destruct Q as [|q Q]; [reflexivity|].
  cbn [LoopByLoop.astarInstant searchLoop].
  loop_instance IH.
Qed.

Lemma astarAnimated_searchLoop isSecondPhase delay t fuel : forall g Q V log,
  LoopByLoop.astarAnimated hasElement isSecondPhase delay t fuel g Q V log =
  searchLoop hasElement sortNodesByTotalDistance totalDistance
    (fun node g => updateUnvisitedNeighborsAstar node g t)
    ("node " +:+ visitedClass isSecondPhase) [Timeout delay]
    t fuel g Q V log.
Proof.
  induction fuel as [|fuel IH]; intros g Q V log.
  { destruct Q; reflexivity. }
  destruct Q as [|q Q]; [reflexivity|].
  cbn [LoopByLoop.astarAnimated searchLoop].
  loop_instance IH.
Qed.

Lemma dijkstra_loop_by_loop grid s t speed isSecondPhase :
  LoopByLoop.dijkstra hasElement grid s t speed isSecondPhase =
  dijkstra hasElement grid s t speed isSecondPhase.
Proof.
  unfold LoopByLoop.dijkstra, dijkstra.
  destruct (decide (speed = "instant")).
  - apply dijkstraInstant_searchLoop.
  - apply dijkstraAnimated_searchLoop.
Qed.

Lemma astar_loop_by_loop grid s t speed isSecondPhase :
  LoopByLoop.astar hasElement grid s t speed isSecondPhase =
  astar hasElement grid s t speed isSecondPhase.
Proof.
  unfold LoopByLoop.astar, astar.
  destruct (decide (speed = "instant")).
  - apply astarInstant_searchLoop.
  - apply astarAnimated_searchLoop.
Qed.

Lemma dijkstra_speeds_agree grid s t speed isSecondPhase :
  fst <$> LoopByLoop.dijkstra hasElement grid s t "instant" isSecondPhase =
  fst <$> LoopByLoop.dijkstra hasElement grid s t speed isSecondPhase.
Proof.
  unfold LoopByLoop.dijkstra. rewrite decide_True by done.
  destruct (decide (speed = "instant")); [reflexivity|].
  apply dijkstra_loops_agree.
Qed.

Lemma astar_speeds_agree grid s t speed isSecondPhase :
  fst <$> LoopByLoop.astar hasElement grid s t "instant" isSecondPhase =
  fst <$> LoopByLoop.astar hasElement grid s t speed isSecondPhase.
Proof.
  unfold LoopByLoop.astar. rewrite decide_True by done.
  destruct (decide (speed = "instant")); [reflexivity|].
  apply astar_loops_agree.
Qed.
End TwoLoops.

(** C7. On a grid as the program builds it, the 'instant' loop of a
    search and its animated loop (any other speed) end, return the same
    visited order and leave the same grid, so the same [previousNode] on
    every node; what they leave is the outcome of the search
    ([searchPost]).  The loops are the ones transcribed one by one in
    [LoopByLoop], which also are what [dijkstra] and [astar] above run.
    The waits of the animated loop are points where the caller's other
    handlers may run; the statement is for a run that no other code
    interleaves with, as the specification demands of callers. *)
Theorem instant_and_animated_agree hasElement grid startNode targetNode speed isSecondPhase :
  wf_grid grid -> inBounds grid startNode ->
  (exists g1 V1 log1 g2 V2 log2,
     LoopByLoop.dijkstra hasElement grid startNode targetNode "instant" isSecondPhase
       = Some (g1, V1, log1) /\
     LoopByLoop.dijkstra hasElement grid startNode targetNode speed isSecondPhase
       = Some (g2, V2, log2) /\
     V1 = V2 /\ g1 = g2 /\
     (forall p, previousNode (cell g1 p) = previousNode (cell g2 p)) /\
     searchPost grid startNode targetNode g1 V1) /\
  (exists g1 V1 log1 g2 V2 log2,
     LoopByLoop.astar hasElement grid startNode targetNode "instant" isSecondPhase
       = Some (g1, V1, log1) /\
     LoopByLoop.astar hasElement grid startNode targetNode speed isSecondPhase
       = Some (g2, V2, log2) /\
     V1 = V2 /\ g1 = g2 /\
     (forall p, previousNode (cell g1 p) = previousNode (cell g2 p)) /\
     searchPost grid startNode targetNode g1 V1) /\
  (forall speed',
     LoopByLoop.dijkstra hasElement grid startNode targetNode speed' isSecondPhase
     = dijkstra hasElement grid startNode targetNode speed' isSecondPhase) /\
  (forall speed',
     LoopByLoop.astar hasElement grid startNode targetNode speed' isSecondPhase
     = astar hasElement grid startNode targetNode speed' isSecondPhase).
Proof.
  intros Hwf Hs. split_and!.
  - destruct (dijkstra_runs hasElement grid startNode targetNode Hwf Hs
                "instant" isSecondPhase) as (g1 & V1 & log1 & H1 & HP & _).
    destruct (dijkstra_runs hasElement grid startNode targetNode Hwf Hs
                speed isSecondPhase) as (g2 & V2 & log2 & H2 & _).
    rewrite <- dijkstra_loop_by_loop in H1, H2.
    pose proof (dijkstra_speeds_agree hasElement grid startNode targetNode
                  speed isSecondPhase) as Hagree.
    rewrite H1, H2 in Hagree. simpl in Hagree. injection Hagree as <- <-.
    exists g1, V1, log1, g1, V1, log2. by split_and!.
  - destruct (astar_runs hasElement grid startNode targetNode Hwf Hs
                "instant" isSecondPhase) as (g1 & V1 & log1 & H1 & HP).
    destruct (astar_runs hasElement grid startNode targetNode Hwf Hs
                speed isSecondPhase) as (g2 & V2 & log2 & H2 & _).
    rewrite <- astar_loop_by_loop in H1, H2.
    pose proof (astar_speeds_agree hasElement grid startNode targetNode
                  speed isSecondPhase) as Hagree.
    rewrite H1, H2 in Hagree. simpl in Hagree. injection Hagree as <- <-.
    exists g1, V1, log1, g1, V1, log2. by split_and!.
  - intros speed'. apply dijkstra_loop_by_loop.
  - intros speed'. apply astar_loop_by_loop.
Qed.

Lemma instant_and_animated_agree_witness :
  wf_grid (openGrid 2 2) /\ inBounds (openGrid 2 2) (0, 0) /\
  exists g' V log1 log2,
    LoopByLoop.dijkstra (fun _ => true) (openGrid 2 2) (0, 0) (1, 1) "instant" false
      = Some (g', V, log1) /\
    LoopByLoop.dijkstra (fun _ => true) (openGrid 2 2) (0, 0) (1, 1) "slow" false
      = Some (g', V, log2) /\
    length V = 4 /\ log1 <> log2.
Proof.
  assert (wf_grid (openGrid 2 2)) as Hwf by apply makeGrid_wf.
  assert (inBounds (openGrid 2 2) (0, 0)) as Hs by (by apply inBounds_compute).
  split; [done|]. split; [done|].
  destruct (instant_and_animated_agree (fun _ => true) (openGrid 2 2) (0, 0) (1, 1)
              "slow" false Hwf Hs)
    as ((g1 & V1 & log1 & g2 & V2 & log2 & H1 & H2 & HV & Hg & _) & _).
  exists g1, V1, log1, log2. subst g2 V2. split; [exact H1|]. split; [exact H2|].
  vm_compute in H1, H2. simplify_eq. split; [reflexivity|]. discriminate.
Defined.

(** * Walls in a run *)

Section WallsOfARun.
Variable hasElement : pos -> bool.
Variable g0 : Grid.
Variable s t : pos.
Variable key : Node -> num.
Variable sortNodes : Grid -> list pos -> list pos.
Variable relax : pos -> Grid -> Grid.
Hypothesis key_visited : forall b n, key (set_isVisited b n) = key n.
Hypothesis sort_perm : forall g Q, sortNodes g Q ≡ₚ Q.
Hypothesis relax_ok : forall g1 u d,
  wf_grid g1 -> inBounds g1 u -> distance (cell g1 u) = Num d ->
  relaxes key g1 u d (relax u g1).


End WallsOfARun.

Section WallsOfTheEngines.
Variable hasElement : pos -> bool.
Variable grid : Grid.
Variable s t : pos.
Hypothesis grid_wf : wf_grid grid.
Hypothesis s_in : inBounds grid s.






End WallsOfTheEngines.




